(** * safe-expr-eval: tokenizer, recursive-descent evaluator and facade

    A shallow embedding of [src/tokenizer.ts], [src/evaluator.ts],
    [src/parser.ts] and [src/types.ts], followed by the properties proved
    about them.

    Conventions of the embedding.
    - A JavaScript string is a sequence of UTF-16 code units; the embedding
      covers the code units below 256 and writes the code unit [n] as the
      character [ascii_of_nat n].
    - A JavaScript Number is an IEEE 754 binary64 value, taken from the
      axiom-free specification [spec_float] of the standard library at
      precision 53 and maximal exponent 1024.
    - An object used as a dictionary ([Values], [Record<string, ...>]) is
      a plain object: the finite map of its own entries, with
      [Object.prototype] as its prototype. [name in object] holds for the
      names of its entries and for the names that it inherits from
      [Object.prototype] (such as [toString]), as the language defines
      that object. An inherited member is a function or an object, which
      is no value of the embedding: an evaluation that reads one has the
      outcome [Inherited], and the embedding does not follow it
      further. *)

From Stdlib Require Import ZArith Ascii String List Bool Lia.
From Stdlib Require Import Floats.SpecFloat Sorting.Sorted.
From stdpp Require Import gmap strings list.

(** ** The host language: numbers, character classes and conversions *)

Module JS.

Local Open Scope Z_scope.

Definition prec : Z := 53.
Definition emax : Z := 1024.

Abbreviation number := spec_float.

Definition NaN : number := S754_nan.
Definition Infinity : number := S754_infinity false.
Definition zero : number := S754_zero false.

(** The binary64 value nearest to the integer [z]. *)
Definition ofZ (z : Z) : number := binary_normalize prec emax z 0 false.

Definition add : number -> number -> number := SFadd prec emax.
Definition sub : number -> number -> number := SFsub prec emax.
Definition mul : number -> number -> number := SFmul prec emax.
Definition div : number -> number -> number := SFdiv prec emax.
Definition neg : number -> number := SFopp.

(** [n % d]: the remainder of the truncating division, with the sign of
    the dividend; it is always representable, so no rounding occurs. *)
Definition rem (n d : number) : number :=
  match n, d with
  | S754_nan, _ | _, S754_nan => NaN
  | S754_infinity _, _ => NaN
  | _, S754_zero _ => NaN
  | _, S754_infinity _ => n
  | S754_zero _, _ => n
  | S754_finite sn mn en, S754_finite _ md ed =>
      let e := Z.min en ed in
      let r := Z.rem (Z.shiftl (Zpos mn) (en - e)) (Z.shiftl (Zpos md) (ed - e)) in
      binary_normalize prec emax (if sn then - r else r) e sn
  end.

Definition eqb : number -> number -> bool := SFeqb.
Definition ltb : number -> number -> bool := SFltb.
Definition leb : number -> number -> bool := SFleb.

Definition isNaN (x : number) : bool :=
  match x with S754_nan => true | _ => false end.

(** *** Character classes of the regular expressions in the source *)

Definition code (c : ascii) : nat := nat_of_ascii c.

Definition between (lo hi : nat) (c : ascii) : bool :=
  (lo <=? code c)%nat && (code c <=? hi)%nat.

(** [/[0-9]/] *)
Definition isDigit (c : ascii) : bool := between 48 57 c.

(** [/[a-zA-Z]/] *)
Definition isLetter (c : ascii) : bool := between 97 122 c || between 65 90 c.

(** [/\s/], and the characters removed by [String.prototype.trim]: tab,
    line feed, vertical tab, form feed, carriage return, space and the
    no-break space. *)
Definition isWhiteSpace (c : ascii) : bool :=
  between 9 13 c || (code c =? 32)%nat || (code c =? 160)%nat.

Definition digitValue (c : ascii) : Z := Z.of_nat (code c) - 48.

Fixpoint dropWhile {A} (p : A -> bool) (l : list A) : list A :=
  match l with
  | [] => []
  | x :: l' => if p x then dropWhile p l' else l
  end.

Definition trimStart (cs : list ascii) : list ascii := dropWhile isWhiteSpace cs.
Definition trimEnd (cs : list ascii) : list ascii := rev (trimStart (rev cs)).
Definition trim (cs : list ascii) : list ascii := trimEnd (trimStart cs).

(** *** Decimal literals *)

(** The correctly rounded value of [m * 10 ^ e10], [m >= 0]. *)
Definition ofDecimal (negative : bool) (m e10 : Z) : number :=
  match m with
  | Zpos p =>
      if 0 <=? e10
      then binary_normalize prec emax
             (if negative then - (m * 10 ^ e10) else m * 10 ^ e10) 0 negative
      else div (S754_finite negative p 0)
               (S754_finite false (Z.to_pos (10 ^ (- e10))) 0)
  | _ => S754_zero negative
  end.

(** Reads a maximal run of decimal digits: the accumulated value, the
    number of digits read and the rest of the input. *)
Fixpoint digits (cs : list ascii) (acc : Z) (count : nat) : Z * nat * list ascii :=
  match cs with
  | c :: cs' =>
      if isDigit c then digits cs' (10 * acc + digitValue c) (S count)
      else (acc, count, cs)
  | [] => (acc, count, cs)
  end.

(** [ExponentPart]: [e] or [E], an optional sign and at least one digit;
    when that is not what follows, nothing is consumed. *)
Definition exponentPart (cs : list ascii) : Z * list ascii :=
  match cs with
  | c :: cs1 =>
      if (code c =? 101)%nat || (code c =? 69)%nat then
        let '(negative, cs2) :=
          match cs1 with
          | s :: cs2 =>
              if (code s =? 45)%nat then (true, cs2)
              else if (code s =? 43)%nat then (false, cs2)
              else (false, cs1)
          | [] => (false, cs1)
          end in
        match digits cs2 0 0 with
        | (_, O, _) => (0, cs)
        | (e, _, rest) => ((if negative then - e else e), rest)
        end
      else (0, cs)
  | [] => (0, cs)
  end.

Definition Infinity_spelling : list ascii := list_ascii_of_string "Infinity".

Fixpoint stripPrefix (p cs : list ascii) : option (list ascii) :=
  match p, cs with
  | [], _ => Some cs
  | a :: p', c :: cs' => if Ascii.eqb a c then stripPrefix p' cs' else None
  | _ :: _, [] => None
  end.

(** The longest prefix of [cs] that is a [StrUnsignedDecimalLiteral],
    with its value and the rest of the input. *)
Definition unsignedDecimalLiteral (negative : bool) (cs : list ascii)
  : option (number * list ascii) :=
  match stripPrefix Infinity_spelling cs with
  | Some rest => Some (S754_infinity negative, rest)
  | None =>
      let '(int, nint, cs1) := digits cs 0 0 in
      let '(mant, nfrac, cs2) :=
        match cs1 with
        | dot :: cs1' =>
            if (code dot =? 46)%nat then
              match digits cs1' int 0 with
              | (m, nfrac, cs2) =>
                  if (nint =? 0)%nat && (nfrac =? 0)%nat then (int, O, cs1)
                  else (m, nfrac, cs2)
              end
            else (int, O, cs1)
        | [] => (int, O, cs1)
        end in
      if (nint =? 0)%nat && (nfrac =? 0)%nat then None
      else
        let '(e, rest) := exponentPart cs2 in
        Some (ofDecimal negative mant (e - Z.of_nat nfrac), rest)
  end.

(** [StrDecimalLiteral]: an optional sign and an unsigned literal. *)
Definition decimalLiteral (cs : list ascii) : option (number * list ascii) :=
  match cs with
  | s :: cs' =>
      if (code s =? 45)%nat then unsignedDecimalLiteral true cs'
      else if (code s =? 43)%nat then unsignedDecimalLiteral false cs'
      else unsignedDecimalLiteral false cs
  | [] => None
  end.

(** The global [parseFloat]: leading white space is skipped, the longest
    prefix that is a decimal literal is converted, and [NaN] is returned
    when there is no such prefix. *)
Definition parseFloat (s : string) : number :=
  match decimalLiteral (trimStart (list_ascii_of_string s)) with
  | Some (v, _) => v
  | None => NaN
  end.

(** *** [ToNumber] on strings, as used by loose equality *)

Definition radixDigit (radix : Z) (c : ascii) : option Z :=
  let v :=
    if isDigit c then digitValue c
    else if between 97 102 c then Z.of_nat (code c) - 87
    else if between 65 70 c then Z.of_nat (code c) - 55
    else radix in
  if v <? radix then Some v else None.

Fixpoint radixDigits (radix : Z) (cs : list ascii) (acc : Z) : option Z :=
  match cs with
  | [] => Some acc
  | c :: cs' =>
      match radixDigit radix c with
      | Some v => radixDigits radix cs' (radix * acc + v)
      | None => None
      end
  end.

Definition nonDecimalIntegerLiteral (cs : list ascii) : option number :=
  match cs with
  | z :: x :: (_ :: _) as ds =>
      if (code z =? 48)%nat then
        let radix :=
          if (code x =? 120)%nat || (code x =? 88)%nat then Some 16
          else if (code x =? 111)%nat || (code x =? 79)%nat then Some 8
          else if (code x =? 98)%nat || (code x =? 66)%nat then Some 2
          else None in
        match radix with
        | Some r =>
            match radixDigits r ds 0 with
            | Some v => Some (ofZ v)
            | None => Some NaN
            end
        | None => None
        end
      else None
  | _ => None
  end.

(** [StringToNumber]: white space is trimmed on both sides; the empty
    string is [+0]; the whole remainder has to be a numeric literal. *)
Definition StringToNumber (s : string) : number :=
  match trim (list_ascii_of_string s) with
  | [] => zero
  | cs =>
      match nonDecimalIntegerLiteral cs with
      | Some v => v
      | None =>
          match decimalLiteral cs with
          | Some (v, []) => v
          | _ => NaN
          end
      end
  end.

(** The names of the properties of [Object.prototype] (ECMAScript,
    Properties of the Object Prototype Object, with its legacy accessor
    methods): every plain object inherits them. *)
Definition objectPrototype : list string :=
  ["constructor"; "hasOwnProperty"; "isPrototypeOf"; "propertyIsEnumerable";
   "toLocaleString"; "toString"; "valueOf"; "__proto__"; "__defineGetter__";
   "__defineSetter__"; "__lookupGetter__"; "__lookupSetter__"]%string.

(** [name in object] on a plain object that has no entry for [name]. *)
Definition inPrototype (name : string) : bool :=
  existsb (String.eqb name) objectPrototype.
Global Arguments inPrototype : simpl never.

End JS.

(** ** types.ts *)

Inductive TokenType : Set :=
  | NUMBER | STRING | BOOLEAN | IDENTIFIER | OPERATOR
  | PAREN_OPEN | PAREN_CLOSE | FUNCTION | COMMA | EOF.

Global Instance TokenType_eq_dec : EqDecision TokenType.
Proof. solve_decision. Defined.

(** The values that flow through an evaluation. [VNull] and [VUndefined]
    can only enter through the caller's variables or the result of a
    registered function; they take the fall-through branches of [toBool]
    and [toNumber]. Objects and functions as values are not covered. *)
Inductive Value : Type :=
  | VNumber (n : JS.number)
  | VString (s : string)
  | VBoolean (b : bool)
  | VNull
  | VUndefined.

Module Token.
Record t : Type := mk { type : TokenType; value : Value; position : nat }.
End Token.
Abbreviation Token := Token.t.

(** [Values]: the variables of an evaluation, by name. *)
Abbreviation Values := (gmap string Value).

(** ** tokenizer.ts *)

Module Tokenizer.

(** The scanner state. [pending] holds [input.slice(position)] of the
    trimmed input, so [currentChar] is its first character. *)
Record t : Type := mk { pending : list ascii; position : nat }.

(** The diagnostic that [console.warn] prints for a skipped character. *)
Record warning : Type := Unknown_character { at_position : nat; char : ascii }.

Definition new (input : string) : t :=
  {| pending := JS.trim (list_ascii_of_string input); position := 0 |}.

Definition currentChar (s : t) : option ascii := head (pending s).

Definition advance (s : t) : t :=
  {| pending := tail (pending s); position := S (position s) |}.

Definition peek (s : t) : option ascii := pending s !! 1%nat.

Definition isCode (c : ascii) (n : nat) : bool := (JS.code c =? n)%nat.

(** [/[0-9.]/] *)
Definition isNumberChar (c : ascii) : bool := JS.isDigit c || isCode c 46.
(** [/[a-zA-Z_]/] *)
Definition isIdentifierStart (c : ascii) : bool := JS.isLetter c || isCode c 95.
(** [/[a-zA-Z0-9_.]/] *)
Definition isIdentifierChar (c : ascii) : bool :=
  JS.isLetter c || JS.isDigit c || isCode c 95 || isCode c 46.
(** [/[+\-*/%<>=!]/] *)
Definition isOperatorChar (c : ascii) : bool :=
  isCode c 43 || isCode c 45 || isCode c 42 || isCode c 47 || isCode c 37
  || isCode c 60 || isCode c 62 || isCode c 61 || isCode c 33.

Definition snoc (s : string) (c : ascii) : string := s +:+ String c EmptyString.

Fixpoint skipWhitespace_from (cs : list ascii) (pos : nat) : t :=
  match cs with
  | c :: cs' =>
      if JS.isWhiteSpace c then skipWhitespace_from cs' (S pos) else mk cs pos
  | [] => mk cs pos
  end.

Definition skipWhitespace (s : t) : t :=
  skipWhitespace_from (pending s) (position s).

Fixpoint number_from (cs : list ascii) (numStr : string) (pos : nat) : string * t :=
  match cs with
  | c :: cs' =>
      if isNumberChar c then number_from cs' (snoc numStr c) (S pos)
      else (numStr, mk cs pos)
  | [] => (numStr, mk cs pos)
  end.

Definition number (s : t) : Token * t :=
  let startPos := position s in
  let '(numStr, s') := number_from (pending s) EmptyString (position s) in
  (Token.mk NUMBER (VNumber (JS.parseFloat numStr)) startPos, s').

(** The loop of [string()]; [quote] is the character the literal opened
    with ([None] stands for [null], had [string()] been entered at the end
    of the input). *)
Fixpoint string_from (quote : option ascii) (cs : list ascii) (strValue : string)
  (pos : nat) : string * t :=
  match cs with
  | c :: cs' =>
      if bool_decide (Some c = quote) then (strValue, mk cs pos)
      else if isCode c 92 then
        match cs' with
        | e :: cs'' => string_from quote cs'' (snoc strValue e) (S (S pos))
        | [] => (strValue, mk cs' (S pos))
        end
      else string_from quote cs' (snoc strValue c) (S pos)
  | [] => (strValue, mk cs pos)
  end.

Definition string (s : t) : Token * t :=
  let startPos := position s in
  let quote := currentChar s in
  let s1 := advance s in
  let '(strValue, s2) := string_from quote (pending s1) EmptyString (position s1) in
  let s3 := if bool_decide (currentChar s2 = quote) then advance s2 else s2 in
  (Token.mk STRING (VString strValue) startPos, s3).

Fixpoint identifier_from (cs : list ascii) (idStr : String.string) (pos : nat)
  : String.string * t :=
  match cs with
  | c :: cs' =>
      if isIdentifierChar c then identifier_from cs' (snoc idStr c) (S pos)
      else (idStr, mk cs pos)
  | [] => (idStr, mk cs pos)
  end.

Definition identifier (s : t) : Token * t :=
  let startPos := position s in
  let '(idStr, s') := identifier_from (pending s) EmptyString (position s) in
  if String.eqb idStr "true" || String.eqb idStr "false"
  then (Token.mk BOOLEAN (VBoolean (String.eqb idStr "true")) startPos, s')
  else (Token.mk IDENTIFIER (VString idStr) startPos, s').

(** [operator()]; [opStr] starts as the current character, on which the
    main loop has just tested the operator class. *)
Definition operator (c : ascii) (s : t) : Token * t :=
  let startPos := position s in
  let fused :=
    match peek s with
    | Some nextChar =>
        if (isCode c 61 || isCode c 33 || isCode c 62 || isCode c 60) && isCode nextChar 61
        then Some nextChar else None
    | None => None
    end in
  match fused with
  | Some nextChar =>
      (Token.mk OPERATOR (VString (String c (String nextChar EmptyString))) startPos,
       advance (advance s))
  | None => (Token.mk OPERATOR (VString (String c EmptyString)) startPos, advance s)
  end.

Definition lastType (tokens : list Token) : option TokenType :=
  Token.type <$> last tokens.

(** The test that guards the fusion of [-] with the digits after it. *)
Definition startsNegativeNumber (s : t) (tokens : list Token) : bool :=
  match currentChar s, peek s with
  | Some c, Some d =>
      isCode c 45 && JS.isDigit d
      && match lastType tokens with
         | None | Some PAREN_OPEN | Some OPERATOR | Some COMMA => true
         | Some _ => false
         end
  | _, _ => false
  end.

Definition negate (tok : Token) : Token :=
  match Token.value tok with
  | VNumber n => Token.mk (Token.type tok) (VNumber (JS.neg n)) (Token.position tok)
  | _ => tok
  end.

(** One pass through the body of the main loop, entered after white
    space has been skipped, on the character [c = currentChar]. *)
Definition scan (c : ascii) (s : t) (tokens : list Token) (log : list warning)
  : t * list Token * list warning :=
  if JS.isDigit c then
    let '(tok, s') := number s in (s', tokens ++ [tok], log)
  else if startsNegativeNumber s tokens then
    let '(numToken, s') := number (advance s) in
    (s', tokens ++ [negate numToken], log)
  else if isCode c 34 || isCode c 39 then
    let '(tok, s') := string s in (s', tokens ++ [tok], log)
  else if isIdentifierStart c then
    let '(tok, s') := identifier s in (s', tokens ++ [tok], log)
  else if isCode c 40 then
    (advance s, tokens ++ [Token.mk PAREN_OPEN (VString "(") (position s)], log)
  else if isCode c 41 then
    (advance s, tokens ++ [Token.mk PAREN_CLOSE (VString ")") (position s)], log)
  else if isCode c 44 then
    (advance s, tokens ++ [Token.mk COMMA (VString ",") (position s)], log)
  else if isOperatorChar c then
    let '(tok, s') := operator c s in (s', tokens ++ [tok], log)
  else
    (advance s, tokens, log ++ [Unknown_character (position s) c]).

(** The main loop. Every pass consumes at least one character, so the
    number of pending characters is enough fuel ([loop_spec]). *)
Fixpoint loop (fuel : nat) (s : t) (tokens : list Token) (log : list warning)
  : option (t * list Token * list warning) :=
  match currentChar s with
  | None => Some (s, tokens, log)
  | Some _ =>
      match fuel with
      | O => None
      | S fuel' =>
          let s1 := skipWhitespace s in
          match currentChar s1 with
          | None => Some (s1, tokens, log)
          | Some c =>
              let '(s2, tokens', log') := scan c s1 tokens log in
              loop fuel' s2 tokens' log'
          end
      end
  end.

Definition run (input : String.string) : option (list Token * list warning) :=
  let s := new input in
  match loop (length (pending s)) s [] [] with
  | Some (s', tokens, log) =>
      Some (tokens ++ [Token.mk EOF (VString EmptyString) (position s')], log)
  | None => None
  end.

Definition tokenize (input : String.string) : option (list Token) :=
  fst <$> run input.

(** The end of the input, as seen from a scanner state. *)
Definition extent (s : t) : nat := (position s + length (pending s))%nat.

(** What the main loop appends: never the end marker, and a string for
    every identifier. *)
Definition scanned (tok : Token) : Prop :=
  Token.type tok ≠ EOF
  ∧ (Token.type tok = IDENTIFIER → ∃ name, Token.value tok = VString name).

End Tokenizer.

(** ** evaluator.ts *)

(** What an evaluation can throw. *)
Inductive error : Type :=
  | Undefined_variable (name : string)
  | Undefined_function (name : string)
  | Unexpected_token (type : TokenType) (position : nat)
  | Unknown_operator (op : string)
  (** a property is read on [tokens[i]] with [i] out of range *)
  | TypeError_no_token
  (** a registered function threw *)
  | Host_error (message : string)
  (** the error of the facade, which wraps the cause *)
  | SafeExprEval (expression : string) (cause : error).

(** Where the embedding gives no answer: the fuel of a loop ran out, or an
    IDENTIFIER token carries a payload that is not a string, against the
    cast [token.value as string]. *)
Inductive gap : Set := OutOfFuel | NotAString.

(** Where the code leaves the values of the embedding. On a name of
    [Object.prototype] that the table has no entry for, [name in table]
    holds and the code does not throw: it goes on with the inherited
    member as the value of the variable, or calls the inherited method
    with the table as [this] (or fails with a [TypeError] when the member
    is not callable). The outcome [Inherited] marks that point: the
    state that comes with it is the state there, and the embedding says
    nothing of what the code does next. *)
Inductive inherited : Set :=
  | As_variable (name : string)
  | As_function (name : string).

Inductive outcome (A : Type) : Type :=
  | Ret (a : A)
  | Throw (e : error)
  | Gap (g : gap)
  | Inherited (i : inherited).
Global Arguments Ret {A} a.
Global Arguments Throw {A} e.
Global Arguments Gap {A} g.
Global Arguments Inherited {A} i.

(** A registered function: it receives the evaluated arguments, may read
    and change the state [W] of the host, and returns a value or throws. *)
Definition Callable (W : Type) : Type := list Value -> W -> (Value + string) * W.

Definition toBool (value : Value) : bool :=
  match value with
  | VBoolean b => b
  | VNumber n => negb (JS.eqb n JS.zero)
  | VString s => (0 <? String.length s)%nat
  | VNull | VUndefined => false
  end.

Definition toNumber (value : Value) : JS.number :=
  match value with
  | VNumber n => n
  | VBoolean b => if b then JS.ofZ 1 else JS.ofZ 0
  | VString s => let num := JS.parseFloat s in if JS.isNaN num then JS.ofZ 0 else num
  | VNull | VUndefined => JS.ofZ 0
  end.

(** [left == right] on the values of the embedding (IsLooselyEqual). *)
Definition looseEq (left right : Value) : bool :=
  let ofBool (b : bool) := if b then JS.ofZ 1 else JS.ofZ 0 in
  match left, right with
  | VNumber x, VNumber y => JS.eqb x y
  | VString x, VString y => String.eqb x y
  | VBoolean x, VBoolean y => Bool.eqb x y
  | (VNull | VUndefined), (VNull | VUndefined) => true
  | (VNull | VUndefined), _ | _, (VNull | VUndefined) => false
  | VNumber x, VString y => JS.eqb x (JS.StringToNumber y)
  | VString x, VNumber y => JS.eqb (JS.StringToNumber x) y
  | VBoolean x, VNumber y => JS.eqb (ofBool x) y
  | VBoolean x, VString y => JS.eqb (ofBool x) (JS.StringToNumber y)
  | VNumber x, VBoolean y => JS.eqb x (ofBool y)
  | VString x, VBoolean y => JS.eqb (JS.StringToNumber x) (ofBool y)
  end.

Definition compare (left : Value) (op : string) (right : Value) : outcome Value :=
  if String.eqb op "==" then Ret (VBoolean (looseEq left right))
  else if String.eqb op "!=" then Ret (VBoolean (negb (looseEq left right)))
  else if String.eqb op ">" then Ret (VBoolean (JS.ltb (toNumber right) (toNumber left)))
  else if String.eqb op "<" then Ret (VBoolean (JS.ltb (toNumber left) (toNumber right)))
  else if String.eqb op ">=" then Ret (VBoolean (JS.leb (toNumber right) (toNumber left)))
  else if String.eqb op "<=" then Ret (VBoolean (JS.leb (toNumber left) (toNumber right)))
  else Throw (Unknown_operator op).

Definition isComparisonOperator (op : string) : bool :=
  String.eqb op "==" || String.eqb op "!=" || String.eqb op ">"
  || String.eqb op "<" || String.eqb op ">=" || String.eqb op "<=".

(** [token.value === spelling] *)
Definition spelled (spelling : string) (token : Token) : bool :=
  match Token.value token with VString s => String.eqb s spelling | _ => false end.

(** [token.type === type && token.value === spelling] *)
Definition tokenIs (type : TokenType) (spelling : string) (token : Token) : bool :=
  bool_decide (Token.type token = type) && spelled spelling token.

Module ExpressionEvaluator.
Section Evaluator.

Context {W : Type}.

(** The mutable part of an evaluator, and the state of the host that the
    registered functions act on. *)
Record state : Type := mk { currentTokenIndex : nat; host : W }.

Variable tokens : list Token.
Variable variables : Values.
Variable functions : gmap string (Callable W).

Definition M (A : Type) : Type := state -> outcome A * state.

Definition ret {A} (a : A) : M A := fun st => (Ret a, st).
Definition throw {A} (e : error) : M A := fun st => (Throw e, st).
Definition stuck {A} (g : gap) : M A := fun st => (Gap g, st).
Definition leaves {A} (i : inherited) : M A := fun st => (Inherited i, st).
Definition bind {A B} (m : M A) (k : A -> M B) : M B :=
  fun st =>
    match m st with
    | (Ret a, st') => k a st'
    | (Throw e, st') => (Throw e, st')
    | (Gap g, st') => (Gap g, st')
    | (Inherited i, st') => (Inherited i, st')
    end.
Definition lift {A} (o : outcome A) : M A := fun st => (o, st).

Local Notation "'let*' x ':=' m 'in' k" := (bind m (fun x => k))
  (at level 10, x name, m at level 100, k at level 200).

(** [tokens[currentTokenIndex]], [undefined] past the end. *)
Definition currentToken : M (option Token) :=
  fun st => (Ret (tokens !! currentTokenIndex st), st).

Definition consume : M (option Token) :=
  fun st => (Ret (tokens !! currentTokenIndex st),
             mk (S (currentTokenIndex st)) (host st)).

(** Reading [.type], [.value] or [.position] on the token just fetched. *)
Definition defined (m : M (option Token)) : M Token :=
  let* o := m in
  match o with
  | Some token => ret token
  | None => throw TypeError_no_token
  end.

(** [this.functions[functionName](...args)] *)
Definition call (f : Callable W) (args : list Value) : M Value :=
  fun st =>
    match f args (host st) with
    | (inl v, w) => (Ret v, mk (currentTokenIndex st) w)
    | (inr message, w) => (Throw (Host_error message), mk (currentTokenIndex st) w)
    end.

(** The loops [while (the current token is an operator of this level)
    { op = consume(); right = operand(); left = combine(op, left, right) }]
    of [parseOr], [parseAnd], [parseAdditive] and [parseMultiplicative]. *)
Fixpoint leftAssoc (continues : Token -> bool) (combine : Token -> Value -> Value -> Value)
  (operand : M Value) (fuel : nat) (left : Value) : M Value :=
  match fuel with
  | O => stuck OutOfFuel
  | S fuel' =>
      let* token := defined currentToken in
      if continues token then
        let* op := defined consume in
        let* right := operand in
        leftAssoc continues combine operand fuel' (combine op left right)
      else ret left
  end.

Section Levels.

(** [fuel] bounds the iterations of each loop below; [parseOr] is the
    re-entry into the lowest level from a parenthesis or an argument. *)
Variable fuel : nat.
Variable parseOr : M Value.

Fixpoint parseArguments (passes : nat) (args : list Value) : M (list Value) :=
  match passes with
  | O => stuck OutOfFuel
  | S passes' =>
      let* token := defined currentToken in
      if negb (bool_decide (Token.type token = PAREN_CLOSE))
         && negb (bool_decide (Token.type token = EOF))
      then
        let* arg := parseOr in
        let* token := defined currentToken in
        let* _ := (if bool_decide (Token.type token = COMMA) then consume else ret None) in
        parseArguments passes' (args ++ [arg])
      else ret args
  end.

Definition parseFunctionCall (functionName : string) : M Value :=
  let* _ := consume in
  let* args := parseArguments fuel [] in
  let* token := defined currentToken in
  let* _ := (if bool_decide (Token.type token = PAREN_CLOSE) then consume else ret None) in
  match functions !! functionName with
  | Some f => call f args
  | None =>
      if JS.inPrototype functionName then leaves (As_function functionName)
      else throw (Undefined_function functionName)
  end.

Definition parsePrimary : M Value :=
  let* token := defined currentToken in
  match Token.type token with
  | NUMBER | STRING | BOOLEAN =>
      let* _ := consume in
      ret (Token.value token)
  | PAREN_OPEN =>
      let* _ := consume in
      let* value := parseOr in
      let* closing := defined currentToken in
      let* _ := (if bool_decide (Token.type closing = PAREN_CLOSE) then consume else ret None) in
      ret value
  | IDENTIFIER =>
      match Token.value token with
      | VString name =>
          let* _ := consume in
          let* next := defined currentToken in
          if bool_decide (Token.type next = PAREN_OPEN) then parseFunctionCall name
          else
            match variables !! name with
            | Some v => ret v
            | None =>
                if JS.inPrototype name then leaves (As_variable name)
                else throw (Undefined_variable name)
            end
      | _ => stuck NotAString
      end
  | _ => throw (Unexpected_token (Token.type token) (Token.position token))
  end.

Definition isMultiplicative (token : Token) : bool :=
  bool_decide (Token.type token = OPERATOR)
  && (spelled "*" token || spelled "/" token || spelled "%" token).

Definition multiplicative (op : Token) (left right : Value) : Value :=
  if spelled "*" op then VNumber (JS.mul (toNumber left) (toNumber right))
  else if spelled "/" op then VNumber (JS.div (toNumber left) (toNumber right))
  else VNumber (JS.rem (toNumber left) (toNumber right)).

Definition parseMultiplicative : M Value :=
  let* left := parsePrimary in
  leftAssoc isMultiplicative multiplicative parsePrimary fuel left.

Definition isAdditive (token : Token) : bool :=
  tokenIs OPERATOR "+" token || tokenIs OPERATOR "-" token.

Definition additive (op : Token) (left right : Value) : Value :=
  if spelled "+" op then VNumber (JS.add (toNumber left) (toNumber right))
  else VNumber (JS.sub (toNumber left) (toNumber right)).

Definition parseAdditive : M Value :=
  let* left := parseMultiplicative in
  leftAssoc isAdditive additive parseMultiplicative fuel left.

Definition parseComparison : M Value :=
  let* left := parseAdditive in
  let* token := defined currentToken in
  match Token.type token, Token.value token with
  | OPERATOR, VString op =>
      if isComparisonOperator op then
        let* _ := consume in
        let* right := parseAdditive in
        lift (compare left op right)
      else ret left
  | _, _ => ret left
  end.

Fixpoint parseNot (depth : nat) : M Value :=
  match depth with
  | O => stuck OutOfFuel
  | S depth' =>
      let* token := defined currentToken in
      if tokenIs IDENTIFIER "not" token then
        let* _ := consume in
        let* operand := parseNot depth' in
        ret (VBoolean (negb (toBool operand)))
      else parseComparison
  end.

Definition logicalAnd (_ : Token) (left right : Value) : Value :=
  VBoolean (toBool left && toBool right).

Definition parseAnd : M Value :=
  let* left := parseNot fuel in
  leftAssoc (tokenIs IDENTIFIER "and") logicalAnd (parseNot fuel) fuel left.

Definition logicalOr (_ : Token) (left right : Value) : Value :=
  VBoolean (toBool left || toBool right).

Definition parseOr_body : M Value :=
  let* left := parseAnd in
  leftAssoc (tokenIs IDENTIFIER "or") logicalOr parseAnd fuel left.

End Levels.

(** [parseOr], by recursion on fuel: one unit for each nesting (a
    parenthesis or an argument list) and for each pass of a loop. One
    more than the number of tokens left is always enough
    ([parseOr_enough_fuel]). *)
Fixpoint parseOr (fuel : nat) : M Value :=
  match fuel with
  | O => stuck OutOfFuel
  | S fuel' => parseOr_body fuel (parseOr fuel')
  end.

Definition evaluate : M Value := parseOr (S (length tokens)).

(** [new ExpressionEvaluator(tokens, variables, functions).evaluate()] *)
Definition run (w : W) : outcome Value * state := evaluate (mk 0 w).

(** The state after [consume()]. *)
Definition consumed (st : state) : state :=
  mk (S (currentTokenIndex st)) (host st).

(** The tokens left from the cursor on. *)
Definition remaining (st : state) : nat := (length tokens - currentTokenIndex st)%nat.

(** An IDENTIFIER token is typed when its payload is a string. *)
Definition typed (tok : Token) : Prop :=
  Token.type tok = IDENTIFIER → ∃ name, Token.value tok = VString name.

(** [fine d r st]: the result [r] of a run from [st] is not out of fuel,
    is stuck only on an untyped token, and when it returns it has
    consumed at least [d] tokens. *)
Definition fine {A} (d : nat) (r : outcome A * state) (st : state) : Prop :=
  match r.1 with
  | Ret _ => (remaining r.2 + d ≤ remaining st)%nat
  | Throw _ | Inherited _ => True
  | Gap g => g = NotAString ∧ ¬ Forall typed tokens
  end.

Definition safe {A} (R : nat) (p : M A) : Prop :=
  ∀ st, (remaining st < R)%nat → fine 1 (p st) st.

End Evaluator.
End ExpressionEvaluator.

(** ** parser.ts: the facade, and the standalone helpers of evaluator.ts *)

Module Parser.
Section Facade.

Context {W : Type}.

Record t : Type := mk { functions : gmap string (Callable W); consts : Values }.

(** [new Parser()] *)
Definition new : t := mk ∅ ∅.

(** [parse(expression).evaluate(variables)]; the variables are optional
    and default to the empty object. *)
Definition parse (self : t) (expression : string) (variables : option Values) (w : W)
  : outcome Value * W :=
  if String.eqb expression EmptyString then (Ret (VBoolean true), w)
  else
    let allVars := default ∅ variables ∪ consts self in
    match Tokenizer.tokenize expression with
    | Some tokens =>
        match ExpressionEvaluator.run tokens allVars (functions self) w with
        | (Ret v, st) => (Ret v, ExpressionEvaluator.host st)
        | (Throw e, st) => (Throw (SafeExprEval expression e), ExpressionEvaluator.host st)
        | (Gap g, st) => (Gap g, ExpressionEvaluator.host st)
        | (Inherited i, st) => (Inherited i, ExpressionEvaluator.host st)
        end
    | None => (Gap OutOfFuel, w)
    end.

Definition evaluate (self : t) (expression : string) (variables : option Values) (w : W)
  : outcome Value * W :=
  parse self expression variables w.

End Facade.
Global Arguments t : clear implicits.
End Parser.

(** The standalone helpers run with the empty function table, so no
    registered function is ever called and the host has no state. *)
Definition evaluate (expression : string) (variables : option Values) : outcome Value :=
  match Tokenizer.tokenize expression with
  | Some tokens =>
      (ExpressionEvaluator.run (W := unit) tokens (default ∅ variables) ∅ tt).1
  | None => Gap OutOfFuel
  end.

(** [compile] tokenizes when it is called; the function it returns only
    runs a new evaluator over the tokens it closed over. *)
Definition compile (expression : string) : option Values -> outcome Value :=
  match Tokenizer.tokenize expression with
  | Some tokens =>
      fun variables =>
        (ExpressionEvaluator.run (W := unit) tokens (default ∅ variables) ∅ tt).1
  | None => fun _ => Gap OutOfFuel
  end.

(** ** The grammar of arithmetic expressions

    The parse trees of the standard grammar, in which the multiplicative
    operators bind tighter than the additive ones and both associate to
    the left:
<<
      Additive       ::= Multiplicative | Additive ("+" | "-") Multiplicative
      Multiplicative ::= Primary | Multiplicative ("*" | "/" | "%") Primary
      Primary        ::= literal | "(" Additive ")"
>>
    [parses level ts e] says that the tokens [ts] derive the tree [e] at
    that level, and [denote e] is the value of the tree. *)

Inductive binop : Set := Add | Sub | Mul | Div | Mod.

Inductive aexp : Type :=
  | Lit (v : Value)
  | Bin (op : binop) (l r : aexp).

Definition apply (op : binop) (x y : JS.number) : JS.number :=
  match op with
  | Add => JS.add x y
  | Sub => JS.sub x y
  | Mul => JS.mul x y
  | Div => JS.div x y
  | Mod => JS.rem x y
  end.

Fixpoint denote (e : aexp) : Value :=
  match e with
  | Lit v => v
  | Bin op l r => VNumber (apply op (toNumber (denote l)) (toNumber (denote r)))
  end.

Definition isLiteral (tok : Token) : bool :=
  match Token.type tok with
  | NUMBER | STRING | BOOLEAN => true
  | _ => false
  end.

Definition multiplicativeOp (tok : Token) : option binop :=
  if bool_decide (Token.type tok = OPERATOR) then
    if spelled "*" tok then Some Mul
    else if spelled "/" tok then Some Div
    else if spelled "%" tok then Some Mod
    else None
  else None.

Definition additiveOp (tok : Token) : option binop :=
  if bool_decide (Token.type tok = OPERATOR) then
    if spelled "+" tok then Some Add
    else if spelled "-" tok then Some Sub
    else None
  else None.

Inductive level : Set := Primary | Multiplicative | Additive.

Inductive parses : level → list Token → aexp → Prop :=
  | parses_literal tok :
      isLiteral tok = true →
      parses Primary [tok] (Lit (Token.value tok))
  | parses_parenthesis opening ts closing e :
      Token.type opening = PAREN_OPEN →
      parses Additive ts e →
      Token.type closing = PAREN_CLOSE →
      parses Primary (opening :: ts ++ [closing]) e
  | parses_primary ts e :
      parses Primary ts e →
      parses Multiplicative ts e
  | parses_multiplicative ts1 tok ts2 op l r :
      parses Multiplicative ts1 l →
      multiplicativeOp tok = Some op →
      parses Primary ts2 r →
      parses Multiplicative (ts1 ++ tok :: ts2) (Bin op l r)
  | parses_term ts e :
      parses Multiplicative ts e →
      parses Additive ts e
  | parses_additive ts1 tok ts2 op l r :
      parses Additive ts1 l →
      additiveOp tok = Some op →
      parses Multiplicative ts2 r →
      parses Additive (ts1 ++ tok :: ts2) (Bin op l r).

(** The arguments of a call: arithmetic expressions, each followed by a
    comma or by nothing. *)
Inductive arguments : list Token → list aexp → Prop :=
  | arguments_nil : arguments [] []
  | arguments_cons ts e separator rest es :
      parses Additive ts e →
      Forall (λ tok, Token.type tok = COMMA) separator →
      (length separator ≤ 1)%nat →
      arguments rest es →
      arguments (ts ++ separator ++ rest) (e :: es).

(** A token at which every loop of the evaluator stops. *)
Definition quiet (tok : Token) : bool :=
  negb (bool_decide (Token.type tok = OPERATOR))
  && negb (bool_decide (Token.type tok = IDENTIFIER)).


(** What it means for the evaluator to follow a derivation [parses level
    ts e], wherever [ts] sits in the token list: at the primary level
    [parsePrimary] returns the value of [e]; at the two levels above, the
    first operand and the passes of the loop made so far amount to the
    loop entered with the value of [e] as its left operand. *)
Section Follows.

Context {W : Type}.
Variable tokens : list Token.
Variable variables : Values.
Variable functions : gmap string (Callable W).

Import ExpressionEvaluator.

Local Abbreviation parseOr := (parseOr tokens variables functions).
Local Abbreviation parsePrimary n := (parsePrimary tokens variables functions (S n) (parseOr n)).
Local Abbreviation parseMultiplicative n :=
  (parseMultiplicative tokens variables functions (S n) (parseOr n)).
Local Abbreviation parseAdditive n :=
  (parseAdditive tokens variables functions (S n) (parseOr n)).

Definition follows (lvl : level) (ts : list Token) (e : aexp) : Prop :=
  ∀ n pre post (w : W),
    tokens = pre ++ ts ++ post → (length ts ≤ n)%nat →
    match lvl with
    | Primary =>
        parsePrimary n (mk (length pre) w)
        = (Ret (denote e), mk (length pre + length ts) w)
    | Multiplicative =>
        ∃ k, (k < length ts)%nat ∧
          parseMultiplicative n (mk (length pre) w)
          = leftAssoc tokens isMultiplicative multiplicative (parsePrimary n) (S n - k)
              (denote e) (mk (length pre + length ts) w)
    | Additive =>
        (∃ next post', post = next :: post' ∧ isMultiplicative next = false) →
        ∃ k, (k < length ts)%nat ∧
          parseAdditive n (mk (length pre) w)
          = leftAssoc tokens isAdditive additive (parseMultiplicative n) (S n - k)
              (denote e) (mk (length pre + length ts) w)
    end.

End Follows.

(** ** Inputs used in the statements below *)

(** The Number value of an integer. *)
Definition num (z : Z) : Value := VNumber (JS.ofZ z).

(** [quoted s] is the expression text of the string literal [s], written
    with double quotes. *)
Definition quoted (s : string) : string :=
  String "034" (s +:+ String "034" EmptyString).

Definition tokens_2_plus_3_times_4 : list Token :=
  [Token.mk NUMBER (num 2) 0; Token.mk OPERATOR (VString "+") 2;
   Token.mk NUMBER (num 3) 4; Token.mk OPERATOR (VString "*") 6;
   Token.mk NUMBER (num 4) 8; Token.mk EOF (VString EmptyString) 9].

Definition tokens_true_eq_1 : list Token :=
  [Token.mk BOOLEAN (VBoolean true) 0; Token.mk OPERATOR (VString "==") 5;
   Token.mk NUMBER (num 1) 8; Token.mk EOF (VString EmptyString) 9].

Definition tokens_true_or_x : list Token :=
  [Token.mk BOOLEAN (VBoolean true) 0; Token.mk IDENTIFIER (VString "or") 5;
   Token.mk IDENTIFIER (VString "x") 8; Token.mk EOF (VString EmptyString) 9].

Definition tokens_false_and_x : list Token :=
  [Token.mk BOOLEAN (VBoolean false) 0; Token.mk IDENTIFIER (VString "and") 6;
   Token.mk IDENTIFIER (VString "x") 10; Token.mk EOF (VString EmptyString) 11].

Definition tokens_0_or_a : list Token :=
  [Token.mk NUMBER (num 0) 0; Token.mk IDENTIFIER (VString "or") 2;
   Token.mk STRING (VString "a") 5; Token.mk EOF (VString EmptyString) 8].

Definition tokens_2_and_3 : list Token :=
  [Token.mk NUMBER (num 2) 0; Token.mk IDENTIFIER (VString "and") 2;
   Token.mk NUMBER (num 3) 6; Token.mk EOF (VString EmptyString) 7].

Definition tokens_true_or_f_1 : list Token :=
  [Token.mk BOOLEAN (VBoolean true) 0; Token.mk IDENTIFIER (VString "or") 5;
   Token.mk IDENTIFIER (VString "f") 8; Token.mk PAREN_OPEN (VString "(") 9;
   Token.mk NUMBER (num 1) 10; Token.mk PAREN_CLOSE (VString ")") 11;
   Token.mk EOF (VString EmptyString) 12].

Definition tokens_1_lt_2_lt_3 : list Token :=
  [Token.mk NUMBER (num 1) 0; Token.mk OPERATOR (VString "<") 2;
   Token.mk NUMBER (num 2) 4; Token.mk OPERATOR (VString "<") 6;
   Token.mk NUMBER (num 3) 8; Token.mk EOF (VString EmptyString) 9].

Definition tokens_f_1_2 : list Token :=
  [Token.mk IDENTIFIER (VString "f") 0; Token.mk PAREN_OPEN (VString "(") 1;
   Token.mk NUMBER (num 1) 2; Token.mk NUMBER (num 2) 4;
   Token.mk PAREN_CLOSE (VString ")") 5; Token.mk EOF (VString EmptyString) 6].

(** A host whose state is the list of the argument lists its function has
    been called with; the function returns [result]. *)
Definition recording (result : Value) : Callable (list (list Value)) :=
  fun args calls => (inl result, calls ++ [args]).

(** ** Notions the further properties are stated with *)

Module Lexeme.
Import Tokenizer.

(** The scanner state [k] characters further on. *)
Definition forward (k : nat) (s : t) : t :=
  mk (drop k (pending s)) (position s + k).

(** [s] is a state of the scanner over [input]: what is pending is the
    input from the position on. *)
Definition reads (input : list ascii) (s : t) : Prop :=
  pending s = drop (position s) input ∧ (position s ≤ length input)%nat.

(** The characters a token of each type starts with in the main loop. *)
Definition opens (type : TokenType) (c : ascii) : bool :=
  match type with
  | NUMBER => JS.isDigit c
  | STRING => isCode c 34 || isCode c 39
  | BOOLEAN | IDENTIFIER => isIdentifierStart c
  | PAREN_OPEN => isCode c 40
  | PAREN_CLOSE => isCode c 41
  | COMMA => isCode c 44
  | OPERATOR => isOperatorChar c
  | FUNCTION | EOF => false
  end.

(** A character that starts no token and is no white space. *)
Definition unknown (c : ascii) : bool :=
  negb (JS.isWhiteSpace c) && negb (JS.isDigit c) && negb (isCode c 34 || isCode c 39)
  && negb (isIdentifierStart c) && negb (isCode c 40) && negb (isCode c 41)
  && negb (isCode c 44) && negb (isOperatorChar c).

(** The spellings of the operator tokens. *)
Definition operators : list String.string :=
  ["+"; "-"; "*"; "/"; "%"; "<"; ">"; "="; "!"; "=="; "!="; ">="; "<="]%string.

(** A name as [identifier()] reads it: a letter or an underscore, then
    letters, digits, underscores and dots. *)
Definition isWord (cs : list ascii) : bool :=
  match cs with
  | c :: cs' => isIdentifierStart c && forallb isIdentifierChar cs'
  | [] => false
  end.

(** The payload of a token fits its type. *)
Definition wellformed (tok : Token) : Prop :=
  match Token.type tok, Token.value tok with
  | NUMBER, VNumber n => JS.isNaN n = false
  | STRING, VString _ => True
  | BOOLEAN, VBoolean _ => True
  | IDENTIFIER, VString name =>
      isWord (list_ascii_of_string name) = true ∧ name ≠ "true"%string ∧ name ≠ "false"%string
  | OPERATOR, VString op => op ∈ operators
  | PAREN_OPEN, VString s => s = "("%string
  | PAREN_CLOSE, VString s => s = ")"%string
  | COMMA, VString s => s = ","%string
  | EOF, VString s => s = EmptyString
  | _, _ => False
  end.

(** A token of the main loop sits in [input] at its position, on a
    character that opens its type. *)
Definition placed (input : list ascii) (tok : Token) : Prop :=
  ∃ c, input !! Token.position tok = Some c ∧ opens (Token.type tok) c = true.

(** A warning names a character of [input] that starts no token. *)
Definition warned (input : list ascii) (w : warning) : Prop :=
  input !! at_position w = Some (char w) ∧ unknown (char w) = true.

(** The [k] characters of [input] from the position [p] on. *)
Definition slice (input : list ascii) (p k : nat) : list ascii := take k (drop p input).

(** No character of the class [isChar] stands at [p]: a run of such
    characters that ends before [p] cannot be made longer. *)
Definition ends (isChar : ascii → bool) (input : list ascii) (p : nat) : Prop :=
  ∀ c, input !! p = Some c → isChar c = false.

(** The first characters of the operators of two characters. *)
Definition isComparisonStart (c : ascii) : bool :=
  isCode c 61 || isCode c 33 || isCode c 62 || isCode c 60.

(** The payload of a token is the text at its position: the longest run
    of digits and dots read as a number (negated when the minus sign
    before it was fused with it), the longest run of name characters,
    an operator of two characters where the text has one. *)
Definition spelt (input : list ascii) (tok : Token) : Prop :=
  match Token.type tok, Token.value tok with
  | NUMBER, VNumber n =>
      ∃ run,
        slice input (Token.position tok) (length run) = run
        ∧ forallb isNumberChar run = true
        ∧ ends isNumberChar input (Token.position tok + length run)
        ∧ (n = JS.parseFloat (string_of_list_ascii run)
           ∨ (n = JS.neg (JS.parseFloat (string_of_list_ascii run))
              ∧ ∃ q, Token.position tok = S q ∧ input !! q = Some "-"%char))
  | BOOLEAN, VBoolean b =>
      slice input (Token.position tok) (if b then 4 else 5)
      = list_ascii_of_string (if b then "true" else "false")
      ∧ ends isIdentifierChar input (Token.position tok + (if b then 4 else 5))
  | IDENTIFIER, VString name =>
      slice input (Token.position tok) (String.length name) = list_ascii_of_string name
      ∧ ends isIdentifierChar input (Token.position tok + String.length name)
  | OPERATOR, VString op =>
      slice input (Token.position tok) (String.length op) = list_ascii_of_string op
      ∧ ∀ c, op = String c EmptyString → isComparisonStart c = true →
             ends (λ d, isCode d 61) input (Token.position tok + 1)
  | _, _ => True
  end.

(** The text of a string literal with the value [body]: a backslash
    before every quote of the literal's kind and before every backslash. *)
Fixpoint escape (quote : ascii) (body : list ascii) : list ascii :=
  match body with
  | c :: body' =>
      if Ascii.eqb c quote || isCode c 92
      then "092"%char :: c :: escape quote body'
      else c :: escape quote body'
  | [] => []
  end.

(** The token that [identifier()] makes of the characters it has read. *)
Definition wordToken (idStr : String.string) (pos : nat) : Token :=
  if String.eqb idStr "true" || String.eqb idStr "false"
  then Token.mk BOOLEAN (VBoolean (String.eqb idStr "true")) pos
  else Token.mk IDENTIFIER (VString idStr) pos.

(** The expression text of the string literal with the value [body]. *)
Definition literal (quote : ascii) (body : String.string) : String.string :=
  string_of_list_ascii (quote :: escape quote (list_ascii_of_string body) ++ [quote]).

(** What one pass of the main loop does from the state [s], on the
    character [c]: it moves forward, and either skips [c] with a warning
    or appends one token that starts within the characters it passes. *)
Definition pass (c : ascii) (s s' : t) (tokens tokens' : list Token)
  (log log' : list warning) : Prop :=
  ∃ k, (1 ≤ k ≤ length (pending s))%nat ∧ s' = forward k s
    ∧ ((tokens' = tokens ∧ log' = log ++ [Unknown_character (position s) c]
        ∧ (JS.isWhiteSpace c = false → unknown c = true))
       ∨ (log' = log ∧ ∃ tok j d,
            tokens' = tokens ++ [tok]
            ∧ Token.position tok = (position s + j)%nat ∧ (j < k)%nat
            ∧ pending s !! j = Some d ∧ opens (Token.type tok) d = true
            ∧ wellformed tok)).

(** The invariant of the main loop that places every token and every
    warning in [input]. *)
Definition layout (input : list ascii) (s : t) (tokens : list Token)
  (log : list warning) : Prop :=
  reads input s
  ∧ Forall (λ tok, placed input tok ∧ wellformed tok) tokens
  ∧ Forall (warned input) log
  ∧ StronglySorted lt (Token.position <$> tokens)
  ∧ Forall (λ tok, Token.position tok < position s)%nat tokens.

End Lexeme.

(** The errors of an evaluation, and how far its cursor goes. *)
Module Cursor.
Section Cursor.

Context {W : Type}.
Variable tokens : list Token.
Variable variables : Values.
Variable functions : gmap string (Callable W).

Import ExpressionEvaluator.

(** The types of the tokens that [parsePrimary] rejects. *)
Definition rejected (type : TokenType) : bool :=
  match type with
  | NUMBER | STRING | BOOLEAN | PAREN_OPEN | IDENTIFIER => false
  | OPERATOR | PAREN_CLOSE | FUNCTION | COMMA | EOF => true
  end.

(** The errors that an evaluation over a list with an end marker throws:
    a name among the tokens that is no variable or, before a
    parenthesis, no function, and that [Object.prototype] does not
    define; a token that starts no primary expression; the error of a
    registered function. *)
Definition expected (e : error) : Prop :=
  match e with
  | Undefined_variable name =>
      variables !! name = None ∧ JS.inPrototype name = false
      ∧ ∃ tok, tok ∈ tokens ∧ Token.type tok = IDENTIFIER ∧ Token.value tok = VString name
  | Undefined_function name =>
      functions !! name = None ∧ JS.inPrototype name = false
      ∧ ∃ tok, tok ∈ tokens ∧ Token.type tok = IDENTIFIER ∧ Token.value tok = VString name
  | Unexpected_token type position =>
      rejected type = true
      ∧ ∃ tok, tok ∈ tokens ∧ Token.type tok = type ∧ Token.position tok = position
  | Host_error message =>
      ∃ name f args w w', functions !! name = Some f ∧ f args w = (inr message, w')
  | Unknown_operator _ | TypeError_no_token | SafeExprEval _ _ => False
  end.

(** The members of [Object.prototype] that an evaluation goes on with:
    a name among the tokens that the table has no entry for. *)
Definition found (i : inherited) : Prop :=
  match i with
  | As_variable name =>
      variables !! name = None ∧ JS.inPrototype name = true
      ∧ ∃ tok, tok ∈ tokens ∧ Token.type tok = IDENTIFIER ∧ Token.value tok = VString name
  | As_function name =>
      functions !! name = None ∧ JS.inPrototype name = true
      ∧ ∃ tok, tok ∈ tokens ∧ Token.type tok = IDENTIFIER ∧ Token.value tok = VString name
  end.

(** [kept k r st]: the run from [st] with the result [r] has moved the
    cursor forward, not beyond [k], and has thrown an expected error if
    any, or has found an inherited member under a name of the tokens. *)
Definition kept {A} (k : nat) (r : outcome A * @state W) (st : @state W) : Prop :=
  (currentTokenIndex st ≤ currentTokenIndex r.2 ≤ k)%nat
  ∧ match r.1 with
    | Throw e => expected e
    | Inherited i => found i
    | Ret _ | Gap _ => True
    end.

Definition keeps {A} (k : nat) (p : @M W A) : Prop :=
  ∀ st, (currentTokenIndex st ≤ k)%nat → kept k (p st) st.

End Cursor.
End Cursor.

(** Two evaluators over the same tokens, each with its own variables,
    functions and host. *)
Module Agreement.
Section Agreement.

Context {W1 W2 : Type}.
Variable tokens : list Token.
Variables variables1 variables2 : Values.
Variable functions1 : gmap string (Callable W1).
Variable functions2 : gmap string (Callable W2).

(** What the two hosts have in common. *)
Variable R : W1 → W2 → Prop.

Import ExpressionEvaluator.

(** [name] is the payload of an IDENTIFIER token. *)
Definition named (name : string) : Prop :=
  ∃ tok, tok ∈ tokens ∧ Token.type tok = IDENTIFIER ∧ Token.value tok = VString name.

(** Two functions answer alike on hosts that are alike. *)
Definition alike (f1 : Callable W1) (f2 : Callable W2) : Prop :=
  ∀ args w1 w2, R w1 w2 → (f1 args w1).1 = (f2 args w2).1 ∧ R (f1 args w1).2 (f2 args w2).2.

(** Two results agree: the same outcome, the same cursor, hosts alike. *)
Definition agree {A} (r1 : outcome A * @state W1) (r2 : outcome A * @state W2) : Prop :=
  r1.1 = r2.1
  ∧ currentTokenIndex r1.2 = currentTokenIndex r2.2
  ∧ R (host r1.2) (host r2.2).

Definition agrees {A} (p1 : @M W1 A) (p2 : @M W2 A) : Prop :=
  ∀ st1 st2,
    currentTokenIndex st1 = currentTokenIndex st2 → R (host st1) (host st2) →
    agree (p1 st1) (p2 st2).

End Agreement.
End Agreement.

(** The errors of an evaluation over the tokens of a text: what
    [Cursor.expected] says of them with what the tokenizer guarantees. *)
Definition reported (expression : string) (variables : Values) {W}
  (functions : gmap string (Callable W)) (e : error) : Prop :=
  match e with
  | Undefined_variable name =>
      variables !! name = None ∧ JS.inPrototype name = false
      ∧ Lexeme.isWord (list_ascii_of_string name) = true
  | Undefined_function name =>
      functions !! name = None ∧ JS.inPrototype name = false
      ∧ Lexeme.isWord (list_ascii_of_string name) = true
  | Unexpected_token type position =>
      type ∈ [OPERATOR; PAREN_CLOSE; COMMA; EOF]
      ∧ (position ≤ length (JS.trim (list_ascii_of_string expression)))%nat
  | Host_error message =>
      ∃ name f args w w', functions !! name = Some f ∧ f args w = (inr message, w')
  | Unknown_operator _ | TypeError_no_token | SafeExprEval _ _ => False
  end.

(** The members of [Object.prototype] that an evaluation with these
    tables goes on with: a name that the table has no entry for. *)
Definition inheritedFrom (variables : Values) {W}
  (functions : gmap string (Callable W)) (i : inherited) : Prop :=
  match i with
  | As_variable name => variables !! name = None ∧ JS.inPrototype name = true
  | As_function name => functions !! name = None ∧ JS.inPrototype name = true
  end.

(** ** The grammar of expressions

    The parse trees of the whole language, the token lists that derive
    them, and their meaning.
<<
      Disjunction ::= Conjunction | Disjunction "or" Conjunction
      Conjunction ::= Negation | Conjunction "and" Negation
      Negation    ::= Comparison | "not" Negation
      Comparison  ::= Sum | Sum ("==" | "!=" | ">" | "<" | ">=" | "<=") Sum
      Sum         ::= Product | Sum ("+" | "-") Product
      Product     ::= Atom | Product ("*" | "/" | "%") Atom
      Atom        ::= literal | name | name "(" Arguments [")"] | "(" Disjunction [")"]
      Arguments   ::= { Disjunction [","] }
>>
    A derivation [derives tier ts next e] also names the token [next]
    that follows [ts], since the evaluator decides on it where an
    expression ends: a closing parenthesis may be missing, and so may
    the commas between arguments. *)
Module Grammar.

Inductive operator : Type :=
  | Arithmetic (op : binop)
  | Comparing (op : string)
  | Both
  | Either.

#[warnings="-register-all"]
Inductive expr : Type :=
  | Literal (v : Value)
  | Name (name : string)
  | Call (name : string) (args : list expr)
  | Binary (o : operator) (l r : expr)
  | Negated (e : expr).

(** The value of an operator on the values of its operands. *)
Definition combine (o : operator) (x y : Value) : outcome Value :=
  match o with
  | Arithmetic op => Ret (VNumber (apply op (toNumber x) (toNumber y)))
  | Comparing op => compare x op y
  | Both => Ret (VBoolean (toBool x && toBool y))
  | Either => Ret (VBoolean (toBool x || toBool y))
  end.

Section Meaning.

Context {W : Type}.
Variable variables : Values.
Variable functions : gmap string (Callable W).

(** A computation on the host. *)
Definition H (A : Type) : Type := W → outcome A * W.

Definition andThen {A B} (m : H A) (k : A → H B) : H B :=
  fun w =>
    match m w with
    | (Ret a, w') => k a w'
    | (Throw e, w') => (Throw e, w')
    | (Gap g, w') => (Gap g, w')
    | (Inherited i, w') => (Inherited i, w')
    end.

Definition invoke (name : string) (args : list Value) : H Value :=
  fun w =>
    match functions !! name with
    | Some f =>
        match f args w with
        | (inl v, w') => (Ret v, w')
        | (inr message, w') => (Throw (Host_error message), w')
        end
    | None =>
        (if JS.inPrototype name then Inherited (As_function name)
         else Throw (Undefined_function name), w)
    end.

(** The meaning of a tree: the operands of an operator from left to
    right, both of them whatever the first one is; the arguments of a
    call from left to right, and only then the function. *)
Fixpoint eval (e : expr) : H Value :=
  match e with
  | Literal v => fun w => (Ret v, w)
  | Name name =>
      fun w =>
        (match variables !! name with
         | Some v => Ret v
         | None =>
             if JS.inPrototype name then Inherited (As_variable name)
             else Throw (Undefined_variable name)
         end, w)
  | Call name args =>
      andThen
        ((fix evals (es : list expr) : H (list Value) :=
            match es with
            | [] => fun w => (Ret [], w)
            | e :: es' =>
                andThen (eval e) (fun v =>
                andThen (evals es') (fun vs => fun w => (Ret (v :: vs), w)))
            end) args)
        (invoke name)
  | Binary o l r =>
      andThen (eval l) (fun x =>
      andThen (eval r) (fun y => fun w => (combine o x y, w)))
  | Negated e =>
      andThen (eval e) (fun x => fun w => (Ret (VBoolean (negb (toBool x))), w))
  end.

Fixpoint evals (es : list expr) : H (list Value) :=
  match es with
  | [] => fun w => (Ret [], w)
  | e :: es' =>
      andThen (eval e) (fun v =>
      andThen (evals es') (fun vs => fun w => (Ret (v :: vs), w)))
  end.

End Meaning.

Inductive tier : Set :=
  | atom | product | sum | comparison | negation | conjunction | disjunction.

(** The comparison operator that a token spells. *)
Definition comparisonOp (tok : Token) : option string :=
  match Token.type tok, Token.value tok with
  | OPERATOR, VString op => if isComparisonOperator op then Some op else None
  | _, _ => None
  end.

(** How a parenthesis is closed before [next]: by a closing parenthesis
    [c], or not at all, and then [c] is [next]. *)
Definition closes (closing : list Token) (c next : Token) : Prop :=
  (closing = [c] ∧ Token.type c = PAREN_CLOSE)
  ∨ (closing = [] ∧ c = next ∧ Token.type c ≠ PAREN_CLOSE).

Inductive derives : tier → list Token → Token → expr → Prop :=
  | derives_literal tok next :
      isLiteral tok = true →
      derives atom [tok] next (Literal (Token.value tok))
  | derives_name tok name next :
      Token.type tok = IDENTIFIER → Token.value tok = VString name →
      Token.type next ≠ PAREN_OPEN →
      derives atom [tok] next (Name name)
  | derives_group opening ts closing c next e :
      Token.type opening = PAREN_OPEN →
      derives disjunction ts c e →
      tokenIs IDENTIFIER "or" c = false →
      closes closing c next →
      derives atom (opening :: ts ++ closing) next e
  | derives_call ident name opening ats closing c next es :
      Token.type ident = IDENTIFIER → Token.value ident = VString name →
      Token.type opening = PAREN_OPEN →
      derives_arguments ats c es →
      closes closing c next →
      derives atom (ident :: opening :: ats ++ closing) next (Call name es)
  | derives_atom ts next e :
      derives atom ts next e →
      derives product ts next e
  | derives_product ts1 tok ts2 next op l r :
      derives product ts1 tok l →
      multiplicativeOp tok = Some op →
      derives atom ts2 next r →
      derives product (ts1 ++ tok :: ts2) next (Binary (Arithmetic op) l r)
  | derives_term ts next e :
      derives product ts next e →
      ExpressionEvaluator.isMultiplicative next = false →
      derives sum ts next e
  | derives_sum ts1 tok ts2 next op l r :
      derives sum ts1 tok l →
      additiveOp tok = Some op →
      derives product ts2 next r →
      ExpressionEvaluator.isMultiplicative next = false →
      derives sum (ts1 ++ tok :: ts2) next (Binary (Arithmetic op) l r)
  | derives_operand ts next e :
      derives sum ts next e →
      ExpressionEvaluator.isAdditive next = false →
      comparisonOp next = None →
      derives comparison ts next e
  | derives_comparison ts1 tok ts2 next op l r :
      derives sum ts1 tok l →
      comparisonOp tok = Some op →
      derives sum ts2 next r →
      ExpressionEvaluator.isAdditive next = false →
      derives comparison (ts1 ++ tok :: ts2) next (Binary (Comparing op) l r)
  | derives_plain ts next e :
      derives comparison ts next e →
      (∀ first, head ts = Some first → tokenIs IDENTIFIER "not" first = false) →
      derives negation ts next e
  | derives_not tok ts next e :
      tokenIs IDENTIFIER "not" tok = true →
      derives negation ts next e →
      derives negation (tok :: ts) next (Negated e)
  | derives_conjunct ts next e :
      derives negation ts next e →
      derives conjunction ts next e
  | derives_and ts1 tok ts2 next l r :
      derives conjunction ts1 tok l →
      tokenIs IDENTIFIER "and" tok = true →
      derives negation ts2 next r →
      derives conjunction (ts1 ++ tok :: ts2) next (Binary Both l r)
  | derives_disjunct ts next e :
      derives conjunction ts next e →
      tokenIs IDENTIFIER "and" next = false →
      derives disjunction ts next e
  | derives_or ts1 tok ts2 next l r :
      derives disjunction ts1 tok l →
      tokenIs IDENTIFIER "or" tok = true →
      derives conjunction ts2 next r →
      tokenIs IDENTIFIER "and" next = false →
      derives disjunction (ts1 ++ tok :: ts2) next (Binary Either l r)
with derives_arguments : list Token → Token → list expr → Prop :=
  | arguments_end c :
      Token.type c = PAREN_CLOSE ∨ Token.type c = EOF →
      derives_arguments [] c []
  | arguments_comma ts comma rest c e es :
      derives disjunction ts comma e →
      Token.type comma = COMMA →
      derives_arguments rest c es →
      derives_arguments (ts ++ comma :: rest) c (e :: es)
  | arguments_next ts rest c following e es :
      derives disjunction ts following e →
      tokenIs IDENTIFIER "or" following = false →
      Token.type following ≠ COMMA →
      head (rest ++ [c]) = Some following →
      derives_arguments rest c es →
      derives_arguments (ts ++ rest) c (e :: es).

Scheme derives_mutual := Minimality for derives Sort Prop
  with derives_arguments_mutual := Minimality for derives_arguments Sort Prop.

(** What it means for the evaluator to follow a derivation, wherever its
    tokens sit in the token list. *)
Section Following.

Context {W : Type}.
Variable tokens : list Token.
Variable variables : Values.
Variable functions : gmap string (Callable W).

Import ExpressionEvaluator.

(** Two results are the same answer: the same outcome and host, and the
    same cursor when the outcome is a value. *)
Definition same {A} (r1 r2 : outcome A * @state W) : Prop :=
  r1.1 = r2.1
  ∧ host r1.2 = host r2.2
  ∧ (∀ a, r1.1 = Ret a → currentTokenIndex r1.2 = currentTokenIndex r2.2).

(** The evaluator step that reads [len] tokens and computes [m]. *)
Definition reading {A} (m : H A) (len : nat) : @M W A :=
  fun st =>
    match m (host st) with
    | (o, w') => (o, mk (currentTokenIndex st + len) w')
    end.

Local Abbreviation parseOr := (parseOr tokens variables functions).
Local Abbreviation parsePrimary n := (parsePrimary tokens variables functions (S n) (parseOr n)).
Local Abbreviation parseMultiplicative n :=
  (parseMultiplicative tokens variables functions (S n) (parseOr n)).
Local Abbreviation parseAdditive n :=
  (parseAdditive tokens variables functions (S n) (parseOr n)).
Local Abbreviation parseComparison n :=
  (parseComparison tokens variables functions (S n) (parseOr n)).
Local Abbreviation parseNot n := (parseNot tokens variables functions (S n) (parseOr n)).
Local Abbreviation parseAnd n := (parseAnd tokens variables functions (S n) (parseOr n)).
Local Abbreviation meaning e := (eval variables functions e).

(** At the levels without a loop the evaluator reads the tokens and
    computes the meaning of the tree; at the levels with a loop, the
    first operand and the passes made so far amount to the loop entered
    with the value of the tree as its left operand. *)
Definition follows (t : tier) (ts : list Token) (next : Token) (e : expr) : Prop :=
  ∀ n pre post (w : W),
    tokens = pre ++ ts ++ next :: post → (length ts ≤ n)%nat →
    match t with
    | atom =>
        same (parsePrimary n (mk (length pre) w))
             (reading (meaning e) (length ts) (mk (length pre) w))
    | product =>
        ∃ k, (k < length ts)%nat ∧
          same (parseMultiplicative n (mk (length pre) w))
               (bind (reading (meaning e) (length ts))
                  (leftAssoc tokens isMultiplicative multiplicative (parsePrimary n) (S n - k))
                  (mk (length pre) w))
    | sum =>
        ∃ k, (k < length ts)%nat ∧
          same (parseAdditive n (mk (length pre) w))
               (bind (reading (meaning e) (length ts))
                  (leftAssoc tokens isAdditive additive (parseMultiplicative n) (S n - k))
                  (mk (length pre) w))
    | comparison =>
        same (parseComparison n (mk (length pre) w))
             (reading (meaning e) (length ts) (mk (length pre) w))
    | negation =>
        ∀ depth, (length ts ≤ depth)%nat →
          same (parseNot n depth (mk (length pre) w))
               (reading (meaning e) (length ts) (mk (length pre) w))
    | conjunction =>
        ∃ k, (k < length ts)%nat ∧
          same (parseAnd n (mk (length pre) w))
               (bind (reading (meaning e) (length ts))
                  (leftAssoc tokens (tokenIs IDENTIFIER "and") logicalAnd
                     (parseNot n (S n)) (S n - k))
                  (mk (length pre) w))
    | disjunction =>
        ∃ k, (k < length ts)%nat ∧
          same (parseOr (S n) (mk (length pre) w))
               (bind (reading (meaning e) (length ts))
                  (leftAssoc tokens (tokenIs IDENTIFIER "or") logicalOr (parseAnd n) (S n - k))
                  (mk (length pre) w))
    end.

(** The loop of [parseFunctionCall] appends the values of the arguments
    to those it has. *)
Definition follows_arguments (ats : list Token) (c : Token) (es : list expr) : Prop :=
  ∀ n pre post (w : W) passes args,
    tokens = pre ++ ats ++ c :: post → (length ats ≤ n)%nat → (length ats < passes)%nat →
    same (parseArguments tokens (parseOr (S n)) passes args (mk (length pre) w))
         (reading (andThen (evals variables functions es)
                     (fun vs => fun w' => (Ret (args ++ vs), w')))
            (length ats) (mk (length pre) w)).

End Following.

End Grammar.

(** What an evaluator that returns has read: the tokens between two
    cursors, and the derivation they have at each level. *)
Module Acceptance.
Section Acceptance.

Context {W : Type}.
Variable tokens : list Token.

Import ExpressionEvaluator Grammar.

(** The tokens from the cursor [i] up to the cursor [j]. *)
Definition span (i j : nat) : list Token := take (j - i) (drop i tokens).

(** What the loop of a level leaves at the cursor. *)
Definition stops (t : tier) (next : Token) : Prop :=
  match t with
  | product => isMultiplicative next = false
  | sum => isAdditive next = false
  | conjunction => tokenIs IDENTIFIER "and" next = false
  | disjunction => tokenIs IDENTIFIER "or" next = false
  | atom | comparison | negation => True
  end.

(** [p] returns only after reading tokens that level [t] derives, and
    leaves the cursor on a token that ends the level. *)
Definition accepts (t : tier) (p : @M W Value) : Prop :=
  ∀ st v st', p st = (Ret v, st') →
    (currentTokenIndex st < currentTokenIndex st')%nat
    ∧ ∃ e, ∀ next, tokens !! currentTokenIndex st' = Some next →
        derives t (span (currentTokenIndex st) (currentTokenIndex st')) next e
        ∧ stops t next.

(** The tree of one more pass of a loop. *)
Definition grown (t : tier) (tok : Token) (l r : expr) : expr :=
  match t with
  | product =>
      match multiplicativeOp tok with
      | Some op => Binary (Arithmetic op) l r
      | None => l
      end
  | sum =>
      match additiveOp tok with
      | Some op => Binary (Arithmetic op) l r
      | None => l
      end
  | conjunction => Binary Both l r
  | disjunction => Binary Either l r
  | atom | comparison | negation => l
  end.

End Acceptance.
End Acceptance.

(** The tokens of [not a or f(1, 2) == 3] and the tree they derive. *)
Definition tokens_not_a_or_f_1_2_eq_3 : list Token :=
  [Token.mk IDENTIFIER (VString "not") 0; Token.mk IDENTIFIER (VString "a") 4;
   Token.mk IDENTIFIER (VString "or") 6; Token.mk IDENTIFIER (VString "f") 9;
   Token.mk PAREN_OPEN (VString "(") 10; Token.mk NUMBER (num 1) 11;
   Token.mk COMMA (VString ",") 12; Token.mk NUMBER (num 2) 14;
   Token.mk PAREN_CLOSE (VString ")") 15; Token.mk OPERATOR (VString "==") 17;
   Token.mk NUMBER (num 3) 20].

Definition tree_not_a_or_f_1_2_eq_3 : Grammar.expr :=
  Grammar.Binary Grammar.Either
    (Grammar.Negated (Grammar.Name "a"))
    (Grammar.Binary (Grammar.Comparing "==")
       (Grammar.Call "f" [Grammar.Literal (num 1); Grammar.Literal (num 2)])
       (Grammar.Literal (num 3))).

(** * Properties *)

Module TokenizerFacts.
Import Tokenizer.

Lemma skipWhitespace_from_spec cs pos :
  extent (skipWhitespace_from cs pos) = (pos + length cs)%nat
  ∧ (length (pending (skipWhitespace_from cs pos)) ≤ length cs)%nat.
Proof.
  revert pos; induction cs as [|c cs IH]; intros pos; cbn; [unfold extent; cbn; lia|].
  destruct (JS.isWhiteSpace c).
  - destruct (IH (S pos)) as [-> ?]. lia.
  - unfold extent; cbn; lia.
Qed.

Lemma number_from_spec cs numStr pos :
  extent (number_from cs numStr pos).2 = (pos + length cs)%nat
  ∧ (length (pending (number_from cs numStr pos).2) ≤ length cs)%nat.
Proof.
  revert numStr pos; induction cs as [|c cs IH]; intros numStr pos; cbn;
    [unfold extent; cbn; lia|].
  destruct (isNumberChar c).
  - destruct (IH (snoc numStr c) (S pos)) as [-> ?]. lia.
  - unfold extent; cbn; lia.
Qed.

Lemma identifier_from_spec cs idStr pos :
  extent (identifier_from cs idStr pos).2 = (pos + length cs)%nat
  ∧ (length (pending (identifier_from cs idStr pos).2) ≤ length cs)%nat.
Proof.
  revert idStr pos; induction cs as [|c cs IH]; intros idStr pos; cbn;
    [unfold extent; cbn; lia|].
  destruct (isIdentifierChar c).
  - destruct (IH (snoc idStr c) (S pos)) as [-> ?]. lia.
  - unfold extent; cbn; lia.
Qed.

Lemma string_from_spec quote cs strValue pos :
  extent (string_from quote cs strValue pos).2 = (pos + length cs)%nat
  ∧ (length (pending (string_from quote cs strValue pos).2) ≤ length cs)%nat.
Proof.
  remember (length cs) as n eqn:Hn.
  revert cs strValue pos Hn.
  induction n as [n IH] using lt_wf_ind; intros cs strValue pos ->.
  destruct cs as [|c cs]; cbn; [unfold extent; cbn; lia|].
  case_bool_decide; [unfold extent; cbn; lia|].
  destruct (isCode c 92).
  - destruct cs as [|e cs]; [unfold extent; cbn; lia|].
    destruct (IH (length cs) ltac:(cbn; lia) cs (snoc strValue e) (S (S pos)) eq_refl)
      as [-> ?]. cbn; lia.
  - destruct (IH (length cs) ltac:(cbn; lia) cs (snoc strValue c) (S pos) eq_refl)
      as [-> ?]. cbn; lia.
Qed.

Lemma advance_spec s c :
  currentChar s = Some c →
  extent (advance s) = extent s ∧ (length (pending (advance s)) < length (pending s))%nat.
Proof.
  unfold currentChar, extent, advance; destruct s as [[|c' cs] pos]; cbn; [done|].
  intros _; lia.
Qed.


Lemma number_spec s c :
  currentChar s = Some c → isNumberChar c = true →
  extent (number s).2 = extent s
  ∧ (length (pending (number s).2) < length (pending s))%nat
  ∧ Token.type (number s).1 = NUMBER.
Proof.
  unfold currentChar, number; destruct s as [[|c' cs] pos]; cbn; [done|].
  intros [= ->] ->.
  destruct (number_from cs (snoc EmptyString c) (S pos)) as [numStr s'] eqn:E.
  pose proof (number_from_spec cs (snoc EmptyString c) (S pos)) as H.
  rewrite E in H; cbn in *. unfold extent in *; cbn in *.
  repeat split; lia.
Qed.

Lemma number_type s : Token.type (number s).1 = NUMBER.
Proof. unfold number. by destruct (number_from _ _ _). Qed.

Lemma number_any s :
  extent (number s).2 = extent s
  ∧ (length (pending (number s).2) ≤ length (pending s))%nat.
Proof.
  unfold number.
  pose proof (number_from_spec (pending s) EmptyString (position s)) as H.
  destruct (number_from _ _ _) as [numStr s']; cbn in *. unfold extent at 2.
  split; lia.
Qed.

Lemma string_spec s c :
  currentChar s = Some c →
  extent (string s).2 = extent s
  ∧ (length (pending (string s).2) < length (pending s))%nat
  ∧ Token.type (string s).1 = STRING.
Proof.
  intros Hc. unfold string. rewrite Hc.
  destruct (advance_spec s c Hc) as [He Hl].
  pose proof (string_from_spec (Some c) (pending (advance s)) EmptyString
                (position (advance s))) as H.
  fold (extent (advance s)) in H.
  destruct (string_from _ _ _ _) as [strValue s2]. destruct H as [H1 H2].
  change ((strValue, s2).2) with s2 in *.
  case_bool_decide as Hq; cbn [fst snd Token.type].
  - destruct (advance_spec s2 c Hq) as [He' Hl']. repeat split; lia.
  - repeat split; lia.
Qed.

Lemma identifier_spec s c :
  currentChar s = Some c → isIdentifierChar c = true →
  extent (identifier s).2 = extent s
  ∧ (length (pending (identifier s).2) < length (pending s))%nat
  ∧ scanned (identifier s).1.
Proof.
  unfold currentChar, identifier; destruct s as [[|c' cs] pos]; cbn; [done|].
  intros [= ->] ->.
  destruct (identifier_from cs (snoc EmptyString c) (S pos)) as [idStr s'] eqn:E.
  pose proof (identifier_from_spec cs (snoc EmptyString c) (S pos)) as H.
  rewrite E in H; cbn in *.
  unfold extent in *; cbn in *.
  destruct (_ || _); cbn; (split; [lia|]);
    (split; [lia|]); split; cbn; try done; eauto.
Qed.

Lemma operator_spec s c :
  currentChar s = Some c →
  extent (operator c s).2 = extent s
  ∧ (length (pending (operator c s).2) < length (pending s))%nat
  ∧ Token.type (operator c s).1 = OPERATOR.
Proof.
  intros Hc. unfold operator.
  destruct (advance_spec s c Hc) as [He Hl].
  destruct (peek s) as [d|] eqn:Hp; [|cbn [fst snd Token.type]; repeat split; lia].
  destruct (_ && _); cbn [fst snd Token.type]; [|repeat split; lia].
  assert (currentChar (advance s) = Some d) as Hd.
  { unfold peek, currentChar, advance in *. destruct s as [[|? [|? ?]] ?]; by cbn in *. }
  destruct (advance_spec _ _ Hd). repeat split; lia.
Qed.

Lemma isIdentifierStart_Char c : isIdentifierStart c = true → isIdentifierChar c = true.
Proof.
  unfold isIdentifierStart, isIdentifierChar.
  destruct (JS.isLetter c), (JS.isDigit c), (isCode c 95), (isCode c 46); done.
Qed.

Lemma negate_type tok : Token.type (negate tok) = Token.type tok.
Proof. unfold negate. by destruct (Token.value tok). Qed.

Lemma scanned_by_type tok ty :
  Token.type tok = ty → ty ≠ EOF → ty ≠ IDENTIFIER → scanned tok.
Proof. intros <- ? ?. split; [done|]. intros ?; done. Qed.

(** One pass of the main loop consumes at least one character and appends
    at most one token, which is never the end marker. *)
Lemma scan_spec c s tokens log s' tokens' log' :
  currentChar s = Some c →
  scan c s tokens log = (s', tokens', log') →
  extent s' = extent s
  ∧ (length (pending s') < length (pending s))%nat
  ∧ ∃ new, tokens' = tokens ++ new ∧ Forall scanned new.
Proof.
  intros Hc. unfold scan.
  destruct (advance_spec s c Hc) as [Ha1 Ha2].
  destruct (JS.isDigit c) eqn:Hdigit.
  { destruct (number_spec s c Hc) as (? & ? & ?).
    { unfold isNumberChar. by rewrite Hdigit. }
    destruct (number s) as [tok s0]; intros [= <- <- <-].
    repeat split; [done..|]. exists [tok]; split; [done|].
    constructor; [|done]. by eapply scanned_by_type. }
  destruct (startsNegativeNumber s tokens).
  { pose proof (number_any (advance s)) as [? ?].
    pose proof (number_type (advance s)).
    destruct (number (advance s)) as [tok s0]; intros [= <- <- <-]; cbn in *.
    repeat split; [lia..|]. exists [negate tok]; split; [done|].
    constructor; [|done]. eapply scanned_by_type; [by rewrite negate_type|done..]. }
  destruct (isCode c 34 || isCode c 39).
  { destruct (string_spec s c Hc) as (? & ? & ?).
    destruct (string s) as [tok s0]; intros [= <- <- <-].
    repeat split; [done..|]. exists [tok]; split; [done|].
    constructor; [|done]. by eapply scanned_by_type. }
  destruct (isIdentifierStart c) eqn:Hid.
  { destruct (identifier_spec s c Hc (isIdentifierStart_Char _ Hid)) as (? & ? & ?).
    destruct (identifier s) as [tok s0]; intros [= <- <- <-].
    repeat split; [done..|]. exists [tok]; split; [done|]. by constructor. }
  destruct (isCode c 40).
  { intros [= <- <- <-]. repeat split; [done..|]. eexists [_]; split; [done|].
    constructor; [|done]. by eapply scanned_by_type. }
  destruct (isCode c 41).
  { intros [= <- <- <-]. repeat split; [done..|]. eexists [_]; split; [done|].
    constructor; [|done]. by eapply scanned_by_type. }
  destruct (isCode c 44).
  { intros [= <- <- <-]. repeat split; [done..|]. eexists [_]; split; [done|].
    constructor; [|done]. by eapply scanned_by_type. }
  destruct (isOperatorChar c).
  { destruct (operator_spec s c Hc) as (? & ? & ?).
    destruct (operator c s) as [tok s0]; intros [= <- <- <-].
    repeat split; [done..|]. exists [tok]; split; [done|].
    constructor; [|done]. by eapply scanned_by_type. }
  intros [= <- <- <-]. repeat split; [done..|]. exists []. by rewrite app_nil_r.
Qed.

(** The main loop never runs out of fuel once it has one unit for each
    pending character, and it stops at the end of the input. *)
Lemma loop_spec fuel : ∀ s tokens log,
  (length (pending s) ≤ fuel)%nat →
  Forall scanned tokens →
  ∃ s' tokens' log',
    loop fuel s tokens log = Some (s', tokens', log')
    ∧ Forall scanned tokens' ∧ pending s' = [] ∧ extent s' = extent s.
Proof.
  induction fuel as [|fuel IH]; intros s tokens log Hlen Hall.
  - destruct s as [[|c cs] pos]; cbn in *; [|lia]. by eexists _, _, _.
  - cbn. destruct (currentChar s) as [c0|] eqn:Hc0.
    2:{ exists s, tokens, log. repeat split; try done.
        unfold currentChar in Hc0. by destruct (pending s). }
    pose proof (skipWhitespace_from_spec (pending s) (position s)) as [He Hl].
    fold (skipWhitespace s) in He, Hl. fold (extent s) in He.
    destruct (currentChar (skipWhitespace s)) as [c|] eqn:Hc.
    2:{ eexists _, _, _. repeat split; try done.
        unfold currentChar in Hc. by destruct (pending (skipWhitespace s)). }
    destruct (scan c (skipWhitespace s) tokens log) as [[s2 tokens2] log2] eqn:Hscan.
    destruct (scan_spec _ _ _ _ _ _ _ Hc Hscan) as (He2 & Hl2 & new & -> & Hnew).
    destruct (IH s2 (tokens ++ new) log2) as (s' & tokens' & log' & -> & ? & ? & ?).
    { lia. } { by apply Forall_app. }
    eexists _, _, _. repeat split; try done. congruence.
Qed.

Lemma run_spec input :
  ∃ tokens log,
    run input = Some (tokens ++ [Token.mk EOF (VString EmptyString)
                                   (length (JS.trim (list_ascii_of_string input)))], log)
    ∧ Forall scanned tokens.
Proof.
  unfold run.
  destruct (loop_spec (length (pending (new input))) (new input) [] [])
    as (s' & tokens & log & -> & Hall & Hnil & Hext); [done..|].
  exists tokens, log. split; [|done].
  unfold extent in Hext. rewrite Hnil in Hext. cbn in Hext. rewrite Nat.add_0_r in Hext. by rewrite Hext.
Qed.

End TokenizerFacts.

Module NumberFacts.
Import JS.

Lemma iter_pos_invariant {A} (P : A → Prop) (f : A → A) :
  (∀ x, P x → P (f x)) → ∀ n x, P x → P (SpecFloat.iter_pos f n x).
Proof.
  intros Hf. induction n as [n IH|n IH|]; intros x Hx; cbn; auto.
Qed.

Lemma shr_1_nonneg mrs : (0 ≤ shr_m mrs)%Z → (0 ≤ shr_m (shr_1 mrs))%Z.
Proof. destruct mrs as [[|[p|p|]|p] r s]; cbn; lia. Qed.

Lemma shr_fexp_nonneg m e l :
  (0 ≤ m)%Z → (0 ≤ shr_m (shr_fexp prec emax m e l).1)%Z.
Proof.
  intros Hm. unfold shr_fexp, shr.
  assert (0 ≤ shr_m (shr_record_of_loc m l))%Z as H0 by (by destruct l as [|[]]).
  destruct (_ - e)%Z; cbn [fst]; try done.
  by apply (iter_pos_invariant (λ r, 0 ≤ shr_m r)%Z), H0; apply shr_1_nonneg.
Qed.

Lemma round_nearest_even_nonneg m l : (0 ≤ m)%Z → (0 ≤ round_nearest_even m l)%Z.
Proof. intros Hm. destruct l as [|[]]; cbn; try done; [destruct (Z.even m)|]; lia. Qed.

(** Rounding a non-negative mantissa never produces NaN. *)
Lemma binary_round_aux_not_NaN sx mx ex lx :
  (0 ≤ mx)%Z → isNaN (binary_round_aux prec emax sx mx ex lx) = false.
Proof.
  intros Hm. unfold binary_round_aux.
  pose proof (shr_fexp_nonneg mx ex lx Hm) as H1.
  destruct (shr_fexp prec emax mx ex lx) as [mrs' e']; cbn [fst] in H1.
  pose proof (shr_fexp_nonneg _ e' loc_Exact
                (round_nearest_even_nonneg _ (loc_of_shr_record mrs') H1)) as H2.
  destruct (shr_fexp prec emax _ e' loc_Exact) as [mrs'' e'']; cbn [fst] in H2.
  destruct (shr_m mrs''); [done| |lia]. by destruct (_ <=? _)%Z.
Qed.

Lemma ofDecimal_not_NaN negative m e10 : isNaN (ofDecimal negative m e10) = false.
Proof.
  unfold ofDecimal. destruct m as [|p|p]; try done.
  destruct (0 <=? e10)%Z eqn:He.
  - assert (0 < Z.pos p * 10 ^ e10)%Z as Hpos.
    { apply Z.mul_pos_pos; [lia|]. apply Z.pow_pos_nonneg; lia. }
    unfold binary_normalize.
    destruct negative.
    + destruct (- (Z.pos p * 10 ^ e10))%Z eqn:E; [done|lia|].
      unfold binary_round. destruct (shl_align _ _ _).
      by apply binary_round_aux_not_NaN.
    + destruct (Z.pos p * 10 ^ e10)%Z eqn:E; [done| |lia].
      unfold binary_round. destruct (shl_align _ _ _).
      by apply binary_round_aux_not_NaN.
  - unfold div, SFdiv, SFdiv_core_binary.
    set (m' := match _ with Z.pos _ => _ | _ => _ end).
    assert (0 ≤ m')%Z as Hm'.
    { subst m'. destruct (_ - _ - _)%Z; try lia. apply Z.shiftl_nonneg. lia. }
    assert (Z.pos (Z.to_pos (10 ^ (- e10))) > 0)%Z as Hden by lia.
    pose proof (Z_div_mod m' (Z.pos (Z.to_pos (10 ^ (- e10)))) Hden) as Hdiv.
    destruct (Z.div_eucl m' _) as [q r].
    apply binary_round_aux_not_NaN. nia.
Qed.

Lemma digits_count cs acc count :
  (count ≤ (digits cs acc count).1.2)%nat.
Proof.
  revert acc count. induction cs as [|c cs IH]; intros acc count; cbn; [done|].
  destruct (isDigit c); cbn; [|done]. specialize (IH (10 * acc + digitValue c)%Z (S count)). lia.
Qed.

(** A string that starts with a digit never parses to NaN. *)
Lemma parseFloat_digit_first d cs :
  isDigit d = true → isNaN (parseFloat (string_of_list_ascii (d :: cs))) = false.
Proof.
  intros Hd. unfold parseFloat. rewrite list_ascii_of_string_of_list_ascii.
  assert (48 ≤ code d ≤ 57)%nat as Hcode.
  { unfold isDigit, between in Hd. apply andb_true_iff in Hd as [H1 H2].
    apply Nat.leb_le in H1, H2. lia. }
  assert (trimStart (d :: cs) = d :: cs) as ->.
  { unfold trimStart; cbn. unfold isWhiteSpace, between.
    repeat match goal with
           | |- context [(?a <=? ?b)%nat] => destruct (Nat.leb_spec a b); try lia
           | |- context [(?a =? ?b)%nat] => destruct (Nat.eqb_spec a b); try lia
           end; done. }
  unfold decimalLiteral.
  destruct (Nat.eqb_spec (code d) 45); [lia|].
  destruct (Nat.eqb_spec (code d) 43); [lia|].
  unfold unsignedDecimalLiteral.
  assert (stripPrefix Infinity_spelling (d :: cs) = None) as ->.
  { change Infinity_spelling with ("I"%char :: list_ascii_of_string "nfinity"). cbn [stripPrefix].
    destruct (Ascii.eqb_spec "I"%char d) as [<-|]; [|done]. assert (code "I" = 73%nat) by reflexivity. lia. }
  pose proof (digits_count (d :: cs) 0 0) as Hcount. cbn in Hcount. cbn [digits].
  rewrite Hd in *.
  pose proof (digits_count cs (10 * 0 + digitValue d)%Z 1) as Hc1.
  destruct (digits cs _ 1) as [[int nint] cs1]; cbn in Hc1.
  destruct nint as [|nint]; [lia|].
  replace ((S nint =? 0)%nat) with false by done. cbn [andb].
  destruct cs1 as [|dot cs1']; [|destruct (code dot =? 46)%nat; [destruct (digits cs1' int 0) as [[m nfrac] cs2]|]];
    destruct (exponentPart _); apply ofDecimal_not_NaN.
Qed.

End NumberFacts.


Module NumberLiteralFacts.
Import Tokenizer.

Lemma append_String a s1 s2 : String a s1 +:+ s2 = String a (s1 +:+ s2).
Proof. done. Qed.

Lemma append_nil_r s : s +:+ EmptyString = s.
Proof. induction s as [|a s IH]; [done|]. by rewrite append_String, IH. Qed.

Lemma append_snoc acc c s : snoc acc c +:+ s = acc +:+ String c s.
Proof.
  unfold snoc. induction acc as [|a acc IH]; [done|]. by rewrite !append_String, IH.
Qed.

Lemma number_from_all cs : ∀ acc pos,
  Forall (λ c, isNumberChar c = true) cs →
  number_from cs acc pos
  = (acc +:+ string_of_list_ascii cs, mk [] (pos + length cs)).
Proof.
  induction cs as [|c cs IH]; intros acc pos Hall; cbn.
  - by rewrite Nat.add_0_r, append_nil_r.
  - apply Forall_cons_1 in Hall as [-> Hall].
    rewrite (IH _ _ Hall), append_snoc. do 2 f_equal. lia.
Qed.

Lemma isNumberChar_not_space c : isNumberChar c = true → JS.isWhiteSpace c = false.
Proof.
  unfold isNumberChar, JS.isDigit, JS.isWhiteSpace, JS.between, isCode.
  destruct (Nat.leb_spec 48 (JS.code c)), (Nat.leb_spec (JS.code c) 57),
    (Nat.eqb_spec (JS.code c) 46); cbn; intros ?; try done;
    destruct (Nat.leb_spec 9 (JS.code c)), (Nat.leb_spec (JS.code c) 13),
      (Nat.eqb_spec (JS.code c) 32), (Nat.eqb_spec (JS.code c) 160); cbn; try done; lia.
Qed.

Lemma dropWhile_head {A} (p : A → bool) x l :
  p x = false → JS.dropWhile p (x :: l) = x :: l.
Proof. cbn. by intros ->. Qed.

Lemma trim_number_chars cs :
  Forall (λ c, isNumberChar c = true) cs → JS.trim cs = cs.
Proof.
  intros Hall. unfold JS.trim, JS.trimEnd, JS.trimStart.
  assert (∀ l, Forall (λ c, isNumberChar c = true) l →
               JS.dropWhile JS.isWhiteSpace l = l) as Hdrop.
  { intros [|x l] Hl; [done|]. apply Forall_cons_1 in Hl as [Hx _].
    by apply dropWhile_head, isNumberChar_not_space. }
  rewrite (Hdrop cs Hall), (Hdrop (rev cs)); [apply rev_involutive|].
  by apply Forall_rev.
Qed.

(** A run of digits and dots that starts with a digit is one Number
    token: the value that [parseFloat] reads from its longest prefix
    that is a decimal literal, never NaN. *)
Lemma tokenize_number_run d cs :
  JS.isDigit d = true → Forall (λ c, isNumberChar c = true) cs →
  tokenize (string_of_list_ascii (d :: cs))
  = Some [Token.mk NUMBER (VNumber (JS.parseFloat (string_of_list_ascii (d :: cs)))) 0;
          Token.mk EOF (VString EmptyString) (S (length cs))].
Proof.
  intros Hd Hcs.
  assert (Forall (λ c, isNumberChar c = true) (d :: cs)) as Hall.
  { constructor; [|done]. unfold isNumberChar. by rewrite Hd. }
  unfold tokenize, run, new.
  rewrite list_ascii_of_string_of_list_ascii, (trim_number_chars _ Hall).
  cbn [pending length loop currentChar head].
  unfold skipWhitespace. cbn [pending position skipWhitespace_from].
  rewrite (isNumberChar_not_space d) by (unfold isNumberChar; by rewrite Hd).
  cbn [currentChar pending head]. unfold scan. rewrite Hd.
  unfold number. cbn [pending position].
  rewrite (number_from_all (d :: cs) EmptyString 0 Hall).
  cbn [length Nat.add]. by destruct (length cs).
Qed.

End NumberLiteralFacts.

(** ** Facts about the evaluator *)

Section EvaluatorFacts.

Import ExpressionEvaluator.

Context {W : Type}.
Variable tokens : list Token.
Variable variables : Values.
Variable functions : gmap string (Callable W).

Local Abbreviation state := (@state W).
Local Abbreviation currentToken := (currentToken (W := W) tokens).
Local Abbreviation consume := (consume (W := W) tokens).
Local Abbreviation leftAssoc := (leftAssoc (W := W) tokens).
Local Abbreviation parseOr := (parseOr tokens variables functions).
Local Abbreviation parsePrimary n := (parsePrimary tokens variables functions (S n) (parseOr n)).
Local Abbreviation parseArguments n := (parseArguments tokens (parseOr n)).
Local Abbreviation parseFunctionCall n :=
  (parseFunctionCall tokens functions (S n) (parseOr n)).
Local Abbreviation parseMultiplicative n :=
  (parseMultiplicative tokens variables functions (S n) (parseOr n)).
Local Abbreviation parseAdditive n :=
  (parseAdditive tokens variables functions (S n) (parseOr n)).
Local Abbreviation parseComparison n :=
  (parseComparison tokens variables functions (S n) (parseOr n)).
Local Abbreviation parseNot n := (parseNot tokens variables functions (S n) (parseOr n)).
Local Abbreviation parseAnd n := (parseAnd tokens variables functions (S n) (parseOr n)).
Local Abbreviation remaining := (remaining (W := W) tokens).
Local Abbreviation follows := (follows tokens variables functions).
Local Abbreviation typed := ExpressionEvaluator.typed.
Local Abbreviation fine d r st := (fine (W := W) tokens d r st).
Local Abbreviation safe R p := (safe (W := W) tokens R p).

Lemma bind_Ret {A B} (m : @M W A) (k : A → @M W B) st a st' :
  m st = (Ret a, st') → bind m k st = k a st'.
Proof. unfold bind. by intros ->. Qed.

Lemma bind_Throw {A B} (m : @M W A) (k : A → @M W B) st e st' :
  m st = (Throw e, st') → bind m k st = (Throw e, st').
Proof. unfold bind. by intros ->. Qed.

Lemma bind_Inherited {A B} (m : @M W A) (k : A → @M W B) st i st' :
  m st = (Inherited i, st') → bind m k st = (Inherited i, st').
Proof. unfold bind. by intros ->. Qed.

Lemma bind_Gap {A B} (m : @M W A) (k : A → @M W B) st g st' :
  m st = (Gap g, st') → bind m k st = (Gap g, st').
Proof. unfold bind. by intros ->. Qed.

Lemma defined_currentToken st tok :
  tokens !! currentTokenIndex st = Some tok →
  defined currentToken st = (Ret tok, st).
Proof. unfold defined, bind, ExpressionEvaluator.currentToken. by intros ->. Qed.

Lemma defined_currentToken_None st :
  tokens !! currentTokenIndex st = None →
  defined currentToken st = (Throw TypeError_no_token, st).
Proof. unfold defined, bind, ExpressionEvaluator.currentToken. by intros ->. Qed.

Lemma defined_consume st tok :
  tokens !! currentTokenIndex st = Some tok →
  defined consume st = (Ret tok, consumed st).
Proof. unfold defined, bind, ExpressionEvaluator.consume. by intros ->. Qed.

Lemma consume_eq st :
  consume st = (Ret (tokens !! currentTokenIndex st), consumed st).
Proof. done. Qed.

Lemma parseOr_S n : parseOr (S n) = parseOr_body tokens variables functions (S n) (parseOr n).
Proof. done. Qed.

Lemma leftAssoc_stop continues combine operand n left st tok :
  tokens !! currentTokenIndex st = Some tok → continues tok = false →
  leftAssoc continues combine operand (S n) left st = (Ret left, st).
Proof.
  intros Htok Hc. cbn [ExpressionEvaluator.leftAssoc].
  rewrite (bind_Ret _ _ _ _ _ (defined_currentToken _ _ Htok)). by rewrite Hc.
Qed.

Lemma leftAssoc_step continues combine operand n left st tok :
  tokens !! currentTokenIndex st = Some tok → continues tok = true →
  leftAssoc continues combine operand (S n) left st =
  bind operand (λ right, leftAssoc continues combine operand n (combine tok left right))
    (consumed st).
Proof.
  intros Htok Hc. cbn [ExpressionEvaluator.leftAssoc].
  rewrite (bind_Ret _ _ _ _ _ (defined_currentToken _ _ Htok)). rewrite Hc.
  by rewrite (bind_Ret _ _ _ _ _ (defined_consume _ _ Htok)).
Qed.

(** *** Operators of the two arithmetic levels *)

Lemma isMultiplicative_op tok op :
  multiplicativeOp tok = Some op →
  isMultiplicative tok = true
  ∧ ∀ l r, multiplicative tok l r = VNumber (apply op (toNumber l) (toNumber r)).
Proof.
  unfold multiplicativeOp, isMultiplicative, multiplicative.
  case_bool_decide; [|done].
  destruct (spelled "*" tok); [by intros [= <-]|].
  destruct (spelled "/" tok); [by intros [= <-]|].
  destruct (spelled "%" tok); [by intros [= <-]|done].
Qed.

Lemma isAdditive_op tok op :
  additiveOp tok = Some op →
  isAdditive tok = true
  ∧ ∀ l r, additive tok l r = VNumber (apply op (toNumber l) (toNumber r)).
Proof.
  unfold additiveOp, isAdditive, additive, tokenIs.
  case_bool_decide; [|done]. cbn [andb].
  destruct (spelled "+" tok); [by intros [= <-]|].
  destruct (spelled "-" tok); [by intros [= <-]|done].
Qed.

Lemma additiveOp_not_multiplicative tok op :
  additiveOp tok = Some op → isMultiplicative tok = false.
Proof.
  unfold additiveOp, isMultiplicative, spelled.
  case_bool_decide; [|done]. cbn [andb].
  destruct (Token.value tok) as [|v| | |]; try done.
  destruct (String.eqb_spec v "+") as [->|]; [done|].
  destruct (String.eqb_spec v "-") as [->|]; [done|done].
Qed.

Lemma quiet_spec tok :
  quiet tok = true →
  isMultiplicative tok = false ∧ isAdditive tok = false
  ∧ Token.type tok ≠ OPERATOR
  ∧ (∀ kw, tokenIs IDENTIFIER kw tok = false).
Proof.
  unfold quiet, isMultiplicative, isAdditive, tokenIs.
  by do 2 case_bool_decide.
Qed.

Lemma type_not_multiplicative tok :
  Token.type tok ≠ OPERATOR → isMultiplicative tok = false ∧ isAdditive tok = false.
Proof.
  intros H. unfold isMultiplicative, isAdditive, tokenIs. by case_bool_decide.
Qed.

(** *** Positions in a token list *)

Lemma lookup_after (pre ts post : list Token) tok :
  (pre ++ ts ++ tok :: post) !! (length pre + length ts)%nat = Some tok.
Proof. rewrite app_assoc. apply list_lookup_middle. by rewrite length_app. Qed.

Lemma lookup_first (pre post : list Token) tok :
  (pre ++ tok :: post) !! length pre = Some tok.
Proof. by apply list_lookup_middle. Qed.

Lemma parses_head lvl ts e :
  parses lvl ts e →
  ∃ tok ts', ts = tok :: ts' ∧ (isLiteral tok = true ∨ Token.type tok = PAREN_OPEN).
Proof.
  induction 1 as [tok ?|o ts c e ? ? ? ?| |ts1 tok ts2 op l r ? IH ? ? ?|
                  |ts1 tok ts2 op l r ? IH ? ? ?]; eauto.
  - destruct IH as (t & ts' & -> & ?). by eexists _, _.
  - destruct IH as (t & ts' & -> & ?). by eexists _, _.
Qed.

Lemma head_not_keyword tok kw :
  isLiteral tok = true ∨ Token.type tok = PAREN_OPEN →
  tokenIs IDENTIFIER kw tok = false
  ∧ Token.type tok ≠ PAREN_CLOSE ∧ Token.type tok ≠ EOF ∧ Token.type tok ≠ COMMA
  ∧ quiet tok = true.
Proof.
  unfold tokenIs, isLiteral, quiet.
  intros [H|H]; destruct (Token.type tok); try done.
Qed.

(** *** From the additive level back to the lowest one *)

(** When [parseAdditive] returns before a token that is not an operator,
    so does [parseNot]; when that token is not [and] either, so does
    [parseAnd]. *)
Lemma parseNot_of_parseAdditive n st v st' first next :
  tokens !! currentTokenIndex st = Some first →
  tokenIs IDENTIFIER "not" first = false →
  parseAdditive n st = (Ret v, st') →
  tokens !! currentTokenIndex st' = Some next →
  Token.type next ≠ OPERATOR →
  parseNot n (S n) st = (Ret v, st').
Proof.
  intros Hfirst Hnot Hadd Hnext Hop.
  assert (parseComparison n st = (Ret v, st')) as Hcmp.
  { unfold ExpressionEvaluator.parseComparison.
    rewrite (bind_Ret _ _ _ _ _ Hadd).
    rewrite (bind_Ret _ _ _ _ _ (defined_currentToken _ _ Hnext)).
    by destruct (Token.type next). }
  cbn [ExpressionEvaluator.parseNot].
  rewrite (bind_Ret _ _ _ _ _ (defined_currentToken _ _ Hfirst)).
  by rewrite Hnot.
Qed.

Lemma parseNot_of_parsePrimary_Throw n st e st' first :
  tokens !! currentTokenIndex st = Some first →
  tokenIs IDENTIFIER "not" first = false →
  parsePrimary n st = (Throw e, st') →
  parseNot n (S n) st = (Throw e, st').
Proof.
  intros Hfirst Hnot Hprim.
  cbn [ExpressionEvaluator.parseNot].
  rewrite (bind_Ret _ _ _ _ _ (defined_currentToken _ _ Hfirst)), Hnot.
  unfold ExpressionEvaluator.parseComparison, ExpressionEvaluator.parseAdditive,
    ExpressionEvaluator.parseMultiplicative.
  by do 3 apply bind_Throw.
Qed.

Lemma parseNot_of_parsePrimary_Inherited n st i st' first :
  tokens !! currentTokenIndex st = Some first →
  tokenIs IDENTIFIER "not" first = false →
  parsePrimary n st = (Inherited i, st') →
  parseNot n (S n) st = (Inherited i, st').
Proof.
  intros Hfirst Hnot Hprim.
  cbn [ExpressionEvaluator.parseNot].
  rewrite (bind_Ret _ _ _ _ _ (defined_currentToken _ _ Hfirst)), Hnot.
  unfold ExpressionEvaluator.parseComparison, ExpressionEvaluator.parseAdditive,
    ExpressionEvaluator.parseMultiplicative.
  by do 3 apply bind_Inherited.
Qed.

Lemma parseAnd_of_parseAdditive n st v st' first next :
  tokens !! currentTokenIndex st = Some first →
  tokenIs IDENTIFIER "not" first = false →
  parseAdditive n st = (Ret v, st') →
  tokens !! currentTokenIndex st' = Some next →
  Token.type next ≠ OPERATOR →
  tokenIs IDENTIFIER "and" next = false →
  parseAnd n st = (Ret v, st').
Proof.
  intros Hfirst Hnot Hadd Hnext Hop Hkw.
  unfold ExpressionEvaluator.parseAnd.
  rewrite (bind_Ret _ _ _ _ _
             (parseNot_of_parseAdditive _ _ _ _ _ _ Hfirst Hnot Hadd Hnext Hop)).
  by apply (leftAssoc_stop _ _ _ _ _ _ next).
Qed.

Lemma parseOr_of_parseAnd n st v st' next :
  parseAnd n st = (Ret v, st') →
  tokens !! currentTokenIndex st' = Some next →
  tokenIs IDENTIFIER "or" next = false →
  parseOr (S n) st = (Ret v, st').
Proof.
  intros Hand Hnext Hkw.
  rewrite parseOr_S. unfold parseOr_body.
  rewrite (bind_Ret _ _ _ _ _ Hand).
  by apply (leftAssoc_stop _ _ _ _ _ _ next).
Qed.

(** When [parseAdditive] returns before a quiet token, so does every
    level below it. *)
Lemma parseOr_of_parseAdditive n st v st' first next :
  tokens !! currentTokenIndex st = Some first →
  tokenIs IDENTIFIER "not" first = false →
  parseAdditive n st = (Ret v, st') →
  tokens !! currentTokenIndex st' = Some next →
  quiet next = true →
  parseOr (S n) st = (Ret v, st').
Proof.
  intros Hfirst Hnot Hadd Hnext Hquiet.
  destruct (quiet_spec _ Hquiet) as (_ & _ & Hop & Hkw).
  eapply parseOr_of_parseAnd; [|done|done].
  by eapply parseAnd_of_parseAdditive.
Qed.

Lemma parseAdditive_of_parsePrimary n st v st' next :
  parsePrimary n st = (Ret v, st') →
  tokens !! currentTokenIndex st' = Some next →
  Token.type next ≠ OPERATOR →
  parseAdditive n st = (Ret v, st').
Proof.
  intros Hprim Hnext Hop.
  destruct (type_not_multiplicative _ Hop) as [Hmul Hadd].
  assert (parseMultiplicative n st = (Ret v, st')) as Hm.
  { unfold ExpressionEvaluator.parseMultiplicative.
    rewrite (bind_Ret _ _ _ _ _ Hprim). by apply (leftAssoc_stop _ _ _ _ _ _ next). }
  unfold ExpressionEvaluator.parseAdditive.
  rewrite (bind_Ret _ _ _ _ _ Hm). by apply (leftAssoc_stop _ _ _ _ _ _ next).
Qed.

Lemma parseAnd_of_parsePrimary_Throw n st e st' first :
  tokens !! currentTokenIndex st = Some first →
  tokenIs IDENTIFIER "not" first = false →
  parsePrimary n st = (Throw e, st') →
  parseAnd n st = (Throw e, st').
Proof.
  intros Hfirst Hnot Hprim.
  unfold ExpressionEvaluator.parseAnd.
  by apply bind_Throw, (parseNot_of_parsePrimary_Throw _ _ _ _ first).
Qed.

Lemma parseAnd_of_parsePrimary_Inherited n st i st' first :
  tokens !! currentTokenIndex st = Some first →
  tokenIs IDENTIFIER "not" first = false →
  parsePrimary n st = (Inherited i, st') →
  parseAnd n st = (Inherited i, st').
Proof.
  intros Hfirst Hnot Hprim.
  unfold ExpressionEvaluator.parseAnd.
  by apply bind_Inherited, (parseNot_of_parsePrimary_Inherited _ _ _ _ first).
Qed.

(** *** The evaluator follows the grammar *)

Lemma parseMultiplicative_done ts e n pre next post w :
  follows Multiplicative ts e →
  tokens = pre ++ ts ++ next :: post → (length ts ≤ n)%nat →
  isMultiplicative next = false →
  parseMultiplicative n (mk (length pre) w)
  = (Ret (denote e), mk (length pre + length ts) w).
Proof.
  intros H Htokens Hn Hnext.
  destruct (H n pre (next :: post) w Htokens Hn) as (k & Hk & ->).
  replace (S n - k)%nat with (S (n - k)) by lia.
  apply (leftAssoc_stop _ _ _ _ _ _ next); [|done].
  cbn [currentTokenIndex]. rewrite Htokens. apply lookup_after.
Qed.

Lemma parseAdditive_done ts e n pre next post w :
  follows Additive ts e →
  tokens = pre ++ ts ++ next :: post → (length ts ≤ n)%nat →
  isMultiplicative next = false → isAdditive next = false →
  parseAdditive n (mk (length pre) w)
  = (Ret (denote e), mk (length pre + length ts) w).
Proof.
  intros H Htokens Hn Hmul Hadd.
  destruct (H n pre (next :: post) w Htokens Hn) as (k & Hk & ->); [by eauto|].
  replace (S n - k)%nat with (S (n - k)) by lia.
  apply (leftAssoc_stop _ _ _ _ _ _ next); [|done].
  cbn [currentTokenIndex]. rewrite Htokens. apply lookup_after.
Qed.

Lemma parseOr_done ts e n pre next post w :
  parses Additive ts e → follows Additive ts e →
  tokens = pre ++ ts ++ next :: post → (length ts ≤ n)%nat →
  quiet next = true →
  parseOr (S n) (mk (length pre) w)
  = (Ret (denote e), mk (length pre + length ts) w).
Proof.
  intros Hparses H Htokens Hn Hquiet.
  destruct (parses_head _ _ _ Hparses) as (first & ts' & -> & Hfirst).
  destruct (quiet_spec _ Hquiet) as (? & ? & _).
  eapply (parseOr_of_parseAdditive _ _ _ _ first next).
  - cbn [currentTokenIndex]. rewrite Htokens. apply lookup_first.
  - by apply head_not_keyword.
  - by eapply parseAdditive_done.
  - cbn [currentTokenIndex]. rewrite Htokens. apply lookup_after.
  - done.
Qed.

Theorem parses_follows lvl ts e : parses lvl ts e → follows lvl ts e.
Proof.
  induction 1 as [tok Hlit|opening ts closing e Hopen Hparses IH Hclose
                 |ts e Hparses IH|ts1 tok ts2 op l r H1 IH1 Hop H2 IH2
                 |ts e Hparses IH|ts1 tok ts2 op l r H1 IH1 Hop H2 IH2];
    intros n pre post w Htokens Hn.
  - (* a literal *)
    unfold ExpressionEvaluator.parsePrimary.
    assert (tokens !! length pre = Some tok) as Htok
      by (rewrite Htokens; apply lookup_first).
    rewrite (bind_Ret _ _ _ _ _ (defined_currentToken (mk _ _) _ Htok)).
    unfold isLiteral in Hlit.
    destruct (Token.type tok); try done; rewrite Nat.add_1_r; done.
  - (* a parenthesis *)
    cbn [length] in Hn. rewrite length_app in Hn. cbn [length] in Hn.
    destruct n as [|n]; [lia|].
    unfold ExpressionEvaluator.parsePrimary.
    assert (tokens !! length pre = Some opening) as Htok
      by (rewrite Htokens; apply lookup_first).
    rewrite (bind_Ret _ _ _ _ _ (defined_currentToken (mk _ _) _ Htok)).
    rewrite Hopen.
    rewrite (bind_Ret _ _ _ _ _ (consume_eq _)).
    assert (tokens = (pre ++ [opening]) ++ ts ++ closing :: post) as Htokens'.
    { rewrite Htokens. cbn. by rewrite <- !app_assoc. }
    assert (quiet closing = true) as Hquiet by (unfold quiet; by rewrite Hclose).
    pose proof (parseOr_done ts e n (pre ++ [opening]) closing post w
                  Hparses IH Htokens' ltac:(lia) Hquiet) as Hor.
    rewrite length_app, Nat.add_1_r in Hor.
    unfold consumed; cbn [currentTokenIndex host].
    rewrite (bind_Ret _ _ _ _ _ Hor).
    assert (tokens !! (S (length pre) + length ts)%nat = Some closing) as Hc.
    { rewrite Htokens'. rewrite <- (lookup_after (pre ++ [opening]) ts post closing).
      f_equal. rewrite length_app. cbn. lia. }
    rewrite (bind_Ret _ _ _ _ _ (defined_currentToken (mk _ _) _ Hc)).
    rewrite Hclose. rewrite bool_decide_eq_true_2 by done.
    rewrite (bind_Ret _ _ _ _ _ (consume_eq _)).
    unfold ret, consumed; cbn [currentTokenIndex host length].
    do 2 f_equal. rewrite length_app. cbn. lia.
  - (* a primary as a product *)
    exists 0%nat. split.
    { destruct (parses_head _ _ _ Hparses) as (? & ? & -> & _). cbn. lia. }
    unfold ExpressionEvaluator.parseMultiplicative.
    by rewrite (bind_Ret _ _ _ _ _ (IH n pre post w Htokens Hn)).
  - (* a product *)
    rewrite length_app in Hn. cbn [length] in Hn.
    destruct (IH1 n pre (tok :: ts2 ++ post) w) as (k & Hk & ->).
    { rewrite Htokens. by rewrite <- app_assoc. } { lia. }
    destruct (isMultiplicative_op _ _ Hop) as [Hmul Hval].
    exists (S k). split; [rewrite length_app; cbn; lia|].
    replace (S n - k)%nat with (S (n - k)) by lia.
    rewrite (leftAssoc_step _ _ _ _ _ _ tok); [|
      cbn [currentTokenIndex]; rewrite Htokens, <- app_assoc; apply lookup_after|done].
    assert (tokens = (pre ++ ts1 ++ [tok]) ++ ts2 ++ post) as Htokens'.
    { rewrite Htokens. by rewrite <- !app_assoc. }
    pose proof (IH2 n (pre ++ ts1 ++ [tok]) post w Htokens' ltac:(lia)) as Hr.
    cbn beta iota in Hr. rewrite !length_app in Hr. cbn [length] in Hr.
    unfold consumed; cbn [currentTokenIndex host].
    replace (S (length pre + length ts1)) with (length pre + (length ts1 + 1))%nat by lia.
    rewrite (bind_Ret _ _ _ _ _ Hr). rewrite Hval. cbn [denote].
    rewrite length_app. cbn [length].
    replace (S n - S k)%nat with (n - k)%nat by lia.
    do 2 f_equal. lia.
  - (* a product as a sum *)
    intros (next & post' & -> & Hnext).
    exists 0%nat. split.
    { destruct (parses_head _ _ _ Hparses) as (? & ? & -> & _). cbn. lia. }
    unfold ExpressionEvaluator.parseAdditive.
    by rewrite (bind_Ret _ _ _ _ _
                  (parseMultiplicative_done ts e n pre next post' w IH Htokens Hn Hnext)).
  - (* a sum *)
    intros (next & post' & -> & Hnext).
    rewrite length_app in Hn. cbn [length] in Hn.
    destruct (IH1 n pre (tok :: ts2 ++ next :: post') w) as (k & Hk & ->).
    { rewrite Htokens. by rewrite <- app_assoc. } { lia. }
    { eexists _, _. split; [done|]. by eapply additiveOp_not_multiplicative. }
    destruct (isAdditive_op _ _ Hop) as [Hadd Hval].
    exists (S k). split; [rewrite length_app; cbn; lia|].
    replace (S n - k)%nat with (S (n - k)) by lia.
    rewrite (leftAssoc_step _ _ _ _ _ _ tok); [|
      cbn [currentTokenIndex]; rewrite Htokens, <- app_assoc; apply lookup_after|done].
    assert (tokens = (pre ++ ts1 ++ [tok]) ++ ts2 ++ next :: post') as Htokens'.
    { rewrite Htokens. by rewrite <- !app_assoc. }
    pose proof (parseMultiplicative_done ts2 r n (pre ++ ts1 ++ [tok]) next post' w
                  IH2 Htokens' ltac:(lia) Hnext) as Hr.
    rewrite !length_app in Hr. cbn [length] in Hr.
    unfold consumed; cbn [currentTokenIndex host].
    replace (S (length pre + length ts1)) with (length pre + (length ts1 + 1))%nat by lia.
    rewrite (bind_Ret _ _ _ _ _ Hr). rewrite Hval. cbn [denote].
    rewrite length_app. cbn [length].
    replace (S n - S k)%nat with (n - k)%nat by lia.
    do 2 f_equal. lia.
Qed.

(** *** From the primary level back to the lowest one *)

Lemma parseOr_of_parsePrimary n st v st' first next :
  tokens !! currentTokenIndex st = Some first →
  tokenIs IDENTIFIER "not" first = false →
  parsePrimary n st = (Ret v, st') →
  tokens !! currentTokenIndex st' = Some next →
  quiet next = true →
  parseOr (S n) st = (Ret v, st').
Proof.
  intros Hfirst Hnot Hprim Hnext Hquiet.
  destruct (quiet_spec _ Hquiet) as (_ & _ & Hop & _).
  eapply parseOr_of_parseAdditive; try done.
  by eapply parseAdditive_of_parsePrimary.
Qed.

Lemma parseOr_of_parsePrimary_Throw n st e st' first :
  tokens !! currentTokenIndex st = Some first →
  tokenIs IDENTIFIER "not" first = false →
  parsePrimary n st = (Throw e, st') →
  parseOr (S n) st = (Throw e, st').
Proof.
  intros Hfirst Hnot Hprim.
  rewrite parseOr_S. unfold parseOr_body.
  by apply bind_Throw, (parseAnd_of_parsePrimary_Throw _ _ _ _ first).
Qed.

Lemma parseOr_of_parsePrimary_Inherited n st i st' first :
  tokens !! currentTokenIndex st = Some first →
  tokenIs IDENTIFIER "not" first = false →
  parsePrimary n st = (Inherited i, st') →
  parseOr (S n) st = (Inherited i, st').
Proof.
  intros Hfirst Hnot Hprim.
  rewrite parseOr_S. unfold parseOr_body.
  by apply bind_Inherited, (parseAnd_of_parsePrimary_Inherited _ _ _ _ first).
Qed.

(** *** The arguments of a call *)

Lemma arguments_head ats es :
  arguments ats es →
  ats = [] ∨ ∃ tok ats', ats = tok :: ats'
              ∧ (isLiteral tok = true ∨ Token.type tok = PAREN_OPEN).
Proof.
  destruct 1 as [|ts e separator rest es Hparses _ _ _]; [by left|right].
  destruct (parses_head _ _ _ Hparses) as (tok & ts' & -> & ?). by eexists _, _.
Qed.

Lemma arguments_length ats es : arguments ats es → (length es ≤ length ats)%nat.
Proof.
  induction 1 as [|ts e sep rest es Hp _ _ _ IH]; [done|].
  destruct (parses_head _ _ _ Hp) as (? & ? & -> & _).
  rewrite !length_app. cbn [length]. lia.
Qed.

Lemma parseArguments_follows ats es :
  arguments ats es →
  ∀ n passes pre next post acc w,
    tokens = pre ++ ats ++ next :: post →
    (length ats ≤ n)%nat → (length es < passes)%nat →
    Token.type next = PAREN_CLOSE ∨ Token.type next = EOF →
    parseArguments (S n) passes acc (mk (length pre) w)
    = (Ret (acc ++ map denote es), mk (length pre + length ats) w).
Proof.
  induction 1 as [|ts e separator rest es Hparses Hsep Hlen Hrest IH];
    intros n passes pre next post acc w Htokens Hn Hpasses Hnext.
  - destruct passes as [|passes]; [cbn in Hpasses; lia|].
    cbn [ExpressionEvaluator.parseArguments].
    assert (tokens !! length pre = Some next) as Htok
      by (rewrite Htokens; apply lookup_first).
    rewrite (bind_Ret _ _ _ _ _ (defined_currentToken (mk _ _) _ Htok)).
    rewrite app_nil_r, Nat.add_0_r.
    by destruct Hnext as [-> | ->].
  - destruct passes as [|passes]; [cbn in Hpasses; lia|]. cbn [length] in Hpasses.
    rewrite !length_app in Hn.
    destruct (parses_head _ _ _ Hparses) as (first & ts' & Hts & Hfirst).
    destruct (head_not_keyword first "not" Hfirst) as (_ & Hf1 & Hf2 & _).
    cbn [ExpressionEvaluator.parseArguments].
    assert (tokens !! length pre = Some first) as Htok.
    { rewrite Htokens, Hts. cbn. apply lookup_first. }
    rewrite (bind_Ret _ _ _ _ _ (defined_currentToken (mk _ _) _ Htok)).
    rewrite !bool_decide_eq_false_2 by done. cbn [negb andb].
    (* the token after the argument *)
    assert (∃ after rest', separator ++ rest ++ next :: post = after :: rest'
              ∧ quiet after = true
              ∧ (Token.type after = COMMA ↔ separator = [after])) as
      (after & rest' & Hafter & Hquiet & Hcomma).
    { destruct separator as [|comma [|? ?]]; [| |cbn in Hlen; lia].
      - destruct (arguments_head _ _ Hrest) as [->|(tok & ats' & -> & Htok')].
        + exists next, post. split; [done|]. split.
          * unfold quiet. by destruct Hnext as [-> | ->].
          * split; [|done]. by destruct Hnext as [-> | ->].
        + exists tok, (ats' ++ next :: post). split; [done|].
          destruct (head_not_keyword tok "not" Htok') as (_ & _ & _ & ? & ?).
          by repeat split.
      - apply Forall_cons_1 in Hsep as [Hc _].
        exists comma, (rest ++ next :: post). split; [done|]. split.
        + unfold quiet. by rewrite Hc.
        + by split. }
    assert (tokens = pre ++ ts ++ after :: rest') as Htokens'.
    { rewrite Htokens, <- Hafter. by rewrite <- !app_assoc. }
    rewrite (bind_Ret _ _ _ _ _
               (parseOr_done ts e n pre after rest' w Hparses
                  (parses_follows _ _ _ Hparses) Htokens' ltac:(lia) Hquiet)).
    assert (tokens !! (length pre + length ts)%nat = Some after) as Htok'
      by (rewrite Htokens'; apply lookup_after).
    rewrite (bind_Ret _ _ _ _ _ (defined_currentToken (mk _ _) _ Htok')).
    destruct (decide (Token.type after = COMMA)) as [Hc|Hc].
    + apply Hcomma in Hc as Hs. subst separator.
      rewrite bool_decide_eq_true_2 by done.
      rewrite (bind_Ret _ _ _ _ _ (consume_eq _)).
      unfold consumed; cbn [currentTokenIndex host].
      assert (tokens = (pre ++ ts ++ [after]) ++ rest ++ next :: post) as Htokens''.
      { rewrite Htokens. by rewrite <- !app_assoc. }
      pose proof (IH n passes (pre ++ ts ++ [after]) next post (acc ++ [denote e]) w
                    Htokens'' ltac:(cbn in Hn; lia) ltac:(lia) Hnext) as Hgo.
      rewrite !length_app in Hgo. cbn [length] in Hgo.
      replace (S (length pre + length ts)) with (length pre + (length ts + 1))%nat by lia.
      rewrite Hgo. cbn [map]. rewrite <- app_assoc. cbn [app].
      f_equal. f_equal. rewrite !length_app. cbn [length]. lia.
    + assert (separator = []) as ->.
      { destruct separator as [|comma [|? ?]]; [done| |cbn in Hlen; lia].
        apply Forall_cons_1 in Hsep as [Hsep _]. injection Hafter as -> _. done. }
      rewrite bool_decide_eq_false_2 by done.
      pose proof (IH n passes (pre ++ ts) next post (acc ++ [denote e]) w
                    ltac:(rewrite Htokens; by rewrite <- !app_assoc)
                    ltac:(cbn in Hn; lia) ltac:(lia) Hnext) as Hgo.
      rewrite !length_app in Hgo.
      rewrite (bind_Ret (ret None) _ (mk (length pre + length ts) w) None
                 (mk (length pre + length ts) w) eq_refl).
      rewrite Hgo. cbn [map]. rewrite <- app_assoc. cbn [app].
      f_equal. f_equal. rewrite !length_app. cbn [length]. lia.
Qed.

(** *** Calls *)

Lemma parsePrimary_call n pre ident name opening ats es next post w :
  tokens = pre ++ ident :: opening :: ats ++ next :: post →
  Token.type ident = IDENTIFIER → Token.value ident = VString name →
  Token.type opening = PAREN_OPEN →
  arguments ats es → (length ats < n)%nat →
  Token.type next = PAREN_CLOSE ∨ Token.type next = EOF →
  parsePrimary n (mk (length pre) w)
  = match functions !! name with
    | Some f =>
        call f (map denote es)
          (mk (length pre + 2 + length ats
               + (if bool_decide (Token.type next = PAREN_CLOSE) then 1 else 0)) w)
    | None =>
        (if JS.inPrototype name then Inherited (As_function name)
         else Throw (Undefined_function name),
         mk (length pre + 2 + length ats
             + (if bool_decide (Token.type next = PAREN_CLOSE) then 1 else 0)) w)
    end.
Proof.
  intros Htokens Hident Hname Hopen Hargs Hn Hnext.
  unfold ExpressionEvaluator.parsePrimary.
  assert (tokens !! length pre = Some ident) as Htok
    by (rewrite Htokens; apply lookup_first).
  rewrite (bind_Ret _ _ _ _ _ (defined_currentToken (mk _ _) _ Htok)).
  rewrite Hident, Hname.
  rewrite (bind_Ret _ _ _ _ _ (consume_eq _)).
  unfold consumed; cbn [currentTokenIndex host].
  assert (tokens = (pre ++ [ident]) ++ opening :: ats ++ next :: post) as Htokens1
    by (rewrite Htokens; by rewrite <- app_assoc).
  assert (tokens !! S (length pre) = Some opening) as Htok1.
  { rewrite Htokens1, <- (lookup_first (pre ++ [ident]) (ats ++ next :: post) opening).
    f_equal. rewrite length_app. cbn. lia. }
  rewrite (bind_Ret _ _ _ _ _ (defined_currentToken (mk _ _) _ Htok1)).
  rewrite Hopen, bool_decide_eq_true_2 by done.
  unfold ExpressionEvaluator.parseFunctionCall.
  rewrite (bind_Ret _ _ _ _ _ (consume_eq _)).
  unfold consumed; cbn [currentTokenIndex host].
  assert (tokens = (pre ++ [ident; opening]) ++ ats ++ next :: post) as Htokens2
    by (rewrite Htokens; by rewrite <- app_assoc).
  destruct n as [|n]; [lia|].
  pose proof (parseArguments_follows ats es Hargs n (S (S n)) (pre ++ [ident; opening])
                next post [] w Htokens2 ltac:(lia)) as Hgo.
  rewrite length_app in Hgo. cbn [length app] in Hgo.
  replace (S (S (length pre))) with (length pre + 2)%nat by lia.
  pose proof (arguments_length _ _ Hargs) as Hlen.
  rewrite (bind_Ret _ _ _ _ _ (Hgo ltac:(lia) Hnext)).
  assert (tokens !! (length pre + 2 + length ats)%nat = Some next) as Htok2.
  { rewrite Htokens2, <- (lookup_after (pre ++ [ident; opening]) ats post next).
    f_equal. rewrite length_app. cbn. lia. }
  rewrite (bind_Ret _ _ _ _ _ (defined_currentToken (mk _ _) _ Htok2)).
  case_bool_decide.
  - rewrite (bind_Ret _ _ _ _ _ (consume_eq _)).
    unfold consumed; cbn [currentTokenIndex host].
    rewrite Nat.add_1_r. destruct (functions !! name); [done|].
    by destruct (JS.inPrototype name).
  - rewrite (bind_Ret (ret None) _ _ None _ eq_refl).
    rewrite Nat.add_0_r. destruct (functions !! name); [done|].
    by destruct (JS.inPrototype name).
Qed.

(** *** Whole evaluations *)

Local Abbreviation run := (ExpressionEvaluator.run tokens variables functions).

Lemma run_eq w : run w = parseOr (S (length tokens)) (mk 0 w).
Proof. done. Qed.

(** An arithmetic expression evaluates to the value of its parse tree;
    the token after it and everything that follows are left alone. *)
Theorem run_arithmetic ts e last post w :
  parses Additive ts e → quiet last = true →
  tokens = ts ++ last :: post →
  run w = (Ret (denote e), mk (length ts) w).
Proof.
  intros Hparses Hquiet Htokens. rewrite run_eq.
  apply (parseOr_done ts e (length tokens) [] last post w);
    [done|by apply parses_follows|done| |done].
  rewrite Htokens, length_app. lia.
Qed.

Lemma call_Ret_index (f : Callable W) args st v st' :
  call f args st = (Ret v, st') → currentTokenIndex st' = currentTokenIndex st.
Proof. unfold call. destruct (f args (host st)) as [[?|?] ?]; by intros [= <- <-]. Qed.

Lemma call_outcome (f : Callable W) args st :
  (∃ v st', call f args st = (Ret v, st'))
  ∨ (∃ e st', call f args st = (Throw e, st')).
Proof. unfold call. destruct (f args (host st)) as [[?|?] ?]; eauto. Qed.

(** A call [name(arguments)], closed by a parenthesis or cut short by
    the end of the input, applies the function to the values of the
    arguments, in order. *)
Theorem run_call ident name opening ats es closing last post w :
  Token.type ident = IDENTIFIER → Token.value ident = VString name →
  name ≠ "not" →
  Token.type opening = PAREN_OPEN →
  arguments ats es →
  Forall (λ tok, Token.type tok = PAREN_CLOSE) closing → (length closing ≤ 1)%nat →
  Token.type last = EOF →
  tokens = ident :: opening :: ats ++ closing ++ last :: post →
  run w
  = match functions !! name with
    | Some f => call f (map denote es) (mk (2 + length ats + length closing) w)
    | None => (if JS.inPrototype name then Inherited (As_function name)
               else Throw (Undefined_function name),
               mk (2 + length ats + length closing) w)
    end.
Proof.
  intros Hident Hname Hne Hopen Hargs Hclosing Hlen Hlast Htokens. rewrite run_eq.
  assert (tokenIs IDENTIFIER "not" ident = false) as Hnot.
  { unfold tokenIs, spelled. rewrite Hname.
    destruct (String.eqb_spec name "not"); [done|]. by rewrite andb_false_r. }
  assert (tokens !! 0%nat = Some ident) as Hfirst by (by rewrite Htokens).
  assert (∃ next post', closing ++ last :: post = next :: post'
            ∧ (Token.type next = PAREN_CLOSE ∨ Token.type next = EOF)
            ∧ length closing
              = (if bool_decide (Token.type next = PAREN_CLOSE) then 1 else 0)%nat)
    as (next & post' & Hnext & Htype & Hcount).
  { destruct closing as [|pc [|? ?]]; [| |cbn in Hlen; lia].
    - exists last, post. rewrite Hlast. by repeat split; eauto.
    - apply Forall_cons_1 in Hclosing as [Hpc _].
      exists pc, (last :: post). rewrite Hpc. repeat split; eauto. }
  pose proof (parsePrimary_call (length tokens) [] ident name opening ats es next post' w
                ltac:(by rewrite Htokens, Hnext) Hident Hname Hopen Hargs
                ltac:(rewrite Htokens; cbn; rewrite length_app; cbn; lia) Htype) as Hprim.
  cbn [length] in Hprim. rewrite <- Hcount in Hprim.
  replace (0 + 2 + length ats + length closing)%nat
    with (2 + length ats + length closing)%nat in Hprim by lia.
  assert (tokens !! (2 + length ats + length closing)%nat = Some last) as Hend.
  { rewrite Htokens.
    change (ident :: opening :: ats ++ closing ++ last :: post)
      with ([ident; opening] ++ ats ++ closing ++ last :: post).
    rewrite (app_assoc ats), <- (lookup_after [ident; opening] (ats ++ closing) post last).
    f_equal. rewrite length_app. cbn. lia. }
  destruct (functions !! name) as [f|].
  - destruct (call_outcome f (map denote es) (mk (2 + length ats + length closing) w))
      as [(v & st' & Hcall)|(e & st' & Hcall)]; rewrite Hcall in Hprim |- *.
    + apply (parseOr_of_parsePrimary _ _ _ _ ident last); try done.
      * by rewrite (call_Ret_index _ _ _ _ _ Hcall).
      * unfold quiet. by rewrite Hlast.
    + by apply (parseOr_of_parsePrimary_Throw _ _ _ _ ident).
  - destruct (JS.inPrototype name).
    + by apply (parseOr_of_parsePrimary_Inherited _ _ _ _ ident).
    + by apply (parseOr_of_parsePrimary_Throw _ _ _ _ ident).
Qed.

(** *** The logical operators evaluate both operands *)

(** One pass of the loop of [parseOr]: the right operand runs whatever
    the left operand is. *)
Lemma parseOr_right_Throw n st l st1 kw e st2 :
  parseAnd n st = (Ret l, st1) →
  tokens !! currentTokenIndex st1 = Some kw → tokenIs IDENTIFIER "or" kw = true →
  parseAnd n (consumed st1) = (Throw e, st2) →
  parseOr (S n) st = (Throw e, st2).
Proof.
  intros Hl Hkw Hor Hr. rewrite parseOr_S. unfold parseOr_body.
  rewrite (bind_Ret _ _ _ _ _ Hl), (leftAssoc_step _ _ _ _ _ _ kw) by done.
  by apply bind_Throw.
Qed.

Lemma parseOr_right_Inherited n st l st1 kw i st2 :
  parseAnd n st = (Ret l, st1) →
  tokens !! currentTokenIndex st1 = Some kw → tokenIs IDENTIFIER "or" kw = true →
  parseAnd n (consumed st1) = (Inherited i, st2) →
  parseOr (S n) st = (Inherited i, st2).
Proof.
  intros Hl Hkw Hor Hr. rewrite parseOr_S. unfold parseOr_body.
  rewrite (bind_Ret _ _ _ _ _ Hl), (leftAssoc_step _ _ _ _ _ _ kw) by done.
  by apply bind_Inherited.
Qed.

Lemma parseOr_right_Ret n st l st1 kw r st2 next :
  parseAnd (S n) st = (Ret l, st1) →
  tokens !! currentTokenIndex st1 = Some kw → tokenIs IDENTIFIER "or" kw = true →
  parseAnd (S n) (consumed st1) = (Ret r, st2) →
  tokens !! currentTokenIndex st2 = Some next → tokenIs IDENTIFIER "or" next = false →
  parseOr (S (S n)) st = (Ret (VBoolean (toBool l || toBool r)), st2).
Proof.
  intros Hl Hkw Hor Hr Hnext Hstop. rewrite parseOr_S. unfold parseOr_body.
  rewrite (bind_Ret _ _ _ _ _ Hl), (leftAssoc_step _ _ _ _ _ _ kw) by done.
  rewrite (bind_Ret _ _ _ _ _ Hr). by apply (leftAssoc_stop _ _ _ _ _ _ next).
Qed.

(** The same for the loop of [parseAnd]. *)
Lemma parseAnd_right_Throw n st l st1 kw e st2 :
  parseNot n (S n) st = (Ret l, st1) →
  tokens !! currentTokenIndex st1 = Some kw → tokenIs IDENTIFIER "and" kw = true →
  parseNot n (S n) (consumed st1) = (Throw e, st2) →
  parseAnd n st = (Throw e, st2).
Proof.
  intros Hl Hkw Hand Hr. unfold ExpressionEvaluator.parseAnd.
  rewrite (bind_Ret _ _ _ _ _ Hl), (leftAssoc_step _ _ _ _ _ _ kw) by done.
  by apply bind_Throw.
Qed.

Lemma parseAnd_right_Inherited n st l st1 kw i st2 :
  parseNot n (S n) st = (Ret l, st1) →
  tokens !! currentTokenIndex st1 = Some kw → tokenIs IDENTIFIER "and" kw = true →
  parseNot n (S n) (consumed st1) = (Inherited i, st2) →
  parseAnd n st = (Inherited i, st2).
Proof.
  intros Hl Hkw Hand Hr. unfold ExpressionEvaluator.parseAnd.
  rewrite (bind_Ret _ _ _ _ _ Hl), (leftAssoc_step _ _ _ _ _ _ kw) by done.
  by apply bind_Inherited.
Qed.

Lemma parseAnd_right_Ret n st l st1 kw r st2 next :
  parseNot (S n) (S (S n)) st = (Ret l, st1) →
  tokens !! currentTokenIndex st1 = Some kw → tokenIs IDENTIFIER "and" kw = true →
  parseNot (S n) (S (S n)) (consumed st1) = (Ret r, st2) →
  tokens !! currentTokenIndex st2 = Some next → tokenIs IDENTIFIER "and" next = false →
  parseAnd (S n) st = (Ret (VBoolean (toBool l && toBool r)), st2).
Proof.
  intros Hl Hkw Hand Hr Hnext Hstop. unfold ExpressionEvaluator.parseAnd.
  rewrite (bind_Ret _ _ _ _ _ Hl), (leftAssoc_step _ _ _ _ _ _ kw) by done.
  rewrite (bind_Ret _ _ _ _ _ Hr). by apply (leftAssoc_stop _ _ _ _ _ _ next).
Qed.

Lemma tokenIs_other type s1 s2 tok :
  tokenIs type s1 tok = true → s1 ≠ s2 → tokenIs type s2 tok = false.
Proof.
  unfold tokenIs, spelled. case_bool_decide; [|done]. cbn [andb].
  destruct (Token.value tok) as [|v| | |]; try done.
  destruct (String.eqb_spec v s1) as [->|]; [|done].
  intros _ ?. by destruct (String.eqb_spec s1 s2).
Qed.

Lemma tokenIs_type type s tok : tokenIs type s tok = true → Token.type tok = type.
Proof. unfold tokenIs. by case_bool_decide. Qed.

(** The left operand is an arithmetic expression, the right operand a
    primary expression: the evaluation is that of the right operand,
    run after the left one, combined with the left value. *)
Section Logical.

Variables (tsL : list Token) (L : aexp) (kw first : Token) (post : list Token).
Hypothesis HL : parses Additive tsL L.
Hypothesis Htokens : tokens = tsL ++ kw :: first :: post.
Hypothesis Hfirst : tokenIs IDENTIFIER "not" first = false.

Local Abbreviation fuel := (length tokens).

Lemma operands_fuel : ∃ n, fuel = S (S n) ∧ (length tsL ≤ n)%nat.
Proof.
  exists (length tsL + length post)%nat. rewrite Htokens, length_app. cbn. lia.
Qed.

Lemma operand_left w :
  Token.type kw = IDENTIFIER →
  parseNot fuel (S fuel) (mk 0 w) = (Ret (denote L), mk (length tsL) w)
  ∧ tokens !! length tsL = Some kw
  ∧ tokens !! S (length tsL) = Some first.
Proof.
  intros Hkw.
  destruct (parses_head _ _ _ HL) as (tok & ts' & Hts & Htok).
  assert (isMultiplicative kw = false ∧ isAdditive kw = false) as [? ?].
  { apply type_not_multiplicative. by rewrite Hkw. }
  assert (tokens !! length tsL = Some kw) as Hat.
  { rewrite Htokens. apply (lookup_first tsL). }
  split_and!; [|done|].
  - apply (parseNot_of_parseAdditive _ _ _ _ tok kw).
    + rewrite Htokens, Hts. done.
    + by apply head_not_keyword.
    + apply (parseAdditive_done tsL L fuel [] kw (first :: post) w); try done.
      * by apply parses_follows.
      * rewrite Htokens, length_app. lia.
    + done.
    + by rewrite Hkw.
  - rewrite Htokens.
    change (tsL ++ kw :: first :: post) with ([] ++ tsL ++ [kw] ++ first :: post).
    rewrite (app_assoc tsL), <- (lookup_after [] (tsL ++ [kw]) post first).
    f_equal. rewrite length_app. cbn. lia.
Qed.

Lemma operand_left_or w :
  tokenIs IDENTIFIER "or" kw = true →
  parseAnd fuel (mk 0 w) = (Ret (denote L), mk (length tsL) w).
Proof.
  intros Hkw.
  destruct (operand_left w (tokenIs_type _ _ _ Hkw)) as (Hn & Hat & _).
  unfold ExpressionEvaluator.parseAnd. rewrite (bind_Ret _ _ _ _ _ Hn).
  apply (leftAssoc_stop _ _ _ _ _ _ kw); [done|].
  by apply (tokenIs_other _ "or").
Qed.

Theorem run_or_Throw w e st' :
  tokenIs IDENTIFIER "or" kw = true →
  parsePrimary fuel (mk (S (length tsL)) w) = (Throw e, st') →
  run w = (Throw e, st').
Proof.
  intros Hkw Hprim. rewrite run_eq.
  destruct (operand_left w (tokenIs_type _ _ _ Hkw)) as (_ & Hat & Hnext).
  apply (parseOr_right_Throw _ _ (denote L) (mk (length tsL) w) kw);
    [by apply operand_left_or|done|done|].
  by apply (parseAnd_of_parsePrimary_Throw _ _ _ _ first).
Qed.

Theorem run_or_Inherited w i st' :
  tokenIs IDENTIFIER "or" kw = true →
  parsePrimary fuel (mk (S (length tsL)) w) = (Inherited i, st') →
  run w = (Inherited i, st').
Proof.
  intros Hkw Hprim. rewrite run_eq.
  destruct (operand_left w (tokenIs_type _ _ _ Hkw)) as (_ & Hat & Hnext).
  apply (parseOr_right_Inherited _ _ (denote L) (mk (length tsL) w) kw);
    [by apply operand_left_or|done|done|].
  by apply (parseAnd_of_parsePrimary_Inherited _ _ _ _ first).
Qed.

Theorem run_or_Ret w r st' last :
  tokenIs IDENTIFIER "or" kw = true →
  parsePrimary fuel (mk (S (length tsL)) w) = (Ret r, st') →
  tokens !! currentTokenIndex st' = Some last → quiet last = true →
  run w = (Ret (VBoolean (toBool (denote L) || toBool r)), st').
Proof.
  intros Hkw Hprim Hlast Hquiet. rewrite run_eq.
  destruct (operand_left w (tokenIs_type _ _ _ Hkw)) as (_ & Hat & Hnext).
  pose proof (operand_left_or w Hkw) as Hleft.
  destruct (quiet_spec _ Hquiet) as (_ & _ & Hop & Hstop).
  destruct operands_fuel as (n & Hfuel & _). rewrite Hfuel in *.
  apply (parseOr_right_Ret _ _ (denote L) (mk (length tsL) w) kw r st' last);
    [done|done|done| |done|by apply Hstop].
  apply (parseAnd_of_parseAdditive _ _ _ _ first last);
    [done|done| |done|done|by apply Hstop].
  by apply (parseAdditive_of_parsePrimary _ _ _ _ last).
Qed.

Theorem run_and_Throw w e st' :
  tokenIs IDENTIFIER "and" kw = true →
  parsePrimary fuel (mk (S (length tsL)) w) = (Throw e, st') →
  run w = (Throw e, st').
Proof.
  intros Hkw Hprim. rewrite run_eq.
  destruct (operand_left w (tokenIs_type _ _ _ Hkw)) as (Hleft & Hat & Hnext).
  rewrite parseOr_S. unfold parseOr_body. apply bind_Throw.
  apply (parseAnd_right_Throw _ _ (denote L) (mk (length tsL) w) kw);
    [done|done|done|].
  by apply (parseNot_of_parsePrimary_Throw _ _ _ _ first).
Qed.

Theorem run_and_Inherited w i st' :
  tokenIs IDENTIFIER "and" kw = true →
  parsePrimary fuel (mk (S (length tsL)) w) = (Inherited i, st') →
  run w = (Inherited i, st').
Proof.
  intros Hkw Hprim. rewrite run_eq.
  destruct (operand_left w (tokenIs_type _ _ _ Hkw)) as (Hleft & Hat & Hnext).
  rewrite parseOr_S. unfold parseOr_body. apply bind_Inherited.
  apply (parseAnd_right_Inherited _ _ (denote L) (mk (length tsL) w) kw);
    [done|done|done|].
  by apply (parseNot_of_parsePrimary_Inherited _ _ _ _ first).
Qed.

Theorem run_and_Ret w r st' last :
  tokenIs IDENTIFIER "and" kw = true →
  parsePrimary fuel (mk (S (length tsL)) w) = (Ret r, st') →
  tokens !! currentTokenIndex st' = Some last → quiet last = true →
  run w = (Ret (VBoolean (toBool (denote L) && toBool r)), st').
Proof.
  intros Hkw Hprim Hlast Hquiet. rewrite run_eq.
  destruct (operand_left w (tokenIs_type _ _ _ Hkw)) as (Hleft & Hat & Hnext).
  destruct (quiet_spec _ Hquiet) as (_ & _ & Hop & Hstop).
  destruct operands_fuel as (n & Hfuel & _). rewrite Hfuel in *.
  apply (parseOr_of_parseAnd _ _ _ _ last); [|done|by apply Hstop].
  apply (parseAnd_right_Ret _ _ (denote L) (mk (length tsL) w) kw r st' last);
    [done|done|done| |done|by apply Hstop].
  apply (parseNot_of_parseAdditive _ _ _ _ first last); [done|done| |done|done].
  by apply (parseAdditive_of_parsePrimary _ _ _ _ last).
Qed.

End Logical.

(** *** Variables *)

Lemma parsePrimary_variable n i w ident name next :
  tokens !! i = Some ident →
  Token.type ident = IDENTIFIER → Token.value ident = VString name →
  tokens !! S i = Some next → Token.type next ≠ PAREN_OPEN →
  parsePrimary n (mk i w)
  = match variables !! name with
    | Some v => (Ret v, mk (S i) w)
    | None => (if JS.inPrototype name then Inherited (As_variable name)
               else Throw (Undefined_variable name), mk (S i) w)
    end.
Proof.
  intros Hi Hident Hname Hnext Hopen.
  unfold ExpressionEvaluator.parsePrimary.
  rewrite (bind_Ret _ _ _ _ _ (defined_currentToken (mk _ _) _ Hi)).
  rewrite Hident, Hname.
  rewrite (bind_Ret _ _ _ _ _ (consume_eq _)).
  unfold consumed; cbn [currentTokenIndex host].
  rewrite (bind_Ret _ _ _ _ _ (defined_currentToken (mk _ _) _ Hnext)).
  rewrite bool_decide_eq_false_2 by done.
  destruct (variables !! name); [done|]. by destruct (JS.inPrototype name).
Qed.

Lemma not_keyword ident name :
  Token.value ident = VString name → name ≠ "not" →
  tokenIs IDENTIFIER "not" ident = false.
Proof.
  intros Hname Hne. unfold tokenIs, spelled. rewrite Hname.
  destruct (String.eqb_spec name "not"); [done|]. by rewrite andb_false_r.
Qed.

(** *** Logical operators in front of a call or of a variable *)

Section LogicalCall.

Variables (tsL : list Token) (L : aexp) (kw ident opening : Token) (name : string).
Variables (ats : list Token) (es : list aexp) (closing : list Token).
Variables (last : Token) (post : list Token) (f : Callable W).
Hypothesis HL : parses Additive tsL L.
Hypothesis Hident : Token.type ident = IDENTIFIER.
Hypothesis Hname : Token.value ident = VString name.
Hypothesis Hne : name ≠ "not".
Hypothesis Hopen : Token.type opening = PAREN_OPEN.
Hypothesis Hargs : arguments ats es.
Hypothesis Hclosing : Forall (λ tok, Token.type tok = PAREN_CLOSE) closing.
Hypothesis Hlen : (length closing ≤ 1)%nat.
Hypothesis Hlast : Token.type last = EOF.
Hypothesis Hf : functions !! name = Some f.
Hypothesis Htokens :
  tokens = tsL ++ kw :: ident :: opening :: ats ++ closing ++ last :: post.

Local Abbreviation after_call :=
  (length tsL + 3 + length ats + length closing)%nat.

Lemma right_call w :
  parsePrimary (length tokens) (mk (S (length tsL)) w)
  = call f (map denote es) (mk after_call w)
  ∧ tokens !! after_call = Some last.
Proof.
  assert (∃ next post', closing ++ last :: post = next :: post'
            ∧ (Token.type next = PAREN_CLOSE ∨ Token.type next = EOF)
            ∧ length closing
              = (if bool_decide (Token.type next = PAREN_CLOSE) then 1 else 0)%nat)
    as (next & post' & Hnext & Htype & Hcount).
  { destruct closing as [|pc [|? ?]]; [| |cbn in Hlen; lia].
    - exists last, post. rewrite Hlast. by repeat split; eauto.
    - apply Forall_cons_1 in Hclosing as [Hpc _].
      exists pc, (last :: post). rewrite Hpc. repeat split; eauto. }
  split.
  - pose proof (parsePrimary_call (length tokens) (tsL ++ [kw]) ident name opening
                  ats es next post' w) as Hprim.
    rewrite Hf, <- Hcount, length_app in Hprim. cbn [length] in Hprim.
    rewrite Nat.add_1_r in Hprim.
    replace (S (length tsL) + 2 + length ats + length closing)%nat
      with after_call in Hprim by lia.
    apply Hprim; try done.
    + rewrite Htokens, Hnext. by rewrite <- app_assoc.
    + rewrite Htokens, !length_app. cbn [length]. rewrite length_app. cbn. lia.
  - rewrite Htokens.
    change (tsL ++ kw :: ident :: opening :: ats ++ closing ++ last :: post)
      with (tsL ++ [kw; ident; opening] ++ ats ++ closing ++ last :: post).
    rewrite (app_assoc ats), (app_assoc [kw; ident; opening]).
    rewrite <- (lookup_after tsL ([kw; ident; opening] ++ ats ++ closing) post last).
    f_equal. rewrite !length_app. cbn. lia.
Qed.

(** [L or name(arguments)]: the function is called whatever [L] is. *)
Theorem run_or_call w :
  tokenIs IDENTIFIER "or" kw = true →
  run w = bind (call f (map denote es))
            (λ r, ret (VBoolean (toBool (denote L) || toBool r)))
            (mk after_call w).
Proof.
  intros Hkw. destruct (right_call w) as [Hprim Hend].
  assert (tokens = tsL ++ kw :: ident
                     :: (opening :: ats ++ closing ++ last :: post)) as Ht by done.
  destruct (call_outcome f (map denote es) (mk after_call w))
    as [(v & st' & Hcall)|(e & st' & Hcall)]; rewrite Hcall in Hprim.
  - rewrite (bind_Ret _ _ _ _ _ Hcall).
    apply (run_or_Ret tsL L kw ident _ HL Ht (not_keyword _ _ Hname Hne) w v st' last);
      try done.
    + by rewrite (call_Ret_index _ _ _ _ _ Hcall).
    + unfold quiet. by rewrite Hlast.
  - rewrite (bind_Throw _ _ _ _ _ Hcall).
    by apply (run_or_Throw tsL L kw ident _ HL Ht (not_keyword _ _ Hname Hne)).
Qed.

(** [L and name(arguments)]: likewise. *)
Theorem run_and_call w :
  tokenIs IDENTIFIER "and" kw = true →
  run w = bind (call f (map denote es))
            (λ r, ret (VBoolean (toBool (denote L) && toBool r)))
            (mk after_call w).
Proof.
  intros Hkw. destruct (right_call w) as [Hprim Hend].
  assert (tokens = tsL ++ kw :: ident
                     :: (opening :: ats ++ closing ++ last :: post)) as Ht by done.
  destruct (call_outcome f (map denote es) (mk after_call w))
    as [(v & st' & Hcall)|(e & st' & Hcall)]; rewrite Hcall in Hprim.
  - rewrite (bind_Ret _ _ _ _ _ Hcall).
    apply (run_and_Ret tsL L kw ident _ HL Ht (not_keyword _ _ Hname Hne) w v st' last);
      try done.
    + by rewrite (call_Ret_index _ _ _ _ _ Hcall).
    + unfold quiet. by rewrite Hlast.
  - rewrite (bind_Throw _ _ _ _ _ Hcall).
    by apply (run_and_Throw tsL L kw ident _ HL Ht (not_keyword _ _ Hname Hne)).
Qed.

End LogicalCall.

(** [L or x] and [L and x] with no entry for [x] among the variables:
    whatever [L] is, the evaluation fails, or goes on with the member of
    [Object.prototype] that [x] names. *)
Theorem run_logical_undefined tsL L kw ident name next post w :
  parses Additive tsL L →
  tokenIs IDENTIFIER "or" kw = true ∨ tokenIs IDENTIFIER "and" kw = true →
  Token.type ident = IDENTIFIER → Token.value ident = VString name → name ≠ "not" →
  Token.type next ≠ PAREN_OPEN →
  variables !! name = None →
  tokens = tsL ++ kw :: ident :: next :: post →
  run w = (if JS.inPrototype name then Inherited (As_variable name)
           else Throw (Undefined_variable name), mk (length tsL + 2) w).
Proof.
  intros HL Hkw Hident Hname Hne Hnext Hvar Htokens.
  assert (parsePrimary (length tokens) (mk (S (length tsL)) w)
          = (if JS.inPrototype name then Inherited (As_variable name)
             else Throw (Undefined_variable name), mk (length tsL + 2) w)) as Hprim.
  { rewrite (parsePrimary_variable _ _ _ ident name next); try done.
    - rewrite Hvar. do 2 f_equal. lia.
    - rewrite Htokens.
      change (tsL ++ kw :: ident :: next :: post)
        with ([] ++ tsL ++ [kw] ++ ident :: next :: post).
      rewrite (app_assoc tsL), <- (lookup_after [] (tsL ++ [kw]) (next :: post) ident).
      f_equal. rewrite length_app. cbn. lia.
    - rewrite Htokens.
      change (tsL ++ kw :: ident :: next :: post)
        with ([] ++ tsL ++ [kw; ident] ++ next :: post).
      rewrite (app_assoc tsL), <- (lookup_after [] (tsL ++ [kw; ident]) post next).
      f_equal. rewrite length_app. cbn. lia. }
  destruct (JS.inPrototype name); destruct Hkw as [Hkw|Hkw].
  - by apply (run_or_Inherited tsL L kw ident _ HL Htokens (not_keyword _ _ Hname Hne)).
  - by apply (run_and_Inherited tsL L kw ident _ HL Htokens (not_keyword _ _ Hname Hne)).
  - by apply (run_or_Throw tsL L kw ident _ HL Htokens (not_keyword _ _ Hname Hne)).
  - by apply (run_and_Throw tsL L kw ident _ HL Htokens (not_keyword _ _ Hname Hne)).
Qed.

(** *** Comparisons *)

Lemma compare_defined l op r :
  isComparisonOperator op = true → ∃ b, compare l op r = Ret (VBoolean b).
Proof.
  unfold isComparisonOperator, compare.
  repeat (destruct (String.eqb _ _); [by eexists|]). done.
Qed.

Lemma comparison_not_arithmetic cmp op :
  Token.value cmp = VString op → isComparisonOperator op = true →
  isMultiplicative cmp = false ∧ isAdditive cmp = false.
Proof.
  intros Hv Hop.
  unfold isComparisonOperator, isMultiplicative, isAdditive, tokenIs, spelled in *.
  rewrite Hv. rewrite !orb_true_iff in Hop.
  destruct Hop as [[[[[H|H]|H]|H]|H]|H]; apply String.eqb_eq in H as ->;
    destruct (bool_decide _); split; reflexivity.
Qed.

(** The comparison level: one operator and its two operands, whatever
    the token that follows. *)
Lemma parseComparison_single n st l st1 cmp op r st2 :
  parseAdditive n st = (Ret l, st1) →
  tokens !! currentTokenIndex st1 = Some cmp →
  Token.type cmp = OPERATOR → Token.value cmp = VString op →
  isComparisonOperator op = true →
  parseAdditive n (consumed st1) = (Ret r, st2) →
  parseComparison n st = (compare l op r, st2).
Proof.
  intros Hl Hcmp Htype Hvalue Hop Hr.
  unfold ExpressionEvaluator.parseComparison.
  rewrite (bind_Ret _ _ _ _ _ Hl), (bind_Ret _ _ _ _ _ (defined_currentToken _ _ Hcmp)).
  rewrite Htype, Hvalue, Hop, (bind_Ret _ _ _ _ _ (consume_eq _)).
  by rewrite (bind_Ret _ _ _ _ _ Hr).
Qed.

(** Two arithmetic expressions around a comparison operator: the result
    is that comparison, and the evaluation stops in front of the next
    token, be it another comparison operator. *)
Theorem run_comparison ts1 L cmp op ts2 R next post w :
  parses Additive ts1 L →
  Token.type cmp = OPERATOR → Token.value cmp = VString op →
  isComparisonOperator op = true →
  parses Additive ts2 R →
  isMultiplicative next = false → isAdditive next = false →
  tokenIs IDENTIFIER "and" next = false → tokenIs IDENTIFIER "or" next = false →
  tokens = ts1 ++ cmp :: ts2 ++ next :: post →
  run w = (compare (denote L) op (denote R), mk (length ts1 + 1 + length ts2) w).
Proof.
  intros HL Htype Hvalue Hop HR Hmul Hadd Hand Hor Htokens. rewrite run_eq.
  destruct (comparison_not_arithmetic _ _ Hvalue Hop) as [Hcm Hca].
  destruct (parses_head _ _ _ HL) as (first & ts' & Hts & Hfirst).
  set (n := length tokens).
  assert (length ts1 + 1 + length ts2 < n)%nat as Hn.
  { subst n. rewrite Htokens, !length_app. cbn [length]. rewrite length_app. cbn. lia. }
  assert (parseAdditive n (mk 0 w) = (Ret (denote L), mk (length ts1) w)) as Hl.
  { apply (parseAdditive_done ts1 L n [] cmp (ts2 ++ next :: post) w); try done.
    - by apply parses_follows.
    - lia. }
  assert (parseAdditive n (mk (S (length ts1)) w)
          = (Ret (denote R), mk (length ts1 + 1 + length ts2) w)) as Hr.
  { pose proof (parseAdditive_done ts2 R n (ts1 ++ [cmp]) next post w
                  (parses_follows _ _ _ HR)) as H.
    rewrite length_app in H. cbn [length] in H. rewrite Nat.add_1_r in H.
    replace (length ts1 + 1 + length ts2)%nat with (S (length ts1) + length ts2)%nat by lia.
    apply H; try done; [|lia]. rewrite Htokens. by rewrite <- app_assoc. }
  assert (tokens !! length ts1 = Some cmp) as Hat.
  { rewrite Htokens. apply (lookup_first ts1). }
  assert (tokens !! (length ts1 + 1 + length ts2)%nat = Some next) as Hnext.
  { rewrite Htokens.
    change (ts1 ++ cmp :: ts2 ++ next :: post) with (ts1 ++ [cmp] ++ ts2 ++ next :: post).
    rewrite (app_assoc [cmp]), <- (lookup_after ts1 ([cmp] ++ ts2) post next).
    f_equal. rewrite length_app. cbn. lia. }
  pose proof (parseComparison_single n _ _ _ cmp op _ _ Hl Hat Htype Hvalue Hop Hr) as Hc.
  destruct (compare_defined (denote L) op (denote R) Hop) as [b Hb].
  rewrite Hb in Hc |- *.
  apply (parseOr_of_parseAnd _ _ _ _ next); [|done|done].
  unfold ExpressionEvaluator.parseAnd.
  assert (parseNot n (S n) (mk 0 w)
          = (Ret (VBoolean b), mk (length ts1 + 1 + length ts2) w)) as Hnot.
  { cbn [ExpressionEvaluator.parseNot].
    assert (tokens !! 0%nat = Some first) as H0 by (by rewrite Htokens, Hts).
    rewrite (bind_Ret _ _ _ _ _ (defined_currentToken (mk _ _) _ H0)).
    destruct (head_not_keyword first "not" Hfirst) as [-> _]. done. }
  rewrite (bind_Ret _ _ _ _ _ Hnot).
  by apply (leftAssoc_stop _ _ _ _ _ _ next).
Qed.

(** *** The fuel is enough *)

Lemma fine_weaken {A} d d' (r : outcome A * state) st st0 :
  fine d r st → (remaining st + d' ≤ remaining st0 + d)%nat → fine d' r st0.
Proof. unfold fine. destruct r.1; [lia|done..]. Qed.

Lemma fine_bind {A B} d1 d2 (m : @M W A) (k : A → @M W B) st :
  fine d1 (m st) st →
  (∀ a st', m st = (Ret a, st') → fine d2 (k a st') st') →
  fine (d1 + d2) (bind m k st) st.
Proof.
  unfold bind. intros Hm Hk. destruct (m st) as [[a|e|g|i] st'] eqn:E; try done.
  specialize (Hk a st' eq_refl). unfold fine in *. cbn [fst snd] in Hm.
  destruct (k a st').1; [lia|done..].
Qed.

Lemma fine_ret {A} (a : A) (st : state) : fine 0 (ret a st) st.
Proof. unfold fine, ret. cbn. lia. Qed.

Lemma fine_lift l op r (st : state) : fine 0 (lift (compare l op r) st) st.
Proof.
  unfold lift, fine, compare. cbn [fst snd].
  repeat (destruct (String.eqb _ _); [lia|]). done.
Qed.

Lemma lookup_remaining st tok :
  tokens !! currentTokenIndex st = Some tok → (1 ≤ remaining st)%nat.
Proof. intros H%lookup_lt_Some. unfold remaining. lia. Qed.

Lemma fine_currentToken st : fine 0 (defined currentToken st) st.
Proof.
  destruct (tokens !! currentTokenIndex st) as [tok|] eqn:E.
  - rewrite (defined_currentToken _ _ E). unfold fine. cbn. lia.
  - by rewrite (defined_currentToken_None _ E).
Qed.

Lemma remaining_consumed st tok :
  tokens !! currentTokenIndex st = Some tok →
  (remaining (consumed st) + 1 = remaining st)%nat.
Proof. intros H%lookup_lt_Some. unfold remaining, consumed. cbn. lia. Qed.

Lemma defined_inv (m : @M W (option Token)) st tok st' :
  m = currentToken → defined m st = (Ret tok, st') →
  st' = st ∧ tokens !! currentTokenIndex st = Some tok.
Proof.
  intros ->. destruct (tokens !! currentTokenIndex st) as [t|] eqn:E.
  - rewrite (defined_currentToken _ _ E). by intros [= <- <-].
  - by rewrite (defined_currentToken_None _ E).
Qed.

Lemma leftAssoc_fine continues combine operand R :
  safe R operand →
  ∀ fuel left st,
    (remaining st < fuel)%nat → (remaining st ≤ R)%nat →
    fine 0 (leftAssoc continues combine operand fuel left st) st.
Proof.
  intros Hop. induction fuel as [|fuel IH]; intros left st Hfuel HR; [lia|].
  cbn [ExpressionEvaluator.leftAssoc].
  apply (fine_bind 0 0); [apply fine_currentToken|].
  intros tok st' [-> Htok]%defined_inv; [|done].
  destruct (continues tok); [|apply fine_ret].
  pose proof (remaining_consumed _ _ Htok) as Hc.
  rewrite (bind_Ret _ _ _ _ _ (defined_consume _ _ Htok)).
  eapply (fine_weaken 1 0 _ (consumed st)); [|lia].
  apply (fine_bind 1 0); [apply Hop; lia|].
  intros right st1 Hright.
  pose proof (Hop (consumed st) ltac:(lia)) as H1. rewrite Hright in H1.
  unfold fine in H1. cbn [fst snd] in H1.
  apply IH; lia.
Qed.

Lemma parseArguments_fine rec R :
  safe R rec →
  ∀ passes args st,
    (remaining st < passes)%nat → (remaining st < R)%nat →
    fine 0 (ExpressionEvaluator.parseArguments tokens rec passes args st) st.
Proof.
  intros Hrec. induction passes as [|passes IH]; intros args st Hp HR; [lia|].
  cbn [ExpressionEvaluator.parseArguments].
  apply (fine_bind 0 0); [apply fine_currentToken|].
  intros tok st' [-> Htok]%defined_inv; [|done].
  destruct (_ && _); [|apply fine_ret].
  apply (fine_weaken 1 0 _ st st); [|lia..].
  apply (fine_bind 1 0 rec); [by apply Hrec|].
  intros arg st1 Harg.
  pose proof (Hrec st HR) as H1. rewrite Harg in H1. unfold fine in H1. cbn in H1.
  apply (fine_bind 0 0); [apply fine_currentToken|].
  intros tok1 st' [-> Htok1]%defined_inv; [|done].
  case_bool_decide.
  - rewrite (bind_Ret _ _ _ _ _ (consume_eq _)).
    pose proof (remaining_consumed _ _ Htok1).
    eapply (fine_weaken 0 0 _ (consumed st1)); [|lia]. apply IH; lia.
  - rewrite (bind_Ret (ret None) _ _ None _ eq_refl). apply IH; lia.
Qed.

Lemma call_fine (f : Callable W) args st : fine 0 (call f args st) st.
Proof.
  unfold call, fine. destruct (f args (host st)) as [[?|?] ?]; cbn; [|done].
  unfold remaining. cbn. lia.
Qed.

Lemma parsePrimary_safe fuel rec R :
  safe R rec → (R ≤ fuel)%nat →
  safe (S R) (ExpressionEvaluator.parsePrimary tokens variables functions fuel rec).
Proof.
  intros Hrec Hfuel st HR. unfold ExpressionEvaluator.parsePrimary.
  destruct (tokens !! currentTokenIndex st) as [tok|] eqn:Htok.
  2:{ by rewrite (bind_Throw _ _ _ _ _ (defined_currentToken_None _ Htok)). }
  rewrite (bind_Ret _ _ _ _ _ (defined_currentToken _ _ Htok)).
  pose proof (remaining_consumed _ _ Htok) as Hc.
  assert (∀ v : Value, fine 1 (bind consume (λ _, ret v) st) st) as Hliteral.
  { intros v. rewrite (bind_Ret _ _ _ _ _ (consume_eq _)). unfold fine, ret. cbn. lia. }
  destruct (Token.type tok) eqn:Htype; try done.
  - (* an identifier *)
    destruct (Token.value tok) as [|name| | |] eqn:Hvalue;
      try (split; [done|]; intros Hall;
           destruct (proj1 (Forall_lookup _ _) Hall _ _ Htok Htype) as [? ?]; congruence).
    rewrite (bind_Ret _ _ _ _ _ (consume_eq _)).
    eapply (fine_weaken 0 1 _ (consumed st)); [|lia].
    apply (fine_bind 0 0); [apply fine_currentToken|].
    intros next st' [-> Hnext]%defined_inv; [|done].
    case_bool_decide;
      [|destruct (variables !! name); [apply fine_ret|by destruct (JS.inPrototype name)]].
    unfold ExpressionEvaluator.parseFunctionCall.
    rewrite (bind_Ret _ _ _ _ _ (consume_eq _)).
    pose proof (remaining_consumed _ _ Hnext) as Hc2.
    eapply (fine_weaken 0 0 _ (consumed (consumed st))); [|lia].
    apply (fine_bind 0 0); [apply (parseArguments_fine rec R); [done|lia..]|].
    intros args st1 _.
    apply (fine_bind 0 0); [apply fine_currentToken|].
    intros closing st' [-> Hclosing]%defined_inv; [|done].
    case_bool_decide.
    + rewrite (bind_Ret _ _ _ _ _ (consume_eq _)).
      pose proof (remaining_consumed _ _ Hclosing).
      eapply (fine_weaken 0 0 _ (consumed st1)); [|lia].
      destruct (functions !! name); [apply call_fine|by destruct (JS.inPrototype name)].
    + rewrite (bind_Ret (ret None) _ _ None _ eq_refl).
      destruct (functions !! name); [apply call_fine|by destruct (JS.inPrototype name)].
  - (* a parenthesis *)
    rewrite (bind_Ret _ _ _ _ _ (consume_eq _)).
    eapply (fine_weaken 1 1 _ (consumed st)); [|lia].
    apply (fine_bind 1 0 rec); [apply Hrec; lia|].
    intros value st1 _.
    apply (fine_bind 0 0); [apply fine_currentToken|].
    intros closing st' [-> Hclosing]%defined_inv; [|done].
    case_bool_decide.
    + rewrite (bind_Ret _ _ _ _ _ (consume_eq _)).
      pose proof (remaining_consumed _ _ Hclosing).
      unfold fine, ret. cbn. lia.
    + rewrite (bind_Ret (ret None) _ _ None _ eq_refl). apply fine_ret.
Qed.

Lemma level_safe continues combine operand fuel R :
  safe R operand → (R ≤ fuel)%nat →
  safe R (bind operand (leftAssoc continues combine operand fuel)).
Proof.
  intros Hop Hfuel st HR.
  apply (fine_bind 1 0); [by apply Hop|].
  intros left st1 Hleft.
  pose proof (Hop st HR) as H1. rewrite Hleft in H1. unfold fine in H1. cbn in H1.
  apply (leftAssoc_fine _ _ _ R); [done|lia..].
Qed.

Lemma parseComparison_safe fuel rec R :
  safe R (ExpressionEvaluator.parseAdditive tokens variables functions fuel rec) →
  safe R (ExpressionEvaluator.parseComparison tokens variables functions fuel rec).
Proof.
  intros Hadd st HR. unfold ExpressionEvaluator.parseComparison.
  apply (fine_bind 1 0); [by apply Hadd|].
  intros left st1 Hleft.
  pose proof (Hadd st HR) as H1. rewrite Hleft in H1. unfold fine in H1. cbn in H1.
  apply (fine_bind 0 0); [apply fine_currentToken|].
  intros tok st' [-> Htok]%defined_inv; [|done].
  destruct (Token.type tok); try apply fine_ret.
  destruct (Token.value tok) as [|op| | |]; try apply fine_ret.
  destruct (isComparisonOperator op); [|apply fine_ret].
  rewrite (bind_Ret _ _ _ _ _ (consume_eq _)).
  pose proof (remaining_consumed _ _ Htok).
  eapply (fine_weaken 1 0 _ (consumed st1)); [|lia].
  apply (fine_bind 1 0); [apply Hadd; lia|].
  intros right st2 _. apply fine_lift.
Qed.

Lemma parseNot_fine fuel rec R :
  safe R (ExpressionEvaluator.parseComparison tokens variables functions fuel rec) →
  ∀ depth st,
    (remaining st < depth)%nat → (remaining st < R)%nat →
    fine 1 (ExpressionEvaluator.parseNot tokens variables functions fuel rec depth st) st.
Proof.
  intros Hcmp. induction depth as [|depth IH]; intros st Hd HR; [lia|].
  cbn [ExpressionEvaluator.parseNot].
  destruct (tokens !! currentTokenIndex st) as [tok|] eqn:Htok.
  2:{ by rewrite (bind_Throw _ _ _ _ _ (defined_currentToken_None _ Htok)). }
  rewrite (bind_Ret _ _ _ _ _ (defined_currentToken _ _ Htok)).
  destruct (tokenIs IDENTIFIER "not" tok); [|by apply Hcmp].
  rewrite (bind_Ret _ _ _ _ _ (consume_eq _)).
  pose proof (remaining_consumed _ _ Htok).
  eapply (fine_weaken 1 1 _ (consumed st)); [|lia].
  apply (fine_bind 1 0); [apply IH; lia|].
  intros operand st1 _. apply fine_ret.
Qed.

(** One unit of fuel more than the tokens left is enough for [parseOr]. *)
Theorem parseOr_enough_fuel fuel : safe fuel (parseOr fuel).
Proof.
  induction fuel as [|fuel IH]; [intros st ?; lia|].
  rewrite parseOr_S. unfold parseOr_body, ExpressionEvaluator.parseAnd.
  apply level_safe; [|done]. apply level_safe; [|done].
  intros st HR. apply (parseNot_fine _ _ (S fuel)); [|done..].
  apply parseComparison_safe.
  unfold ExpressionEvaluator.parseAdditive. apply level_safe; [|done].
  unfold ExpressionEvaluator.parseMultiplicative. apply level_safe; [|done].
  apply parsePrimary_safe; [done|lia].
Qed.

(** An evaluation never runs out of fuel, and it is stuck only on an
    IDENTIFIER token whose payload is not a string. *)
Theorem run_answers w :
  match (run w).1 with
  | Ret _ | Throw _ | Inherited _ => True
  | Gap g => g = NotAString ∧ ¬ Forall typed tokens
  end.
Proof.
  rewrite run_eq.
  pose proof (parseOr_enough_fuel (S (length tokens)) (mk 0 w)) as H.
  unfold fine, remaining in H. cbn [currentTokenIndex] in H.
  destruct (parseOr _ _).1; try done. apply H. lia.
Qed.

End EvaluatorFacts.

(** ** Evaluations of a text have no gap *)

Lemma scanned_typed tokens last :
  Forall Tokenizer.scanned tokens → Token.type last = EOF →
  Forall ExpressionEvaluator.typed (tokens ++ [last]).
Proof.
  intros Hall Hlast. apply Forall_app. split.
  - eapply Forall_impl; [exact Hall|]. by intros tok [_ ?].
  - constructor; [|done]. intros H. by rewrite Hlast in H.
Qed.

(** On the tokens of a text, the embedding has no gap: the fuel is
    enough and every identifier carries a string. *)
Lemma run_tokenized_answers {W} expression tokens variables
    (functions : gmap string (Callable W)) w :
  Tokenizer.tokenize expression = Some tokens →
  ∀ g, (ExpressionEvaluator.run tokens variables functions w).1 ≠ Gap g.
Proof.
  intros Htokens g Hgap.
  destruct (TokenizerFacts.run_spec expression) as (toks & log & Hrun & Hall).
  unfold Tokenizer.tokenize in Htokens. rewrite Hrun in Htokens.
  injection Htokens as <-.
  pose proof (run_answers (toks ++ [Token.mk EOF (VString EmptyString)
                 (length (JS.trim (list_ascii_of_string expression)))])
                variables functions w) as H.
  rewrite Hgap in H. destruct H as [_ H]. apply H. by apply scanned_typed.
Qed.

Theorem evaluate_answers expression variables g : evaluate expression variables ≠ Gap g.
Proof.
  unfold evaluate.
  destruct (TokenizerFacts.run_spec expression) as (toks & log & Hrun & Hall).
  destruct (Tokenizer.tokenize expression) as [tokens|] eqn:Htokens.
  - by apply (run_tokenized_answers expression).
  - unfold Tokenizer.tokenize in Htokens. by rewrite Hrun in Htokens.
Qed.

Theorem Parser_evaluate_answers {W} (parser : Parser.t W) expression variables w g :
  (Parser.evaluate parser expression variables w).1 ≠ Gap g.
Proof.
  unfold Parser.evaluate, Parser.parse.
  destruct (String.eqb expression EmptyString); [done|].
  destruct (TokenizerFacts.run_spec expression) as (toks & log & Hrun & Hall).
  destruct (Tokenizer.tokenize expression) as [tokens|] eqn:Htokens.
  - pose proof (run_tokenized_answers expression tokens
                  (default ∅ variables ∪ Parser.consts parser)
                  (Parser.functions parser) w Htokens g) as H.
    by destruct (ExpressionEvaluator.run _ _ _ _) as [[?|?|?|?] ?].
  - unfold Tokenizer.tokenize in Htokens. by rewrite Hrun in Htokens.
Qed.

(** * The claims *)

(** C1. Standard precedence and left associativity: every token list
    derived by the grammar of arithmetic expressions (the multiplicative
    operators below the additive ones, both left recursive, parentheses
    around any expression) evaluates to the value of its parse tree, and
    the four expressions of the specification evaluate to 14, 20, 25 and
    5. *)
Theorem precedence_and_associativity :
  (∀ (W : Type) (tokens : list Token) (variables : Values)
     (functions : gmap string (Callable W)) ts e last post (w : W),
      parses Additive ts e → quiet last = true → tokens = ts ++ last :: post →
      ExpressionEvaluator.run tokens variables functions w
      = (Ret (denote e), ExpressionEvaluator.mk (length ts) w))
  ∧ evaluate "2 + 3 * 4" None = Ret (num 14)
  ∧ evaluate "(2 + 3) * 4" None = Ret (num 20)
  ∧ evaluate "100 - 50 - 25" None = Ret (num 25)
  ∧ evaluate "100 / 10 / 2" None = Ret (num 5).
Proof.
  split; [intros; by eapply run_arithmetic|].
  repeat split; by vm_compute.
Qed.

Lemma precedence_and_associativity_witness :
  Tokenizer.tokenize "2 + 3 * 4" = Some tokens_2_plus_3_times_4
  ∧ ExpressionEvaluator.run (W := unit) tokens_2_plus_3_times_4 ∅ ∅ tt
    = (Ret (denote (Bin Add (Lit (num 2)) (Bin Mul (Lit (num 3)) (Lit (num 4))))),
       ExpressionEvaluator.mk 5 tt)
  ∧ denote (Bin Add (Lit (num 2)) (Bin Mul (Lit (num 3)) (Lit (num 4)))) = num 14.
Proof.
  split; [reflexivity|]. split; [|reflexivity].
  apply (proj1 precedence_and_associativity unit tokens_2_plus_3_times_4 ∅ ∅
           (take 5 tokens_2_plus_3_times_4)
           (Bin Add (Lit (num 2)) (Bin Mul (Lit (num 3)) (Lit (num 4))))
           (Token.mk EOF (VString EmptyString) 9) [] tt).
  - apply (parses_additive [Token.mk NUMBER (num 2) 0]
             (Token.mk OPERATOR (VString "+") 2)
             [Token.mk NUMBER (num 3) 4; Token.mk OPERATOR (VString "*") 6;
              Token.mk NUMBER (num 4) 8]
             Add (Lit (num 2)) (Bin Mul (Lit (num 3)) (Lit (num 4)))).
    + apply parses_term, parses_primary.
      apply (parses_literal (Token.mk NUMBER (num 2) 0)). reflexivity.
    + reflexivity.
    + apply (parses_multiplicative [Token.mk NUMBER (num 3) 4]
               (Token.mk OPERATOR (VString "*") 6) [Token.mk NUMBER (num 4) 8]
               Mul (Lit (num 3)) (Lit (num 4))).
      * apply parses_primary.
        apply (parses_literal (Token.mk NUMBER (num 3) 4)). reflexivity.
      * reflexivity.
      * apply (parses_literal (Token.mk NUMBER (num 4) 8)). reflexivity.
  - reflexivity.
  - reflexivity.
Defined.

(** C2 (amended). [==] and [!=] compare the two raw operand values by
    loose equality, without [toNumber] or [toBool] ([true == 1] is true,
    ['abc' == 0] and [2 == true] are false); the ordering operators coerce
    both operands through [toNumber] (["b" > "a"] compares [0 > 0] and is
    false), and a numeric string coerces to its number, so ["10" > "9"]
    compares [10 > 9] and is true. *)
Theorem equality_is_raw_ordering_is_numeric :
  (∀ (W : Type) (tokens : list Token) (variables : Values)
     (functions : gmap string (Callable W)) left cmp op right last post (w : W),
      isLiteral left = true → isLiteral right = true →
      Token.type cmp = OPERATOR → Token.value cmp = VString op →
      isComparisonOperator op = true → Token.type last = EOF →
      tokens = left :: cmp :: right :: last :: post →
      ExpressionEvaluator.run tokens variables functions w
      = (compare (Token.value left) op (Token.value right), ExpressionEvaluator.mk 3 w))
  ∧ (∀ l r, compare l "==" r = Ret (VBoolean (looseEq l r))
            ∧ compare l "!=" r = Ret (VBoolean (negb (looseEq l r))))
  ∧ (∀ l r, compare l ">" r = Ret (VBoolean (JS.ltb (toNumber r) (toNumber l)))
            ∧ compare l "<" r = Ret (VBoolean (JS.ltb (toNumber l) (toNumber r)))
            ∧ compare l ">=" r = Ret (VBoolean (JS.leb (toNumber r) (toNumber l)))
            ∧ compare l "<=" r = Ret (VBoolean (JS.leb (toNumber l) (toNumber r))))
  ∧ evaluate "true == 1" None = Ret (VBoolean true)
  ∧ (evaluate "'abc' == 0" None = Ret (VBoolean false)
     ∧ JS.eqb (toNumber (VString "abc")) (toNumber (num 0)) = true)
  ∧ (evaluate "2 == true" None = Ret (VBoolean false)
     ∧ toBool (num 2) = toBool (VBoolean true))
  ∧ (evaluate (quoted "b" +:+ " > " +:+ quoted "a") None = Ret (VBoolean false)
     ∧ toNumber (VString "b") = JS.ofZ 0 ∧ toNumber (VString "a") = JS.ofZ 0)
  ∧ (evaluate (quoted "10" +:+ " > " +:+ quoted "9") None = Ret (VBoolean true)
     ∧ toNumber (VString "10") = JS.ofZ 10 ∧ toNumber (VString "9") = JS.ofZ 9).
Proof.
  split.
  { intros W tokens variables functions left cmp op right last post w
      Hl Hr Htype Hvalue Hop Hlast ->.
    apply (run_comparison _ variables functions [left] (Lit (Token.value left)) cmp op
             [right] (Lit (Token.value right)) last post w); try done.
    - by apply parses_term, parses_primary, parses_literal.
    - by apply parses_term, parses_primary, parses_literal.
    - apply type_not_multiplicative. by rewrite Hlast.
    - apply type_not_multiplicative. by rewrite Hlast.
    - unfold tokenIs. by rewrite Hlast.
    - unfold tokenIs. by rewrite Hlast. }
  repeat split; by vm_compute.
Qed.

Lemma equality_is_raw_ordering_is_numeric_witness :
  Tokenizer.tokenize "true == 1" = Some tokens_true_eq_1
  ∧ ExpressionEvaluator.run (W := unit) tokens_true_eq_1 ∅ ∅ tt
    = (compare (VBoolean true) "==" (num 1), ExpressionEvaluator.mk 3 tt)
  ∧ compare (VBoolean true) "==" (num 1) = Ret (VBoolean true).
Proof.
  split; [reflexivity|]. split; [|reflexivity].
  apply (proj1 equality_is_raw_ordering_is_numeric unit tokens_true_eq_1 ∅ ∅
           (Token.mk BOOLEAN (VBoolean true) 0) (Token.mk OPERATOR (VString "==") 5) "=="
           (Token.mk NUMBER (num 1) 8) (Token.mk EOF (VString EmptyString) 9) [] tt);
    reflexivity.
Defined.

(** Against C2 as stated: ["10" > "9"] does not evaluate to false; both
    strings coerce to their numbers, not toward 0. *)
Lemma string_ordering_counterexample :
  evaluate (quoted "10" +:+ " > " +:+ quoted "9") None = Ret (VBoolean true)
  ∧ evaluate (quoted "10" +:+ " > " +:+ quoted "9") None ≠ Ret (VBoolean false)
  ∧ toNumber (VString "10") ≠ JS.ofZ 0.
Proof. repeat split; by vm_compute. Qed.

Section NoShortCircuit.

Context {W : Type}.
Variable tokens : list Token.
Variable variables : Values.
Variable functions : gmap string (Callable W).

Local Abbreviation parseOr := (ExpressionEvaluator.parseOr tokens variables functions).
Local Abbreviation parseNot n :=
  (ExpressionEvaluator.parseNot tokens variables functions (S n) (parseOr n) (S n)).
Local Abbreviation parseAnd n :=
  (ExpressionEvaluator.parseAnd tokens variables functions (S n) (parseOr n)).
Local Abbreviation run := (ExpressionEvaluator.run tokens variables functions).
Local Abbreviation currentTokenIndex := ExpressionEvaluator.currentTokenIndex.
Local Abbreviation consumed := ExpressionEvaluator.consumed.
Local Abbreviation mk := ExpressionEvaluator.mk.
Local Abbreviation bind := ExpressionEvaluator.bind.
Local Abbreviation ret := ExpressionEvaluator.ret.
Local Abbreviation call := ExpressionEvaluator.call.

(** C3. [or] and [and] do not short-circuit. In an evaluator whose
    [parseOr] has more than [n] units of fuel: when the left operand has
    returned [l] and the cursor is on [or], the right operand runs
    whatever [l] is; if it throws, so does [parseOr], and if it returns
    [r] before a token that is not [or], [parseOr] returns the Boolean
    [toBool l || toBool r]. The same holds for [and] in [parseAnd],
    with [&&]. For a whole token list [L or name(arguments)] or
    [L and name(arguments)] with an arithmetic [L], the function is
    applied to the host state whatever [L] is. With a name that the
    variables have no entry for as right operand, the name is looked up
    whatever [L] is: the evaluation fails with [Undefined variable] when
    [Object.prototype] does not define the name, and otherwise goes on
    with the inherited member, where the embedding stops. *)
Theorem logical_operators_do_not_short_circuit :
  (∀ n st l st1 kw e st2,
      parseAnd n st = (Ret l, st1) →
      tokens !! currentTokenIndex st1 = Some kw →
      tokenIs IDENTIFIER "or" kw = true →
      parseAnd n (consumed st1) = (Throw e, st2) →
      parseOr (S n) st = (Throw e, st2))
  ∧ (∀ n st l st1 kw r st2 next,
      parseAnd (S n) st = (Ret l, st1) →
      tokens !! currentTokenIndex st1 = Some kw →
      tokenIs IDENTIFIER "or" kw = true →
      parseAnd (S n) (consumed st1) = (Ret r, st2) →
      tokens !! currentTokenIndex st2 = Some next →
      tokenIs IDENTIFIER "or" next = false →
      parseOr (S (S n)) st = (Ret (VBoolean (toBool l || toBool r)), st2))
  ∧ (∀ n st l st1 kw e st2,
      parseNot n st = (Ret l, st1) →
      tokens !! currentTokenIndex st1 = Some kw →
      tokenIs IDENTIFIER "and" kw = true →
      parseNot n (consumed st1) = (Throw e, st2) →
      parseAnd n st = (Throw e, st2))
  ∧ (∀ n st l st1 kw r st2 next,
      parseNot (S n) st = (Ret l, st1) →
      tokens !! currentTokenIndex st1 = Some kw →
      tokenIs IDENTIFIER "and" kw = true →
      parseNot (S n) (consumed st1) = (Ret r, st2) →
      tokens !! currentTokenIndex st2 = Some next →
      tokenIs IDENTIFIER "and" next = false →
      parseAnd (S n) st = (Ret (VBoolean (toBool l && toBool r)), st2))
  ∧ (∀ tsL L kw ident name opening ats es closing last post f w,
      parses Additive tsL L →
      Token.type ident = IDENTIFIER → Token.value ident = VString name →
      name ≠ "not" → Token.type opening = PAREN_OPEN →
      arguments ats es →
      Forall (λ tok, Token.type tok = PAREN_CLOSE) closing → (length closing ≤ 1)%nat →
      Token.type last = EOF →
      functions !! name = Some f →
      tokens = tsL ++ kw :: ident :: opening :: ats ++ closing ++ last :: post →
      (tokenIs IDENTIFIER "or" kw = true →
       run w = bind (call f (map denote es))
                 (λ r, ret (VBoolean (toBool (denote L) || toBool r)))
                 (mk (length tsL + 3 + length ats + length closing) w))
      ∧ (tokenIs IDENTIFIER "and" kw = true →
         run w = bind (call f (map denote es))
                   (λ r, ret (VBoolean (toBool (denote L) && toBool r)))
                   (mk (length tsL + 3 + length ats + length closing) w)))
  ∧ (∀ tsL L kw ident name next post w,
      parses Additive tsL L →
      tokenIs IDENTIFIER "or" kw = true ∨ tokenIs IDENTIFIER "and" kw = true →
      Token.type ident = IDENTIFIER → Token.value ident = VString name →
      name ≠ "not" → Token.type next ≠ PAREN_OPEN →
      variables !! name = None →
      tokens = tsL ++ kw :: ident :: next :: post →
      run w = (if JS.inPrototype name then Inherited (As_variable name)
               else Throw (Undefined_variable name), mk (length tsL + 2) w))
  ∧ evaluate "true or x" None = Throw (Undefined_variable "x")
  ∧ evaluate "false and x" None = Throw (Undefined_variable "x")
  ∧ evaluate "true or constructor" None = Inherited (As_variable "constructor")
  ∧ evaluate "0 or 'a'" None = Ret (VBoolean true)
  ∧ evaluate "2 and 3" None = Ret (VBoolean true)
  ∧ Parser.evaluate (Parser.mk {[ "f" := recording (VBoolean false) ]} ∅)
      "true or f(1)" None []
    = (Ret (VBoolean true), [[num 1]])
  ∧ Parser.evaluate (Parser.mk {[ "f" := recording (VBoolean true) ]} ∅)
      "false and f(1)" None []
    = (Ret (VBoolean false), [[num 1]]).
Proof.
  split_and!.
  - intros; by eapply parseOr_right_Throw.
  - intros; by eapply parseOr_right_Ret.
  - intros; by eapply parseAnd_right_Throw.
  - intros; by eapply parseAnd_right_Ret.
  - intros tsL L kw ident name opening ats es closing last post f w
      HL Hident Hname Hne Hopen Hargs Hclosing Hlen Hlast Hf Htokens.
    split; intros Hkw.
    + by eapply (run_or_call tokens variables functions tsL L kw ident opening name).
    + by eapply (run_and_call tokens variables functions tsL L kw ident opening name).
  - intros; by eapply run_logical_undefined.
  - by vm_compute.
  - by vm_compute.
  - by vm_compute.
  - by vm_compute.
  - by vm_compute.
  - by vm_compute.
  - by vm_compute.
Qed.

End NoShortCircuit.

Lemma logical_operators_do_not_short_circuit_witness :
  (Tokenizer.tokenize "true or x" = Some tokens_true_or_x
   ∧ ExpressionEvaluator.parseOr (W := unit) tokens_true_or_x ∅ ∅ 5
       (ExpressionEvaluator.mk 0 tt)
     = (Throw (Undefined_variable "x"), ExpressionEvaluator.mk 3 tt))
  ∧ (Tokenizer.tokenize "0 or 'a'" = Some tokens_0_or_a
     ∧ ExpressionEvaluator.parseOr (W := unit) tokens_0_or_a ∅ ∅ 5
         (ExpressionEvaluator.mk 0 tt)
       = (Ret (VBoolean (toBool (num 0) || toBool (VString "a"))),
          ExpressionEvaluator.mk 3 tt))
  ∧ (Tokenizer.tokenize "false and x" = Some tokens_false_and_x
     ∧ ExpressionEvaluator.parseAnd (W := unit) tokens_false_and_x ∅ ∅ 5
         (ExpressionEvaluator.parseOr tokens_false_and_x ∅ ∅ 4)
         (ExpressionEvaluator.mk 0 tt)
       = (Throw (Undefined_variable "x"), ExpressionEvaluator.mk 3 tt))
  ∧ (Tokenizer.tokenize "2 and 3" = Some tokens_2_and_3
     ∧ ExpressionEvaluator.parseAnd (W := unit) tokens_2_and_3 ∅ ∅ 5
         (ExpressionEvaluator.parseOr tokens_2_and_3 ∅ ∅ 4)
         (ExpressionEvaluator.mk 0 tt)
       = (Ret (VBoolean (toBool (num 2) && toBool (num 3))),
          ExpressionEvaluator.mk 3 tt))
  ∧ (Tokenizer.tokenize "true or f(1)" = Some tokens_true_or_f_1
     ∧ ExpressionEvaluator.run tokens_true_or_f_1 ∅
         {[ "f" := recording (VBoolean false) ]} []
       = (Ret (VBoolean true), ExpressionEvaluator.mk 6 [[num 1]]))
  ∧ ExpressionEvaluator.run (W := unit) tokens_true_or_x ∅ ∅ tt
    = (Throw (Undefined_variable "x"), ExpressionEvaluator.mk 3 tt).
Proof.
  split_and!.
  - reflexivity.
  - apply (proj1 (logical_operators_do_not_short_circuit tokens_true_or_x ∅ ∅) 4
             (ExpressionEvaluator.mk 0 tt) (VBoolean true) (ExpressionEvaluator.mk 1 tt)
             (Token.mk IDENTIFIER (VString "or") 5)); reflexivity.
  - reflexivity.
  - apply (proj1 (proj2 (logical_operators_do_not_short_circuit tokens_0_or_a ∅ ∅)) 3
             (ExpressionEvaluator.mk 0 tt) (num 0) (ExpressionEvaluator.mk 1 tt)
             (Token.mk IDENTIFIER (VString "or") 2) (VString "a")
             (ExpressionEvaluator.mk 3 tt) (Token.mk EOF (VString EmptyString) 8));
      reflexivity.
  - reflexivity.
  - apply (proj1 (proj2 (proj2 (logical_operators_do_not_short_circuit
                                  tokens_false_and_x ∅ ∅))) 4
             (ExpressionEvaluator.mk 0 tt) (VBoolean false) (ExpressionEvaluator.mk 1 tt)
             (Token.mk IDENTIFIER (VString "and") 6)); reflexivity.
  - reflexivity.
  - apply (proj1 (proj2 (proj2 (proj2 (logical_operators_do_not_short_circuit
                                         tokens_2_and_3 ∅ ∅)))) 3
             (ExpressionEvaluator.mk 0 tt) (num 2) (ExpressionEvaluator.mk 1 tt)
             (Token.mk IDENTIFIER (VString "and") 2) (num 3)
             (ExpressionEvaluator.mk 3 tt) (Token.mk EOF (VString EmptyString) 7));
      reflexivity.
  - reflexivity.
  - refine (proj1 (proj1 (proj2 (proj2 (proj2 (proj2
              (logical_operators_do_not_short_circuit tokens_true_or_f_1 ∅
                 {[ "f" := recording (VBoolean false) ]})))))
              [Token.mk BOOLEAN (VBoolean true) 0] (Lit (VBoolean true))
              (Token.mk IDENTIFIER (VString "or") 5) (Token.mk IDENTIFIER (VString "f") 8)
              "f" (Token.mk PAREN_OPEN (VString "(") 9)
              [Token.mk NUMBER (num 1) 10] [Lit (num 1)]
              [Token.mk PAREN_CLOSE (VString ")") 11]
              (Token.mk EOF (VString EmptyString) 12) []
              (recording (VBoolean false)) [] _ eq_refl eq_refl _ eq_refl _ _ _
              eq_refl eq_refl eq_refl) eq_refl).
    + apply parses_term, parses_primary.
      apply (parses_literal (Token.mk BOOLEAN (VBoolean true) 0)). reflexivity.
    + intros H; discriminate H.
    + apply (arguments_cons [Token.mk NUMBER (num 1) 10] (Lit (num 1)) [] [] []).
      * apply parses_term, parses_primary.
        apply (parses_literal (Token.mk NUMBER (num 1) 10)). reflexivity.
      * constructor.
      * apply le_S, le_n.
      * constructor.
    + constructor; [reflexivity|constructor].
    + apply le_n.
  - refine (proj1 (proj2 (proj2 (proj2 (proj2 (proj2
              (logical_operators_do_not_short_circuit tokens_true_or_x ∅ ∅))))))
              [Token.mk BOOLEAN (VBoolean true) 0] (Lit (VBoolean true))
              (Token.mk IDENTIFIER (VString "or") 5) (Token.mk IDENTIFIER (VString "x") 8)
              "x" (Token.mk EOF (VString EmptyString) 9) [] tt _ (or_introl eq_refl)
              eq_refl eq_refl _ _ eq_refl eq_refl).
    + apply parses_term, parses_primary.
      apply (parses_literal (Token.mk BOOLEAN (VBoolean true) 0)). reflexivity.
    + intros H; discriminate H.
    + intros H; discriminate H.
Defined.

(** C4. Comparisons do not chain. The comparison level reads one
    operator and its two operands and returns that comparison without
    looking at the token that follows; for two arithmetic operands the
    whole evaluation returns the comparison and stops in front of the
    next token, which may be another comparison operator. [1 < 2 < 3]
    raises nothing and returns the Boolean true of [1 < 2]; the cursor
    stops at index 3, on the second [<], and the tokens from there on
    are ignored. *)
Theorem comparisons_do_not_chain :
  (∀ (W : Type) (tokens : list Token) (variables : Values)
     (functions : gmap string (Callable W)) n st l st1 cmp op r st2,
      ExpressionEvaluator.parseAdditive tokens variables functions (S n)
        (ExpressionEvaluator.parseOr tokens variables functions n) st = (Ret l, st1) →
      tokens !! ExpressionEvaluator.currentTokenIndex st1 = Some cmp →
      Token.type cmp = OPERATOR → Token.value cmp = VString op →
      isComparisonOperator op = true →
      ExpressionEvaluator.parseAdditive tokens variables functions (S n)
        (ExpressionEvaluator.parseOr tokens variables functions n)
        (ExpressionEvaluator.consumed st1) = (Ret r, st2) →
      ExpressionEvaluator.parseComparison tokens variables functions (S n)
        (ExpressionEvaluator.parseOr tokens variables functions n) st
      = (compare l op r, st2))
  ∧ (∀ (W : Type) (tokens : list Token) (variables : Values)
       (functions : gmap string (Callable W)) ts1 L cmp op ts2 R next post (w : W),
      parses Additive ts1 L →
      Token.type cmp = OPERATOR → Token.value cmp = VString op →
      isComparisonOperator op = true →
      parses Additive ts2 R →
      Token.type next = OPERATOR →
      (∃ op', Token.value next = VString op' ∧ isComparisonOperator op' = true) →
      tokens = ts1 ++ cmp :: ts2 ++ next :: post →
      ExpressionEvaluator.run tokens variables functions w
      = (compare (denote L) op (denote R),
         ExpressionEvaluator.mk (length ts1 + 1 + length ts2) w))
  ∧ Tokenizer.tokenize "1 < 2 < 3" = Some tokens_1_lt_2_lt_3
  ∧ ExpressionEvaluator.run (W := unit) tokens_1_lt_2_lt_3 ∅ ∅ tt
    = (Ret (VBoolean true), ExpressionEvaluator.mk 3 tt)
  ∧ tokens_1_lt_2_lt_3 !! 3%nat = Some (Token.mk OPERATOR (VString "<") 6)
  ∧ evaluate "1 < 2 < 3" None = Ret (VBoolean true).
Proof.
  split_and!.
  - intros; by eapply parseComparison_single.
  - intros W tokens variables functions ts1 L cmp op ts2 R next post w
      HL Htype Hvalue Hop HR Hnext (op' & Hvalue' & Hop') Htokens.
    destruct (comparison_not_arithmetic next op' Hvalue' Hop') as [? ?].
    apply (run_comparison tokens variables functions ts1 L cmp op ts2 R next post w);
      try done; unfold tokenIs; by rewrite Hnext.
  - reflexivity.
  - by vm_compute.
  - reflexivity.
  - by vm_compute.
Qed.

Lemma comparisons_do_not_chain_witness :
  ExpressionEvaluator.parseComparison (W := unit) tokens_1_lt_2_lt_3 ∅ ∅ 6
    (ExpressionEvaluator.parseOr tokens_1_lt_2_lt_3 ∅ ∅ 5) (ExpressionEvaluator.mk 0 tt)
  = (compare (num 1) "<" (num 2), ExpressionEvaluator.mk 3 tt)
  ∧ ExpressionEvaluator.run (W := unit) tokens_1_lt_2_lt_3 ∅ ∅ tt
    = (compare (denote (Lit (num 1))) "<" (denote (Lit (num 2))),
       ExpressionEvaluator.mk 3 tt).
Proof.
  split.
  - apply (proj1 comparisons_do_not_chain unit tokens_1_lt_2_lt_3 ∅ ∅ 5
             (ExpressionEvaluator.mk 0 tt) (num 1) (ExpressionEvaluator.mk 1 tt)
             (Token.mk OPERATOR (VString "<") 2) "<" (num 2)
             (ExpressionEvaluator.mk 3 tt)); reflexivity.
  - apply (proj1 (proj2 comparisons_do_not_chain) unit tokens_1_lt_2_lt_3 ∅ ∅
             [Token.mk NUMBER (num 1) 0] (Lit (num 1))
             (Token.mk OPERATOR (VString "<") 2) "<"
             [Token.mk NUMBER (num 2) 4] (Lit (num 2))
             (Token.mk OPERATOR (VString "<") 6)
             [Token.mk NUMBER (num 3) 8; Token.mk EOF (VString EmptyString) 9] tt).
    + apply parses_term, parses_primary.
      apply (parses_literal (Token.mk NUMBER (num 1) 0)). reflexivity.
    + reflexivity.
    + reflexivity.
    + reflexivity.
    + apply parses_term, parses_primary.
      apply (parses_literal (Token.mk NUMBER (num 2) 4)). reflexivity.
    + reflexivity.
    + exists "<". split; reflexivity.
    + reflexivity.
Defined.

(** C5. The fusion of [-] with the digits that follow. When the scanner
    is on a [-] followed by a digit, it appends one negated Number token
    (positioned at the digit) exactly when no token precedes or the
    preceding token is an open parenthesis, an operator or a comma; after
    any other token it appends the operator [-]. [5-3] and [(-3) + 5]
    evaluate to 2, and a [-] after an identifier or a closing parenthesis
    subtracts. *)
Theorem negative_number_fusion :
  (∀ s tokens log d rest,
      Tokenizer.pending s = "-"%char :: d :: rest → JS.isDigit d = true →
      let '(numStr, s') :=
        Tokenizer.number_from (d :: rest) EmptyString (S (Tokenizer.position s)) in
      Tokenizer.scan "-" s tokens log
      = match Tokenizer.lastType tokens with
        | None | Some PAREN_OPEN | Some OPERATOR | Some COMMA =>
            (s', tokens ++ [Token.mk NUMBER (VNumber (JS.neg (JS.parseFloat numStr)))
                              (S (Tokenizer.position s))], log)
        | Some _ =>
            (Tokenizer.advance s,
             tokens ++ [Token.mk OPERATOR (VString "-") (Tokenizer.position s)], log)
        end)
  ∧ Tokenizer.tokenize "5-3"
    = Some [Token.mk NUMBER (num 5) 0; Token.mk OPERATOR (VString "-") 1;
            Token.mk NUMBER (num 3) 2; Token.mk EOF (VString EmptyString) 3]
  ∧ Tokenizer.tokenize "(-3)"
    = Some [Token.mk PAREN_OPEN (VString "(") 0; Token.mk NUMBER (num (-3)) 2;
            Token.mk PAREN_CLOSE (VString ")") 3; Token.mk EOF (VString EmptyString) 4]
  ∧ evaluate "5-3" None = Ret (num 2)
  ∧ evaluate "(-3) + 5" None = Ret (num 2)
  ∧ evaluate "x-3" (Some {[ "x" := num 5 ]}) = Ret (num 2)
  ∧ evaluate "(5)-3" None = Ret (num 2)
  ∧ evaluate "5 - -3" None = Ret (num 8).
Proof.
  split_and!; try by vm_compute.
  intros s tokens log d rest Hpending Hdigit.
  destruct (Tokenizer.number_from (d :: rest) EmptyString (S (Tokenizer.position s)))
    as [numStr s'] eqn:Hnumber.
  unfold Tokenizer.scan.
  replace (JS.isDigit "-") with false by reflexivity.
  unfold Tokenizer.startsNegativeNumber, Tokenizer.currentChar, Tokenizer.peek.
  rewrite Hpending. cbn [head lookup list_lookup].
  replace (Tokenizer.isCode "-" 45) with true by reflexivity.
  rewrite Hdigit. cbn [andb].
  assert (Tokenizer.number (Tokenizer.advance s)
          = (Token.mk NUMBER (VNumber (JS.parseFloat numStr)) (S (Tokenizer.position s)), s'))
    as Hn.
  { unfold Tokenizer.number, Tokenizer.advance. rewrite Hpending.
    cbn [Tokenizer.pending Tokenizer.position tail]. by rewrite Hnumber. }
  assert (Tokenizer.operator "-" s
          = (Token.mk OPERATOR (VString "-") (Tokenizer.position s), Tokenizer.advance s))
    as Ho.
  { unfold Tokenizer.operator, Tokenizer.peek. rewrite Hpending. done. }
  destruct (Tokenizer.lastType tokens) as [[]|]; cbn [andb];
    first [by rewrite Hn | by rewrite ?Ho].
Qed.

Lemma negative_number_fusion_witness :
  Tokenizer.scan "-" (Tokenizer.new "-3") [] []
  = (Tokenizer.mk [] 2, [Token.mk NUMBER (num (-3)) 1], []).
Proof.
  exact (proj1 negative_number_fusion (Tokenizer.new "-3") [] [] "3"%char []
           eq_refl eq_refl).
Defined.

(** C6. For every expression text and every two variable maps, the
    function returned by [compile], applied to the first map and then to
    the second, returns the results of the two independent calls of
    [evaluate]: each application runs a new evaluator, from index 0, over
    the tokens made when [compile] was called, and nothing of the first
    application reaches the second; the order of the two applications
    does not matter. No application runs out of fuel or meets a token
    that the embedding cannot read. *)
Theorem compile_agrees_with_evaluate (expression : string) (v1 v2 : option Values) :
  (let fn := compile expression in
   let first := fn v1 in
   let second := fn v2 in
   (first, second)) = (evaluate expression v1, evaluate expression v2)
  ∧ (let fn := compile expression in
     let second := fn v2 in
     let first := fn v1 in
     (first, second)) = (evaluate expression v1, evaluate expression v2)
  ∧ (∃ tokens, Tokenizer.tokenize expression = Some tokens
       ∧ ∀ variables,
           compile expression variables
           = (ExpressionEvaluator.evaluate (W := unit) tokens (default ∅ variables) ∅
                (ExpressionEvaluator.mk 0 tt)).1)
  ∧ (∀ g, evaluate expression v1 ≠ Gap g ∧ evaluate expression v2 ≠ Gap g).
Proof.
  split_and!.
  - unfold compile, evaluate. by destruct (Tokenizer.tokenize expression).
  - unfold compile, evaluate. by destruct (Tokenizer.tokenize expression).
  - destruct (TokenizerFacts.run_spec expression) as (tokens & log & Hrun & _).
    assert (Tokenizer.tokenize expression = Some
              (tokens ++ [Token.mk EOF (VString EmptyString)
                            (length (JS.trim (list_ascii_of_string expression)))]))
      as Htokens by (unfold Tokenizer.tokenize; by rewrite Hrun).
    eexists. split; [exact Htokens|]. intros variables.
    unfold compile. by rewrite Htokens.
  - intros g. split; apply evaluate_answers.
Qed.

(** C7 (amended). The empty expression text returns the Boolean true,
    without tokenizing, through the two entry points of the facade,
    [Parser.parse(empty).evaluate(vars)] and [Parser.evaluate(empty, vars)],
    whatever the registered functions, the constants, the variables and
    the state of the host are, and the host is left as it was. *)
Theorem empty_expression (W : Type) (parser : Parser.t W) (variables : option Values) (w : W) :
  Parser.parse parser EmptyString variables w = (Ret (VBoolean true), w)
  ∧ Parser.evaluate parser EmptyString variables w = (Ret (VBoolean true), w).
Proof. by split. Qed.

(** Against C7 as stated: the standalone [evaluate] has no case for the
    empty text; it tokenizes it into the end-of-input token alone and
    throws [Unexpected token: EOF at position 0]. *)
Lemma standalone_empty_expression_counterexample :
  Tokenizer.tokenize EmptyString = Some [Token.mk EOF (VString EmptyString) 0]
  ∧ evaluate EmptyString None = Throw (Unexpected_token EOF 0)
  ∧ evaluate EmptyString None ≠ Ret (VBoolean true).
Proof. by split_and!. Qed.

(** C8. [tokenize] is total: on every input the main loop ends within
    its fuel and returns a token list, which is a function of the input.
    The list ends with one end-of-input token, placed at the length of the
    trimmed input, and holds no other end-of-input token. A character that
    starts no token is skipped: the scanner moves past it, appends no
    token and adds a warning to the log, as for the [#] of [2 # 3]. *)
Theorem tokenize_total (input : string) :
  ∃ tokens log,
    Tokenizer.run input
    = Some (tokens ++ [Token.mk EOF (VString EmptyString)
                         (length (JS.trim (list_ascii_of_string input)))], log)
    ∧ Tokenizer.tokenize input
      = Some (tokens ++ [Token.mk EOF (VString EmptyString)
                           (length (JS.trim (list_ascii_of_string input)))])
    ∧ Forall (λ tok, Token.type tok ≠ EOF) tokens
    ∧ (∀ result, Tokenizer.tokenize input = Some result →
         length (filter (λ tok, Token.type tok = EOF) result) = 1%nat
         ∧ Token.type <$> last result = Some EOF)
    ∧ (∀ c s toks warnings,
         JS.isDigit c = false →
         Tokenizer.isCode c 34 || Tokenizer.isCode c 39 = false →
         Tokenizer.isIdentifierStart c = false →
         Tokenizer.isCode c 40 || Tokenizer.isCode c 41 || Tokenizer.isCode c 44 = false →
         Tokenizer.isOperatorChar c = false →
         Tokenizer.currentChar s = Some c →
         Tokenizer.scan c s toks warnings
         = (Tokenizer.advance s, toks,
            warnings ++ [Tokenizer.Unknown_character (Tokenizer.position s) c]))
    ∧ Tokenizer.run "2 # 3"
      = Some ([Token.mk NUMBER (num 2) 0; Token.mk NUMBER (num 3) 4;
               Token.mk EOF (VString EmptyString) 5],
              [Tokenizer.Unknown_character 2 "#"]).
Proof.
  destruct (TokenizerFacts.run_spec input) as (tokens & log & Hrun & Hall).
  assert (Forall (λ tok, Token.type tok ≠ EOF) tokens) as Hno.
  { eapply Forall_impl; [exact Hall|]. by intros tok [? _]. }
  exists tokens, log. unfold Tokenizer.tokenize. rewrite Hrun.
  split_and!; try done.
  - intros result [= <-]. split.
    + rewrite filter_app, length_app.
      replace (filter (λ tok, Token.type tok = EOF) tokens) with (@nil Token); [done|].
      symmetry. clear -Hno. induction Hno as [|tok toks Htok _ IH]; [done|].
      rewrite filter_cons. by destruct (decide _).
    + by rewrite last_snoc.
  - intros c s toks warnings Hdigit Hquote Hident Hpunct Hop Hc.
    apply orb_false_iff in Hpunct as [Hpunct Hcomma].
    apply orb_false_iff in Hpunct as [Hopen Hclose].
    unfold Tokenizer.scan.
    rewrite Hdigit, Hquote, Hident, Hopen, Hclose, Hcomma, Hop.
    replace (Tokenizer.startsNegativeNumber s toks) with false; [done|].
    unfold Tokenizer.startsNegativeNumber. rewrite Hc.
    destruct (Tokenizer.peek s); [|done].
    replace (Tokenizer.isCode c 45) with false; [done|].
    unfold Tokenizer.isOperatorChar in Hop.
    by destruct (Tokenizer.isCode c 43), (Tokenizer.isCode c 45).
Qed.

Lemma tokenize_total_witness :
  Tokenizer.scan "#" (Tokenizer.mk (list_ascii_of_string "# 3") 2)
    [Token.mk NUMBER (num 2) 0] []
  = (Tokenizer.mk (list_ascii_of_string " 3") 3, [Token.mk NUMBER (num 2) 0],
     [Tokenizer.Unknown_character 2 "#"]).
Proof.
  destruct (tokenize_total EmptyString) as (tokens & log & _ & _ & _ & _ & Hskip & _).
  exact (Hskip "#"%char (Tokenizer.mk (list_ascii_of_string "# 3") 2)
           [Token.mk NUMBER (num 2) 0] [] eq_refl eq_refl eq_refl eq_refl eq_refl eq_refl).
Defined.

(** C9 (amended). A malformed numeric literal with several dots is
    consumed as one Number token and tokenizing does not fail; its value
    is what [parseFloat] reads from the longest prefix that is a decimal
    literal, and it is never NaN. For ["1.2.3"] the token carries 1.2. *)
Theorem malformed_number_is_lenient :
  (∀ d cs,
      JS.isDigit d = true → Forall (λ c, Tokenizer.isNumberChar c = true) cs →
      Tokenizer.tokenize (string_of_list_ascii (d :: cs))
      = Some [Token.mk NUMBER (VNumber (JS.parseFloat (string_of_list_ascii (d :: cs)))) 0;
              Token.mk EOF (VString EmptyString) (S (length cs))]
      ∧ JS.isNaN (JS.parseFloat (string_of_list_ascii (d :: cs))) = false)
  ∧ Tokenizer.tokenize "1.2.3"
    = Some [Token.mk NUMBER (VNumber (JS.parseFloat "1.2")) 0;
            Token.mk EOF (VString EmptyString) 5]
  ∧ JS.parseFloat "1.2.3" = JS.parseFloat "1.2"
  ∧ JS.parseFloat "1.2" = JS.div (JS.ofZ 12) (JS.ofZ 10)
  ∧ JS.parseFloat "1.2" = S754_finite false 5404319552844595 (-52).
Proof.
  split.
  { intros d cs Hd Hcs. split.
    - by apply NumberLiteralFacts.tokenize_number_run.
    - by apply NumberFacts.parseFloat_digit_first. }
  split_and!; by vm_compute.
Qed.

Lemma malformed_number_is_lenient_witness :
  Tokenizer.tokenize "1.2.3"
  = Some [Token.mk NUMBER (VNumber (JS.parseFloat "1.2.3")) 0;
          Token.mk EOF (VString EmptyString) 5]
  ∧ JS.isNaN (JS.parseFloat "1.2.3") = false.
Proof.
  refine (proj1 malformed_number_is_lenient "1"%char (list_ascii_of_string ".2.3")
            eq_refl _).
  repeat constructor.
Defined.

(** Against C9 as stated: the Number token of ["1.2.3"] does not carry
    NaN; it carries 1.2. *)
Lemma malformed_number_counterexample :
  Tokenizer.tokenize "1.2.3"
  = Some [Token.mk NUMBER (VNumber (S754_finite false 5404319552844595 (-52))) 0;
          Token.mk EOF (VString EmptyString) 5]
  ∧ JS.isNaN (S754_finite false 5404319552844595 (-52)) = false
  ∧ Tokenizer.tokenize "1.2.3"
    ≠ Some [Token.mk NUMBER (VNumber JS.NaN) 0; Token.mk EOF (VString EmptyString) 5].
Proof. split_and!; by vm_compute. Qed.

(** C10. The arguments of a call. For a token list [name ( arguments ]
    in which every argument is an arithmetic expression followed by a
    comma or by nothing, closed by a parenthesis or cut short by the end
    of the input, the evaluation applies the registered function to the
    values of the arguments in order. When none is registered under the
    name, it fails with [Undefined function] after the arguments, unless
    [Object.prototype] defines the name: then the code calls the
    inherited member, where the embedding stops. So [f(1 2)],
    [f(1, 2,)] and [f(1, 2] all call [f] with the arguments 1 and 2. *)
Theorem call_arguments_are_lenient :
  (∀ (W : Type) (tokens : list Token) (variables : Values)
     (functions : gmap string (Callable W))
     ident name opening ats es closing last post (w : W),
      Token.type ident = IDENTIFIER → Token.value ident = VString name →
      name ≠ "not" →
      Token.type opening = PAREN_OPEN →
      arguments ats es →
      Forall (λ tok, Token.type tok = PAREN_CLOSE) closing → (length closing ≤ 1)%nat →
      Token.type last = EOF →
      tokens = ident :: opening :: ats ++ closing ++ last :: post →
      ExpressionEvaluator.run tokens variables functions w
      = match functions !! name with
        | Some f =>
            ExpressionEvaluator.call f (map denote es)
              (ExpressionEvaluator.mk (2 + length ats + length closing) w)
        | None =>
            (if JS.inPrototype name then Inherited (As_function name)
             else Throw (Undefined_function name),
             ExpressionEvaluator.mk (2 + length ats + length closing) w)
        end)
  ∧ (∀ (W : Type) (f : Callable W) (w : W),
      let parser := Parser.mk {[ "f" := f ]} ∅ in
      let called expression :=
        match f [num 1; num 2] w with
        | (inl v, w') => (Ret v, w')
        | (inr message, w') => (Throw (SafeExprEval expression (Host_error message)), w')
        end in
      Parser.evaluate parser "f(1 2)" None w = called "f(1 2)"
      ∧ Parser.evaluate parser "f(1, 2)" None w = called "f(1, 2)"
      ∧ Parser.evaluate parser "f(1, 2,)" None w = called "f(1, 2,)"
      ∧ Parser.evaluate parser "f(1, 2" None w = called "f(1, 2"
      ∧ Parser.evaluate parser "f(1 2" None w = called "f(1 2")
  ∧ evaluate "g(1 2)" None = Throw (Undefined_function "g")
  ∧ evaluate "toString(1 2)" None = Inherited (As_function "toString").
Proof.
  split_and!; [| |by vm_compute..].
  - intros; by eapply run_call.
  - intros W f w parser called. subst parser called.
    assert (∀ expression position ats closing last,
              String.eqb expression EmptyString = false →
              Tokenizer.tokenize expression
              = Some (Token.mk IDENTIFIER (VString "f") 0
                        :: Token.mk PAREN_OPEN (VString "(") 1
                        :: ats ++ closing ++ [Token.mk EOF (VString EmptyString) last]) →
              arguments ats [Lit (num 1); Lit (num 2)] →
              closing = [] ∨ closing = [Token.mk PAREN_CLOSE (VString ")") position] →
              Parser.evaluate (Parser.mk {[ "f" := f ]} ∅) expression None w
              = match f [num 1; num 2] w with
                | (inl v, w') => (Ret v, w')
                | (inr message, w') =>
                    (Throw (SafeExprEval expression (Host_error message)), w')
                end) as Hcall.
    { intros expression position ats closing last Hne Htokenize Hargs Hclosing.
      unfold Parser.evaluate, Parser.parse. rewrite Hne, Htokenize.
      cbn [Parser.functions Parser.consts].
      rewrite (run_call _ _ _ (Token.mk IDENTIFIER (VString "f") 0) "f"
                 (Token.mk PAREN_OPEN (VString "(") 1) ats [Lit (num 1); Lit (num 2)]
                 closing (Token.mk EOF (VString EmptyString) last) [] w);
        try done; [|by destruct Hclosing as [-> | ->]; repeat constructor
                   |destruct Hclosing as [-> | ->]; cbn; lia].
      rewrite lookup_singleton_eq. unfold ExpressionEvaluator.call.
      cbn [ExpressionEvaluator.host map denote].
      by destruct (f _ w) as [[?|?] ?]. }
    assert (∀ position, parses Additive [Token.mk NUMBER (num 1) position] (Lit (num 1)))
      as Hone.
    { intros position.
      by apply parses_term, parses_primary, (parses_literal (Token.mk NUMBER (num 1) position)). }
    assert (∀ position, parses Additive [Token.mk NUMBER (num 2) position] (Lit (num 2)))
      as Htwo.
    { intros position.
      by apply parses_term, parses_primary, (parses_literal (Token.mk NUMBER (num 2) position)). }
    assert (∀ position, arguments [Token.mk NUMBER (num 2) position] [Lit (num 2)])
      as Hlast.
    { intros position.
      apply (arguments_cons [Token.mk NUMBER (num 2) position] (Lit (num 2)) [] [] []);
        [done|done|cbn; lia|constructor]. }
    assert (∀ position comma,
              arguments [Token.mk NUMBER (num 2) position; Token.mk COMMA (VString ",") comma]
                [Lit (num 2)]) as Htrailing.
    { intros position comma.
      apply (arguments_cons [Token.mk NUMBER (num 2) position] (Lit (num 2))
               [Token.mk COMMA (VString ",") comma] [] []);
        [done|by repeat constructor|done|constructor]. }
    split_and!.
    + apply (Hcall _ 5%nat [Token.mk NUMBER (num 1) 2; Token.mk NUMBER (num 2) 4]
               [Token.mk PAREN_CLOSE (VString ")") 5] 6%nat);
        [done|by vm_compute| |by right].
      apply (arguments_cons [Token.mk NUMBER (num 1) 2] _ [] [_] [_]);
        [done|done|cbn; lia|apply Hlast].
    + apply (Hcall _ 6%nat [Token.mk NUMBER (num 1) 2; Token.mk COMMA (VString ",") 3;
                            Token.mk NUMBER (num 2) 5]
               [Token.mk PAREN_CLOSE (VString ")") 6] 7%nat);
        [done|by vm_compute| |by right].
      apply (arguments_cons [Token.mk NUMBER (num 1) 2] _ [_] [_] [_]);
        [done|by repeat constructor|done|apply Hlast].
    + apply (Hcall _ 7%nat [Token.mk NUMBER (num 1) 2; Token.mk COMMA (VString ",") 3;
                            Token.mk NUMBER (num 2) 5; Token.mk COMMA (VString ",") 6]
               [Token.mk PAREN_CLOSE (VString ")") 7] 8%nat);
        [done|by vm_compute| |by right].
      apply (arguments_cons [Token.mk NUMBER (num 1) 2] _ [_] [_; _] [_]);
        [done|by repeat constructor|done|apply Htrailing].
    + apply (Hcall _ 0%nat [Token.mk NUMBER (num 1) 2; Token.mk COMMA (VString ",") 3;
                            Token.mk NUMBER (num 2) 5] [] 6%nat);
        [done|by vm_compute| |by left].
      apply (arguments_cons [Token.mk NUMBER (num 1) 2] _ [_] [_] [_]);
        [done|by repeat constructor|done|apply Hlast].
    + apply (Hcall _ 0%nat [Token.mk NUMBER (num 1) 2; Token.mk NUMBER (num 2) 4] [] 5%nat);
        [done|by vm_compute| |by left].
      apply (arguments_cons [Token.mk NUMBER (num 1) 2] _ [] [_] [_]);
        [done|done|cbn; lia|apply Hlast].
Qed.

Lemma call_arguments_are_lenient_witness :
  Tokenizer.tokenize "f(1 2)" = Some tokens_f_1_2
  ∧ ExpressionEvaluator.run tokens_f_1_2 ∅ {[ "f" := recording (num 7) ]} []
    = (Ret (num 7), ExpressionEvaluator.mk 5 [[num 1; num 2]]).
Proof.
  split; [reflexivity|].
  refine (proj1 call_arguments_are_lenient (list (list Value)) tokens_f_1_2 ∅
            {[ "f" := recording (num 7) ]}
            (Token.mk IDENTIFIER (VString "f") 0) "f" (Token.mk PAREN_OPEN (VString "(") 1)
            [Token.mk NUMBER (num 1) 2; Token.mk NUMBER (num 2) 4] [Lit (num 1); Lit (num 2)]
            [Token.mk PAREN_CLOSE (VString ")") 5] (Token.mk EOF (VString EmptyString) 6) []
            [] eq_refl eq_refl _ eq_refl _ _ _ eq_refl eq_refl).
  - intros H; discriminate H.
  - apply (arguments_cons [Token.mk NUMBER (num 1) 2] (Lit (num 1)) []
             [Token.mk NUMBER (num 2) 4] [Lit (num 2)]).
    + apply parses_term, parses_primary.
      apply (parses_literal (Token.mk NUMBER (num 1) 2)). reflexivity.
    + constructor.
    + apply le_S, le_n.
    + apply (arguments_cons [Token.mk NUMBER (num 2) 4] (Lit (num 2)) [] [] []).
      * apply parses_term, parses_primary.
        apply (parses_literal (Token.mk NUMBER (num 2) 4)). reflexivity.
      * constructor.
      * apply le_S, le_n.
      * constructor.
  - constructor; [reflexivity|constructor].
  - apply le_n.
Defined.

(** * Further properties *)

Module LexemeFacts.
Import Tokenizer Lexeme.

Lemma forward_forward j k s : forward j (forward k s) = forward (k + j) s.
Proof. unfold forward; cbn. by rewrite drop_drop, Nat.add_assoc. Qed.

Lemma advance_forward s : advance s = forward 1 s.
Proof.
  destruct s as [cs pos]. unfold advance, forward; cbn. rewrite Nat.add_1_r.
  by destruct cs.
Qed.

Lemma reads_forward input s k :
  reads input s → (k ≤ length (pending s))%nat → reads input (forward k s).
Proof.
  intros [Hp Hl] Hk. unfold reads, forward; cbn. rewrite Hp in Hk |- *.
  rewrite length_drop in Hk. rewrite drop_drop. split; [done|lia].
Qed.

Lemma reads_lookup input s j :
  reads input s → input !! (position s + j)%nat = pending s !! j.
Proof. intros [-> _]. by rewrite lookup_drop. Qed.

Lemma reads_current input s c :
  reads input s → currentChar s = Some c → input !! position s = Some c.
Proof.
  intros Hr Hc. rewrite <- (Nat.add_0_r (position s)), (reads_lookup _ _ _ Hr).
  unfold currentChar in Hc. by destruct (pending s).
Qed.

Lemma currentChar_length s c : currentChar s = Some c → (1 ≤ length (pending s))%nat.
Proof. unfold currentChar. destruct (pending s); [done|]. cbn; lia. Qed.

(** *** The scanners move forward *)

Lemma skipWhitespace_from_forward cs pos :
  ∃ k, (k ≤ length cs)%nat
    ∧ skipWhitespace_from cs pos = mk (drop k cs) (pos + k)
    ∧ ∀ c, head (drop k cs) = Some c → JS.isWhiteSpace c = false.
Proof.
  revert pos; induction cs as [|c cs IH]; intros pos; cbn.
  - exists 0%nat. cbn. rewrite Nat.add_0_r. by repeat split.
  - destruct (JS.isWhiteSpace c) eqn:Hc.
    + destruct (IH (S pos)) as (k & Hk & -> & Hhead). exists (S k). cbn.
      repeat split; [lia|f_equal; lia|done].
    + exists 0%nat. cbn. rewrite Nat.add_0_r. repeat split; [lia|]. by intros ? [= <-].
Qed.

Lemma skipWhitespace_forward s :
  ∃ k, (k ≤ length (pending s))%nat
    ∧ skipWhitespace s = forward k s
    ∧ ∀ c, currentChar (skipWhitespace s) = Some c → JS.isWhiteSpace c = false.
Proof.
  destruct (skipWhitespace_from_forward (pending s) (position s)) as (k & Hk & Heq & Hc).
  exists k. unfold skipWhitespace, forward. rewrite Heq. by repeat split.
Qed.

Lemma number_from_forward cs acc pos :
  ∃ k, (k ≤ length cs)%nat
    ∧ number_from cs acc pos
      = (acc +:+ string_of_list_ascii (take k cs), mk (drop k cs) (pos + k))
    ∧ (∀ c, head cs = Some c → isNumberChar c = true → 1 ≤ k)%nat.
Proof.
  revert acc pos; induction cs as [|c cs IH]; intros acc pos; cbn.
  - exists 0%nat. cbn. rewrite Nat.add_0_r, NumberLiteralFacts.append_nil_r. by repeat split.
  - destruct (isNumberChar c) eqn:Hc.
    + destruct (IH (snoc acc c) (S pos)) as (k & Hk & -> & _). exists (S k). cbn.
      rewrite NumberLiteralFacts.append_snoc.
      repeat split; [lia|do 2 f_equal; lia|intros; lia].
    + exists 0%nat. cbn. rewrite Nat.add_0_r, NumberLiteralFacts.append_nil_r.
      repeat split; [lia|]. intros ? [= <-]. congruence.
Qed.

Lemma identifier_from_forward cs acc pos :
  ∃ k, (k ≤ length cs)%nat
    ∧ identifier_from cs acc pos
      = (acc +:+ string_of_list_ascii (take k cs), mk (drop k cs) (pos + k))
    ∧ forallb isIdentifierChar (take k cs) = true
    ∧ (∀ c, head cs = Some c → isIdentifierChar c = true → 1 ≤ k)%nat.
Proof.
  revert acc pos; induction cs as [|c cs IH]; intros acc pos; cbn.
  - exists 0%nat. cbn. rewrite Nat.add_0_r, NumberLiteralFacts.append_nil_r. by repeat split.
  - destruct (isIdentifierChar c) eqn:Hc.
    + destruct (IH (snoc acc c) (S pos)) as (k & Hk & -> & Hall & _). exists (S k). cbn.
      rewrite NumberLiteralFacts.append_snoc, Hc, Hall.
      repeat split; [lia|do 2 f_equal; lia|intros; lia].
    + exists 0%nat. cbn. rewrite Nat.add_0_r, NumberLiteralFacts.append_nil_r.
      repeat split; [lia|]. intros ? [= <-]. congruence.
Qed.

Lemma string_from_forward quote cs acc pos :
  ∃ k, (k ≤ length cs)%nat
    ∧ (string_from quote cs acc pos).2 = mk (drop k cs) (pos + k).
Proof.
  remember (length cs) as n eqn:Hn.
  revert cs acc pos Hn.
  induction n as [n IH] using lt_wf_ind; intros cs acc pos ->.
  destruct cs as [|c cs]; cbn.
  { exists 0%nat. cbn. by rewrite Nat.add_0_r. }
  case_bool_decide.
  { exists 0%nat. cbn. rewrite Nat.add_0_r. split; [lia|done]. }
  destruct (isCode c 92).
  - destruct cs as [|e cs].
    { exists 1%nat. cbn. rewrite Nat.add_1_r. split; [lia|done]. }
    destruct (IH (length cs) ltac:(cbn; lia) cs (snoc acc e) (S (S pos)) eq_refl)
      as (k & Hk & ->).
    exists (S (S k)). cbn. split; [lia|f_equal; lia].
  - destruct (IH (length cs) ltac:(cbn; lia) cs (snoc acc c) (S pos) eq_refl)
      as (k & Hk & ->).
    exists (S k). cbn. split; [lia|f_equal; lia].
Qed.

(** *** One pass of the main loop *)

Lemma number_forward s :
  ∃ k, (k ≤ length (pending s))%nat
    ∧ number s
      = (Token.mk NUMBER
           (VNumber (JS.parseFloat (string_of_list_ascii (take k (pending s)))))
           (position s),
         forward k s)
    ∧ (∀ c, currentChar s = Some c → isNumberChar c = true → 1 ≤ k)%nat.
Proof.
  destruct (number_from_forward (pending s) EmptyString (position s))
    as (k & Hk & Heq & Hpos).
  exists k. unfold number. rewrite Heq. by repeat split.
Qed.

Lemma take_head {A} (l : list A) k x :
  head l = Some x → (1 ≤ k)%nat → ∃ l', take k l = x :: l'.
Proof. destruct l, k; cbn; try done; try lia. intros [= ->] _. eauto. Qed.

Lemma number_digit s c :
  currentChar s = Some c → JS.isDigit c = true →
  ∃ k tok, (1 ≤ k ≤ length (pending s))%nat
    ∧ number s = (tok, forward k s)
    ∧ Token.type tok = NUMBER ∧ Token.position tok = position s
    ∧ ∃ n, Token.value tok = VNumber n ∧ JS.isNaN n = false.
Proof.
  intros Hc Hd. destruct (number_forward s) as (k & Hk & Heq & Hpos).
  assert (1 ≤ k)%nat as H1.
  { apply (Hpos c Hc). unfold isNumberChar. by rewrite Hd. }
  destruct (take_head (pending s) k c Hc H1) as (l' & Hl').
  eexists k, _. repeat split; [done|done|exact Heq|done|done|].
  eexists. split; [done|]. rewrite Hl'. by apply NumberFacts.parseFloat_digit_first.
Qed.

Lemma isNaN_neg n : JS.isNaN (JS.neg n) = JS.isNaN n.
Proof. by destruct n. Qed.

Lemma pass_token c s k tok (tokens : list Token) log :
  (1 ≤ k ≤ length (pending s))%nat →
  currentChar s = Some c →
  Token.position tok = position s →
  opens (Token.type tok) c = true →
  wellformed tok →
  pass c s (forward k s) tokens (tokens ++ [tok]) log log.
Proof.
  intros Hk Hc Hpos Hopen Hwf. exists k. repeat split; try done; try lia.
  right. split; [done|]. exists tok, 0%nat, c.
  rewrite Nat.add_0_r. repeat split; try done; try lia.
  unfold currentChar in Hc. by destruct (pending s).
Qed.

Lemma operator_forward c s :
  currentChar s = Some c → isOperatorChar c = true →
  ∃ k op, (1 ≤ k ≤ length (pending s))%nat
    ∧ operator c s = (Token.mk OPERATOR (VString op) (position s), forward k s)
    ∧ op ∈ operators.
Proof.
  intros Hc Hop. unfold operator.
  pose proof (currentChar_length _ _ Hc) as Hlen.
  assert (String c EmptyString ∈ operators) as Hsingle.
  { unfold isOperatorChar, isCode, JS.code in Hop. unfold operators.
    rewrite <- (ascii_nat_embedding c).
    repeat match type of Hop with
           | context [(?a =? ?b)%nat] =>
               destruct (Nat.eqb_spec a b) as [->|];
               [cbn; repeat constructor|]
           end. done. }
  destruct (peek s) as [d|] eqn:Hp.
  2:{ exists 1%nat, (String c EmptyString). rewrite advance_forward. repeat split; [lia|done|done]. }
  destruct ((isCode c 61 || isCode c 33 || isCode c 62 || isCode c 60) && isCode d 61) eqn:Hfused.
  2:{ exists 1%nat, (String c EmptyString). rewrite advance_forward. repeat split; [lia|done|done]. }
  exists 2%nat, (String c (String d EmptyString)).
  rewrite !advance_forward, forward_forward.
  assert (2 ≤ length (pending s))%nat.
  { unfold peek in Hp. apply lookup_lt_Some in Hp. lia. }
  repeat split; [lia|done|].
  apply andb_true_iff in Hfused as [Hc' Hd].
  unfold isCode, JS.code in Hc', Hd. apply Nat.eqb_eq in Hd.
  rewrite <- (ascii_nat_embedding c), <- (ascii_nat_embedding d), Hd. unfold operators.
  repeat match type of Hc' with
         | context [(?a =? ?b)%nat] =>
             destruct (Nat.eqb_spec a b) as [->|];
             [cbn; repeat constructor|]
         end. done.
Qed.


Lemma string_forward s c :
  currentChar s = Some c →
  ∃ k v, (1 ≤ k ≤ length (pending s))%nat
    ∧ string s = (Token.mk STRING (VString v) (position s), forward k s).
Proof.
  intros Hc. unfold string. rewrite Hc.
  pose proof (currentChar_length _ _ Hc) as Hlen.
  assert (length (pending (advance s)) = length (pending s) - 1)%nat as Hadv.
  { unfold advance; cbn. destruct (pending s); cbn; lia. }
  destruct (string_from_forward (Some c) (pending (advance s)) EmptyString
              (position (advance s))) as (k & Hk & Heq).
  destruct (string_from _ _ _ _) as [v s2].
  assert (s2 = forward k (advance s)) as -> by exact Heq.
  case_bool_decide as Hq.
  - apply currentChar_length in Hq.
    rewrite !advance_forward, !forward_forward in *. exists (1 + k + 1)%nat, v.
    split; [|done]. cbn in Hq. rewrite length_drop in Hq. lia.
  - rewrite !advance_forward, forward_forward in *. exists (1 + k)%nat, v. split; [|done].
    lia.
Qed.

Lemma identifier_forward s c :
  currentChar s = Some c → isIdentifierStart c = true →
  ∃ k tok, (1 ≤ k ≤ length (pending s))%nat
    ∧ identifier s = (tok, forward k s)
    ∧ Token.position tok = position s
    ∧ (Token.type tok = BOOLEAN ∨ Token.type tok = IDENTIFIER)
    ∧ wellformed tok.
Proof.
  intros Hc Hstart. unfold identifier.
  destruct (identifier_from_forward (pending s) EmptyString (position s))
    as (k & Hk & Heq & Hall & Hpos).
  rewrite Heq. fold (forward k s).
  assert (1 ≤ k)%nat as H1.
  { apply (Hpos c); [done|]. by apply TokenizerFacts.isIdentifierStart_Char. }
  destruct (take_head (pending s) k c Hc H1) as (l' & Hl').
  change (EmptyString +:+ ?x) with x.
  set (idStr := string_of_list_ascii (take k (pending s))).
  destruct (String.eqb_spec idStr "true") as [Htrue|Htrue];
    [|destruct (String.eqb_spec idStr "false") as [Hfalse|Hfalse]]; cbn [orb].
  - eexists k, _. do 3 (split; [done|]). split; [by left|done].
  - eexists k, _. do 3 (split; [done|]). split; [by left|done].
  - eexists k, _. do 3 (split; [done|]). split; [by right|].
    unfold wellformed; cbn. split_and!; [|done|done].
    unfold idStr. rewrite list_ascii_of_string_of_list_ascii, Hl'.
    rewrite Hl' in Hall. cbn in Hall |- *. apply andb_true_iff in Hall as [_ ->].
    by rewrite Hstart.
Qed.

Lemma scan_pass c s tokens log s' tokens' log' :
  currentChar s = Some c →
  scan c s tokens log = (s', tokens', log') →
  pass c s s' tokens tokens' log log'.
Proof.
  intros Hc. unfold scan.
  pose proof (currentChar_length _ _ Hc) as Hlen.
  destruct (JS.isDigit c) eqn:Hdigit.
  { destruct (number_digit s c Hc Hdigit) as (k & tok & Hk & -> & Hty & Hpos & n & Hv & Hn).
    intros [= <- <- <-]. apply pass_token; try done.
    - by rewrite Hty.
    - unfold wellformed. by rewrite Hty, Hv. }
  destruct (startsNegativeNumber s tokens) eqn:Hneg.
  { unfold startsNegativeNumber in Hneg. rewrite Hc in Hneg.
    destruct (peek s) as [d|] eqn:Hpeek; [|done].
    apply andb_true_iff in Hneg as [[_ Hd]%andb_true_iff _].
    assert (currentChar (advance s) = Some d) as Hcd.
    { unfold peek, currentChar, advance in *. destruct s as [[|? [|? ?]] ?]; by cbn in *. }
    destruct (number_digit (advance s) d Hcd Hd)
      as (k & tok & Hk & -> & Hty & Hpos & n & Hv & Hn).
    intros [= <- <- <-]. rewrite advance_forward, forward_forward in *.
    exists (1 + k)%nat. cbn in Hk. rewrite length_drop in Hk.
    repeat split; [lia|lia|]. right. split; [done|].
    exists (negate tok), 1%nat, d.
    assert (negate tok = Token.mk NUMBER (VNumber (JS.neg n)) (Token.position tok)) as ->.
    { unfold negate. by rewrite Hv, Hty. }
    cbn. repeat split; [by rewrite Hpos|lia|done|done|].
    unfold wellformed; cbn. by rewrite isNaN_neg. }
  destruct (isCode c 34 || isCode c 39) eqn:Hquote.
  { destruct (string_forward s c Hc) as (k & v & Hk & ->).
    intros [= <- <- <-]. by apply pass_token. }
  destruct (isIdentifierStart c) eqn:Hid.
  { destruct (identifier_forward s c Hc Hid) as (k & tok & Hk & -> & Hpos & Hty & Hwf).
    intros [= <- <- <-]. apply pass_token; try done.
    by destruct Hty as [-> | ->]. }
  destruct (isCode c 40) eqn:H40.
  { intros [= <- <- <-]. rewrite advance_forward. apply pass_token; try done; lia. }
  destruct (isCode c 41) eqn:H41.
  { intros [= <- <- <-]. rewrite advance_forward. apply pass_token; try done; lia. }
  destruct (isCode c 44) eqn:H44.
  { intros [= <- <- <-]. rewrite advance_forward. apply pass_token; try done; lia. }
  destruct (isOperatorChar c) eqn:Hop.
  { destruct (operator_forward c s Hc Hop) as (k & op & Hk & -> & Hin).
    intros [= <- <- <-]. by apply pass_token. }
  intros [= <- <- <-]. rewrite advance_forward. exists 1%nat.
  repeat split; [lia|lia|]. left. repeat split; try done.
  intros Hws. unfold unknown. by rewrite Hws, Hdigit, Hquote, Hid, H40, H41, H44, Hop.
Qed.

(** An invariant of the main loop is a property of the scanner state,
    the tokens and the log that white space and one pass preserve. *)
Lemma loop_invariant (I : t → list Token → list warning → Prop) :
  (∀ s tokens log, I s tokens log → I (skipWhitespace s) tokens log) →
  (∀ c s tokens log s' tokens' log',
     I s tokens log → currentChar s = Some c → JS.isWhiteSpace c = false →
     scan c s tokens log = (s', tokens', log') → I s' tokens' log') →
  ∀ fuel s tokens log s' tokens' log',
    I s tokens log →
    loop fuel s tokens log = Some (s', tokens', log') →
    I s' tokens' log'.
Proof.
  intros Hskip Hscan. induction fuel as [|fuel IH]; intros s tokens log s' tokens' log' HI; cbn.
  - destruct (currentChar s); [done|]. by intros [= <- <- <-].
  - destruct (currentChar s); [|by intros [= <- <- <-]].
    destruct (currentChar (skipWhitespace s)) as [c|] eqn:Hc.
    2:{ intros [= <- <- <-]. by apply Hskip. }
    destruct (scan c (skipWhitespace s) tokens log) as [[s2 tokens2] log2] eqn:Hs.
    apply IH. eapply Hscan; [by apply Hskip|done| |done].
    destruct (skipWhitespace_forward s) as (k & _ & _ & Hws). by apply Hws.
Qed.

Lemma StronglySorted_snoc (l : list nat) x :
  StronglySorted lt l → Forall (λ y, y < x)%nat l → StronglySorted lt (l ++ [x]).
Proof.
  induction 1 as [|y l Hs IH Hall]; intros Hlt; cbn.
  - repeat constructor.
  - apply Forall_cons_1 in Hlt as [Hy Hlt]. constructor; [by apply IH|].
    apply Forall_app. split; [done|]. by repeat constructor.
Qed.

Lemma loop_layout input fuel s tokens log s' tokens' log' :
  layout input s tokens log →
  loop fuel s tokens log = Some (s', tokens', log') →
  layout input s' tokens' log'.
Proof.
  apply (loop_invariant (layout input)); clear.
  - intros s tokens log (Hr & Hpl & Hw & Hs & Hlt).
    destruct (skipWhitespace_forward s) as (k & Hk & -> & _).
    refine (conj _ (conj Hpl (conj Hw (conj Hs _)))); [by apply reads_forward|].
    eapply Forall_impl; [exact Hlt|]. cbn. intros; lia.
  - intros c s tokens log s' tokens' log' (Hr & Hpl & Hw & Hs & Hlt) Hc Hws Hscan.
    destruct (scan_pass _ _ _ _ _ _ _ Hc Hscan) as (k & Hk & -> & Hcase).
    assert (Forall (λ tok, Token.position tok < position (forward k s))%nat tokens) as Hlt'.
    { eapply Forall_impl; [exact Hlt|]. cbn. intros; lia. }
    assert (reads input (forward k s)) as Hr' by (apply reads_forward; [done|lia]).
    destruct Hcase as [(-> & -> & Hunk)|(-> & tok & j & d & -> & Hpos & Hj & Hd & Hopen & Hwf)].
    + refine (conj Hr' (conj Hpl (conj _ (conj Hs Hlt')))).
      apply Forall_app. split; [done|]. repeat constructor; cbn; [|by apply Hunk].
      by apply (reads_current _ _ _ Hr).
    + refine (conj Hr' (conj _ (conj Hw (conj _ _)))).
      * apply Forall_app. split; [done|]. repeat constructor; [|done].
        exists d. split; [|done]. by rewrite Hpos, (reads_lookup _ _ _ Hr).
      * rewrite fmap_app. apply StronglySorted_snoc; [done|].
        apply Forall_fmap. eapply Forall_impl; [exact Hlt|]. cbn. intros; lia.
      * apply Forall_app. split; [done|]. repeat constructor. cbn. lia.
Qed.

End LexemeFacts.

Module TextFacts.
Import Tokenizer Lexeme LexemeFacts.

Ltac char_classes :=
  unfold unknown, opens, isNumberChar, isIdentifierStart, isIdentifierChar, isOperatorChar,
    JS.isDigit, JS.isLetter, JS.isWhiteSpace, JS.between, isCode in *;
  repeat match goal with
         | H : context [(?a <=? ?b)%nat] |- _ => destruct (Nat.leb_spec a b); try lia
         | H : context [(?a =? ?b)%nat] |- _ => destruct (Nat.eqb_spec a b); try lia
         | |- context [(?a <=? ?b)%nat] => destruct (Nat.leb_spec a b); try lia
         | |- context [(?a =? ?b)%nat] => destruct (Nat.eqb_spec a b); try lia
         end; cbn in *; try done.

Lemma trimStart_head cs :
  (∀ c, head cs = Some c → JS.isWhiteSpace c = false) → JS.trimStart cs = cs.
Proof.
  destruct cs as [|c cs]; [done|]. intros H. unfold JS.trimStart; cbn.
  by rewrite (H c eq_refl).
Qed.

Lemma trimStart_space ws cs :
  Forall (λ c, JS.isWhiteSpace c = true) ws → JS.trimStart (ws ++ cs) = JS.trimStart cs.
Proof.
  induction 1 as [|c ws Hc _ IH]; [done|]. unfold JS.trimStart in *; cbn. by rewrite Hc.
Qed.

Lemma trimStart_all ws :
  Forall (λ c, JS.isWhiteSpace c = true) ws → JS.trimStart ws = [].
Proof. intros H. by rewrite <- (app_nil_r ws), (trimStart_space _ _ H). Qed.

Lemma trimEnd_space cs ws :
  Forall (λ c, JS.isWhiteSpace c = true) ws → JS.trimEnd (cs ++ ws) = JS.trimEnd cs.
Proof.
  intros H. unfold JS.trimEnd. rewrite rev_app_distr, trimStart_space; [done|].
  by apply Forall_rev.
Qed.

Lemma trim_space_r cs ws :
  Forall (λ c, JS.isWhiteSpace c = true) ws → JS.trim (cs ++ ws) = JS.trim cs.
Proof.
  intros H. unfold JS.trim. induction cs as [|c cs IH].
  - change ([] ++ ws) with ws. by rewrite (trimStart_all _ H).
  - change ((c :: cs) ++ ws) with (c :: (cs ++ ws)).
    destruct (JS.isWhiteSpace c) eqn:Hc.
    + change (c :: (cs ++ ws)) with ([c] ++ (cs ++ ws)). change (c :: cs) with ([c] ++ cs).
      rewrite (trimStart_space [c] (cs ++ ws)), (trimStart_space [c] cs); [done|..];
        by repeat constructor.
    + rewrite !trimStart_head; [|by intros ? [= <-]..].
      by rewrite app_comm_cons, trimEnd_space.
Qed.

(** [trim] removes the white space around a text. *)
Lemma trim_space ws1 cs ws2 :
  Forall (λ c, JS.isWhiteSpace c = true) ws1 →
  Forall (λ c, JS.isWhiteSpace c = true) ws2 →
  JS.trim (ws1 ++ cs ++ ws2) = JS.trim cs.
Proof.
  intros H1 H2. rewrite <- (trim_space_r cs ws2 H2). unfold JS.trim.
  by rewrite trimStart_space.
Qed.

Lemma trim_all ws : Forall (λ c, JS.isWhiteSpace c = true) ws → JS.trim ws = [].
Proof. intros H. unfold JS.trim. by rewrite (trimStart_all _ H). Qed.

Lemma head_rev {A} (l : list A) : head (rev l) = last l.
Proof.
  induction l as [|x l IH] using rev_ind; [done|].
  by rewrite rev_app_distr, last_snoc.
Qed.

(** A text with no white space at either end is its own trimmed text. *)
Lemma trim_id cs :
  (∀ c, head cs = Some c → JS.isWhiteSpace c = false) →
  (∀ c, last cs = Some c → JS.isWhiteSpace c = false) →
  JS.trim cs = cs.
Proof.
  intros Hh Hl. unfold JS.trim, JS.trimEnd. rewrite (trimStart_head cs Hh).
  rewrite trimStart_head; [apply rev_involutive|]. by rewrite head_rev.
Qed.

Lemma list_ascii_of_string_app s1 s2 :
  list_ascii_of_string (s1 +:+ s2) = list_ascii_of_string s1 ++ list_ascii_of_string s2.
Proof. induction s1 as [|a s1 IH]; [done|]. cbn. by rewrite <- IH. Qed.

(** The whole run, from the trimmed text. *)
Lemma run_trimmed input :
  run input
  = match loop (length (JS.trim (list_ascii_of_string input)))
            (mk (JS.trim (list_ascii_of_string input)) 0) [] [] with
    | Some (s', tokens, log) =>
        Some (tokens ++ [Token.mk EOF (VString EmptyString) (position s')], log)
    | None => None
    end.
Proof. done. Qed.

Lemma layout_start text : layout text (mk text 0) [] [].
Proof.
  refine (conj (conj eq_refl (Nat.le_0_l _)) (conj _ (conj _ (conj _ _)))); constructor.
Qed.

Lemma run_layout input :
  ∃ tokens log,
    run input
    = Some (tokens ++ [Token.mk EOF (VString EmptyString)
                         (length (JS.trim (list_ascii_of_string input)))], log)
    ∧ layout (JS.trim (list_ascii_of_string input))
        (mk [] (length (JS.trim (list_ascii_of_string input)))) tokens log.
Proof.
  rewrite run_trimmed. set (text := JS.trim (list_ascii_of_string input)).
  destruct (TokenizerFacts.loop_spec (length text) (mk text 0) [] [])
    as (s' & tokens & log & Hloop & _ & Hnil & Hext); [done..|].
  assert (s' = mk [] (length text)) as ->.
  { destruct s' as [p n]. cbn in Hnil. subst p. unfold extent in Hext. cbn in Hext.
    f_equal. lia. }
  exists tokens, log. rewrite Hloop. split; [done|].
  apply (loop_layout text _ _ _ _ _ _ _ (layout_start text) Hloop).
Qed.

End TextFacts.

Module LiteralFacts.
Import Tokenizer Lexeme LexemeFacts TextFacts.

Lemma string_from_escape quote body : ∀ rest acc pos,
  isCode quote 92 = false →
  string_from (Some quote) (escape quote body ++ rest) acc pos
  = string_from (Some quote) rest (acc +:+ string_of_list_ascii body)
      (pos + length (escape quote body)).
Proof.
  induction body as [|c body IH]; intros rest acc pos Hq.
  - cbn [escape app length string_of_list_ascii].
    by rewrite Nat.add_0_r, NumberLiteralFacts.append_nil_r.
  - cbn [escape].
    assert (bool_decide (Some "092"%char = Some quote) = false) as Hbs.
    { apply bool_decide_false. intros [= <-]. done. }
    destruct (Ascii.eqb_spec c quote) as [->|Hne]; cbn [orb].
    + cbn [app string_from]. rewrite Hbs. change (isCode "092" 92) with true. cbn match.
      rewrite IH by done. cbn [length string_of_list_ascii].
      rewrite NumberLiteralFacts.append_snoc. f_equal. lia.
    + destruct (isCode c 92) eqn:Hc.
      * cbn [app string_from]. rewrite Hbs. change (isCode "092" 92) with true. cbn match.
        rewrite IH by done. cbn [length string_of_list_ascii].
        rewrite NumberLiteralFacts.append_snoc. f_equal. lia.
      * cbn [app string_from]. rewrite bool_decide_false by (by intros [= ->]).
        rewrite Hc, IH by done. cbn [length string_of_list_ascii].
        rewrite NumberLiteralFacts.append_snoc. f_equal. lia.
Qed.

Lemma isQuote_classes q :
  isCode q 34 || isCode q 39 = true →
  isCode q 92 = false ∧ JS.isWhiteSpace q = false ∧ JS.isDigit q = false
  ∧ isCode q 45 = false.
Proof. intros H. repeat split; char_classes. Qed.

Lemma startsNegativeNumber_other s tokens c :
  currentChar s = Some c → isCode c 45 = false → startsNegativeNumber s tokens = false.
Proof.
  intros Hc H45. unfold startsNegativeNumber. rewrite Hc.
  destruct (peek s); [|done]. by rewrite H45.
Qed.

(** A pass of the main loop over a pending text that starts with the
    character [c], which is no white space. *)
Lemma loop_pass c cs n pos tokens log :
  JS.isWhiteSpace c = false →
  loop (S n) (mk (c :: cs) pos) tokens log
  = let '(s2, tokens', log') := scan c (mk (c :: cs) pos) tokens log in
    loop n s2 tokens' log'.
Proof.
  intros Hc. cbn [loop currentChar pending head].
  unfold skipWhitespace. cbn [pending position skipWhitespace_from]. rewrite Hc.
  done.
Qed.

Lemma loop_end n pos tokens log :
  loop n (mk [] pos) tokens log = Some (mk [] pos, tokens, log).
Proof. by destruct n. Qed.

(** [string()] on a literal that is closed, and on one that the end of
    the input cuts short. *)
Lemma string_closed quote body rest pos :
  isCode quote 92 = false →
  string (mk (quote :: escape quote body ++ quote :: rest) pos)
  = (Token.mk STRING (VString (string_of_list_ascii body)) pos,
     mk rest (pos + (2 + length (escape quote body)))).
Proof.
  intros Hq. unfold string. cbn [currentChar pending head advance tail position].
  rewrite string_from_escape by done. cbn [string_from].
  rewrite bool_decide_true by done.
  cbn [currentChar pending head]. rewrite bool_decide_true by done.
  unfold advance. cbn [pending position tail]. do 2 f_equal. lia.
Qed.

Lemma string_open quote body pos :
  isCode quote 92 = false →
  string (mk (quote :: escape quote body) pos)
  = (Token.mk STRING (VString (string_of_list_ascii body)) pos,
     mk [] (pos + (1 + length (escape quote body)))).
Proof.
  intros Hq. unfold string. cbn [currentChar pending head advance tail position].
  rewrite <- (app_nil_r (escape quote body)) at 1.
  rewrite string_from_escape by done. cbn [string_from].
  cbn [currentChar pending head]. rewrite bool_decide_false by done.
  do 2 f_equal. lia.
Qed.

Lemma scan_quote q s tokens log :
  currentChar s = Some q → isCode q 34 || isCode q 39 = true →
  scan q s tokens log = let '(tok, s') := string s in (s', tokens ++ [tok], log).
Proof.
  intros Hc Hq. destruct (isQuote_classes q Hq) as (_ & _ & Hd & H45).
  unfold scan. by rewrite Hd, (startsNegativeNumber_other s tokens q Hc H45), Hq.
Qed.

End LiteralFacts.

Module WordFacts.
Import Tokenizer Lexeme LexemeFacts TextFacts LiteralFacts.

Lemma identifier_from_all cs : ∀ acc pos,
  forallb isIdentifierChar cs = true →
  identifier_from cs acc pos
  = (acc +:+ string_of_list_ascii cs, mk [] (pos + length cs)).
Proof.
  induction cs as [|c cs IH]; intros acc pos Hall; cbn.
  - by rewrite Nat.add_0_r, NumberLiteralFacts.append_nil_r.
  - cbn in Hall. apply andb_true_iff in Hall as [-> Hall].
    rewrite (IH _ _ Hall), NumberLiteralFacts.append_snoc. do 2 f_equal. lia.
Qed.

Lemma isIdentifierStart_classes c :
  isIdentifierStart c = true →
  JS.isWhiteSpace c = false ∧ JS.isDigit c = false ∧ isCode c 45 = false
  ∧ isCode c 34 || isCode c 39 = false.
Proof. intros H. repeat split; char_classes. Qed.

Lemma isIdentifierChar_not_space c :
  isIdentifierChar c = true → JS.isWhiteSpace c = false.
Proof. intros H. char_classes. Qed.

Lemma isWord_inv cs :
  isWord cs = true →
  ∃ c cs', cs = c :: cs' ∧ isIdentifierStart c = true
    ∧ forallb isIdentifierChar (c :: cs') = true.
Proof.
  destruct cs as [|c cs']; [done|]. cbn. intros [Hc Hcs]%andb_true_iff.
  exists c, cs'. repeat split; [done|]. cbn.
  by rewrite (TokenizerFacts.isIdentifierStart_Char _ Hc).
Qed.

Lemma trim_word cs : isWord cs = true → JS.trim cs = cs.
Proof.
  intros (c & cs' & -> & Hc & Hall)%isWord_inv. apply trim_id.
  - intros ? [= <-]. by apply isIdentifierStart_classes.
  - intros d Hd. apply isIdentifierChar_not_space.
    apply last_Some_elem_of in Hd. rewrite forallb_forall in Hall.
    apply Hall. by apply list_elem_of_In.
Qed.

Lemma run_word word :
  isWord (list_ascii_of_string word) = true →
  run word
  = Some ([wordToken word 0; Token.mk EOF (VString EmptyString) (String.length word)], []).
Proof.
  intros Hword. rewrite run_trimmed, (trim_word _ Hword).
  destruct (isWord_inv _ Hword) as (c & cs & Heq & Hc & Hall). rewrite Heq.
  destruct (isIdentifierStart_classes c Hc) as (Hws & Hd & H45 & Hq).
  cbn [length]. rewrite (loop_pass c cs _ 0 [] [] Hws).
  unfold scan. rewrite Hd, (startsNegativeNumber_other (mk (c :: cs) 0) [] c eq_refl H45), Hq, Hc.
  unfold identifier. cbn [pending position].
  rewrite (identifier_from_all (c :: cs) EmptyString 0 Hall), <- Heq.
  rewrite string_of_list_ascii_of_string. change (EmptyString +:+ word) with word.
  assert (String.length word = length (list_ascii_of_string word)) as ->.
  { clear. induction word; cbn; congruence. }
  unfold wordToken.
  destruct (String.eqb word "true" || String.eqb word "false"); lazy beta iota zeta;
    by rewrite loop_end.
Qed.

End WordFacts.

(** A literal on its own evaluates to its value. *)
Lemma run_literal {W} tok last post variables (functions : gmap string (Callable W)) w :
  isLiteral tok = true → quiet last = true →
  ExpressionEvaluator.run (tok :: last :: post) variables functions w
  = (Ret (Token.value tok), ExpressionEvaluator.mk 1 w).
Proof.
  intros Htok Hlast.
  apply (run_arithmetic _ _ _ [tok] (Lit (Token.value tok)) last post); [|done|done].
  by apply parses_term, parses_primary, parses_literal.
Qed.

(** X1. Along the token list the positions strictly increase, up to the
    end marker at the length of the trimmed input, and every token
    before the end marker sits in the trimmed input: the character at
    its position is one that opens a token of its type (for a negative
    number, the first digit). *)
Theorem tokens_sit_in_the_text (input : string) :
  ∃ tokens log,
    Tokenizer.run input
    = Some (tokens ++ [Token.mk EOF (VString EmptyString)
                         (length (JS.trim (list_ascii_of_string input)))], log)
    ∧ StronglySorted lt
        (Token.position <$>
           tokens ++ [Token.mk EOF (VString EmptyString)
                        (length (JS.trim (list_ascii_of_string input)))])
    ∧ Forall (Lexeme.placed (JS.trim (list_ascii_of_string input))) tokens.
Proof.
  destruct (TextFacts.run_layout input) as (tokens & log & Hrun & _ & Hpl & _ & Hs & Hlt).
  exists tokens, log. split; [done|]. split.
  - rewrite fmap_app. apply LexemeFacts.StronglySorted_snoc; [done|].
    by apply Forall_fmap.
  - eapply Forall_impl; [exact Hpl|]. by intros tok [? _].
Qed.

(** X2. The payload of every token fits its type: a number that is not
    NaN, a string, a Boolean, an operator in one of its thirteen
    spellings, the text of the parenthesis or comma, and for an
    identifier a name other than [true] and [false] made of a letter or
    underscore followed by letters, digits, underscores and dots. No
    token has the type FUNCTION. *)
Theorem token_payloads_fit_their_types (input : string) :
  ∃ tokens log,
    Tokenizer.run input = Some (tokens, log)
    ∧ Forall Lexeme.wellformed tokens
    ∧ Forall (λ tok, Token.type tok ≠ FUNCTION) tokens.
Proof.
  destruct (TextFacts.run_layout input) as (tokens & log & Hrun & _ & Hpl & _).
  eexists _, log. split; [exact Hrun|].
  assert (Forall Lexeme.wellformed
            (tokens ++ [Token.mk EOF (VString EmptyString)
                          (length (JS.trim (list_ascii_of_string input)))])) as Hwf.
  { apply Forall_app. split; [|by repeat constructor].
    eapply Forall_impl; [exact Hpl|]. by intros tok [_ ?]. }
  split; [done|]. eapply Forall_impl; [exact Hwf|].
  intros tok Htok Hty. unfold Lexeme.wellformed in Htok. by rewrite Hty in Htok.
Qed.

(** X3. Every warning of the tokenizer names a position of the trimmed
    input and the character there, and that character is no white space
    and opens no token. *)
Theorem warnings_name_unknown_characters (input : string) :
  ∃ tokens log,
    Tokenizer.run input = Some (tokens, log)
    ∧ Forall (Lexeme.warned (JS.trim (list_ascii_of_string input))) log.
Proof.
  destruct (TextFacts.run_layout input) as (tokens & log & Hrun & _ & _ & Hw & _).
  by eexists _, log.
Qed.

(** X4. White space before and after the expression changes neither the
    tokens nor their positions nor the warnings: positions count from
    the first character that is no white space. *)
Theorem surrounding_white_space_is_ignored (before input after : string) :
  Forall (λ c, JS.isWhiteSpace c = true) (list_ascii_of_string before) →
  Forall (λ c, JS.isWhiteSpace c = true) (list_ascii_of_string after) →
  Tokenizer.run (before +:+ input +:+ after) = Tokenizer.run input.
Proof.
  intros Hb Ha. rewrite !TextFacts.run_trimmed, !TextFacts.list_ascii_of_string_app.
  by rewrite TextFacts.trim_space.
Qed.

Lemma surrounding_white_space_is_ignored_witness :
  Tokenizer.run "  x + 1 " = Tokenizer.run "x + 1".
Proof.
  apply (surrounding_white_space_is_ignored "  " "x + 1" " "); by repeat constructor.
Defined.

(** X5. A string literal reads back the text it was written from: the
    body with a backslash before every quote of the literal's kind and
    before every backslash, between two quotes of either kind, is one
    STRING token whose value is the body, and the expression evaluates
    to that string. *)
Theorem string_literal_round_trip (quote : ascii) (body : string) :
  Tokenizer.isCode quote 34 || Tokenizer.isCode quote 39 = true →
  Tokenizer.run (Lexeme.literal quote body)
  = Some ([Token.mk STRING (VString body) 0;
           Token.mk EOF (VString EmptyString)
             (2 + length (Lexeme.escape quote (list_ascii_of_string body)))], [])
  ∧ evaluate (Lexeme.literal quote body) None = Ret (VString body).
Proof.
  intros Hq. destruct (LiteralFacts.isQuote_classes quote Hq) as (H92 & Hws & Hd & H45).
  set (text := Lexeme.escape quote (list_ascii_of_string body)).
  assert (Tokenizer.run (Lexeme.literal quote body)
          = Some ([Token.mk STRING (VString body) 0;
                   Token.mk EOF (VString EmptyString) (2 + length text)], [])) as Hrun.
  { rewrite TextFacts.run_trimmed. unfold Lexeme.literal. fold text.
    rewrite list_ascii_of_string_of_list_ascii.
    rewrite TextFacts.trim_id.
    2:{ by intros ? [= <-]. }
    2:{ intros c. rewrite app_comm_cons, last_snoc. by intros [= <-]. }
    cbn [length]. rewrite (LiteralFacts.loop_pass quote _ _ 0 [] [] Hws).
    rewrite (LiteralFacts.scan_quote quote (Tokenizer.mk (quote :: _) 0) [] [] eq_refl Hq).
    unfold text. rewrite (LiteralFacts.string_closed quote _ [] 0 H92).
    rewrite string_of_list_ascii_of_string. lazy beta iota zeta.
    by rewrite LiteralFacts.loop_end. }
  split; [done|]. unfold evaluate, Tokenizer.tokenize. rewrite Hrun. cbn [fmap option_fmap option_map fst].
  by rewrite (run_literal (Token.mk STRING (VString body) 0)).
Qed.

Lemma string_literal_round_trip_witness :
  Tokenizer.run "'it\'s'"
  = Some ([Token.mk STRING (VString "it's") 0; Token.mk EOF (VString EmptyString) 7], [])
  ∧ evaluate "'it\'s'" None = Ret (VString "it's").
Proof. apply (string_literal_round_trip "'" "it's"). reflexivity. Defined.

(** X6. A string literal that the input ends before closing is accepted
    without a warning: the token holds what was read. A backslash that
    is the last character of the input is dropped. *)
Theorem unterminated_string_literal (quote : ascii) (body : string) :
  Tokenizer.isCode quote 34 || Tokenizer.isCode quote 39 = true →
  (∀ c, last (quote :: Lexeme.escape quote (list_ascii_of_string body)) = Some c →
        JS.isWhiteSpace c = false) →
  Tokenizer.run (string_of_list_ascii
                   (quote :: Lexeme.escape quote (list_ascii_of_string body)))
  = Some ([Token.mk STRING (VString body) 0;
           Token.mk EOF (VString EmptyString)
             (1 + length (Lexeme.escape quote (list_ascii_of_string body)))], [])
  ∧ Tokenizer.run (string_of_list_ascii
                     (quote :: Lexeme.escape quote (list_ascii_of_string body) ++ ["092"%char]))
    = Some ([Token.mk STRING (VString body) 0;
             Token.mk EOF (VString EmptyString)
               (2 + length (Lexeme.escape quote (list_ascii_of_string body)))], []).
Proof.
  intros Hq Hlast.
  destruct (LiteralFacts.isQuote_classes quote Hq) as (H92 & Hws & Hd & H45).
  set (text := Lexeme.escape quote (list_ascii_of_string body)) in *. split.
  - rewrite TextFacts.run_trimmed, list_ascii_of_string_of_list_ascii.
    rewrite TextFacts.trim_id; [|by intros ? [= <-]|done].
    cbn [length]. rewrite (LiteralFacts.loop_pass quote _ _ 0 [] [] Hws).
    rewrite (LiteralFacts.scan_quote quote (Tokenizer.mk (quote :: _) 0) [] [] eq_refl Hq).
    unfold text. rewrite (LiteralFacts.string_open quote _ 0 H92).
    rewrite string_of_list_ascii_of_string. lazy beta iota zeta.
    by rewrite LiteralFacts.loop_end.
  - rewrite TextFacts.run_trimmed, list_ascii_of_string_of_list_ascii.
    rewrite TextFacts.trim_id.
    2:{ by intros ? [= <-]. }
    2:{ intros c. rewrite app_comm_cons, last_snoc. by intros [= <-]. }
    cbn [length]. rewrite (LiteralFacts.loop_pass quote _ _ 0 [] [] Hws).
    rewrite (LiteralFacts.scan_quote quote (Tokenizer.mk (quote :: _) 0) [] [] eq_refl Hq).
    unfold Tokenizer.string.
    cbn [Tokenizer.currentChar Tokenizer.pending head Tokenizer.advance tail Tokenizer.position].
    unfold text. rewrite LiteralFacts.string_from_escape by done.
    cbn [Tokenizer.string_from]. rewrite bool_decide_false by (by intros [= <-]).
    change (Tokenizer.isCode "092" 92) with true. lazy beta iota zeta.
    cbn [Tokenizer.currentChar Tokenizer.pending head].
    rewrite bool_decide_false by done.
    rewrite string_of_list_ascii_of_string, LiteralFacts.loop_end.
    cbn [Tokenizer.position]. do 5 f_equal.
Qed.

Lemma unterminated_string_literal_witness :
  Tokenizer.run "'abc"
  = Some ([Token.mk STRING (VString "abc") 0; Token.mk EOF (VString EmptyString) 4], [])
  ∧ Tokenizer.run (string_of_list_ascii (list_ascii_of_string "'abc" ++ ["092"%char]))
    = Some ([Token.mk STRING (VString "abc") 0; Token.mk EOF (VString EmptyString) 5], []).
Proof.
  apply (unterminated_string_literal "'" "abc"); [reflexivity|].
  intros c [= <-]. reflexivity.
Defined.

(** X7. A name (a letter or underscore followed by letters, digits,
    underscores and dots) is one token that holds all of it, dots
    included: a Boolean for [true] and [false], an identifier for every
    other name, [and], [or] and [not] among them. *)
Theorem word_is_one_token (word : string) :
  Lexeme.isWord (list_ascii_of_string word) = true →
  Tokenizer.run word
  = Some ([if String.eqb word "true" || String.eqb word "false"
           then Token.mk BOOLEAN (VBoolean (String.eqb word "true")) 0
           else Token.mk IDENTIFIER (VString word) 0;
           Token.mk EOF (VString EmptyString) (String.length word)], []).
Proof. apply WordFacts.run_word. Qed.

Lemma word_is_one_token_witness :
  Tokenizer.run "user.profile_2.age"
  = Some ([Token.mk IDENTIFIER (VString "user.profile_2.age") 0;
           Token.mk EOF (VString EmptyString) 18], []).
Proof. apply (word_is_one_token "user.profile_2.age"). reflexivity. Defined.

Module PassFacts.
Import Tokenizer Lexeme LexemeFacts TextFacts LiteralFacts.

Lemma scan_unknown c s tokens log :
  currentChar s = Some c →
  JS.isDigit c = false → isCode c 45 = false → isCode c 34 || isCode c 39 = false →
  isIdentifierStart c = false →
  isCode c 40 = false → isCode c 41 = false → isCode c 44 = false →
  isOperatorChar c = false →
  scan c s tokens log = (advance s, tokens, log ++ [Unknown_character (position s) c]).
Proof.
  intros Hc Hd H45 Hq Hi H40 H41 H44 Hop. unfold scan.
  by rewrite Hd, (startsNegativeNumber_other s tokens c Hc H45), Hq, Hi, H40, H41, H44, Hop.
Qed.

Lemma scan_digit d s tokens log :
  JS.isDigit d = true →
  scan d s tokens log = let '(tok, s') := number s in (s', tokens ++ [tok], log).
Proof. intros Hd. unfold scan. by rewrite Hd. Qed.

Lemma isDigit_not_space d : JS.isDigit d = true → JS.isWhiteSpace d = false.
Proof. intros H. char_classes. Qed.

Lemma run_leading_dot d cs :
  JS.isDigit d = true → Forall (λ c, isNumberChar c = true) cs →
  run (string_of_list_ascii ("."%char :: d :: cs))
  = Some ([Token.mk NUMBER (VNumber (JS.parseFloat (string_of_list_ascii (d :: cs)))) 1;
           Token.mk EOF (VString EmptyString) (2 + length cs)],
          [Unknown_character 0 "."]).
Proof.
  intros Hd Hcs.
  assert (Forall (λ c, isNumberChar c = true) (d :: cs)) as Hall.
  { constructor; [|done]. unfold isNumberChar. by rewrite Hd. }
  rewrite run_trimmed, list_ascii_of_string_of_list_ascii.
  rewrite trim_id.
  2:{ by intros ? [= <-]. }
  2:{ intros c Hc. apply NumberLiteralFacts.isNumberChar_not_space.
      apply last_Some_elem_of in Hc.
      apply list_elem_of_In in Hc. destruct Hc as [<-|Hc]; [done|].
      rewrite Forall_forall in Hall. apply Hall. by apply list_elem_of_In. }
  cbn [length]. rewrite (loop_pass "." _ _ 0 [] []) by done.
  rewrite (scan_unknown "." (mk ("."%char :: d :: cs) 0) [] [] eq_refl) by done.
  unfold advance. cbn [pending position tail app].
  rewrite (loop_pass d cs _ 1 [] _ (isDigit_not_space d Hd)).
  rewrite (scan_digit d _ _ _ Hd). unfold number. cbn [pending position].
  rewrite (NumberLiteralFacts.number_from_all (d :: cs) EmptyString 1 Hall).
  by rewrite loop_end.
Qed.

Lemma run_white_space input :
  Forall (λ c, JS.isWhiteSpace c = true) (list_ascii_of_string input) →
  run input = Some ([Token.mk EOF (VString EmptyString) 0], []).
Proof. intros H. by rewrite run_trimmed, (trim_all _ H). Qed.

End PassFacts.

(** X8. A number cannot start with a dot: the dot is skipped with a
    warning and the digits after it are read as a number of their own,
    so the expression evaluates to the number without the dot. *)
Theorem leading_dot_is_skipped (d : ascii) (cs : list ascii) :
  JS.isDigit d = true → Forall (λ c, Tokenizer.isNumberChar c = true) cs →
  Tokenizer.run (string_of_list_ascii ("."%char :: d :: cs))
  = Some ([Token.mk NUMBER (VNumber (JS.parseFloat (string_of_list_ascii (d :: cs)))) 1;
           Token.mk EOF (VString EmptyString) (2 + length cs)],
          [Tokenizer.Unknown_character 0 "."])
  ∧ evaluate (string_of_list_ascii ("."%char :: d :: cs)) None
    = Ret (VNumber (JS.parseFloat (string_of_list_ascii (d :: cs)))).
Proof.
  intros Hd Hcs. pose proof (PassFacts.run_leading_dot d cs Hd Hcs) as Hrun.
  split; [done|]. unfold evaluate, Tokenizer.tokenize. rewrite Hrun.
  cbn [fmap option_fmap option_map fst].
  by rewrite (run_literal (Token.mk NUMBER _ 1)).
Qed.

Lemma leading_dot_is_skipped_witness :
  Tokenizer.run ".5"
  = Some ([Token.mk NUMBER (VNumber (JS.parseFloat "5")) 1;
           Token.mk EOF (VString EmptyString) 2],
          [Tokenizer.Unknown_character 0 "."])
  ∧ evaluate ".5" None = Ret (VNumber (JS.parseFloat "5")).
Proof. apply (leading_dot_is_skipped "5" []); [reflexivity|constructor]. Defined.

Module SpellingFacts.
Import Tokenizer Lexeme LexemeFacts TextFacts.

Lemma number_from_run cs acc pos :
  ∃ k, (k ≤ length cs)%nat
    ∧ number_from cs acc pos
      = (acc +:+ string_of_list_ascii (take k cs), mk (drop k cs) (pos + k))
    ∧ forallb isNumberChar (take k cs) = true
    ∧ ∀ c, drop k cs !! 0%nat = Some c → isNumberChar c = false.
Proof.
  revert acc pos; induction cs as [|c cs IH]; intros acc pos; cbn.
  - exists 0%nat. cbn. rewrite Nat.add_0_r, NumberLiteralFacts.append_nil_r. by repeat split.
  - destruct (isNumberChar c) eqn:Hc.
    + destruct (IH (snoc acc c) (S pos)) as (k & Hk & -> & Hall & Hend). exists (S k). cbn.
      rewrite NumberLiteralFacts.append_snoc, Hc, Hall.
      repeat split; [lia|do 2 f_equal; lia|done].
    + exists 0%nat. cbn. rewrite Nat.add_0_r, NumberLiteralFacts.append_nil_r.
      repeat split; [lia|]. intros ? [= <-]. done.
Qed.

Lemma identifier_from_run cs acc pos :
  ∃ k, (k ≤ length cs)%nat
    ∧ identifier_from cs acc pos
      = (acc +:+ string_of_list_ascii (take k cs), mk (drop k cs) (pos + k))
    ∧ forallb isIdentifierChar (take k cs) = true
    ∧ ∀ c, drop k cs !! 0%nat = Some c → isIdentifierChar c = false.
Proof.
  revert acc pos; induction cs as [|c cs IH]; intros acc pos; cbn.
  - exists 0%nat. cbn. rewrite Nat.add_0_r, NumberLiteralFacts.append_nil_r. by repeat split.
  - destruct (isIdentifierChar c) eqn:Hc.
    + destruct (IH (snoc acc c) (S pos)) as (k & Hk & -> & Hall & Hend). exists (S k). cbn.
      rewrite NumberLiteralFacts.append_snoc, Hc, Hall.
      repeat split; [lia|do 2 f_equal; lia|done].
    + exists 0%nat. cbn. rewrite Nat.add_0_r, NumberLiteralFacts.append_nil_r.
      repeat split; [lia|]. intros ? [= <-]. done.
Qed.

(** What is pending is the input from the position on. *)
Lemma reads_slice input s k :
  reads input s → (k ≤ length (pending s))%nat →
  slice input (position s) (length (take k (pending s))) = take k (pending s).
Proof.
  intros [Hp _] Hk. unfold slice. rewrite <- Hp, length_take_le by done. done.
Qed.

Lemma reads_ends isChar input s k :
  reads input s →
  (∀ c, drop k (pending s) !! 0%nat = Some c → isChar c = false) →
  ends isChar input (position s + k).
Proof.
  intros [Hp _] Hend c Hc. apply Hend.
  by rewrite Hp, lookup_drop, lookup_drop, Nat.add_0_r.
Qed.

Lemma number_spelt input s :
  reads input s →
  ∃ run, slice input (position s) (length run) = run
    ∧ forallb isNumberChar run = true
    ∧ ends isNumberChar input (position s + length run)
    ∧ (number s).1
      = Token.mk NUMBER (VNumber (JS.parseFloat (string_of_list_ascii run))) (position s).
Proof.
  intros Hr. unfold number.
  destruct (number_from_run (pending s) EmptyString (position s))
    as (k & Hk & -> & Hall & Hend).
  exists (take k (pending s)). split; [by apply reads_slice|]. split; [done|].
  split; [|done]. rewrite length_take_le by done. by apply reads_ends.
Qed.

Lemma length_list_ascii_of_string s : length (list_ascii_of_string s) = String.length s.
Proof. induction s; cbn; congruence. Qed.

Lemma identifier_spelt input s :
  reads input s → spelt input (identifier s).1.
Proof.
  intros Hr. unfold identifier.
  destruct (identifier_from_run (pending s) EmptyString (position s))
    as (k & Hk & -> & Hall & Hend).
  change (EmptyString +:+ ?x) with x.
  set (run := take k (pending s)) in *.
  assert (slice input (position s) (length run) = run) as Hslice by (by apply reads_slice).
  assert (ends isIdentifierChar input (position s + length run)) as Hends.
  { unfold run. rewrite length_take_le by done. by apply reads_ends. }
  destruct (String.eqb_spec (string_of_list_ascii run) "true") as [Ht|Ht];
    [|destruct (String.eqb_spec (string_of_list_ascii run) "false") as [Hf|Hf]];
    cbn [orb fst]; unfold spelt; cbn [Token.type Token.value Token.position].
  - apply (f_equal list_ascii_of_string) in Ht.
    rewrite list_ascii_of_string_of_list_ascii in Ht. rewrite Ht in Hslice, Hends. done.
  - apply (f_equal list_ascii_of_string) in Hf.
    rewrite list_ascii_of_string_of_list_ascii in Hf. rewrite Hf in Hslice, Hends. done.
  - rewrite <- length_list_ascii_of_string, list_ascii_of_string_of_list_ascii. done.
Qed.

Lemma operator_spelt input c s :
  reads input s → currentChar s = Some c → spelt input (operator c s).1.
Proof.
  intros Hr Hc. unfold operator.
  assert (pending s !! 0%nat = Some c) as H0.
  { unfold currentChar in Hc. by destruct (pending s). }
  destruct (peek s) as [d|] eqn:Hp.
  - destruct ((isCode c 61 || isCode c 33 || isCode c 62 || isCode c 60) && isCode d 61)
      eqn:Hfused; unfold spelt; cbn [fst Token.type Token.value Token.position String.length].
    + split; [|done]. unfold slice. destruct Hr as [<- _].
      unfold peek in Hp.
      destruct (pending s) as [|c0 [|d0 rest]]; cbn in *; rewrite ?take_0; congruence.
    + split.
      * unfold slice. destruct Hr as [<- _]. destruct (pending s); cbn in *; rewrite ?take_0; congruence.
      * intros c' [= <-] Hstart e He. unfold isComparisonStart in Hstart.
        rewrite Hstart in Hfused. cbn in Hfused.
        rewrite (reads_lookup _ _ _ Hr) in He. unfold peek in Hp. congruence.
  - unfold spelt; cbn [fst Token.type Token.value Token.position String.length]. split.
    + unfold slice. destruct Hr as [<- _]. destruct (pending s); cbn in *; rewrite ?take_0; congruence.
    + intros c' [= <-] _ e He. rewrite (reads_lookup _ _ _ Hr) in He.
      unfold peek in Hp. congruence.
Qed.

Lemma scan_spelt input c s tokens log s' tokens' log' :
  reads input s → currentChar s = Some c →
  scan c s tokens log = (s', tokens', log') →
  Forall (spelt input) tokens → Forall (spelt input) tokens'.
Proof.
  intros Hr Hc. unfold scan.
  assert (∀ tok, spelt input tok → Forall (spelt input) tokens →
                 Forall (spelt input) (tokens ++ [tok])) as Hsnoc.
  { intros tok Htok Hall. apply Forall_app. split; [done|]. by constructor. }
  destruct (JS.isDigit c).
  { destruct (number_spelt input s Hr) as (run & Hslice & Hall & Hends & Htok).
    destruct (number s) as [tok s0]. cbn in Htok. subst tok.
    intros [= <- <- <-]. apply Hsnoc. exists run. repeat split; try done. by left. }
  destruct (startsNegativeNumber s tokens) eqn:Hneg.
  { unfold startsNegativeNumber in Hneg. rewrite Hc in Hneg.
    destruct (peek s) as [d|] eqn:Hpeek; [|done].
    apply andb_true_iff in Hneg as [[H45 _]%andb_true_iff _].
    assert (reads input (advance s)) as Hr'.
    { rewrite advance_forward. apply reads_forward; [done|].
      by apply (currentChar_length _ c). }
    destruct (number_spelt input (advance s) Hr') as (run & Hslice & Hall & Hends & Htok).
    destruct (number (advance s)) as [tok s0]. cbn in Htok. subst tok.
    intros [= <- <- <-]. apply Hsnoc. exists run.
    unfold negate. cbn [Token.type Token.value Token.position advance position] in *.
    repeat split; try done. right. split; [done|]. exists (position s). split; [done|].
    rewrite (reads_current _ _ _ Hr Hc). f_equal.
    unfold isCode, JS.code in H45. apply Nat.eqb_eq in H45.
    by rewrite <- (ascii_nat_embedding c), H45. }
  destruct (isCode c 34 || isCode c 39).
  { destruct (string_forward s c Hc) as (k & v & _ & ->).
    intros [= <- <- <-]. by apply Hsnoc. }
  destruct (isIdentifierStart c).
  { pose proof (identifier_spelt input s Hr) as Htok.
    destruct (identifier s) as [tok s0]. intros [= <- <- <-]. by apply Hsnoc. }
  destruct (isCode c 40); [intros [= <- <- <-]; by apply Hsnoc|].
  destruct (isCode c 41); [intros [= <- <- <-]; by apply Hsnoc|].
  destruct (isCode c 44); [intros [= <- <- <-]; by apply Hsnoc|].
  destruct (isOperatorChar c).
  { pose proof (operator_spelt input c s Hr Hc) as Htok.
    destruct (operator c s) as [tok s0]. intros [= <- <- <-]. by apply Hsnoc. }
  by intros [= <- <- <-].
Qed.

Lemma loop_spelt input fuel s tokens log s' tokens' log' :
  reads input s ∧ Forall (spelt input) tokens →
  loop fuel s tokens log = Some (s', tokens', log') →
  reads input s' ∧ Forall (spelt input) tokens'.
Proof.
  apply (loop_invariant (λ s tokens _, reads input s ∧ Forall (spelt input) tokens)); clear.
  - intros s tokens _ [Hr Hall].
    destruct (skipWhitespace_forward s) as (k & Hk & -> & _).
    split; [by apply reads_forward|done].
  - intros c s tokens log s' tokens' log' [Hr Hall] Hc _ Hscan. split.
    + destruct (scan_pass _ _ _ _ _ _ _ Hc Hscan) as (k & Hk & -> & _).
      apply reads_forward; [done|lia].
    + by apply (scan_spelt input c s tokens log s' tokens' log').
Qed.

End SpellingFacts.

(** X18. The payload of every token is the text at its position in the
    trimmed input. A number is what [parseFloat] makes of the longest
    run of digits and dots there, negated only when a minus sign stands
    just before the run; a name or Boolean is the longest run of
    letters, digits, underscores and dots there; an operator is the one
    or two characters there, and one of [=], [!], [<], [>] stands alone
    only when no [=] follows it. *)
Theorem token_payloads_are_the_text (input : string) :
  ∃ tokens log,
    Tokenizer.run input = Some (tokens, log)
    ∧ Forall (Lexeme.spelt (JS.trim (list_ascii_of_string input))) tokens.
Proof.
  destruct (TextFacts.run_layout input) as (tokens & log & Hrun & _).
  exists (tokens ++ [Token.mk EOF (VString EmptyString)
                       (length (JS.trim (list_ascii_of_string input)))]), log.
  split; [done|]. revert Hrun. rewrite TextFacts.run_trimmed.
  set (text := JS.trim (list_ascii_of_string input)).
  destruct (Tokenizer.loop (length text) (Tokenizer.mk text 0) [] [])
    as [[[s' tokens'] log']|] eqn:Hloop; [|done].
  intros [= Htokens _]. apply app_inj_tail in Htokens as [-> _].
  apply Forall_app. split; [|by repeat constructor].
  assert (Lexeme.reads text (Tokenizer.mk text 0)) as Hr.
  { split; [done|cbn; lia]. }
  apply (SpellingFacts.loop_spelt text _ _ _ _ _ _ _ (conj Hr (Forall_nil_2 _)) Hloop).
Qed.

(** X9. Only the empty string is the empty expression. An expression
    made of white space alone has the end marker as its only token, and
    evaluating it fails on that token at position 0, through the facade
    (which wraps the error) and through the standalone helper. *)
Theorem white_space_is_not_the_empty_expression (W : Type) (parser : Parser.t W)
    (expression : string) (variables : option Values) (w : W) :
  expression ≠ EmptyString →
  Forall (λ c, JS.isWhiteSpace c = true) (list_ascii_of_string expression) →
  Tokenizer.tokenize expression = Some [Token.mk EOF (VString EmptyString) 0]
  ∧ Parser.evaluate parser expression variables w
    = (Throw (SafeExprEval expression (Unexpected_token EOF 0)), w)
  ∧ evaluate expression variables = Throw (Unexpected_token EOF 0).
Proof.
  intros Hne Hws.
  assert (Tokenizer.tokenize expression = Some [Token.mk EOF (VString EmptyString) 0]) as Htok.
  { unfold Tokenizer.tokenize. by rewrite (PassFacts.run_white_space _ Hws). }
  split; [done|]. split.
  - unfold Parser.evaluate, Parser.parse.
    destruct (String.eqb_spec expression EmptyString); [done|]. by rewrite Htok.
  - unfold evaluate. by rewrite Htok.
Qed.

Lemma white_space_is_not_the_empty_expression_witness :
  Tokenizer.tokenize "  " = Some [Token.mk EOF (VString EmptyString) 0]
  ∧ Parser.evaluate (W := unit) Parser.new "  " None tt
    = (Throw (SafeExprEval "  " (Unexpected_token EOF 0)), tt)
  ∧ evaluate "  " None = Throw (Unexpected_token EOF 0).
Proof.
  apply (white_space_is_not_the_empty_expression unit Parser.new "  " None tt);
    [done|by repeat constructor].
Defined.

(** A name on its own is looked up among the variables. *)
Lemma run_name {W} ident name last post variables (functions : gmap string (Callable W)) w :
  Token.type ident = IDENTIFIER → Token.value ident = VString name → name ≠ "not" →
  quiet last = true → Token.type last ≠ PAREN_OPEN →
  (ExpressionEvaluator.run (ident :: last :: post) variables functions w).1
  = match variables !! name with
    | Some v => Ret v
    | None =>
        if JS.inPrototype name then Inherited (As_variable name)
        else Throw (Undefined_variable name)
    end
  ∧ ExpressionEvaluator.host
      (ExpressionEvaluator.run (ident :: last :: post) variables functions w).2 = w.
Proof.
  intros Hty Hval Hne Hlast Hopen.
  assert (tokenIs IDENTIFIER "not" ident = false) as Hnot.
  { unfold tokenIs, spelled. rewrite Hval.
    destruct (String.eqb_spec name "not"); [done|]. by rewrite andb_false_r. }
  pose proof (parsePrimary_variable (ident :: last :: post) variables functions
                (length (ident :: last :: post)) 0 w ident name last
                eq_refl Hty Hval eq_refl Hopen) as Hprim.
  unfold ExpressionEvaluator.run, ExpressionEvaluator.evaluate.
  destruct (variables !! name) as [v|].
  - by rewrite (parseOr_of_parsePrimary (ident :: last :: post) _ _ _
                  (ExpressionEvaluator.mk 0 w) _ (ExpressionEvaluator.mk 1 w) ident last
                  eq_refl Hnot Hprim eq_refl Hlast).
  - destruct (JS.inPrototype name).
    + by rewrite (parseOr_of_parsePrimary_Inherited (ident :: last :: post) _ _ _
                    (ExpressionEvaluator.mk 0 w) _ (ExpressionEvaluator.mk 1 w) ident
                    eq_refl Hnot Hprim).
    + by rewrite (parseOr_of_parsePrimary_Throw (ident :: last :: post) _ _ _
                    (ExpressionEvaluator.mk 0 w) _ (ExpressionEvaluator.mk 1 w) ident
                    eq_refl Hnot Hprim).
Qed.

(** X10. A name that is not followed by a parenthesis is a variable: the
    expression evaluates to the entry of that name, dots included; the
    functions of the parser are not consulted. When there is no entry,
    it fails with [Undefined variable], unless [Object.prototype] defines
    the name: then the code takes the inherited member for the value,
    where the embedding stops. Through the facade the variables passed
    to the evaluation shadow the constants of the parser of the same
    name, and the failure is wrapped. *)
Theorem name_evaluates_to_its_variable (W : Type) (parser : Parser.t W)
    (word : string) (variables : Values) (w : W) :
  Lexeme.isWord (list_ascii_of_string word) = true →
  word ≠ "true" → word ≠ "false" → word ≠ "not" →
  evaluate word (Some variables)
  = match variables !! word with
    | Some v => Ret v
    | None =>
        if JS.inPrototype word then Inherited (As_variable word)
        else Throw (Undefined_variable word)
    end
  ∧ Parser.evaluate parser word (Some variables) w
    = (match variables !! word, Parser.consts parser !! word with
       | Some v, _ => Ret v
       | None, Some v => Ret v
       | None, None =>
           if JS.inPrototype word then Inherited (As_variable word)
           else Throw (SafeExprEval word (Undefined_variable word))
       end, w).
Proof.
  intros Hword Htrue Hfalse Hnot.
  assert (Tokenizer.tokenize word
          = Some [Token.mk IDENTIFIER (VString word) 0;
                  Token.mk EOF (VString EmptyString) (String.length word)]) as Htok.
  { unfold Tokenizer.tokenize. rewrite (WordFacts.run_word _ Hword). unfold Lexeme.wordToken.
    destruct (String.eqb_spec word "true"); [done|].
    by destruct (String.eqb_spec word "false"). }
  split.
  - unfold evaluate. rewrite Htok. cbn [default].
    by apply (run_name (Token.mk IDENTIFIER (VString word) 0) word).
  - unfold Parser.evaluate, Parser.parse.
    destruct (String.eqb_spec word EmptyString) as [->|_]; [done|].
    rewrite Htok. cbn [default].
    destruct (run_name (W := W) (Token.mk IDENTIFIER (VString word) 0) word
                (Token.mk EOF (VString EmptyString) (String.length word)) []
                (variables ∪ Parser.consts parser) (Parser.functions parser) w
                eq_refl eq_refl Hnot eq_refl ltac:(done)) as [Hout Hhost].
    destruct (ExpressionEvaluator.run _ _ _ w) as [out st]. cbn in Hout, Hhost. subst out w.
    rewrite lookup_union.
    destruct (variables !! word) as [v|], (Parser.consts parser !! word) as [c|]; try done.
    by destruct (JS.inPrototype word).
Qed.

Lemma name_evaluates_to_its_variable_witness :
  evaluate "user.age" (Some {[ "user.age" := num 30 ]}) = Ret (num 30)
  ∧ Parser.evaluate (W := unit) (Parser.mk ∅ {[ "user.age" := num 18 ]}) "user.age"
      (Some {[ "user.age" := num 30 ]}) tt
    = (Ret (num 30), tt).
Proof.
  pose proof (name_evaluates_to_its_variable unit (Parser.mk ∅ {[ "user.age" := num 18 ]})
                "user.age" {[ "user.age" := num 30 ]} tt
                eq_refl ltac:(done) ltac:(done) ltac:(done)) as H.
  by rewrite lookup_singleton_eq in H.
Defined.

Section CursorFacts.

Import ExpressionEvaluator Cursor.

Context {W : Type}.
Variable tokens : list Token.
Variable variables : Values.
Variable functions : gmap string (Callable W).

(** The end marker sits at [k]. *)
Variable k : nat.
Variable eof : Token.
Hypothesis Hk : tokens !! k = Some eof.
Hypothesis Heof : Token.type eof = EOF.

Local Abbreviation state := (@state W).
Local Abbreviation currentToken := (currentToken (W := W) tokens).
Local Abbreviation consume := (consume (W := W) tokens).
Local Abbreviation leftAssoc := (leftAssoc (W := W) tokens).
Local Abbreviation parseOr := (parseOr tokens variables functions).
Local Abbreviation kept r st := (kept tokens variables functions k r st).
Local Abbreviation keeps p := (keeps tokens variables functions k p).
Local Abbreviation expected := (expected tokens variables functions).

Lemma kept_ret {A} (a : A) (st : state) :
  (currentTokenIndex st ≤ k)%nat → kept (ret a st) st.
Proof. intros H. split; [cbn; lia|done]. Qed.

Lemma kept_throw {A} e (st : state) :
  (currentTokenIndex st ≤ k)%nat → expected e → kept (throw (A := A) e st) st.
Proof. intros H He. split; [cbn; lia|done]. Qed.

Lemma kept_leaves {A} i (st : state) :
  (currentTokenIndex st ≤ k)%nat → found tokens variables functions i →
  kept (leaves (A := A) i st) st.
Proof. intros H Hi. split; [cbn; lia|done]. Qed.

Lemma kept_bind {A B} (m : @M W A) (f : A → @M W B) st :
  kept (m st) st →
  (∀ a st', m st = (Ret a, st') → (currentTokenIndex st' ≤ k)%nat → kept (f a st') st') →
  kept (bind m f st) st.
Proof.
  unfold bind. intros [Hi He] Hf. destruct (m st) as [[a|e|g|i] st'] eqn:E; try done.
  cbn [fst snd] in Hi. destruct (Hf a st' eq_refl ltac:(lia)) as [Hi' He'].
  split; [lia|done].
Qed.

Lemma kept_from {A} (r : outcome A * state) (st0 st : state) :
  (currentTokenIndex st ≤ currentTokenIndex st0)%nat → kept r st0 → kept r st.
Proof. intros H [Hi He]. split; [lia|done]. Qed.

Lemma lookup_within (st : state) :
  (currentTokenIndex st ≤ k)%nat → ∃ tok, tokens !! currentTokenIndex st = Some tok.
Proof.
  intros H. apply lookup_lt_is_Some. apply lookup_lt_Some in Hk. lia.
Qed.

Lemma before_marker (st : state) tok :
  (currentTokenIndex st ≤ k)%nat → tokens !! currentTokenIndex st = Some tok →
  Token.type tok ≠ EOF → (currentTokenIndex (consumed st) ≤ k)%nat.
Proof.
  intros H Htok Hty. cbn. destruct (decide (currentTokenIndex st = k)) as [E|]; [|lia].
  rewrite E, Hk in Htok. by injection Htok as <-.
Qed.

(** Fetching the current token, within the list. *)
Lemma current (st : state) :
  (currentTokenIndex st ≤ k)%nat →
  ∃ tok, tokens !! currentTokenIndex st = Some tok
    ∧ defined currentToken st = (Ret tok, st).
Proof.
  intros H. destruct (lookup_within st H) as [tok Htok]. exists tok. split; [done|].
  by apply defined_currentToken.
Qed.

Lemma leftAssoc_keeps continues combine (operand : @M W Value) :
  keeps operand →
  (∀ tok, continues tok = true → Token.type tok ≠ EOF) →
  ∀ fuel left, keeps (leftAssoc continues combine operand fuel left).
Proof.
  intros Hop Hcont. induction fuel as [|fuel IH]; intros left st Hst; [by split; [cbn; lia|]|].
  cbn [ExpressionEvaluator.leftAssoc].
  destruct (current st Hst) as (tok & Htok & Hcur_tok). rewrite (bind_Ret _ _ _ _ _ Hcur_tok).
  destruct (continues tok) eqn:Hc; [|by apply kept_ret].
  rewrite (bind_Ret _ _ _ _ _ (defined_consume _ _ _ Htok)).
  pose proof (before_marker st tok Hst Htok (Hcont tok Hc)) as Hnext.
  apply (kept_from _ (consumed st)); [cbn; lia|].
  apply kept_bind; [by apply Hop|].
  intros right st1 _ Hst1. by apply IH.
Qed.

Lemma parseArguments_keeps (rec : @M W Value) :
  keeps rec →
  ∀ passes args, keeps (ExpressionEvaluator.parseArguments tokens rec passes args).
Proof.
  intros Hrec. induction passes as [|passes IH]; intros args st Hst; [by split; [cbn; lia|]|].
  cbn [ExpressionEvaluator.parseArguments].
  destruct (current st Hst) as (tok & Htok & Hcur_tok). rewrite (bind_Ret _ _ _ _ _ Hcur_tok).
  destruct (_ && _); [|by apply kept_ret].
  apply kept_bind; [by apply Hrec|].
  intros arg st1 _ Hst1.
  destruct (current st1 Hst1) as (tok1 & Htok1 & Hcur_tok1). rewrite (bind_Ret _ _ _ _ _ Hcur_tok1).
  case_bool_decide as Hcomma.
  - rewrite (bind_Ret _ _ _ _ _ (consume_eq _ _)).
    assert (Token.type tok1 ≠ EOF) as Hne by (by rewrite Hcomma).
    pose proof (before_marker st1 tok1 Hst1 Htok1 Hne) as Hnext.
    apply (kept_from _ (consumed st1)); [cbn; lia|]. by apply IH.
  - rewrite (bind_Ret (ret None) _ _ None _ eq_refl). by apply IH.
Qed.

Lemma call_kept name (f : Callable W) args (st : state) :
  functions !! name = Some f →
  (currentTokenIndex st ≤ k)%nat → kept (call f args st) st.
Proof.
  intros Hf Hst. unfold call, Cursor.kept.
  destruct (f args (host st)) as [[v|message] w'] eqn:E; cbn; (split; [lia|]); [done|].
  by exists name, f, args, (host st), w'.
Qed.

Lemma optional_consume type (st : state) tok :
  (currentTokenIndex st ≤ k)%nat → tokens !! currentTokenIndex st = Some tok →
  type ≠ EOF →
  ∃ st', (if bool_decide (Token.type tok = type) then consume else ret None) st
         = (Ret (if bool_decide (Token.type tok = type)
                 then tokens !! currentTokenIndex st else None), st')
    ∧ (currentTokenIndex st ≤ currentTokenIndex st' ≤ k)%nat.
Proof.
  intros Hst Htok Hty. case_bool_decide as E.
  - exists (consumed st). split; [done|].
    assert (Token.type tok ≠ EOF) as Hne by (by rewrite E).
    pose proof (before_marker st tok Hst Htok Hne). cbn in *. lia.
  - exists st. split; [done|lia].
Qed.

Lemma parsePrimary_keeps fuel (rec : @M W Value) :
  keeps rec →
  keeps (ExpressionEvaluator.parsePrimary tokens variables functions fuel rec).
Proof.
  intros Hrec st Hst. unfold ExpressionEvaluator.parsePrimary.
  destruct (current st Hst) as (tok & Htok & Hcur_tok). rewrite (bind_Ret _ _ _ _ _ Hcur_tok).
  assert (tok ∈ tokens) as Hin by (by eapply list_elem_of_lookup_2).
  assert (Token.type tok ≠ EOF → (currentTokenIndex (consumed st) ≤ k)%nat) as Hnext.
  { by apply before_marker. }
  assert (∀ v : Value, Token.type tok ≠ EOF → kept (bind consume (λ _, ret v) st) st)
    as Hliteral.
  { intros v Hne. rewrite (bind_Ret _ _ _ _ _ (consume_eq _ _)).
    specialize (Hnext Hne). split; [cbn in *; lia|done]. }
  destruct (Token.type tok) eqn:Htype;
    try (apply Hliteral; done);
    try (apply kept_throw; [done|]; split; [done|]; by exists tok).
  - (* an identifier *)
    destruct (Token.value tok) as [|name| | |] eqn:Hvalue;
      try (split; [cbn; lia|done]).
    rewrite (bind_Ret _ _ _ _ _ (consume_eq _ _)).
    specialize (Hnext ltac:(done)).
    apply (kept_from _ (consumed st)); [cbn; lia|].
    destruct (current (consumed st) Hnext) as (next & Hnexttok & Hcur_next). rewrite (bind_Ret _ _ _ _ _ Hcur_next).
    case_bool_decide as Hopen.
    2:{ destruct (variables !! name) eqn:Hvar; [by apply kept_ret|].
        destruct (JS.inPrototype name) eqn:Hproto.
        - apply kept_leaves; [done|]. split; [done|]. split; [done|]. by exists tok.
        - apply kept_throw; [done|]. split; [done|]. split; [done|]. by exists tok. }
    unfold ExpressionEvaluator.parseFunctionCall.
    rewrite (bind_Ret _ _ _ _ _ (consume_eq _ _)).
    assert (Token.type next ≠ EOF) as Hne by (by rewrite Hopen).
    pose proof (before_marker _ next Hnext Hnexttok Hne) as Hnext2.
    apply (kept_from _ (consumed (consumed st))); [cbn; lia|].
    apply kept_bind; [by apply parseArguments_keeps|].
    intros args st1 _ Hst1.
    destruct (current st1 Hst1) as (closing & Hclosing & Hcur_closing). rewrite (bind_Ret _ _ _ _ _ Hcur_closing).
    destruct (optional_consume PAREN_CLOSE st1 closing Hst1 Hclosing ltac:(done))
      as (st2 & Hopt & Hst2). rewrite (bind_Ret _ _ _ _ _ Hopt).
    apply (kept_from _ st2); [lia|].
    destruct (functions !! name) as [f|] eqn:Hf.
    + by apply (call_kept name); [|lia].
    + destruct (JS.inPrototype name) eqn:Hproto.
      * apply kept_leaves; [lia|]. split; [done|]. split; [done|]. by exists tok.
      * apply kept_throw; [lia|]. split; [done|]. split; [done|]. by exists tok.
  - (* a parenthesis *)
    rewrite (bind_Ret _ _ _ _ _ (consume_eq _ _)).
    specialize (Hnext ltac:(done)).
    apply (kept_from _ (consumed st)); [cbn; lia|].
    apply kept_bind; [by apply Hrec|].
    intros value st1 _ Hst1.
    destruct (current st1 Hst1) as (closing & Hclosing & Hcur_closing). rewrite (bind_Ret _ _ _ _ _ Hcur_closing).
    destruct (optional_consume PAREN_CLOSE st1 closing Hst1 Hclosing ltac:(done))
      as (st2 & Hopt & Hst2). rewrite (bind_Ret _ _ _ _ _ Hopt).
    split; [cbn; lia|done].
Qed.

Lemma level_keeps continues combine (operand : @M W Value) fuel :
  keeps operand →
  (∀ tok, continues tok = true → Token.type tok ≠ EOF) →
  keeps (bind operand (leftAssoc continues combine operand fuel)).
Proof.
  intros Hop Hcont st Hst. apply kept_bind; [by apply Hop|].
  intros left st1 _ Hst1. by apply leftAssoc_keeps.
Qed.

Lemma compare_expected l op r :
  isComparisonOperator op = true →
  match compare l op r with
  | Throw e => expected e
  | Inherited i => found tokens variables functions i
  | Ret _ | Gap _ => True
  end.
Proof.
  unfold isComparisonOperator, compare.
  repeat (destruct (String.eqb op _); [done|]). done.
Qed.

Lemma parseComparison_keeps fuel (rec : @M W Value) :
  keeps (ExpressionEvaluator.parseAdditive tokens variables functions fuel rec) →
  keeps (ExpressionEvaluator.parseComparison tokens variables functions fuel rec).
Proof.
  intros Hadd st Hst. unfold ExpressionEvaluator.parseComparison.
  apply kept_bind; [by apply Hadd|].
  intros left st1 _ Hst1.
  destruct (current st1 Hst1) as (tok & Htok & Hcur_tok). rewrite (bind_Ret _ _ _ _ _ Hcur_tok).
  destruct (Token.type tok) eqn:Hty; try (by apply kept_ret).
  destruct (Token.value tok) as [|op| | |]; try (by apply kept_ret).
  destruct (isComparisonOperator op) eqn:Hop; [|by apply kept_ret].
  rewrite (bind_Ret _ _ _ _ _ (consume_eq _ _)).
  assert (Token.type tok ≠ EOF) as Hne by (by rewrite Hty).
  pose proof (before_marker st1 tok Hst1 Htok Hne) as Hnext.
  apply (kept_from _ (consumed st1)); [cbn; lia|].
  apply kept_bind; [by apply Hadd|].
  intros right st2 _ Hst2. split; [cbn; lia|]. by apply compare_expected.
Qed.

Lemma tokenIs_not_marker type spelling tok :
  type ≠ EOF → tokenIs type spelling tok = true → Token.type tok ≠ EOF.
Proof.
  unfold tokenIs. intros Hne [Hty _]%andb_true_iff.
  apply bool_decide_eq_true in Hty. by rewrite Hty.
Qed.

Lemma parseNot_keeps fuel (rec : @M W Value) :
  keeps (ExpressionEvaluator.parseComparison tokens variables functions fuel rec) →
  ∀ depth, keeps (ExpressionEvaluator.parseNot tokens variables functions fuel rec depth).
Proof.
  intros Hcmp. induction depth as [|depth IH]; intros st Hst; [by split; [cbn; lia|]|].
  cbn [ExpressionEvaluator.parseNot].
  destruct (current st Hst) as (tok & Htok & Hcur_tok). rewrite (bind_Ret _ _ _ _ _ Hcur_tok).
  destruct (tokenIs IDENTIFIER "not" tok) eqn:Hnot; [|by apply Hcmp].
  rewrite (bind_Ret _ _ _ _ _ (consume_eq _ _)).
  pose proof (before_marker st tok Hst Htok
                (tokenIs_not_marker IDENTIFIER "not" tok ltac:(done) Hnot)) as Hnext.
  apply (kept_from _ (consumed st)); [cbn; lia|].
  apply kept_bind; [by apply IH|].
  intros operand st1 _ Hst1. by apply kept_ret.
Qed.

Lemma isMultiplicative_not_marker tok :
  isMultiplicative tok = true → Token.type tok ≠ EOF.
Proof.
  unfold isMultiplicative. intros [Hty _]%andb_true_iff.
  apply bool_decide_eq_true in Hty. by rewrite Hty.
Qed.

Lemma isAdditive_not_marker tok : isAdditive tok = true → Token.type tok ≠ EOF.
Proof.
  unfold isAdditive.
  intros [H|H]%orb_true_iff; by apply (tokenIs_not_marker OPERATOR _ tok ltac:(done) H).
Qed.

(** From a cursor at or before an end marker, [parseOr] never moves the
    cursor beyond the marker, and every error it throws is expected. *)
Theorem parseOr_keeps fuel : keeps (parseOr fuel).
Proof.
  induction fuel as [|fuel IH]; [intros st ?; split; [cbn; lia|done]|].
  change (parseOr (S fuel))
    with (parseOr_body tokens variables functions (S fuel) (parseOr fuel)).
  unfold parseOr_body, ExpressionEvaluator.parseAnd.
  apply level_keeps; [|intros tok; by apply (tokenIs_not_marker IDENTIFIER)].
  apply level_keeps; [|intros tok; by apply (tokenIs_not_marker IDENTIFIER)].
  apply parseNot_keeps, parseComparison_keeps.
  unfold ExpressionEvaluator.parseAdditive.
  apply level_keeps; [|apply isAdditive_not_marker].
  unfold ExpressionEvaluator.parseMultiplicative.
  apply level_keeps; [|apply isMultiplicative_not_marker].
  by apply parsePrimary_keeps.
Qed.

End CursorFacts.

Section AgreementFacts.

Import ExpressionEvaluator Agreement.

Context {W1 W2 : Type}.
Variable tokens : list Token.
Variables variables1 variables2 : Values.
Variable functions1 : gmap string (Callable W1).
Variable functions2 : gmap string (Callable W2).
Variable R : W1 → W2 → Prop.

Hypothesis Hvariables :
  ∀ name, named tokens name → variables1 !! name = variables2 !! name.
Hypothesis Hfunctions :
  ∀ name, named tokens name →
    option_Forall2 (alike R) (functions1 !! name) (functions2 !! name).

Local Abbreviation agree r1 r2 := (agree R r1 r2).
Local Abbreviation agrees p1 p2 := (agrees R p1 p2).
Local Abbreviation parseOr1 := (parseOr (W := W1) tokens variables1 functions1).
Local Abbreviation parseOr2 := (parseOr (W := W2) tokens variables2 functions2).

Lemma agrees_ret {A} (a : A) : agrees (ret a) (ret a).
Proof. by intros st1 st2 Hi Hw. Qed.

Lemma agrees_throw {A} e : agrees (throw (A := A) e) (throw e).
Proof. by intros st1 st2 Hi Hw. Qed.

Lemma agrees_stuck {A} g : agrees (stuck (A := A) g) (stuck g).
Proof. by intros st1 st2 Hi Hw. Qed.

Lemma agrees_leaves {A} i : agrees (leaves (A := A) i) (leaves i).
Proof. by intros st1 st2 Hi Hw. Qed.

Lemma agrees_lift {A} (o : outcome A) : agrees (lift o) (lift o).
Proof. by intros st1 st2 Hi Hw. Qed.

Lemma agrees_bind {A B} (m1 : @M W1 A) (m2 : @M W2 A) (f1 : A → @M W1 B) (f2 : A → @M W2 B) :
  agrees m1 m2 → (∀ a, agrees (f1 a) (f2 a)) → agrees (bind m1 f1) (bind m2 f2).
Proof.
  intros Hm Hf st1 st2 Hi Hw. unfold bind.
  destruct (Hm st1 st2 Hi Hw) as (Ho & Hi' & Hw').
  destruct (m1 st1) as [o1 st1'], (m2 st2) as [o2 st2']. cbn in Ho, Hi', Hw'. subst o2.
  destruct o1 as [a|e|g|i]; [by apply Hf|done..].
Qed.

Lemma agrees_consume : agrees (consume tokens) (consume tokens).
Proof. intros st1 st2 Hi Hw. unfold consume. rewrite Hi. repeat split; cbn; by f_equal. Qed.

(** Binding the current token: the continuation may use that it is one
    of the tokens. *)
Lemma agrees_current {B} (f1 : Token → @M W1 B) (f2 : Token → @M W2 B) :
  (∀ tok, tok ∈ tokens → agrees (f1 tok) (f2 tok)) →
  agrees (bind (defined (currentToken tokens)) f1) (bind (defined (currentToken tokens)) f2).
Proof.
  intros Hf st1 st2 Hi Hw. unfold bind, defined, currentToken, bind. rewrite Hi.
  destruct (tokens !! currentTokenIndex st2) as [tok|] eqn:Htok; [|done].
  cbn. apply Hf; [|done..]. by eapply list_elem_of_lookup_2.
Qed.

Lemma agrees_defined_consume {B} (f1 : Token → @M W1 B) (f2 : Token → @M W2 B) :
  (∀ tok, agrees (f1 tok) (f2 tok)) →
  agrees (bind (defined (consume tokens)) f1) (bind (defined (consume tokens)) f2).
Proof.
  intros Hf. apply agrees_bind; [|done].
  unfold defined. apply agrees_bind; [apply agrees_consume|].
  intros [tok|]; [apply agrees_ret|apply agrees_throw].
Qed.

Lemma agrees_optional (b : bool) :
  agrees (if b then consume tokens else ret None) (if b then consume tokens else ret None).
Proof. destruct b; [apply agrees_consume|apply agrees_ret]. Qed.

Lemma agrees_leftAssoc continues combine (operand1 : @M W1 Value) (operand2 : @M W2 Value) :
  agrees operand1 operand2 →
  ∀ fuel left,
    agrees (leftAssoc tokens continues combine operand1 fuel left)
           (leftAssoc tokens continues combine operand2 fuel left).
Proof.
  intros Hop. induction fuel as [|fuel IH]; intros left; [apply agrees_stuck|].
  cbn [leftAssoc]. apply agrees_current. intros tok _.
  destruct (continues tok); [|apply agrees_ret].
  apply agrees_defined_consume. intros op.
  apply agrees_bind; [done|]. intros right. apply IH.
Qed.

Lemma agrees_parseArguments (rec1 : @M W1 Value) (rec2 : @M W2 Value) :
  agrees rec1 rec2 →
  ∀ passes args,
    agrees (parseArguments tokens rec1 passes args) (parseArguments tokens rec2 passes args).
Proof.
  intros Hrec. induction passes as [|passes IH]; intros args; [apply agrees_stuck|].
  cbn [parseArguments]. apply agrees_current. intros tok _.
  destruct (_ && _); [|apply agrees_ret].
  apply agrees_bind; [done|]. intros arg.
  apply agrees_current. intros tok1 _.
  apply agrees_bind; [apply agrees_optional|]. intros _. apply IH.
Qed.

Lemma agrees_call (f1 : Callable W1) (f2 : Callable W2) args :
  alike R f1 f2 → agrees (call f1 args) (call f2 args).
Proof.
  intros Hf st1 st2 Hi Hw. unfold call.
  destruct (Hf args (host st1) (host st2) Hw) as [Ho Hw'].
  destruct (f1 args (host st1)) as [[v1|m1] w1'], (f2 args (host st2)) as [[v2|m2] w2'];
    cbn in Ho, Hw'; try done; injection Ho as <-; by repeat split.
Qed.

Lemma agrees_parsePrimary fuel (rec1 : @M W1 Value) (rec2 : @M W2 Value) :
  agrees rec1 rec2 →
  agrees (parsePrimary tokens variables1 functions1 fuel rec1)
         (parsePrimary tokens variables2 functions2 fuel rec2).
Proof.
  intros Hrec. unfold parsePrimary. apply agrees_current. intros tok Hin.
  destruct (Token.type tok) eqn:Hty; try apply agrees_throw;
    try (apply agrees_bind; [apply agrees_consume|]; intros _; apply agrees_ret).
  - destruct (Token.value tok) as [|name| | |] eqn:Hval; try apply agrees_stuck.
    assert (named tokens name) as Hnamed by (by exists tok).
    apply agrees_bind; [apply agrees_consume|]. intros _.
    apply agrees_current. intros next _.
    case_bool_decide.
    + unfold parseFunctionCall.
      apply agrees_bind; [apply agrees_consume|]. intros _.
      apply agrees_bind; [by apply agrees_parseArguments|]. intros args.
      apply agrees_current. intros closing _.
      apply agrees_bind; [apply agrees_optional|]. intros _.
      destruct (Hfunctions name Hnamed) as [f1 f2 Hf|]; [by apply agrees_call|].
      destruct (JS.inPrototype name); [apply agrees_leaves|apply agrees_throw].
    + rewrite (Hvariables name Hnamed).
      destruct (variables2 !! name); [apply agrees_ret|].
      destruct (JS.inPrototype name); [apply agrees_leaves|apply agrees_throw].
  - apply agrees_bind; [apply agrees_consume|]. intros _.
    apply agrees_bind; [done|]. intros value.
    apply agrees_current. intros closing _.
    apply agrees_bind; [apply agrees_optional|]. intros _. apply agrees_ret.
Qed.

Lemma agrees_level continues combine (operand1 : @M W1 Value) (operand2 : @M W2 Value) fuel :
  agrees operand1 operand2 →
  agrees (bind operand1 (leftAssoc tokens continues combine operand1 fuel))
         (bind operand2 (leftAssoc tokens continues combine operand2 fuel)).
Proof. intros Hop. apply agrees_bind; [done|]. intros left. by apply agrees_leftAssoc. Qed.

Lemma agrees_parseComparison fuel (rec1 : @M W1 Value) (rec2 : @M W2 Value) :
  agrees rec1 rec2 →
  agrees (parseComparison tokens variables1 functions1 fuel rec1)
         (parseComparison tokens variables2 functions2 fuel rec2).
Proof.
  intros Hrec.
  assert (agrees (parseAdditive tokens variables1 functions1 fuel rec1)
                 (parseAdditive tokens variables2 functions2 fuel rec2)) as Hadd.
  { unfold parseAdditive. apply agrees_level.
    unfold parseMultiplicative. apply agrees_level. by apply agrees_parsePrimary. }
  unfold parseComparison. apply agrees_bind; [done|]. intros left.
  apply agrees_current. intros tok _.
  destruct (Token.type tok); try apply agrees_ret.
  destruct (Token.value tok) as [|op| | |]; try apply agrees_ret.
  destruct (isComparisonOperator op); [|apply agrees_ret].
  apply agrees_bind; [apply agrees_consume|]. intros _.
  apply agrees_bind; [done|]. intros right. apply agrees_lift.
Qed.

Lemma agrees_parseNot fuel (rec1 : @M W1 Value) (rec2 : @M W2 Value) :
  agrees rec1 rec2 →
  ∀ depth,
    agrees (parseNot tokens variables1 functions1 fuel rec1 depth)
           (parseNot tokens variables2 functions2 fuel rec2 depth).
Proof.
  intros Hrec. induction depth as [|depth IH]; [apply agrees_stuck|].
  cbn [parseNot]. apply agrees_current. intros tok _.
  destruct (tokenIs IDENTIFIER "not" tok); [|by apply agrees_parseComparison].
  apply agrees_bind; [apply agrees_consume|]. intros _.
  apply agrees_bind; [done|]. intros operand. apply agrees_ret.
Qed.

(** Two evaluators over the same tokens agree when their variables
    agree on the names among the tokens and their functions of those
    names are alike. *)
Theorem agrees_parseOr fuel : agrees (parseOr1 fuel) (parseOr2 fuel).
Proof.
  induction fuel as [|fuel IH]; [apply agrees_stuck|].
  cbn [parseOr]. unfold parseOr_body, parseAnd.
  apply agrees_level, agrees_level. by apply agrees_parseNot.
Qed.

End AgreementFacts.

(** ** The errors of an evaluation *)

Lemma run_kept {W} tokens variables (functions : gmap string (Callable W)) k eof w :
  tokens !! k = Some eof → Token.type eof = EOF →
  Cursor.kept tokens variables functions k
    (ExpressionEvaluator.run tokens variables functions w) (ExpressionEvaluator.mk 0 w).
Proof.
  intros Hk Heof.
  apply (parseOr_keeps tokens variables functions k eof Hk Heof); cbn; lia.
Qed.

(** The tokens of a text, with what the scanner guarantees of them. *)
Lemma tokenize_layout expression :
  ∃ tokens,
    Tokenizer.tokenize expression
    = Some (tokens ++ [Token.mk EOF (VString EmptyString)
                         (length (JS.trim (list_ascii_of_string expression)))])
    ∧ Forall (λ tok, Lexeme.wellformed tok
                     ∧ (Token.position tok ≤ length (JS.trim (list_ascii_of_string expression)))%nat)
        (tokens ++ [Token.mk EOF (VString EmptyString)
                      (length (JS.trim (list_ascii_of_string expression)))]).
Proof.
  destruct (TextFacts.run_layout expression) as (tokens & log & Hrun & _ & Hpl & _).
  exists tokens. unfold Tokenizer.tokenize. rewrite Hrun. split; [done|].
  apply Forall_app. split; [|by repeat constructor].
  eapply Forall_impl; [exact Hpl|]. intros tok [(c & Hc & _) Hwf]. split; [done|].
  apply lookup_lt_Some in Hc. lia.
Qed.

Lemma run_reported {W} expression tokens variables (functions : gmap string (Callable W)) w :
  Tokenizer.tokenize expression = Some tokens →
  match (ExpressionEvaluator.run tokens variables functions w).1 with
  | Ret _ => True
  | Throw e => reported expression variables functions e
  | Inherited i => inheritedFrom variables functions i
  | Gap _ => False
  end.
Proof.
  intros Htok. destruct (tokenize_layout expression) as (toks & Heq & Hall).
  rewrite Htok in Heq. injection Heq as ->.
  pose proof (run_tokenized_answers expression _ variables functions w Htok) as Hgap.
  set (eof := Token.mk EOF (VString EmptyString)
                (length (JS.trim (list_ascii_of_string expression)))) in *.
  assert ((toks ++ [eof]) !! length toks = Some eof) as Hk by (by apply list_lookup_middle).
  pose proof (run_kept _ variables functions (length toks) eof w Hk eq_refl) as [_ Hexp].
  destruct (ExpressionEvaluator.run _ _ _ w).1 as [v|e|g|i];
    [done| |by destruct (Hgap g)|by destruct i; destruct Hexp as (? & ? & _)].
  rewrite Forall_forall in Hall.
  destruct e as [name|name|type position|op| |message|? ?]; cbn in Hexp |- *; try done.
  - destruct Hexp as (Hnone & Hproto & tok & Hin & Hty & Hval). do 2 (split; [done|]).
    destruct (Hall tok Hin) as [Hwf _]. unfold Lexeme.wellformed in Hwf.
    rewrite Hty, Hval in Hwf. by destruct Hwf.
  - destruct Hexp as (Hnone & Hproto & tok & Hin & Hty & Hval). do 2 (split; [done|]).
    destruct (Hall tok Hin) as [Hwf _]. unfold Lexeme.wellformed in Hwf.
    rewrite Hty, Hval in Hwf. by destruct Hwf.
  - destruct Hexp as (Hrej & tok & Hin & Hty & Hpos).
    destruct (Hall tok Hin) as [Hwf Hle]. rewrite <- Hpos. split; [|done].
    unfold Lexeme.wellformed in Hwf. rewrite Hty in Hwf.
    destruct type; try done; repeat constructor.
Qed.

(** X11. Every error of its own that the evaluator raises through the
    standalone [evaluate] is justified by the text: [Undefined variable]
    names a word that the variables have no entry for and that
    [Object.prototype] does not define, [Undefined function] names a
    word that [Object.prototype] does not define, and [Unexpected token]
    reports an operator, a closing parenthesis, a comma or the end of
    the input, at a position within the trimmed text. The evaluator
    never raises [Unknown operator] and never reads a token past the
    end. On a name of [Object.prototype] without an entry the code
    raises none of its errors: it goes on with the inherited member,
    where the embedding stops (the code may then return, or fail with
    an error of the host such as a [TypeError]; the depth of the stack
    of the host is not part of the embedding either). *)
Theorem evaluate_errors_are_justified (expression : string) (variables : option Values) :
  match evaluate expression variables with
  | Ret _ => True
  | Throw (Undefined_variable name) =>
      default ∅ variables !! name = None ∧ JS.inPrototype name = false
      ∧ Lexeme.isWord (list_ascii_of_string name) = true
  | Throw (Undefined_function name) =>
      JS.inPrototype name = false ∧ Lexeme.isWord (list_ascii_of_string name) = true
  | Throw (Unexpected_token type position) =>
      type ∈ [OPERATOR; PAREN_CLOSE; COMMA; EOF]
      ∧ (position ≤ length (JS.trim (list_ascii_of_string expression)))%nat
  | Inherited (As_variable name) =>
      default ∅ variables !! name = None ∧ JS.inPrototype name = true
  | Inherited (As_function name) => JS.inPrototype name = true
  | Throw _ | Gap _ => False
  end.
Proof.
  unfold evaluate.
  destruct (tokenize_layout expression) as (toks & Htok & _). rewrite Htok.
  pose proof (run_reported (W := unit) expression _ (default ∅ variables) ∅ tt Htok) as H.
  destruct (ExpressionEvaluator.run _ _ _ tt).1 as [v|e|g|i]; [done| |done|].
  - destruct e as [name|name|type position|op| |message|? ?]; cbn in H; try done.
    + by destruct H as (_ & ? & ?).
    + by destruct H as (name & f & args & w & w' & Hf & _).
  - destruct i as [name|name]; cbn in H; [done|by destruct H].
Qed.

(** X12. The facade lets no error of the evaluator out bare: it answers
    each one with its own error, which holds the expression and the
    cause, and the cause is justified: an undefined variable (a name
    that neither the variables nor the constants hold and that
    [Object.prototype] does not define), an undefined function (a name
    before a parenthesis that the parser has no function for and that
    [Object.prototype] does not define), an unexpected token, or the
    error that a registered function threw. On a name of
    [Object.prototype] without an entry the evaluation goes on with the
    inherited member, where the embedding stops. *)
Theorem facade_wraps_every_error (W : Type) (parser : Parser.t W)
    (expression : string) (variables : option Values) (w : W) :
  match (Parser.evaluate parser expression variables w).1 with
  | Ret _ => True
  | Throw (SafeExprEval text cause) =>
      text = expression
      ∧ reported expression (default ∅ variables ∪ Parser.consts parser)
          (Parser.functions parser) cause
  | Inherited i =>
      inheritedFrom (default ∅ variables ∪ Parser.consts parser) (Parser.functions parser) i
  | Throw _ | Gap _ => False
  end.
Proof.
  unfold Parser.evaluate, Parser.parse.
  destruct (String.eqb expression EmptyString); [done|].
  destruct (tokenize_layout expression) as (toks & Htok & _). rewrite Htok.
  pose proof (run_reported expression _ (default ∅ variables ∪ Parser.consts parser)
                (Parser.functions parser) w Htok) as H.
  by destruct (ExpressionEvaluator.run _ _ _ w) as [[v|e|g|i] st].
Qed.

(** X13. An evaluator never moves its cursor beyond an end marker of its
    token list, whatever the tokens around it: it never reads a token
    that is not there, and the comparison never meets an operator it
    does not know. *)
Theorem cursor_stops_at_the_end_marker (W : Type) (tokens : list Token)
    (variables : Values) (functions : gmap string (Callable W))
    (k : nat) (eof : Token) (w : W) :
  tokens !! k = Some eof → Token.type eof = EOF →
  (ExpressionEvaluator.currentTokenIndex
     (ExpressionEvaluator.run tokens variables functions w).2 ≤ k)%nat
  ∧ (ExpressionEvaluator.run tokens variables functions w).1 ≠ Throw TypeError_no_token
  ∧ ∀ op, (ExpressionEvaluator.run tokens variables functions w).1
          ≠ Throw (Unknown_operator op).
Proof.
  intros Hk Heof. destruct (run_kept tokens variables functions k eof w Hk Heof) as [Hi He].
  split; [lia|].
  destruct (ExpressionEvaluator.run tokens variables functions w).1 as [v|e|g|i];
    [done| |done..].
  split; [|intros op]; intros [= ->]; done.
Qed.

Lemma cursor_stops_at_the_end_marker_witness :
  (ExpressionEvaluator.currentTokenIndex
     (ExpressionEvaluator.run (W := unit) tokens_1_lt_2_lt_3 ∅ ∅ tt).2 ≤ 5)%nat
  ∧ (ExpressionEvaluator.run (W := unit) tokens_1_lt_2_lt_3 ∅ ∅ tt).1
    ≠ Throw TypeError_no_token
  ∧ ∀ op, (ExpressionEvaluator.run (W := unit) tokens_1_lt_2_lt_3 ∅ ∅ tt).1
          ≠ Throw (Unknown_operator op).
Proof.
  apply (cursor_stops_at_the_end_marker unit tokens_1_lt_2_lt_3 ∅ ∅ 5
           (Token.mk EOF (VString EmptyString) 9) tt); reflexivity.
Defined.

(** ** Evaluations that agree *)

Lemma run_agrees {W1 W2} tokens variables1 variables2
    (functions1 : gmap string (Callable W1)) (functions2 : gmap string (Callable W2))
    (R : W1 → W2 → Prop) w1 w2 :
  (∀ name, Agreement.named tokens name → variables1 !! name = variables2 !! name) →
  (∀ name, Agreement.named tokens name →
           option_Forall2 (Agreement.alike R) (functions1 !! name) (functions2 !! name)) →
  R w1 w2 →
  Agreement.agree R (ExpressionEvaluator.run tokens variables1 functions1 w1)
    (ExpressionEvaluator.run tokens variables2 functions2 w2).
Proof.
  intros Hv Hf Hw.
  by apply (agrees_parseOr tokens variables1 variables2 functions1 functions2 R Hv Hf).
Qed.

(** X14. An evaluation reads no other variables than those named by the
    identifiers of the expression: two variable objects that agree on
    these names give the same result, through the standalone helper and
    through the facade, whose functions are called alike and leave the
    host alike. *)
Theorem evaluate_reads_named_variables (W : Type) (parser : Parser.t W)
    (expression : string) (variables1 variables2 : Values) (w : W) :
  (∀ tokens name,
     Tokenizer.tokenize expression = Some tokens → Agreement.named tokens name →
     variables1 !! name = variables2 !! name) →
  evaluate expression (Some variables1) = evaluate expression (Some variables2)
  ∧ Parser.evaluate parser expression (Some variables1) w
    = Parser.evaluate parser expression (Some variables2) w.
Proof.
  intros Hv. split.
  - unfold evaluate. destruct (Tokenizer.tokenize expression) as [tokens|] eqn:Htok; [|done].
    change (default ∅ (Some variables1)) with variables1.
    change (default ∅ (Some variables2)) with variables2.
    by destruct (run_agrees (W1 := unit) (W2 := unit) tokens variables1 variables2 ∅ ∅
                   (λ _ _, True) tt tt (λ name, Hv tokens name eq_refl)
                   ltac:(intros; rewrite lookup_empty; constructor) I)
      as (Ho & _).
  - unfold Parser.evaluate, Parser.parse.
    destruct (String.eqb expression EmptyString); [done|].
    destruct (Tokenizer.tokenize expression) as [tokens|] eqn:Htok; [|done].
    change (default ∅ (Some variables1)) with variables1.
    change (default ∅ (Some variables2)) with variables2.
    assert (Agreement.agree eq
              (ExpressionEvaluator.run tokens (variables1 ∪ Parser.consts parser)
                 (Parser.functions parser) w)
              (ExpressionEvaluator.run tokens (variables2 ∪ Parser.consts parser)
                 (Parser.functions parser) w)) as (Ho & _ & Hw).
    { apply run_agrees; [| |done].
      - intros name Hname. by rewrite !lookup_union, (Hv tokens name eq_refl Hname).
      - intros name _. destruct (Parser.functions parser !! name) as [f|]; constructor.
        by intros args w1 w2 ->. }
    destruct (ExpressionEvaluator.run tokens (variables1 ∪ _) _ w) as [o1 st1],
      (ExpressionEvaluator.run tokens (variables2 ∪ _) _ w) as [o2 st2].
    cbn in Ho, Hw. subst o2. by rewrite Hw.
Qed.

(** X15. A parser without functions evaluates a non-empty expression as
    the standalone helper does with the constants added to the
    variables. When the helper returns a value, the facade returns it
    and the host is left as it was; when the helper throws an error of
    the evaluator, the facade throws it inside its own error and the
    host is left as it was. When the helper finds a member of
    [Object.prototype] under a name without an entry, so does the
    facade, and the embedding says nothing of what follows: the code
    goes on with the inherited member, which for a call is a method of
    [Object.prototype] applied to the table of functions. *)
Theorem facade_without_functions (W : Type) (consts : Values)
    (expression : string) (variables : option Values) (w : W) :
  expression ≠ EmptyString →
  match evaluate expression (Some (default ∅ variables ∪ consts)) with
  | Ret v => Parser.evaluate (Parser.mk ∅ consts) expression variables w = (Ret v, w)
  | Throw e =>
      Parser.evaluate (Parser.mk ∅ consts) expression variables w
      = (Throw (SafeExprEval expression e), w)
  | Inherited i =>
      (Parser.evaluate (Parser.mk ∅ consts) expression variables w).1 = Inherited i
  | Gap _ => False
  end.
Proof.
  intros Hne. unfold Parser.evaluate, Parser.parse, evaluate.
  destruct (String.eqb_spec expression EmptyString); [done|].
  destruct (Tokenizer.tokenize expression) as [tokens|] eqn:Htok.
  2:{ destruct (tokenize_layout expression) as (toks & Hsome & _). congruence. }
  cbn [default Parser.functions Parser.consts].
  assert (Agreement.agree (λ w1 _, w1 = w)
            (ExpressionEvaluator.run (W := W) tokens (default ∅ variables ∪ consts) ∅ w)
            (ExpressionEvaluator.run (W := unit) tokens (default ∅ variables ∪ consts) ∅ tt))
    as (Ho & _ & Hw).
  { apply run_agrees; [done| |done]. intros. rewrite !lookup_empty. constructor. }
  pose proof (run_tokenized_answers expression tokens (default ∅ variables ∪ consts)
                (∅ : gmap string (Callable unit)) tt Htok) as Hgap.
  destruct (ExpressionEvaluator.run (W := W) tokens _ _ w) as [o1 st1],
    (ExpressionEvaluator.run (W := unit) tokens _ _ tt) as [o2 st2].
  cbn in Ho, Hw, Hgap. subst o2. rewrite Hw. destruct o1 as [v|e|g|i]; try done.
  by destruct (Hgap g).
Qed.

Lemma facade_without_functions_witness :
  Parser.evaluate (W := nat) (Parser.mk ∅ {[ "limit" := num 3 ]}) "x < limit"
    (Some {[ "x" := num 1 ]}) 7%nat
  = (Ret (VBoolean true), 7%nat).
Proof.
  exact (facade_without_functions nat {[ "limit" := num 3 ]} "x < limit"
           (Some {[ "x" := num 1 ]}) 7%nat ltac:(done)).
Defined.

Lemma evaluate_reads_named_variables_witness :
  evaluate "x + 1" (Some (<[ "y" := num 2 ]> {[ "x" := num 1 ]}))
  = evaluate "x + 1" (Some {[ "x" := num 1 ]})
  ∧ Parser.evaluate (W := unit) Parser.new "x + 1"
      (Some (<[ "y" := num 2 ]> {[ "x" := num 1 ]})) tt
    = Parser.evaluate Parser.new "x + 1" (Some {[ "x" := num 1 ]}) tt.
Proof.
  apply (evaluate_reads_named_variables unit Parser.new "x + 1").
  intros tokens name Htok (tok & Hin & Hty & Hval).
  vm_compute in Htok. injection Htok as <-.
  rewrite !elem_of_cons in Hin.
  destruct Hin as [->|[->|[->|[->|Hin]]]]; try done; [|by apply elem_of_nil in Hin].
  injection Hval as <-. by rewrite lookup_insert_ne.
Defined.

Section GrammarFacts.

Import ExpressionEvaluator Grammar.

Context {W : Type}.
Variable tokens : list Token.
Variable variables : Values.
Variable functions : gmap string (Callable W).

Local Abbreviation state := (@state W).
Local Abbreviation currentToken := (currentToken (W := W) tokens).
Local Abbreviation consume := (consume (W := W) tokens).
Local Abbreviation leftAssoc := (leftAssoc (W := W) tokens).
Local Abbreviation parseOr := (parseOr tokens variables functions).
Local Abbreviation parsePrimary n := (parsePrimary tokens variables functions (S n) (parseOr n)).
Local Abbreviation parseMultiplicative n :=
  (parseMultiplicative tokens variables functions (S n) (parseOr n)).
Local Abbreviation parseAdditive n :=
  (parseAdditive tokens variables functions (S n) (parseOr n)).
Local Abbreviation parseComparison n :=
  (parseComparison tokens variables functions (S n) (parseOr n)).
Local Abbreviation parseNot n := (parseNot tokens variables functions (S n) (parseOr n)).
Local Abbreviation parseAnd n := (parseAnd tokens variables functions (S n) (parseOr n)).
Local Abbreviation meaning e := (eval variables functions e).
Local Abbreviation meanings es := (evals variables functions es).
Local Abbreviation follows := (Grammar.follows tokens variables functions).
Local Abbreviation follows_arguments := (Grammar.follows_arguments tokens variables functions).

(** *** The same answer *)

Lemma same_refl {A} (r : outcome A * state) : same r r.
Proof. by repeat split. Qed.

Lemma same_eq {A} (r1 r2 : outcome A * state) : r1 = r2 → same r1 r2.
Proof. intros ->. apply same_refl. Qed.

Lemma same_at {A} (o : outcome A) i j (w : W) : i = j → same (o, mk i w) (o, mk j w).
Proof. intros ->. apply same_refl. Qed.

Lemma same_trans {A} (r1 r2 r3 : outcome A * state) : same r1 r2 → same r2 r3 → same r1 r3.
Proof.
  intros (Ho1 & Hw1 & Hi1) (Ho2 & Hw2 & Hi2). split; [congruence|]. split; [congruence|].
  intros a Ha. rewrite (Hi1 a Ha). apply (Hi2 a). congruence.
Qed.

Lemma same_Ret {A} (r1 r2 : outcome A * state) a st' :
  same r1 r2 → r2 = (Ret a, st') → r1 = (Ret a, st').
Proof.
  intros (Ho & Hw & Hi) ->. destruct r1 as [o [i w]]. cbn in *. subst o.
  specialize (Hi a eq_refl). destruct st'. cbn in *. by subst.
Qed.

Lemma same_bind {A B} (m1 m2 : @M W A) (k : A → @M W B) st :
  same (m1 st) (m2 st) → same (bind m1 k st) (bind m2 k st).
Proof.
  unfold bind. intros Hs.
  destruct (m2 st) as [[a|e|g|ih] st2] eqn:E2.
  - by rewrite (same_Ret _ _ _ _ Hs eq_refl).
  - destruct Hs as (Ho & Hw & _). destruct (m1 st) as [o st1]. cbn in *. subst o.
    by repeat split.
  - destruct Hs as (Ho & Hw & _). destruct (m1 st) as [o st1]. cbn in *. subst o.
    by repeat split.
  - destruct Hs as (Ho & Hw & _). destruct (m1 st) as [o st1]. cbn in *. subst o.
    by repeat split.
Qed.

(** What a result that is the same as a reading is. *)
Lemma same_reading {A} (p : @M W A) (m : H A) len st :
  same (p st) (reading m len st) →
  match m (host st) with
  | (Ret a, w1) => p st = (Ret a, mk (currentTokenIndex st + len) w1)
  | (Throw e, w1) => ∃ j, p st = (Throw e, mk j w1)
  | (Gap g, w1) => ∃ j, p st = (Gap g, mk j w1)
  | (Inherited ih, w1) => ∃ j, p st = (Inherited ih, mk j w1)
  end.
Proof.
  unfold reading. destruct (m (host st)) as [[a|e|g|ih] w1]; intros Hs.
  - by apply (same_Ret _ _ _ _ Hs).
  - destruct Hs as (Ho & Hw & _). destruct (p st) as [o [j w']]. cbn in *. subst.
    by exists j.
  - destruct Hs as (Ho & Hw & _). destruct (p st) as [o [j w']]. cbn in *. subst.
    by exists j.
  - destruct Hs as (Ho & Hw & _). destruct (p st) as [o [j w']]. cbn in *. subst.
    by exists j.
Qed.

Lemma same_Throw {A} e i j (w : W) : same (A := A) (Throw e, mk i w) (Throw e, mk j w).
Proof. by repeat split. Qed.

Lemma same_Gap {A} g i j (w : W) : same (A := A) (Gap g, mk i w) (Gap g, mk j w).
Proof. by repeat split. Qed.

Lemma same_Inherited {A} ih i j (w : W) :
  same (A := A) (Inherited ih, mk i w) (Inherited ih, mk j w).
Proof. by repeat split. Qed.

(** *** Loops *)

(** A loop entered before a token that does not continue it returns
    its left operand. *)
Lemma loop_stops continues combine (operand : @M W Value) fuel (m : H Value) len st next :
  tokens !! (currentTokenIndex st + len)%nat = Some next → continues next = false →
  same (bind (reading m len) (leftAssoc continues combine operand (S fuel)) st)
       (reading m len st).
Proof.
  intros Hnext Hstop. unfold bind, reading.
  destruct (m (host st)) as [[a|e|g|ih] w1]; [|apply same_refl..].
  apply same_eq. by apply (leftAssoc_stop tokens _ _ _ _ _ _ next).
Qed.

(** One more pass of a loop: the operator [tok] after the left operand
    and the right operand after it. *)
Lemma loop_passes continues combineTok (operand : @M W Value) o l r a b fuel st tok :
  tokens !! (currentTokenIndex st + a)%nat = Some tok → continues tok = true →
  (∀ x y, combine o x y = Ret (combineTok tok x y)) →
  (∀ w1, same (operand (mk (currentTokenIndex st + a + 1) w1))
              (reading (meaning r) b (mk (currentTokenIndex st + a + 1) w1))) →
  same (bind (reading (meaning l) a) (leftAssoc continues combineTok operand (S fuel)) st)
       (bind (reading (meaning (Binary o l r)) (a + 1 + b))
          (leftAssoc continues combineTok operand fuel) st).
Proof.
  intros Htok Hcont Hcombine Hr. unfold bind at 1 2, reading at 1 2.
  cbn [eval]. unfold andThen at 1.
  destruct (meaning l (host st)) as [[x|e|g|ih] w1]; [|apply same_Throw|apply same_Gap|apply same_Inherited].
  rewrite (leftAssoc_step tokens _ _ _ _ _ (mk (currentTokenIndex st + a) w1) tok Htok Hcont).
  unfold consumed. cbn [currentTokenIndex host].
  rewrite <- Nat.add_1_r.
  pose proof (same_reading _ _ _ _ (Hr w1)) as Hop. cbn [host currentTokenIndex] in Hop.
  unfold andThen. destruct (meaning r w1) as [[y|e|g|ih] w2].
  - rewrite (bind_Ret _ _ _ _ _ Hop), Hcombine.
    apply same_eq. do 2 f_equal. lia.
  - destruct Hop as [j Hop]. rewrite (bind_Throw _ _ _ _ _ Hop). apply same_Throw.
  - destruct Hop as [j Hop]. rewrite (bind_Gap _ _ _ _ _ Hop). apply same_Gap.
  - destruct Hop as [j Hop]. rewrite (bind_Inherited _ _ _ _ _ Hop). apply same_Inherited.
Qed.


(** A loop level whose loop stops is a reading. *)
Lemma operand_stops continues combine (operand p : @M W Value) (m : H Value) len st next fuel :
  same (p st) (bind (reading m len) (leftAssoc continues combine operand (S fuel)) st) →
  tokens !! (currentTokenIndex st + len)%nat = Some next → continues next = false →
  same (p st) (reading m len st).
Proof.
  intros Hp Hnext Hstop. eapply same_trans; [exact Hp|]. by apply (loop_stops _ _ _ _ _ _ _ next).
Qed.

(** *** Sequences *)

(** A reading from a cursor further on. *)
Lemma same_shift {A} (r : outcome A * state) (m : H A) d len i (w : W) :
  same r (reading m len (mk (i + d) w)) → same r (reading m (d + len) (mk i w)).
Proof.
  intros Hr. eapply same_trans; [exact Hr|]. unfold reading. cbn [host currentTokenIndex].
  destruct (m w) as [o w1]. apply same_at. lia.
Qed.

(** A step that is a reading, and then a continuation that is one. *)
Lemma same_andThen {A B} (p : @M W A) (m : H A) len (k : A → @M W B) (K : A → H B) len' st :
  same (p st) (reading m len st) →
  (∀ a w1, same (k a (mk (currentTokenIndex st + len) w1))
                (reading (K a) len' (mk (currentTokenIndex st + len) w1))) →
  same (bind p k st) (reading (andThen m K) (len + len') st).
Proof.
  intros Hp Hk. pose proof (same_reading _ _ _ _ Hp) as Hcases.
  unfold reading at 1, andThen. destruct (m (host st)) as [[a|e|g|ih] w1].
  - rewrite (bind_Ret _ _ _ _ _ Hcases). eapply same_trans; [apply Hk|].
    unfold reading. cbn [host currentTokenIndex]. destruct (K a w1) as [o w2].
    apply same_at. lia.
  - destruct Hcases as [j Hcases]. rewrite (bind_Throw _ _ _ _ _ Hcases). apply same_Throw.
  - destruct Hcases as [j Hcases]. rewrite (bind_Gap _ _ _ _ _ Hcases). apply same_Gap.
  - destruct Hcases as [j Hcases]. rewrite (bind_Inherited _ _ _ _ _ Hcases).
    apply same_Inherited.
Qed.

(** A step that is a reading, and then a continuation that reads [d]
    more tokens and returns what the step did. *)
Lemma same_return {A} (p : @M W A) (m : H A) len d (k : A → @M W A) st :
  same (p st) (reading m len st) →
  (∀ a w1, k a (mk (currentTokenIndex st + len) w1)
           = (Ret a, mk (currentTokenIndex st + len + d) w1)) →
  same (bind p k st) (reading m (len + d) st).
Proof.
  intros Hp Hk. pose proof (same_reading _ _ _ _ Hp) as Hcases.
  unfold reading at 1. destruct (m (host st)) as [[a|e|g|ih] w1].
  - rewrite (bind_Ret _ _ _ _ _ Hcases), Hk. apply same_at. lia.
  - destruct Hcases as [j Hcases]. rewrite (bind_Throw _ _ _ _ _ Hcases). apply same_Throw.
  - destruct Hcases as [j Hcases]. rewrite (bind_Gap _ _ _ _ _ Hcases). apply same_Gap.
  - destruct Hcases as [j Hcases]. rewrite (bind_Inherited _ _ _ _ _ Hcases).
    apply same_Inherited.
Qed.

(** *** Places in the token list *)

Lemma split_left (pre ts1 : list Token) tok ts2 next post :
  pre ++ (ts1 ++ tok :: ts2) ++ next :: post = pre ++ ts1 ++ tok :: (ts2 ++ next :: post).
Proof. by rewrite <- !app_assoc. Qed.

Lemma split_right (pre ts1 : list Token) tok ts2 next post :
  pre ++ (ts1 ++ tok :: ts2) ++ next :: post = (pre ++ ts1 ++ [tok]) ++ ts2 ++ next :: post.
Proof. by rewrite <- !app_assoc. Qed.

Lemma length_left (pre ts1 : list Token) tok :
  length (pre ++ ts1 ++ [tok]) = (length pre + length ts1 + 1)%nat.
Proof. rewrite !length_app. cbn. lia. Qed.

Lemma length_middle (ts1 : list Token) tok ts2 :
  length (ts1 ++ tok :: ts2) = (length ts1 + 1 + length ts2)%nat.
Proof. rewrite length_app. cbn. lia. Qed.

Lemma derives_head t ts next e :
  derives t ts next e →
  ∃ first ts', ts = first :: ts'
    ∧ (isLiteral first = true ∨ Token.type first = PAREN_OPEN
       ∨ Token.type first = IDENTIFIER).
Proof.
  induction 1; eauto 6;
    match goal with
    | IH : ∃ first ts', ?ts1 = first :: ts' ∧ _ |- ∃ first ts', ?ts1 ++ _ = _ ∧ _ =>
        destruct IH as (first & ts' & -> & ?); by eexists _, _
    | _ => idtac
    end.
  eexists _, _. split; [done|]. right; right.
  match goal with
  | Hnot : tokenIs IDENTIFIER _ _ = true |- _ =>
      unfold tokenIs in Hnot; apply andb_true_iff in Hnot as [Hty _];
      by apply bool_decide_eq_true in Hty
  end.
Qed.

Lemma derives_length t ts next e : derives t ts next e → (1 ≤ length ts)%nat.
Proof. intros (first & ts' & -> & _)%derives_head. cbn. lia. Qed.

(** *** The levels with a loop *)

Lemma comparisonOp_spec tok op :
  comparisonOp tok = Some op →
  Token.type tok = OPERATOR ∧ Token.value tok = VString op ∧ isComparisonOperator op = true.
Proof.
  unfold comparisonOp. destruct (Token.type tok); try done.
  destruct (Token.value tok) as [|s| | |]; try done.
  destruct (isComparisonOperator s) eqn:E; [|done]. by intros [= <-].
Qed.

Lemma comparisonOp_not_additive tok op :
  comparisonOp tok = Some op → isAdditive tok = false.
Proof.
  intros (Hty & Hval & Hop)%comparisonOp_spec.
  unfold isAdditive, tokenIs, spelled. rewrite Hval.
  unfold isComparisonOperator in Hop.
  destruct (String.eqb_spec op "+") as [->|]; [done|].
  destruct (String.eqb_spec op "-") as [->|]; [done|].
  by rewrite !andb_false_r.
Qed.

(** A level after one more operator and operand. *)
Lemma follows_passes continues combineTok (operand level : @M W Value) o l r ts1 tok ts2
    next pre post n k w :
  tokens = pre ++ (ts1 ++ tok :: ts2) ++ next :: post →
  (k < length ts1)%nat → (length (ts1 ++ tok :: ts2) ≤ n)%nat →
  same (level (mk (length pre) w))
       (bind (reading (meaning l) (length ts1))
          (leftAssoc continues combineTok operand (S n - k)) (mk (length pre) w)) →
  continues tok = true →
  (∀ x y, combine o x y = Ret (combineTok tok x y)) →
  (∀ w1, same (operand (mk (length (pre ++ ts1 ++ [tok])) w1))
              (reading (meaning r) (length ts2) (mk (length (pre ++ ts1 ++ [tok])) w1))) →
  (S k < length (ts1 ++ tok :: ts2))%nat
  ∧ same (level (mk (length pre) w))
         (bind (reading (meaning (Binary o l r)) (length (ts1 ++ tok :: ts2)))
            (leftAssoc continues combineTok operand (S n - S k)) (mk (length pre) w)).
Proof.
  intros Htokens Hk Hn Hl Hcont Hcombine Hr. rewrite length_middle in *.
  split; [lia|]. eapply same_trans; [exact Hl|].
  replace (S n - k)%nat with (S (n - k)) by lia.
  replace (S n - S k)%nat with (n - k)%nat by lia.
  apply (loop_passes _ _ _ _ _ _ _ _ _ _ tok); [|done|done|].
  - cbn [currentTokenIndex]. rewrite Htokens, split_left. apply lookup_after.
  - intros w1. cbn [currentTokenIndex]. specialize (Hr w1).
    by rewrite length_left in Hr.
Qed.


(** A loop level read as an operand of the level above, which it is
    when the token after it does not continue its loop. *)
Lemma follows_operand continues combineTok (operand level : @M W Value) e ts next pre post n w :
  tokens = pre ++ ts ++ next :: post →
  (∃ k, (k < length ts)%nat ∧ (length ts ≤ n)%nat
        ∧ same (level (mk (length pre) w))
               (bind (reading (meaning e) (length ts))
                  (leftAssoc continues combineTok operand (S n - k)) (mk (length pre) w))) →
  continues next = false →
  same (level (mk (length pre) w)) (reading (meaning e) (length ts) (mk (length pre) w)).
Proof.
  intros Htokens (k & Hk & Hn & Hp) Hstop.
  replace (S n - k)%nat with (S (n - k)) in Hp by lia.
  apply (operand_stops _ _ _ _ _ _ _ next _ Hp); [|done].
  cbn [currentTokenIndex]. rewrite Htokens. apply lookup_after.
Qed.

Lemma follows_atom ts next e :
  derives atom ts next e → follows atom ts next e → follows product ts next e.
Proof.
  intros Hd IH n pre post w Htokens Hn. exists 0%nat.
  split; [by apply derives_length in Hd|].
  unfold ExpressionEvaluator.parseMultiplicative. apply same_bind.
  exact (IH n pre post w Htokens Hn).
Qed.

Lemma follows_product ts1 tok ts2 next op l r :
  follows product ts1 tok l → multiplicativeOp tok = Some op → follows atom ts2 next r →
  follows product (ts1 ++ tok :: ts2) next (Binary (Arithmetic op) l r).
Proof.
  intros IHl Hop IHr n pre post w Htokens Hn.
  destruct (isMultiplicative_op tok op Hop) as [Hmul Hval].
  pose proof Hn as Hn'. rewrite length_middle in Hn'.
  destruct (IHl n pre (ts2 ++ next :: post) w) as (k & Hk & Hl);
    [by rewrite Htokens, split_left|lia|].
  exists (S k).
  apply (follows_passes isMultiplicative multiplicative (parsePrimary n)) with (next := next) (post := post);
    try done.
  - intros x y. cbn. by rewrite Hval.
  - intros w1. apply (IHr n (pre ++ ts1 ++ [tok]) post w1); [by rewrite Htokens, split_right|lia].
Qed.

Lemma follows_term ts next e :
  derives product ts next e → follows product ts next e →
  isMultiplicative next = false → follows sum ts next e.
Proof.
  intros Hd IH Hstop n pre post w Htokens Hn. exists 0%nat.
  split; [by apply derives_length in Hd|].
  unfold ExpressionEvaluator.parseAdditive. apply same_bind.
  apply (follows_operand isMultiplicative multiplicative (parsePrimary n) _ _ _ next _ post n);
    [done| |done].
  destruct (IH n pre post w Htokens Hn) as (k & Hk & Hp). by exists k.
Qed.

Lemma follows_sum ts1 tok ts2 next op l r :
  follows sum ts1 tok l → additiveOp tok = Some op → follows product ts2 next r →
  isMultiplicative next = false →
  follows sum (ts1 ++ tok :: ts2) next (Binary (Arithmetic op) l r).
Proof.
  intros IHl Hop IHr Hstop n pre post w Htokens Hn.
  destruct (isAdditive_op tok op Hop) as [Hadd Hval].
  pose proof Hn as Hn'. rewrite length_middle in Hn'.
  destruct (IHl n pre (ts2 ++ next :: post) w) as (k & Hk & Hl);
    [by rewrite Htokens, split_left|lia|].
  exists (S k).
  apply (follows_passes isAdditive additive (parseMultiplicative n)) with (next := next) (post := post);
    try done.
  - intros x y. cbn. by rewrite Hval.
  - intros w1.
    apply (follows_operand isMultiplicative multiplicative (parsePrimary n) _ _ _ next _ post n);
      [by rewrite Htokens, split_right| |done].
    destruct (IHr n (pre ++ ts1 ++ [tok]) post w1) as (k' & Hk' & Hp);
      [by rewrite Htokens, split_right|lia|].
    exists k'. split; [done|]. split; [lia|done].
Qed.

Lemma follows_conjunct ts next e :
  derives negation ts next e → follows negation ts next e → follows conjunction ts next e.
Proof.
  intros Hd IH n pre post w Htokens Hn. exists 0%nat.
  split; [by apply derives_length in Hd|].
  unfold ExpressionEvaluator.parseAnd. apply same_bind.
  apply (IH n pre post w Htokens Hn). lia.
Qed.

Lemma follows_and ts1 tok ts2 next l r :
  follows conjunction ts1 tok l → tokenIs IDENTIFIER "and" tok = true →
  follows negation ts2 next r →
  follows conjunction (ts1 ++ tok :: ts2) next (Binary Both l r).
Proof.
  intros IHl Hand IHr n pre post w Htokens Hn.
  pose proof Hn as Hn'. rewrite length_middle in Hn'.
  destruct (IHl n pre (ts2 ++ next :: post) w) as (k & Hk & Hl);
    [by rewrite Htokens, split_left|lia|].
  exists (S k).
  apply (follows_passes (tokenIs IDENTIFIER "and") logicalAnd (parseNot n (S n))) with (next := next) (post := post);
    try done.
  intros w1. apply (IHr n (pre ++ ts1 ++ [tok]) post w1); [by rewrite Htokens, split_right|lia..].
Qed.

Lemma follows_disjunct ts next e :
  derives conjunction ts next e → follows conjunction ts next e →
  tokenIs IDENTIFIER "and" next = false → follows disjunction ts next e.
Proof.
  intros Hd IH Hstop n pre post w Htokens Hn. exists 0%nat.
  split; [by apply derives_length in Hd|].
  change (parseOr (S n))
    with (parseOr_body tokens variables functions (S n) (parseOr n)).
  unfold parseOr_body. apply same_bind.
  apply (follows_operand (tokenIs IDENTIFIER "and") logicalAnd (parseNot n (S n))
           _ _ _ next _ post n); [done| |done].
  destruct (IH n pre post w Htokens Hn) as (k & Hk & Hp). by exists k.
Qed.

Lemma follows_or ts1 tok ts2 next l r :
  follows disjunction ts1 tok l → tokenIs IDENTIFIER "or" tok = true →
  follows conjunction ts2 next r → tokenIs IDENTIFIER "and" next = false →
  follows disjunction (ts1 ++ tok :: ts2) next (Binary Either l r).
Proof.
  intros IHl Hor IHr Hstop n pre post w Htokens Hn.
  pose proof Hn as Hn'. rewrite length_middle in Hn'.
  destruct (IHl n pre (ts2 ++ next :: post) w) as (k & Hk & Hl);
    [by rewrite Htokens, split_left|lia|].
  exists (S k).
  change (parseOr (S n))
    with (parseOr_body tokens variables functions (S n) (parseOr n)) in *.
  apply (follows_passes (tokenIs IDENTIFIER "or") logicalOr (parseAnd n)) with (next := next) (post := post);
    try done.
  intros w1.
  apply (follows_operand (tokenIs IDENTIFIER "and") logicalAnd (parseNot n (S n))
           _ _ _ next _ post n); [by rewrite Htokens, split_right| |done].
  destruct (IHr n (pre ++ ts1 ++ [tok]) post w1) as (k' & Hk' & Hp);
    [by rewrite Htokens, split_right|lia|].
  exists k'. split; [done|]. split; [lia|done].
Qed.


(** *** The levels without a loop *)

Lemma current_at (pre ts post : list Token) tok (w : W) :
  tokens = pre ++ ts ++ tok :: post →
  defined currentToken (mk (length pre + length ts) w)
  = (Ret tok, mk (length pre + length ts) w).
Proof.
  intros ->. apply defined_currentToken. cbn [currentTokenIndex]. apply lookup_after.
Qed.

Lemma current_first (pre post : list Token) tok (w : W) :
  tokens = pre ++ tok :: post →
  defined currentToken (mk (length pre) w) = (Ret tok, mk (length pre) w).
Proof.
  intros ->. apply defined_currentToken. cbn [currentTokenIndex]. apply lookup_first.
Qed.

Lemma follows_sum_operand e ts next pre post n w :
  follows sum ts next e → tokens = pre ++ ts ++ next :: post → (length ts ≤ n)%nat →
  isAdditive next = false →
  same (parseAdditive n (mk (length pre) w)) (reading (meaning e) (length ts) (mk (length pre) w)).
Proof.
  intros IH Htokens Hn Hstop.
  apply (follows_operand isAdditive additive (parseMultiplicative n) _ _ _ next _ post n);
    [done| |done].
  destruct (IH n pre post w Htokens Hn) as (k & Hk & Hp). by exists k.
Qed.

Lemma follows_operand_only ts next e :
  follows sum ts next e → isAdditive next = false → comparisonOp next = None →
  follows comparison ts next e.
Proof.
  intros IH Hstop Hcmp n pre post w Htokens Hn.
  unfold ExpressionEvaluator.parseComparison.
  rewrite <- (Nat.add_0_r (length ts)). apply same_return.
  - by apply (follows_sum_operand _ _ next _ post).
  - intros a w1. cbn [currentTokenIndex]. rewrite Nat.add_0_r.
    rewrite (bind_Ret _ _ _ _ _ (current_at pre ts post next w1 Htokens)).
    unfold comparisonOp in Hcmp. destruct (Token.type next); try done.
    destruct (Token.value next); try done. by destruct (isComparisonOperator _).
Qed.

Lemma follows_comparison ts1 tok ts2 next op l r :
  follows sum ts1 tok l → comparisonOp tok = Some op → follows sum ts2 next r →
  isAdditive next = false →
  follows comparison (ts1 ++ tok :: ts2) next (Binary (Comparing op) l r).
Proof.
  intros IHl Hop IHr Hstop n pre post w Htokens Hn.
  destruct (comparisonOp_spec tok op Hop) as (Hty & Hval & Hcmp).
  rewrite length_middle in *. rewrite <- Nat.add_assoc.
  unfold ExpressionEvaluator.parseComparison. cbn [eval].
  apply same_andThen.
  - apply (follows_sum_operand _ _ tok _ (ts2 ++ next :: post));
      [done|by rewrite Htokens, split_left|lia|by apply (comparisonOp_not_additive tok op)].
  - intros x w1. cbn [currentTokenIndex].
    rewrite (bind_Ret _ _ _ _ _
               (current_at pre ts1 (ts2 ++ next :: post) tok w1
                  ltac:(by rewrite Htokens, split_left))).
    rewrite Hty, Hval, Hcmp.
    rewrite (bind_Ret _ _ _ _ _ (consume_eq tokens _)). unfold consumed.
    cbn [currentTokenIndex host].
    replace (S (length pre + length ts1)) with (length pre + length ts1 + 1)%nat by lia.
    apply same_shift. rewrite <- (Nat.add_0_r (length ts2)).
    rewrite <- (length_left pre ts1 tok). apply same_andThen.
    + apply (follows_sum_operand _ _ next _ post); [done|by rewrite Htokens, split_right|lia|done].
    + intros y w2. unfold lift, reading. cbn [host currentTokenIndex combine].
      apply same_at. lia.
Qed.

Lemma follows_plain ts next e :
  derives comparison ts next e → follows comparison ts next e →
  (∀ first, head ts = Some first → tokenIs IDENTIFIER "not" first = false) →
  follows negation ts next e.
Proof.
  intros Hd IH Hfirst n pre post w Htokens Hn depth Hdepth.
  destruct (derives_head _ _ _ _ Hd) as (first & ts' & Hts & _).
  destruct depth as [|depth]; [subst ts; cbn in Hdepth; lia|].
  cbn [ExpressionEvaluator.parseNot].
  rewrite (bind_Ret _ _ _ _ _
             (current_first pre (ts' ++ next :: post) first w
                ltac:(by rewrite Htokens, Hts))).
  rewrite (Hfirst first) by (by rewrite Hts).
  exact (IH n pre post w Htokens Hn).
Qed.

Lemma follows_not tok ts next e :
  tokenIs IDENTIFIER "not" tok = true → follows negation ts next e →
  follows negation (tok :: ts) next (Negated e).
Proof.
  intros Hnot IH n pre post w Htokens Hn depth Hdepth. cbn [length] in *.
  destruct depth as [|depth]; [lia|].
  cbn [ExpressionEvaluator.parseNot eval].
  rewrite (bind_Ret _ _ _ _ _
             (current_first pre (ts ++ next :: post) tok w ltac:(by rewrite Htokens))).
  rewrite Hnot. rewrite (bind_Ret _ _ _ _ _ (consume_eq tokens _)). unfold consumed.
  cbn [currentTokenIndex host].
  replace (S (length pre)) with (length pre + 1)%nat by lia.
  change (S (length ts)) with (1 + length ts)%nat.
  apply same_shift. rewrite <- (Nat.add_0_r (length ts)).
  assert (length (pre ++ [tok]) = length pre + 1)%nat as Hlen
    by (rewrite length_app; cbn; lia).
  rewrite <- Hlen. apply same_andThen.
  - apply (IH n (pre ++ [tok]) post w); [by rewrite Htokens, <- app_assoc|lia..].
  - intros x w1. unfold ret, reading. cbn [host currentTokenIndex]. apply same_at. lia.
Qed.


(** *** Atoms *)

Lemma follows_literal tok next :
  isLiteral tok = true → follows atom [tok] next (Literal (Token.value tok)).
Proof.
  intros Hlit n pre post w Htokens Hn.
  unfold ExpressionEvaluator.parsePrimary, reading. cbn [length eval host currentTokenIndex].
  rewrite (bind_Ret _ _ _ _ _ (current_first pre (next :: post) tok w Htokens)).
  unfold isLiteral in Hlit.
  destruct (Token.type tok); try done;
    rewrite (bind_Ret _ _ _ _ _ (consume_eq tokens _)); apply same_at; cbn; lia.
Qed.

Lemma follows_name tok name next :
  Token.type tok = IDENTIFIER → Token.value tok = VString name →
  Token.type next ≠ PAREN_OPEN →
  follows atom [tok] next (Name name).
Proof.
  intros Hty Hval Hnext n pre post w Htokens Hn.
  rewrite (parsePrimary_variable tokens variables functions n (length pre) w tok name next);
    try done.
  - unfold reading. cbn [length eval host currentTokenIndex].
    destruct (variables !! name); apply same_at; lia.
  - rewrite Htokens. apply (lookup_first pre (next :: post) tok).
  - rewrite Htokens. rewrite <- Nat.add_1_r. apply (lookup_after pre [tok] post next).
Qed.

(** The disjunction inside a parenthesis or an argument list, which the
    token after it ends. *)
Lemma follows_inner e ts c pre post n w :
  follows disjunction ts c e → tokens = pre ++ ts ++ c :: post → (length ts ≤ n)%nat →
  tokenIs IDENTIFIER "or" c = false →
  same (parseOr (S n) (mk (length pre) w)) (reading (meaning e) (length ts) (mk (length pre) w)).
Proof.
  intros IH Htokens Hn Hstop.
  apply (follows_operand (tokenIs IDENTIFIER "or") logicalOr (parseAnd n) _ _ _ c _ post n);
    [done| |done].
  destruct (IH n pre post w Htokens Hn) as (k & Hk & Hp). by exists k.
Qed.

(** The closing parenthesis, when there is one. *)
Lemma closing_read closing c next (pre ts post : list Token) (w : W) :
  closes closing c next →
  tokens = pre ++ (ts ++ closing) ++ next :: post →
  (∃ post', tokens = pre ++ ts ++ c :: post')
  ∧ (if bool_decide (Token.type c = PAREN_CLOSE) then consume else ret None)
      (mk (length pre + length ts) w)
    = (Ret (if bool_decide (Token.type c = PAREN_CLOSE)
            then tokens !! (length pre + length ts)%nat else None),
       mk (length pre + length ts + length closing) w).
Proof.
  intros [[-> Hc]|(-> & -> & Hc)] Htokens.
  - split; [exists (next :: post); by rewrite Htokens, <- !app_assoc|].
    rewrite bool_decide_true by done. rewrite consume_eq. unfold consumed. cbn.
    do 2 f_equal. lia.
  - split; [exists post; by rewrite Htokens, app_nil_r|].
    rewrite bool_decide_false by done. unfold ret. cbn. do 2 f_equal. lia.
Qed.

Lemma follows_group opening ts closing c next e :
  Token.type opening = PAREN_OPEN →
  follows disjunction ts c e → tokenIs IDENTIFIER "or" c = false →
  closes closing c next →
  follows atom (opening :: ts ++ closing) next e.
Proof.
  intros Hopen IH Hstop Hcloses n pre post w Htokens Hn.
  cbn [length] in Hn. rewrite length_app in Hn. destruct n as [|n]; [lia|].
  assert (tokens = (pre ++ [opening]) ++ (ts ++ closing) ++ next :: post) as Htokens'
    by (by rewrite Htokens, <- (app_assoc pre [opening])).
  assert (length (pre ++ [opening]) = length pre + 1)%nat as Hlen
    by (rewrite length_app; cbn; lia).
  destruct (closing_read closing c next (pre ++ [opening]) ts post w Hcloses Htokens')
    as [[post' Hinner] _].
  unfold ExpressionEvaluator.parsePrimary.
  rewrite (bind_Ret _ _ _ _ _
             (current_first pre ((ts ++ closing) ++ next :: post) opening w
                ltac:(by rewrite Htokens))).
  rewrite Hopen. rewrite (bind_Ret _ _ _ _ _ (consume_eq tokens _)). unfold consumed.
  cbn [currentTokenIndex host length].
  replace (S (length pre)) with (length pre + 1)%nat by lia.
  change (S (length (ts ++ closing))) with (1 + length (ts ++ closing))%nat.
  apply same_shift. rewrite length_app, <- Hlen. apply same_return.
  - apply (follows_inner _ _ c _ post'); [done|done|lia|done].
  - intros v w1. cbn [currentTokenIndex].
    rewrite (bind_Ret _ _ _ _ _ (current_at (pre ++ [opening]) ts post' c w1 Hinner)).
    destruct (closing_read closing c next (pre ++ [opening]) ts post w1 Hcloses Htokens')
      as [_ Hclose].
    by rewrite (bind_Ret _ _ _ _ _ Hclose).
Qed.


(** *** Arguments and calls *)

Lemma argument_starts first :
  isLiteral first = true ∨ Token.type first = PAREN_OPEN ∨ Token.type first = IDENTIFIER →
  negb (bool_decide (Token.type first = PAREN_CLOSE))
  && negb (bool_decide (Token.type first = EOF)) = true.
Proof.
  unfold isLiteral. intros [H|[H|H]]; destruct (Token.type first); done.
Qed.

Lemma follows_arguments_end c :
  Token.type c = PAREN_CLOSE ∨ Token.type c = EOF → follows_arguments [] c [].
Proof.
  intros Hc n pre post w passes args Htokens Hn Hpasses.
  destruct passes as [|passes]; [cbn in Hpasses; lia|].
  cbn [ExpressionEvaluator.parseArguments].
  rewrite (bind_Ret _ _ _ _ _ (current_first pre post c w Htokens)).
  replace (negb (bool_decide (Token.type c = PAREN_CLOSE))
           && negb (bool_decide (Token.type c = EOF))) with false
    by (destruct Hc as [-> | ->]; done).
  unfold ret, reading, andThen. cbn [evals host currentTokenIndex length].
  rewrite app_nil_r. apply same_at. lia.
Qed.

(** One argument read, and then the ones after it. *)
Lemma arguments_pass e es ts (rest : list Token) pre post' between n w passes args :
  follows disjunction ts between e → tokenIs IDENTIFIER "or" between = false →
  derives disjunction ts between e →
  tokens = pre ++ ts ++ between :: post' →
  (length ts ≤ n)%nat →
  (∀ v w1,
     same (bind (defined currentToken)
             (λ token,
                bind (if bool_decide (Token.type token = COMMA) then consume else ret None)
                  (λ _, parseArguments tokens (parseOr (S n)) passes (args ++ [v])))
             (mk (length pre + length ts) w1))
          (reading (andThen (meanings es) (fun vs => fun w' => (Ret ((args ++ [v]) ++ vs), w')))
             (length rest) (mk (length pre + length ts) w1))) →
  same (parseArguments tokens (parseOr (S n)) (S passes) args (mk (length pre) w))
       (reading (andThen (meanings (e :: es)) (fun vs => fun w' => (Ret (args ++ vs), w')))
          (length ts + length rest) (mk (length pre) w)).
Proof.
  intros IH Hstop Hd Htokens Hn Hrest.
  destruct (derives_head _ _ _ _ Hd) as (first & ts' & Hts & Hfirst).
  cbn [ExpressionEvaluator.parseArguments].
  rewrite (bind_Ret _ _ _ _ _
             (current_first pre (ts' ++ between :: post') first w
                ltac:(by rewrite Htokens, Hts))).
  rewrite (argument_starts first Hfirst).
  pose proof (same_reading _ _ _ _ (follows_inner e ts between pre post' n w IH Htokens Hn Hstop))
    as Hcases.
  cbn [host currentTokenIndex] in Hcases.
  unfold reading at 1. cbn [evals host currentTokenIndex]. unfold andThen at 1 2.
  destruct (meaning e w) as [[v|err|g|ih] w1].
  - rewrite (bind_Ret _ _ _ _ _ Hcases).
    eapply same_trans; [apply Hrest|].
    unfold reading, andThen. cbn [host currentTokenIndex].
    destruct (meanings es w1) as [[vs|err|g|ih] w2];
      rewrite <- ?app_assoc; apply same_at; lia.
  - destruct Hcases as [j Hcases]. rewrite (bind_Throw _ _ _ _ _ Hcases). apply same_Throw.
  - destruct Hcases as [j Hcases]. rewrite (bind_Gap _ _ _ _ _ Hcases). apply same_Gap.
  - destruct Hcases as [j Hcases]. rewrite (bind_Inherited _ _ _ _ _ Hcases).
    apply same_Inherited.
Qed.

Lemma follows_arguments_comma ts comma rest c e es :
  derives disjunction ts comma e → follows disjunction ts comma e →
  Token.type comma = COMMA →
  follows_arguments rest c es →
  follows_arguments (ts ++ comma :: rest) c (e :: es).
Proof.
  intros Hd IH Hcomma IHrest n pre post w passes args Htokens Hn Hpasses.
  rewrite length_middle in *.
  destruct passes as [|passes]; [lia|].
  assert (tokenIs IDENTIFIER "or" comma = false) as Hstop.
  { unfold tokenIs. by rewrite Hcomma. }
  rewrite <- Nat.add_assoc.
  apply (arguments_pass e es ts (comma :: rest) pre (rest ++ c :: post) comma);
    [done|done|done|by rewrite Htokens, split_left|lia|].
  intros v w1.
  rewrite (bind_Ret _ _ _ _ _
             (current_at pre ts (rest ++ c :: post) comma w1
                ltac:(by rewrite Htokens, split_left))).
  rewrite bool_decide_true by done.
  rewrite (bind_Ret _ _ _ _ _ (consume_eq tokens _)). unfold consumed.
  cbn [currentTokenIndex host length].
  replace (S (length pre + length ts)) with (length pre + length ts + 1)%nat by lia.
  change (S (length rest)) with (1 + length rest)%nat. apply same_shift.
  rewrite <- (length_left pre ts comma).
  apply (IHrest n (pre ++ ts ++ [comma]) post w1 passes (args ++ [v]));
    [by rewrite Htokens, split_right|lia..].
Qed.

Lemma follows_arguments_next ts rest c following e es :
  derives disjunction ts following e → follows disjunction ts following e →
  tokenIs IDENTIFIER "or" following = false →
  Token.type following ≠ COMMA →
  head (rest ++ [c]) = Some following →
  follows_arguments rest c es →
  follows_arguments (ts ++ rest) c (e :: es).
Proof.
  intros Hd IH Hstop Hcomma Hhead IHrest n pre post w passes args Htokens Hn Hpasses.
  rewrite length_app in *.
  pose proof (derives_length _ _ _ _ Hd) as Hts.
  destruct passes as [|passes]; [lia|].
  destruct (rest ++ [c]) as [|f tl] eqn:Heq; [done|]. injection Hhead as ->.
  assert (tokens = pre ++ ts ++ following :: (tl ++ post)) as Htokens'.
  { rewrite Htokens, <- !app_assoc. do 2 f_equal.
    change (c :: post) with ([c] ++ post). by rewrite app_assoc, Heq. }
  apply (arguments_pass e es ts rest pre (tl ++ post) following);
    [done|done|done|done|lia|].
  intros v w1.
  rewrite (bind_Ret _ _ _ _ _ (current_at pre ts (tl ++ post) following w1 Htokens')).
  rewrite bool_decide_false by done.
  rewrite (bind_Ret (ret None) _ _ None _ eq_refl).
  assert (length (pre ++ ts) = length pre + length ts)%nat as Hlen by apply length_app.
  rewrite <- Hlen.
  apply (IHrest n (pre ++ ts) post w1 passes (args ++ [v]));
    [by rewrite Htokens, <- !app_assoc|lia..].
Qed.

Lemma meaning_call name es :
  meaning (Call name es) = andThen (meanings es) (invoke functions name).
Proof. done. Qed.

Lemma follows_call ident name opening ats closing c next es :
  Token.type ident = IDENTIFIER → Token.value ident = VString name →
  Token.type opening = PAREN_OPEN →
  follows_arguments ats c es →
  closes closing c next →
  follows atom (ident :: opening :: ats ++ closing) next (Call name es).
Proof.
  intros Hident Hname Hopen IH Hcloses n pre post w Htokens Hn.
  cbn [length] in Hn. rewrite length_app in Hn.
  destruct n as [|n]; [lia|].
  set (pre' := pre ++ [ident; opening]).
  assert (tokens = pre' ++ (ats ++ closing) ++ next :: post) as Htokens'
    by (by rewrite Htokens; unfold pre'; rewrite <- (app_assoc pre)).
  assert (length pre' = S (S (length pre))) as Hlen
    by (unfold pre'; rewrite length_app; cbn; lia).
  destruct (closing_read closing c next pre' ats post w Hcloses Htokens')
    as [[post' Hinner] _].
  unfold ExpressionEvaluator.parsePrimary.
  rewrite (bind_Ret _ _ _ _ _
             (current_first pre ((opening :: ats ++ closing) ++ next :: post) ident w
                ltac:(by rewrite Htokens))).
  rewrite Hident, Hname. rewrite (bind_Ret _ _ _ _ _ (consume_eq tokens _)).
  unfold consumed. cbn [currentTokenIndex host].
  assert (defined currentToken (mk (S (length pre)) w) = (Ret opening, mk (S (length pre)) w))
    as Hcurrent.
  { apply defined_currentToken. cbn [currentTokenIndex]. rewrite Htokens.
    rewrite <- Nat.add_1_r.
    apply (lookup_after pre [ident] ((ats ++ closing) ++ next :: post) opening). }
  rewrite (bind_Ret _ _ _ _ _ Hcurrent). rewrite bool_decide_true by done.
  unfold ExpressionEvaluator.parseFunctionCall.
  rewrite (bind_Ret _ _ _ _ _ (consume_eq tokens _)).
  unfold consumed. cbn [currentTokenIndex host]. rewrite <- Hlen.
  pose proof (same_reading _ _ _ _
                (IH n pre' post' w (S (S n)) [] Hinner ltac:(lia) ltac:(lia))) as Hcases.
  cbn [host currentTokenIndex] in Hcases.
  rewrite meaning_call. unfold reading, andThen in Hcases |- *.
  cbn [host currentTokenIndex length].
  destruct (meanings es w) as [[vs|err|g|ih] w1].
  - rewrite (bind_Ret _ _ _ _ _ Hcases). cbn [app].
    rewrite (bind_Ret _ _ _ _ _ (current_at pre' ats post' c w1 Hinner)).
    destruct (closing_read closing c next pre' ats post w1 Hcloses Htokens')
      as [_ Hclose].
    rewrite (bind_Ret _ _ _ _ _ Hclose).
    unfold invoke. destruct (functions !! name) as [f|].
    + unfold call. cbn [host currentTokenIndex].
      destruct (f vs w1) as [[v|message] w2]; apply same_at; rewrite Hlen, length_app; lia.
    + destruct (JS.inPrototype name); [apply same_Inherited|apply same_Throw].
  - destruct Hcases as [j Hcases]. rewrite (bind_Throw _ _ _ _ _ Hcases). apply same_Throw.
  - destruct Hcases as [j Hcases]. rewrite (bind_Gap _ _ _ _ _ Hcases). apply same_Gap.
  - destruct Hcases as [j Hcases]. rewrite (bind_Inherited _ _ _ _ _ Hcases).
    apply same_Inherited.
Qed.

(** *** The evaluator follows every derivation *)

Theorem derives_follows t ts next e : derives t ts next e → follows t ts next e.
Proof.
  revert t ts next e.
  apply (derives_mutual (λ t ts next e, follows t ts next e)
           (λ ats c es, follows_arguments ats c es)).
  - apply follows_literal.
  - apply follows_name.
  - intros. by eapply follows_group.
  - intros. by eapply follows_call.
  - apply follows_atom.
  - intros. by eapply follows_product.
  - apply follows_term.
  - intros. by eapply follows_sum.
  - intros. by eapply follows_operand_only.
  - intros. by eapply follows_comparison.
  - apply follows_plain.
  - intros. by eapply follows_not.
  - apply follows_conjunct.
  - intros. by eapply follows_and.
  - apply follows_disjunct.
  - intros. by eapply follows_or.
  - apply follows_arguments_end.
  - intros. by eapply follows_arguments_comma.
  - intros. by eapply follows_arguments_next.
Qed.

End GrammarFacts.

(** X16. The evaluator computes the meaning of every expression of the
    grammar: when the tokens before [last] derive a tree and [last] is
    not [or], the evaluation answers what the tree means (its value, or
    the first error that its operands, arguments and functions throw
    from left to right), leaves the host as the meaning does, and when
    it returns, the cursor is on [last]; the tokens after [last] are not
    read. The meaning of a name without an entry is [Undefined variable]
    or [Undefined function] only when [Object.prototype] does not define
    the name; otherwise the meaning, like the evaluation, is the
    inherited member found at that point, where the embedding stops. *)
Theorem evaluator_follows_the_grammar (W : Type) (tokens : list Token)
    (variables : Values) (functions : gmap string (Callable W))
    (ts : list Token) (last : Token) (post : list Token) (e : Grammar.expr) (w : W) :
  Grammar.derives Grammar.disjunction ts last e →
  tokenIs IDENTIFIER "or" last = false →
  tokens = ts ++ last :: post →
  (ExpressionEvaluator.run tokens variables functions w).1
  = (Grammar.eval variables functions e w).1
  ∧ ExpressionEvaluator.host (ExpressionEvaluator.run tokens variables functions w).2
    = (Grammar.eval variables functions e w).2
  ∧ ∀ v, (ExpressionEvaluator.run tokens variables functions w).1 = Ret v →
         ExpressionEvaluator.currentTokenIndex
           (ExpressionEvaluator.run tokens variables functions w).2 = length ts.
Proof.
  intros Hd Hlast Htokens.
  pose proof (follows_inner tokens variables functions e ts last [] post (length tokens) w
                (derives_follows tokens variables functions _ _ _ _ Hd) Htokens
                ltac:(rewrite Htokens, length_app; lia) Hlast) as (Ho & Hw & Hi).
  unfold Grammar.reading in Ho, Hw, Hi. cbn [ExpressionEvaluator.host] in Ho, Hw, Hi.
  change (ExpressionEvaluator.parseOr tokens variables functions (S (length tokens))
            (ExpressionEvaluator.mk (length (@nil Token)) w))
    with (ExpressionEvaluator.run tokens variables functions w) in Ho, Hw, Hi.
  destruct (Grammar.eval variables functions e w) as [o w'].
  cbn [fst snd ExpressionEvaluator.host ExpressionEvaluator.currentTokenIndex] in *.
  by repeat split.
Qed.

Lemma evaluator_follows_the_grammar_witness :
  (ExpressionEvaluator.run
     (tokens_not_a_or_f_1_2_eq_3 ++ [Token.mk EOF (VString EmptyString) 21])
     {[ "a" := VBoolean true ]} {[ "f" := recording (num 3) ]} []).1
  = (Grammar.eval {[ "a" := VBoolean true ]} {[ "f" := recording (num 3) ]}
       tree_not_a_or_f_1_2_eq_3 []).1
  ∧ ExpressionEvaluator.host
      (ExpressionEvaluator.run
         (tokens_not_a_or_f_1_2_eq_3 ++ [Token.mk EOF (VString EmptyString) 21])
         {[ "a" := VBoolean true ]} {[ "f" := recording (num 3) ]} []).2
    = (Grammar.eval {[ "a" := VBoolean true ]} {[ "f" := recording (num 3) ]}
         tree_not_a_or_f_1_2_eq_3 []).2
  ∧ ∀ v, (ExpressionEvaluator.run
            (tokens_not_a_or_f_1_2_eq_3 ++ [Token.mk EOF (VString EmptyString) 21])
            {[ "a" := VBoolean true ]} {[ "f" := recording (num 3) ]} []).1
         = Ret v →
         ExpressionEvaluator.currentTokenIndex
           (ExpressionEvaluator.run
              (tokens_not_a_or_f_1_2_eq_3 ++ [Token.mk EOF (VString EmptyString) 21])
              {[ "a" := VBoolean true ]} {[ "f" := recording (num 3) ]} []).2
         = length tokens_not_a_or_f_1_2_eq_3.
Proof.
  apply (evaluator_follows_the_grammar (list (list Value)) _
           {[ "a" := VBoolean true ]} {[ "f" := recording (num 3) ]}
           tokens_not_a_or_f_1_2_eq_3
           (Token.mk EOF (VString EmptyString) 21) [] tree_not_a_or_f_1_2_eq_3 []);
    [|reflexivity|reflexivity].
  (* not a *)
  apply (Grammar.derives_or
           [Token.mk IDENTIFIER (VString "not") 0; Token.mk IDENTIFIER (VString "a") 4]
           (Token.mk IDENTIFIER (VString "or") 6)
           [Token.mk IDENTIFIER (VString "f") 9; Token.mk PAREN_OPEN (VString "(") 10;
            Token.mk NUMBER (num 1) 11; Token.mk COMMA (VString ",") 12;
            Token.mk NUMBER (num 2) 14; Token.mk PAREN_CLOSE (VString ")") 15;
            Token.mk OPERATOR (VString "==") 17; Token.mk NUMBER (num 3) 20]);
    [|reflexivity| |reflexivity].
  - apply Grammar.derives_disjunct; [|reflexivity]. apply Grammar.derives_conjunct.
    apply Grammar.derives_not; [reflexivity|].
    apply Grammar.derives_plain; [|by intros ? [= <-]].
    apply Grammar.derives_operand; [|reflexivity..].
    apply Grammar.derives_term; [|reflexivity]. apply Grammar.derives_atom.
    by apply (Grammar.derives_name (Token.mk IDENTIFIER (VString "a") 4) "a").
  - (* f(1, 2) == 3 *)
    apply Grammar.derives_conjunct. apply Grammar.derives_plain; [|by intros ? [= <-]].
    apply (Grammar.derives_comparison
             [Token.mk IDENTIFIER (VString "f") 9; Token.mk PAREN_OPEN (VString "(") 10;
              Token.mk NUMBER (num 1) 11; Token.mk COMMA (VString ",") 12;
              Token.mk NUMBER (num 2) 14; Token.mk PAREN_CLOSE (VString ")") 15]
             (Token.mk OPERATOR (VString "==") 17)
             [Token.mk NUMBER (num 3) 20] _ "==");
      [|reflexivity| |reflexivity].
    + apply Grammar.derives_term; [|reflexivity]. apply Grammar.derives_atom.
      apply (Grammar.derives_call (Token.mk IDENTIFIER (VString "f") 9) "f"
               (Token.mk PAREN_OPEN (VString "(") 10)
               [Token.mk NUMBER (num 1) 11; Token.mk COMMA (VString ",") 12;
                Token.mk NUMBER (num 2) 14]
               [Token.mk PAREN_CLOSE (VString ")") 15]
               (Token.mk PAREN_CLOSE (VString ")") 15));
        [reflexivity..| |by left].
      apply (Grammar.arguments_comma [Token.mk NUMBER (num 1) 11]
               (Token.mk COMMA (VString ",") 12) [Token.mk NUMBER (num 2) 14]);
        [|reflexivity|].
      * apply Grammar.derives_disjunct; [|reflexivity]. apply Grammar.derives_conjunct.
        apply Grammar.derives_plain; [|by intros ? [= <-]].
        apply Grammar.derives_operand; [|reflexivity..].
        apply Grammar.derives_term; [|reflexivity]. apply Grammar.derives_atom.
        by apply (Grammar.derives_literal (Token.mk NUMBER (num 1) 11)).
      * apply (Grammar.arguments_next [Token.mk NUMBER (num 2) 14] []
                 (Token.mk PAREN_CLOSE (VString ")") 15)
                 (Token.mk PAREN_CLOSE (VString ")") 15));
          [|reflexivity|done|reflexivity|by constructor; left].
        apply Grammar.derives_disjunct; [|reflexivity]. apply Grammar.derives_conjunct.
        apply Grammar.derives_plain; [|by intros ? [= <-]].
        apply Grammar.derives_operand; [|reflexivity..].
        apply Grammar.derives_term; [|reflexivity]. apply Grammar.derives_atom.
        by apply (Grammar.derives_literal (Token.mk NUMBER (num 2) 14)).
    + apply Grammar.derives_term; [|reflexivity]. apply Grammar.derives_atom.
      by apply (Grammar.derives_literal (Token.mk NUMBER (num 3) 20)).
Defined.

(** ** What the evaluator accepts *)

Section AcceptanceFacts.

Import ExpressionEvaluator Grammar Acceptance.

Context {W : Type}.
Variable tokens : list Token.
Variable variables : Values.
Variable functions : gmap string (Callable W).

Local Abbreviation state := (@state W).
Local Abbreviation currentToken := (currentToken (W := W) tokens).
Local Abbreviation consume := (consume (W := W) tokens).
Local Abbreviation leftAssoc := (leftAssoc (W := W) tokens).
Local Abbreviation parseOr := (parseOr tokens variables functions).
Local Abbreviation parsePrimary n := (parsePrimary tokens variables functions (S n) (parseOr n)).
Local Abbreviation parseArguments n := (parseArguments tokens (parseOr n)).
Local Abbreviation parseFunctionCall n :=
  (parseFunctionCall tokens functions (S n) (parseOr n)).
Local Abbreviation parseMultiplicative n :=
  (parseMultiplicative tokens variables functions (S n) (parseOr n)).
Local Abbreviation parseAdditive n :=
  (parseAdditive tokens variables functions (S n) (parseOr n)).
Local Abbreviation parseComparison n :=
  (parseComparison tokens variables functions (S n) (parseOr n)).
Local Abbreviation parseNot n := (parseNot tokens variables functions (S n) (parseOr n)).
Local Abbreviation parseAnd n := (parseAnd tokens variables functions (S n) (parseOr n)).
Local Abbreviation span := (span tokens).
Local Abbreviation accepts t p := (accepts (W := W) tokens t p).

(** *** The tokens between two cursors *)

Lemma span_nil i : span i i = [].
Proof. unfold Acceptance.span. by rewrite Nat.sub_diag, take_0. Qed.

Lemma span_app i j l :
  (i ≤ j ≤ l)%nat → span i l = span i j ++ span j l.
Proof.
  intros [Hij Hjl]. unfold Acceptance.span.
  replace (drop j tokens) with (drop (j - i) (drop i tokens))
    by (rewrite drop_drop; f_equal; lia).
  rewrite take_take_drop. f_equal. lia.
Qed.

Lemma span_one i tok : tokens !! i = Some tok → span i (S i) = [tok].
Proof.
  intros H. unfold Acceptance.span. replace (S i - i)%nat with 1%nat by lia.
  rewrite (drop_S _ _ _ H). cbn. by rewrite take_0.
Qed.

Lemma span_cons i j tok :
  tokens !! i = Some tok → (i < j)%nat → span i j = tok :: span (S i) j.
Proof.
  intros H Hij. rewrite (span_app i (S i) j) by lia. by rewrite (span_one i tok H).
Qed.

Lemma span_snoc i j tok :
  (i ≤ j)%nat → tokens !! j = Some tok → span i (S j) = span i j ++ [tok].
Proof.
  intros Hij H. rewrite (span_app i j (S j)) by lia. by rewrite (span_one j tok H).
Qed.

Lemma span_head i j c :
  (i ≤ j)%nat → tokens !! j = Some c → head (span i j ++ [c]) = tokens !! i.
Proof.
  intros Hij Hc. destruct (decide (i = j)) as [->|Hne].
  - by rewrite span_nil, Hc.
  - destruct (lookup_lt_is_Some_2 tokens i) as [tok Htok].
    { apply lookup_lt_Some in Hc. lia. }
    rewrite (span_cons i j tok Htok) by lia. by rewrite Htok.
Qed.

(** *** What a step that returns has done *)

Lemma bind_Ret_inv {A B} (m : @M W A) (k : A → @M W B) st b st' :
  bind m k st = (Ret b, st') → ∃ a st1, m st = (Ret a, st1) ∧ k a st1 = (Ret b, st').
Proof. unfold bind. destruct (m st) as [[a|e|g|i] st1]; [by eauto|done..]. Qed.

Lemma multiplicativeOp_defined tok :
  isMultiplicative tok = true → ∃ op, multiplicativeOp tok = Some op.
Proof.
  unfold isMultiplicative, multiplicativeOp. case_bool_decide; [|done]. cbn [andb].
  destruct (spelled "*" tok); [by eauto|]. destruct (spelled "/" tok); [by eauto|].
  destruct (spelled "%" tok); [by eauto|done].
Qed.

Lemma additiveOp_defined tok :
  isAdditive tok = true → ∃ op, additiveOp tok = Some op.
Proof.
  unfold isAdditive, additiveOp, tokenIs. case_bool_decide; [|done]. cbn [andb].
  destruct (spelled "+" tok); [by eauto|]. destruct (spelled "-" tok); [by eauto|done].
Qed.

(** *** The levels with a loop *)

Lemma leftAssoc_accepts continues combine operand (tl to : tier) :
  accepts to operand →
  (∀ ts1 tok ts2 next l r,
     derives tl ts1 tok l → continues tok = true → derives to ts2 next r → stops to next →
     derives tl (ts1 ++ tok :: ts2) next (grown tl tok l r)) →
  (∀ next, continues next = false → stops tl next) →
  ∀ fuel left st v st' i l,
    (i ≤ currentTokenIndex st)%nat →
    (∀ tok, tokens !! currentTokenIndex st = Some tok →
            derives tl (span i (currentTokenIndex st)) tok l) →
    leftAssoc continues combine operand fuel left st = (Ret v, st') →
    (currentTokenIndex st ≤ currentTokenIndex st')%nat
    ∧ is_Some (tokens !! currentTokenIndex st')
    ∧ ∃ e, ∀ next, tokens !! currentTokenIndex st' = Some next →
        derives tl (span i (currentTokenIndex st')) next e ∧ stops tl next.
Proof.
  intros Hop Hstep Hstop.
  induction fuel as [|fuel IH]; intros left st v st' i l Hi Hl; [done|].
  destruct (tokens !! currentTokenIndex st) as [tok|] eqn:Htok.
  2:{ cbn [ExpressionEvaluator.leftAssoc].
      by rewrite (bind_Throw _ _ _ _ _ (defined_currentToken_None tokens _ Htok)). }
  destruct (continues tok) eqn:Hc.
  - rewrite (leftAssoc_step tokens _ _ _ _ _ _ _ Htok Hc).
    intros (r & st1 & H1 & H2)%bind_Ret_inv.
    destruct (Hop _ _ _ H1) as (Hlt & e & He). cbn in Hlt.
    assert (∀ next, tokens !! currentTokenIndex st1 = Some next →
              derives tl (span i (currentTokenIndex st1)) next (grown tl tok l e)) as Hl'.
    { intros next Hnext. destruct (He next Hnext) as [Hd Hs].
      rewrite (span_app i (currentTokenIndex st) (currentTokenIndex st1)) by lia.
      rewrite (span_cons (currentTokenIndex st) _ tok Htok) by lia.
      apply Hstep; [by apply Hl|done|done|done]. }
    destruct (IH _ st1 _ _ i _ ltac:(lia) Hl' H2) as (Hle & Hsome & e' & He').
    split; [lia|]. split; [done|]. by exists e'.
  - rewrite (leftAssoc_stop tokens _ _ _ _ _ _ _ Htok Hc). intros [= <- <-].
    split; [done|]. split; [by eexists|]. exists l. intros next Hnext.
    split; [apply Hl; congruence|]. apply Hstop. congruence.
Qed.

Lemma level_accepts continues combine operand fuel (tl to : tier) :
  accepts to operand →
  (∀ ts next e, derives to ts next e → stops to next → derives tl ts next e) →
  (∀ ts1 tok ts2 next l r,
     derives tl ts1 tok l → continues tok = true → derives to ts2 next r → stops to next →
     derives tl (ts1 ++ tok :: ts2) next (grown tl tok l r)) →
  (∀ next, continues next = false → stops tl next) →
  ∀ st v st',
    bind operand (leftAssoc continues combine operand fuel) st = (Ret v, st') →
    (currentTokenIndex st < currentTokenIndex st')%nat
    ∧ is_Some (tokens !! currentTokenIndex st')
    ∧ ∃ e, ∀ next, tokens !! currentTokenIndex st' = Some next →
        derives tl (span (currentTokenIndex st) (currentTokenIndex st')) next e
        ∧ stops tl next.
Proof.
  intros Hop Hlift Hstep Hstop st v st' (left & st1 & H1 & H2)%bind_Ret_inv.
  destruct (Hop _ _ _ H1) as (Hlt & e & He).
  assert (∀ tok, tokens !! currentTokenIndex st1 = Some tok →
            derives tl (span (currentTokenIndex st) (currentTokenIndex st1)) tok e) as Hl.
  { intros tok Htok. destruct (He tok Htok). by apply Hlift. }
  destruct (leftAssoc_accepts _ _ _ tl to Hop Hstep Hstop _ _ st1 _ _
              (currentTokenIndex st) e ltac:(lia) Hl H2) as (Hle & Hsome & e' & He').
  split; [lia|]. split; [done|]. by exists e'.
Qed.

Lemma parseMultiplicative_accepts n :
  accepts atom (parsePrimary n) → accepts product (parseMultiplicative n).
Proof.
  intros Hop st v st' H.
  destruct (level_accepts isMultiplicative multiplicative (parsePrimary n) (S n)
              product atom Hop) with (st := st) (v := v) (st' := st')
    as (Hlt & _ & He); [| | |done|by split].
  - intros ts next e Hd _. by apply derives_atom.
  - intros ts1 tok ts2 next l r Hl Hc Hr _.
    destruct (multiplicativeOp_defined tok Hc) as [op Hop']. cbn [grown]. rewrite Hop'.
    by apply derives_product.
  - by intros next Hc.
Qed.

Lemma parseAdditive_accepts n :
  accepts product (parseMultiplicative n) → accepts sum (parseAdditive n).
Proof.
  intros Hop st v st' H.
  destruct (level_accepts isAdditive additive (parseMultiplicative n) (S n)
              sum product Hop) with (st := st) (v := v) (st' := st')
    as (Hlt & _ & He); [| | |done|by split].
  - intros ts next e Hd Hs. by apply derives_term.
  - intros ts1 tok ts2 next l r Hl Hc Hr Hs.
    destruct (additiveOp_defined tok Hc) as [op Hop']. cbn [grown]. rewrite Hop'.
    by apply derives_sum.
  - by intros next Hc.
Qed.

Lemma parseAnd_accepts n :
  accepts negation (parseNot n (S n)) → accepts conjunction (parseAnd n).
Proof.
  intros Hop st v st' H.
  destruct (level_accepts (tokenIs IDENTIFIER "and") logicalAnd (parseNot n (S n)) (S n)
              conjunction negation Hop) with (st := st) (v := v) (st' := st')
    as (Hlt & _ & He); [| | |done|by split].
  - intros ts next e Hd _. by apply derives_conjunct.
  - intros ts1 tok ts2 next l r Hl Hc Hr _. by apply derives_and.
  - by intros next Hc.
Qed.

Lemma parseOr_body_returns n st v st' :
  accepts conjunction (parseAnd n) →
  parseOr (S n) st = (Ret v, st') →
  (currentTokenIndex st < currentTokenIndex st')%nat
  ∧ is_Some (tokens !! currentTokenIndex st')
  ∧ ∃ e, ∀ next, tokens !! currentTokenIndex st' = Some next →
      derives disjunction (span (currentTokenIndex st) (currentTokenIndex st')) next e
      ∧ stops disjunction next.
Proof.
  intros Hop H.
  apply (level_accepts (tokenIs IDENTIFIER "or") logicalOr (parseAnd n) (S n)
           disjunction conjunction Hop) with (v := v); [| | |done].
  - intros ts next e Hd Hs. by apply derives_disjunct.
  - intros ts1 tok ts2 next l r Hl Hc Hr Hs. by apply derives_or.
  - by intros next Hc.
Qed.

(** *** The levels without a loop *)

Lemma comparisonOp_None left (token : Token) (k : string → @M W Value) st :
  comparisonOp token = None →
  match Token.type token, Token.value token with
  | OPERATOR, VString op => if isComparisonOperator op then k op else ret left
  | _, _ => ret left
  end st = (Ret left, st).
Proof.
  unfold comparisonOp. destruct (Token.type token); try done.
  destruct (Token.value token) as [|op| | |]; try done.
  by destruct (isComparisonOperator op).
Qed.

Lemma parseComparison_accepts n :
  accepts sum (parseAdditive n) → accepts comparison (parseComparison n).
Proof.
  intros Hsum st v st'. unfold ExpressionEvaluator.parseComparison.
  intros (left & st1 & H1 & H2)%bind_Ret_inv.
  apply bind_Ret_inv in H2 as (token & st0 & Htok & H2).
  apply (defined_inv tokens _ _ _ _ eq_refl) in Htok as [-> Htok].
  destruct (Hsum _ _ _ H1) as (Hlt & l & Hl). destruct (Hl token Htok) as [Hdl Hsl].
  destruct (comparisonOp token) as [op|] eqn:Hop.
  - destruct (comparisonOp_spec _ _ Hop) as (Hty & Hval & Hcmp).
    rewrite Hty, Hval, Hcmp in H2.
    apply bind_Ret_inv in H2 as (o & st2 & Hc & H2).
    rewrite (consume_eq tokens) in Hc. injection Hc as _ <-.
    apply bind_Ret_inv in H2 as (right & st3 & H3 & H4).
    unfold lift in H4. injection H4 as _ <-.
    destruct (Hsum _ _ _ H3) as (Hlt2 & r & Hr). cbn in Hlt2.
    split; [lia|]. exists (Binary (Comparing op) l r). intros next Hnext.
    destruct (Hr next Hnext) as [Hdr Hsr]. split; [|done].
    rewrite (span_app _ (currentTokenIndex st1) (currentTokenIndex st3)) by lia.
    rewrite (span_cons (currentTokenIndex st1) _ token Htok) by lia.
    by apply derives_comparison.
  - rewrite (comparisonOp_None _ _ _ _ Hop) in H2. injection H2 as _ <-.
    split; [done|]. exists l. intros next Hnext.
    assert (next = token) as -> by congruence.
    split; [|done]. by apply derives_operand.
Qed.

Lemma parseNot_accepts n depth :
  accepts comparison (parseComparison n) → accepts negation (parseNot n depth).
Proof.
  intros Hcmp. induction depth as [|depth IH]; intros st v st'; [done|].
  cbn [ExpressionEvaluator.parseNot].
  intros (token & st0 & Htok & H)%bind_Ret_inv.
  apply (defined_inv tokens _ _ _ _ eq_refl) in Htok as [-> Htok].
  destruct (tokenIs IDENTIFIER "not" token) eqn:Hnot.
  - apply bind_Ret_inv in H as (o & st1 & Hc & H).
    rewrite (consume_eq tokens) in Hc. injection Hc as _ <-.
    apply bind_Ret_inv in H as (operand & st2 & H2 & H). injection H as _ <-.
    destruct (IH _ _ _ H2) as (Hlt & e & He). cbn in Hlt.
    split; [lia|]. exists (Negated e). intros next Hnext.
    destruct (He next Hnext) as [Hd _]. split; [|done].
    rewrite (span_cons (currentTokenIndex st) _ token Htok) by lia.
    by apply derives_not.
  - destruct (Hcmp _ _ _ H) as (Hlt & e & He).
    split; [done|]. exists e. intros next Hnext.
    destruct (He next Hnext) as [Hd _]. split; [|done].
    apply derives_plain; [done|].
    rewrite (span_cons (currentTokenIndex st) _ token Htok) by lia.
    by intros first [= <-].
Qed.

(** *** Arguments, calls and atoms *)

Lemma closing_inv (c : Token) st o st' :
  tokens !! currentTokenIndex st = Some c →
  (if bool_decide (Token.type c = PAREN_CLOSE) then consume else ret None) st = (Ret o, st') →
  host st' = host st
  ∧ ∃ closing,
      currentTokenIndex st' = (currentTokenIndex st + length closing)%nat
      ∧ span (currentTokenIndex st) (currentTokenIndex st') = closing
      ∧ ∀ next, tokens !! currentTokenIndex st' = Some next → closes closing c next.
Proof.
  intros Hc. case_bool_decide as Hty.
  - rewrite (consume_eq tokens). intros [= _ <-]. split; [done|]. exists [c]. cbn.
    split; [lia|]. split; [by apply span_one|]. intros next _. by left.
  - intros [= _ <-]. split; [done|]. exists []. cbn.
    split; [lia|]. split; [by apply span_nil|]. intros next Hnext. right.
    split; [done|]. split; [congruence|done].
Qed.

Lemma parseArguments_accepts n passes :
  accepts disjunction (parseOr n) →
  ∀ args st vs st',
    parseArguments n passes args st = (Ret vs, st') →
    (currentTokenIndex st ≤ currentTokenIndex st')%nat
    ∧ ∃ c es, tokens !! currentTokenIndex st' = Some c
        ∧ derives_arguments (span (currentTokenIndex st) (currentTokenIndex st')) c es.
Proof.
  intros Hor. induction passes as [|passes IH]; intros args st vs st'; [done|].
  cbn [ExpressionEvaluator.parseArguments].
  intros (token & st0 & Htok & H)%bind_Ret_inv.
  apply (defined_inv tokens _ _ _ _ eq_refl) in Htok as [-> Htok].
  destruct (negb (bool_decide (Token.type token = PAREN_CLOSE))
            && negb (bool_decide (Token.type token = EOF))) eqn:Hgo.
  - apply bind_Ret_inv in H as (arg & st1 & H1 & H).
    apply bind_Ret_inv in H as (following & st0 & Hfol & H).
    apply (defined_inv tokens _ _ _ _ eq_refl) in Hfol as [-> Hfol].
    apply bind_Ret_inv in H as (o & st2 & Hcomma & H).
    destruct (Hor _ _ _ H1) as (Hlt & e & He).
    destruct (He following Hfol) as [Hd Hs]. cbn in Hs.
    destruct (IH _ _ _ _ H) as (Hle & c & es & Hc & Hes).
    case_bool_decide as Hty.
    + rewrite (consume_eq tokens) in Hcomma. injection Hcomma as _ <-. cbn in Hle, Hes.
      split; [lia|]. exists c, (e :: es). split; [done|].
      rewrite (span_app _ (currentTokenIndex st1) (currentTokenIndex st')) by lia.
      rewrite (span_cons (currentTokenIndex st1) _ following Hfol) by lia.
      by apply arguments_comma.
    + injection Hcomma as _ <-.
      split; [lia|]. exists c, (e :: es). split; [done|].
      rewrite (span_app _ (currentTokenIndex st1) (currentTokenIndex st')) by lia.
      apply (arguments_next _ _ _ following); [done|done|done| |done].
      by rewrite (span_head _ _ c Hle Hc).
  - injection H as _ <-. split; [done|]. exists token, []. split; [done|].
    rewrite span_nil. apply arguments_end.
    apply andb_false_iff in Hgo as [Hgo|Hgo]; apply negb_false_iff, bool_decide_eq_true in Hgo;
      [by left|by right].
Qed.

Lemma call_inv (f : Callable W) args st v st' :
  call f args st = (Ret v, st') → currentTokenIndex st' = currentTokenIndex st.
Proof. unfold call. destruct (f args (host st)) as [[x|message] w]; by intros [= _ <-]. Qed.

Lemma parseFunctionCall_accepts n name st v st' ident opening :
  accepts disjunction (parseOr n) →
  tokens !! currentTokenIndex st = Some opening →
  Token.type opening = PAREN_OPEN →
  Token.type ident = IDENTIFIER → Token.value ident = VString name →
  parseFunctionCall n name st = (Ret v, st') →
  (currentTokenIndex st < currentTokenIndex st')%nat
  ∧ ∃ e, ∀ next, tokens !! currentTokenIndex st' = Some next →
      derives atom (ident :: span (currentTokenIndex st) (currentTokenIndex st')) next e.
Proof.
  intros Hor Hopen Hty Hid Hname. unfold ExpressionEvaluator.parseFunctionCall.
  intros (o & st1 & Hc & H)%bind_Ret_inv.
  rewrite (consume_eq tokens) in Hc. injection Hc as _ <-.
  apply bind_Ret_inv in H as (args & st2 & Hargs & H).
  apply bind_Ret_inv in H as (c & st0 & Hc & H).
  apply (defined_inv tokens _ _ _ _ eq_refl) in Hc as [-> Hc].
  apply bind_Ret_inv in H as (o' & st3 & Hclose & H).
  destruct (parseArguments_accepts n _ Hor _ _ _ _ Hargs) as (Hle & c' & es & Hc' & Hes).
  assert (c' = c) as -> by congruence. cbn in Hle, Hes.
  destruct (closing_inv c _ _ _ Hc Hclose) as (_ & closing & Hidx & Hspan & Hcloses).
  destruct (functions !! name) as [f|]; [|by destruct (JS.inPrototype name)].
  apply call_inv in H. rewrite H.
  split; [lia|]. exists (Call name es). intros next Hnext.
  rewrite (span_cons (currentTokenIndex st) _ opening Hopen) by lia.
  rewrite (span_app _ (currentTokenIndex st2) (currentTokenIndex st3)) by lia.
  rewrite Hspan.
  apply (derives_call _ _ _ _ _ c); try done. by apply Hcloses.
Qed.

Lemma parsePrimary_accepts n :
  accepts disjunction (parseOr n) → accepts atom (parsePrimary n).
Proof.
  intros Hor st v st'. unfold ExpressionEvaluator.parsePrimary.
  intros (token & st0 & Htok & H)%bind_Ret_inv.
  apply (defined_inv tokens _ _ _ _ eq_refl) in Htok as [-> Htok].
  assert (isLiteral token = true →
          bind consume (λ _, ret (Token.value token)) st = (Ret v, st') →
          (currentTokenIndex st < currentTokenIndex st')%nat
          ∧ ∃ e, ∀ next, tokens !! currentTokenIndex st' = Some next →
              derives atom (span (currentTokenIndex st) (currentTokenIndex st')) next e
              ∧ stops atom next) as Hliteral.
  { intros Hlit (o & st1 & Hc & H')%bind_Ret_inv.
    rewrite (consume_eq tokens) in Hc. injection Hc as _ <-. injection H' as _ <-.
    unfold consumed. cbn [currentTokenIndex]. split; [lia|]. exists (Literal (Token.value token)). intros next _.
    rewrite (span_one _ _ Htok). split; [|done]. by apply derives_literal. }
  destruct (Token.type token) eqn:Hty; try done;
    try (apply Hliteral; [by unfold isLiteral; rewrite Hty|done]).
  - (* a name *)
    destruct (Token.value token) as [|name| | |] eqn:Hval; try done.
    apply bind_Ret_inv in H as (o & st1 & Hc & H).
    rewrite (consume_eq tokens) in Hc. injection Hc as _ <-.
    apply bind_Ret_inv in H as (following & st0 & Hfol & H).
    apply (defined_inv tokens _ _ _ _ eq_refl) in Hfol as [-> Hfol].
    case_bool_decide as Hopen.
    + destruct (parseFunctionCall_accepts n name _ _ _ token following Hor Hfol Hopen Hty Hval H)
        as (Hlt & e & He). cbn in Hlt, He.
      split; [lia|]. exists e. intros next Hnext. split; [|done].
      rewrite (span_cons _ _ token Htok) by lia. by apply He.
    + destruct (variables !! name) as [x|]; [|by destruct (JS.inPrototype name)].
      injection H as _ <-.
      unfold consumed in *. cbn [currentTokenIndex] in *. split; [lia|]. exists (Name name). intros next Hnext.
      rewrite (span_one _ _ Htok). split; [|done].
      apply derives_name; [done|done|]. cbn in Hnext. congruence.
  - (* a parenthesis *)
    apply bind_Ret_inv in H as (o & st1 & Hc & H).
    rewrite (consume_eq tokens) in Hc. injection Hc as _ <-.
    apply bind_Ret_inv in H as (value & st2 & H2 & H).
    apply bind_Ret_inv in H as (c & st0 & Hc & H).
    apply (defined_inv tokens _ _ _ _ eq_refl) in Hc as [-> Hc].
    apply bind_Ret_inv in H as (o' & st3 & Hclose & H). injection H as _ <-.
    destruct (Hor _ _ _ H2) as (Hlt & e & He). cbn in Hlt, He.
    destruct (He c Hc) as [Hd Hs].
    destruct (closing_inv c _ _ _ Hc Hclose) as (_ & closing & Hidx & Hspan & Hcloses).
    split; [lia|]. exists e. intros next Hnext. split; [|done].
    rewrite (span_cons _ _ token Htok) by lia.
    rewrite (span_app _ (currentTokenIndex st2) (currentTokenIndex st3)) by lia.
    rewrite Hspan.
    apply (derives_group _ _ _ c); [done|done|done|by apply Hcloses].
Qed.

(** *** Every level *)

Lemma parseOr_returns n st v st' :
  parseOr n st = (Ret v, st') →
  (currentTokenIndex st < currentTokenIndex st')%nat
  ∧ is_Some (tokens !! currentTokenIndex st')
  ∧ ∃ e, ∀ next, tokens !! currentTokenIndex st' = Some next →
      derives disjunction (span (currentTokenIndex st) (currentTokenIndex st')) next e
      ∧ stops disjunction next.
Proof.
  revert st v st'. induction n as [|n IH]; intros st v st'; [done|].
  apply parseOr_body_returns.
  apply parseAnd_accepts, parseNot_accepts, parseComparison_accepts, parseAdditive_accepts,
    parseMultiplicative_accepts, parsePrimary_accepts.
  intros st1 v1 st1' H1. destruct (IH _ _ _ H1) as (Hlt & _ & He). by split.
Qed.

End AcceptanceFacts.

(** X19. Within the embedding, an evaluation returns a value only on an
    expression of the grammar: when the evaluator returns without having
    found a member of [Object.prototype] under a name without an entry,
    the tokens it has read derive a tree, the cursor is on the token
    after them, which is not [or], and the value and the host are what
    the tree means. Whatever follows that token has not been read. *)
Theorem returned_value_has_a_derivation (W : Type) (tokens : list Token)
    (variables : Values) (functions : gmap string (Callable W)) (w : W)
    (v : Value) (st : ExpressionEvaluator.state) :
  ExpressionEvaluator.run tokens variables functions w = (Ret v, st) →
  ∃ ts last post e,
    tokens = ts ++ last :: post
    ∧ ExpressionEvaluator.currentTokenIndex st = length ts
    ∧ Grammar.derives Grammar.disjunction ts last e
    ∧ tokenIs IDENTIFIER "or" last = false
    ∧ Grammar.eval variables functions e w = (Ret v, ExpressionEvaluator.host st).
Proof.
  intros Hrun.
  destruct (parseOr_returns tokens variables functions _ _ _ _ Hrun)
    as (_ & [last Hlast] & e & He).
  destruct (He last Hlast) as [Hd Hstop]. cbn in Hd, Hstop.
  unfold Acceptance.span in Hd. rewrite Nat.sub_0_r, drop_0 in Hd.
  set (i := ExpressionEvaluator.currentTokenIndex st) in *.
  assert (length (take i tokens) = i) as Hlen.
  { apply length_take_le. apply lookup_lt_Some in Hlast. lia. }
  assert (tokens = take i tokens ++ last :: drop (S i) tokens) as Htokens.
  { by rewrite take_drop_middle. }
  exists (take i tokens), last, (drop (S i) tokens), e.
  do 4 (split; [done|]).
  pose proof (follows_inner tokens variables functions e (take i tokens) last []
                (drop (S i) tokens) (length tokens) w
                (derives_follows tokens variables functions _ _ _ _ Hd) Htokens
                ltac:(rewrite length_take; lia) Hstop) as (Ho & Hw & _).
  change (ExpressionEvaluator.parseOr tokens variables functions (S (length tokens))
            (ExpressionEvaluator.mk (length (@nil Token)) w))
    with (ExpressionEvaluator.run tokens variables functions w) in Ho, Hw.
  rewrite Hrun in Ho, Hw. unfold Grammar.reading in Ho, Hw.
  cbn [ExpressionEvaluator.host] in Ho, Hw.
  destruct (Grammar.eval variables functions e w) as [o w'].
  cbn [fst snd ExpressionEvaluator.host] in Ho, Hw. congruence.
Qed.

Lemma returned_value_has_a_derivation_witness :
  ∃ ts last post e,
    tokens_1_lt_2_lt_3 = ts ++ last :: post
    ∧ 3%nat = length ts
    ∧ Grammar.derives Grammar.disjunction ts last e
    ∧ tokenIs IDENTIFIER "or" last = false
    ∧ Grammar.eval (W := unit) ∅ ∅ e tt = (Ret (VBoolean true), tt).
Proof.
  apply (returned_value_has_a_derivation unit tokens_1_lt_2_lt_3 ∅ ∅ tt (VBoolean true)
           (ExpressionEvaluator.mk 3 tt)).
  reflexivity.
Defined.

(** X17. The two coercions of the evaluator. As a condition, a number
    counts as false exactly when it is zero of either sign, so NaN
    counts as true. As a number, a value is NaN only when it is the
    number NaN itself: a string that does not start with a number, the
    Booleans and the missing values all have a number that is not NaN. *)
Theorem coercions_of_numbers :
  (∀ n, toBool (VNumber n) = false ↔ ∃ sign, n = S754_zero sign)
  ∧ toBool (VNumber JS.NaN) = true
  ∧ (∀ v, JS.isNaN (toNumber v) = true → ∃ n, v = VNumber n ∧ JS.isNaN n = true).
Proof.
  split; [|split; [|intros v]].
  - intros n. unfold toBool, JS.eqb, JS.zero, SFeqb. split.
    + destruct n as [s|s| |s m e]; cbn; try done; [by eexists|by destruct s..].
    + by intros [sign ->].
  - done.
  - destruct v as [n|s|[|]| |]; unfold toNumber; try done; [by exists n|].
    destruct (JS.isNaN (JS.parseFloat s)) eqn:E; [done|]. by rewrite E.
Qed.
